(** * DysmalPy mass models, geometry and parameter bookkeeping

    A shallow embedding of the parametric mass-model engine of DysmalPy:

    - [Geometry]   : src/dysmalpy/models/geometry.py
    - [ModelSet]   : src/dysmalpy/models.py (class ModelSet)
    - [Halos]      : src/dysmalpy/models/halos.py and the mass profiles of
                     src/dysmalpy/models.py

    Python floats are binary64 numbers.  The analytic parts are stated over
    the real numbers (rounding is not modelled); where numpy produces an
    infinity or a NaN the value lives in the extended type [fl]. *)

From Stdlib Require Import Reals Lra Lia List String Bool ZArith QArith Psatz.
Import ListNotations.

(** ** Python exceptions and results *)

Module Py.

(** The exception classes the embedded code raises. *)
Inductive exn : Type :=
| AttributeError
| ValueError (msg : string)
| KeyError (msg : string)
| TypeError (msg : string)
| IndexError
| UnboundLocalError
| NotImplementedError (msg : string).

(** The outcome of a call: a returned value or a raised exception. *)
Inductive result (A : Type) : Type :=
| Ok (a : A)
| Raise (e : exn).

Arguments Ok {A} a.
Arguments Raise {A} e.

Definition bind {A B : Type} (m : result A) (k : A -> result B) : result B :=
  match m with
  | Ok a => k a
  | Raise e => Raise e
  end.

(** [try: m except: h] of Python with a bare [except]. *)
Definition try_except {A : Type} (m : result A) (h : result A) : result A :=
  match m with
  | Ok a => Ok a
  | Raise _ => h
  end.

Definition returns {A : Type} (m : result A) : Prop :=
  exists a, m = Ok a.

Definition raises {A : Type} (m : result A) (e : exn) : Prop :=
  m = Raise e.

End Py.

Import Py.

Declare Scope result_scope.
Delimit Scope result_scope with result.
Notation "x <- m ;; k" := (Py.bind m (fun x => k))
  (at level 61, m at next level, right associativity) : result_scope.
Open Scope result_scope.

(** ** Geometry: sky frame <-> galaxy frame *)

Module Geometry.

Open Scope R_scope.

(** The parameters declared in the class body of [Geometry]. *)
Record geometry : Type := mkGeometry {
  inc : R;
  pa : R;
  xshift : R;
  yshift : R;
  vel_shift : R
}.

(** What an attribute of a [Geometry] instance can hold. *)
Inductive attr : Type :=
| AParam (v : R)
| AStr (s : string)
| ANames (l : list string)
| AMethod (name : string).

(** The methods defined in the class body. *)
Definition methods : list string :=
  ["evaluate"; "coord_transform"; "inverse_coord_transform";
   "transform_cube_affine"; "zsky_direction_emitframe";
   "project_velocity_along_LOS"]%string.

(** [self.<name>]: the five parameters, [_type], [outputs] and the methods
    are the names the class declares; any other name is an AttributeError. *)
Definition getattr (self : geometry) (name : string) : result attr :=
  if (name =? "inc")%string then Ok (AParam (inc self))
  else if (name =? "pa")%string then Ok (AParam (pa self))
  else if (name =? "xshift")%string then Ok (AParam (xshift self))
  else if (name =? "yshift")%string then Ok (AParam (yshift self))
  else if (name =? "vel_shift")%string then Ok (AParam (vel_shift self))
  else if (name =? "_type")%string then Ok (AStr "geometry")
  else if (name =? "outputs")%string then Ok (ANames ["xp"; "yp"; "zp"]%string)
  else if existsb (String.eqb name) methods then Ok (AMethod name)
  else Raise AttributeError.

(** A parameter read: the attribute must be a number. *)
Definition getparam (self : geometry) (name : string) : result R :=
  a <- getattr self name ;;
  match a with
  | AParam v => Ok v
  | _ => Raise (TypeError "a number is required")
  end.

(** [Geometry.evaluate] (a static method): sky -> galaxy. *)
Definition evaluate (x y z inc pa xshift yshift vel_shift : R) : R * R * R :=
  let inc := PI / 180 * inc in
  let pa := PI / 180 * (pa - 90) in
  let xsky := x - xshift in
  let ysky := y - yshift in
  let zsky := z in
  let xtmp := xsky * cos pa + ysky * sin pa in
  let ytmp := - xsky * sin pa + ysky * cos pa in
  let ztmp := zsky in
  let xgal := xtmp in
  let ygal := ytmp * cos inc - ztmp * sin inc in
  let zgal := ytmp * sin inc + ztmp * cos inc in
  (xgal, ygal, zgal).

(** [if arg is None: arg = self.<name>]. *)
Definition default (self : geometry) (name : string) (arg : option R) : result R :=
  match arg with
  | Some v => Ok v
  | None => getparam self name
  end.

(** [Geometry.coord_transform]: the defaults are filled in, then the
    arguments of [self.evaluate(...)] are evaluated, the last of which is
    the attribute read [self.vel_shit]. *)
Definition coord_transform (self : geometry) (x y z : R)
    (inc pa xshift yshift : option R) : result (R * R * R) :=
  inc <- default self "inc" inc ;;
  pa <- default self "pa" pa ;;
  xshift <- default self "xshift" xshift ;;
  yshift <- default self "yshift" yshift ;;
  _ <- getattr self "evaluate" ;;
  vs <- getparam self "vel_shit" ;;
  Ok (evaluate x y z inc pa xshift yshift vs).

(** [Geometry.inverse_coord_transform]: galaxy -> sky. *)
Definition inverse_coord_transform (self : geometry) (xgal ygal zgal : R)
    (inc pa xshift yshift : option R) : result (R * R * R) :=
  inc <- default self "inc" inc ;;
  pa <- default self "pa" pa ;;
  xshift <- default self "xshift" xshift ;;
  yshift <- default self "yshift" yshift ;;
  let inc := PI / 180 * inc in
  let pa := PI / 180 * (pa - 90) in
  let xtmp := xgal in
  let ytmp := ygal * cos inc + zgal * sin inc in
  let ztmp := - ygal * sin inc + zgal * cos inc in
  let xsky := xtmp * cos pa - ytmp * sin pa + xshift in
  let ysky := xtmp * sin pa + ytmp * cos pa + yshift in
  let zsky := ztmp in
  Ok (xsky, ysky, zsky).

(** [Geometry.zsky_direction_emitframe]: the direction of the line of sight
    in the frame of the galaxy, at the position [(x, y, z)]. *)
Definition zsky_direction_emitframe (self : geometry) (x y z : R)
    (inc : option R) : result (list R) :=
  inc <- default self "inc" inc ;;
  let inc := PI / 180 * inc in
  let zsky_unit_vector := [x * 0; y * 0 - sin inc; z * 0 + cos inc] in
  Ok zsky_unit_vector.

(** The component a velocity comes from and the velocity handed over with
    it: an amplitude along the direction [vel_direction_emitframe] gives
    ([_multicoord_velocity] is False), or a tuple of three components with a
    3x3 direction matrix ([_multicoord_velocity] is True). *)
Definition vec3 : Type := R * R * R.

Inductive flow : Type :=
| Amplitude (vel_direction_emitframe : R -> R -> R -> list R) (vel : R)
| Components (vel_direction_emitframe : R -> R -> R -> vec3 * vec3 * vec3) (vel : vec3).

(** [for vhat, zhat in zip(vel_hat, zsky_hat): acc += vhat*zhat] *)
Definition accumulate (acc : R) (vel_hat zsky_hat : list R) : R :=
  fold_left (fun acc p => acc + fst p * snd p) (combine vel_hat zsky_hat) acc.

(** [for col in range(3): acc += row[col] * vel[col]] *)
Definition accumulate_row (acc : R) (row vel : vec3) : R :=
  let '(m0, m1, m2) := row in
  let '(v0, v1, v2) := vel in
  acc + m0 * v0 + m1 * v1 + m2 * v2.

(** [Geometry.project_velocity_along_LOS] *)
Definition project_velocity_along_LOS (self : geometry) (model_vel : flow)
    (x y z : R) (inc : option R) : result R :=
  zsky_hat <- zsky_direction_emitframe self x y z inc ;;
  match model_vel with
  | Components vel_direction_emitframe vel =>
      let '(row0, row1, row2) := vel_direction_emitframe x y z in
      let '(v0, v1, v2) := vel in
      let vel_cartesian :=
        [accumulate_row (v0 * 0) row0 vel;
         accumulate_row (v1 * 0) row1 vel;
         accumulate_row (v2 * 0) row2 vel] in
      Ok (accumulate (v0 * 0) vel_cartesian zsky_hat)
  | Amplitude vel_direction_emitframe vel =>
      let vel_hat := vel_direction_emitframe x y z in
      let proj_dotprod := accumulate (vel * 0) vel_hat zsky_hat in
      Ok (vel * proj_dotprod)
  end.

(** *** Properties *)

(** The rotation by [a] in the sky plane followed by the tilt by [b], and
    back: polynomial identities modulo sin^2 + cos^2 = 1. *)
Lemma tilt_rotate_back (sa ca sb cb u v w : R) :
  sa * sa + ca * ca = 1 -> sb * sb + cb * cb = 1 ->
  let xt := u * ca + v * sa in
  let yt := - u * sa + v * ca in
  let yg := yt * cb - w * sb in
  let zg := yt * sb + w * cb in
  let yt' := yg * cb + zg * sb in
  xt * ca - yt' * sa = u /\ xt * sa + yt' * ca = v /\ - yg * sb + zg * cb = w.
Proof.
  intros Ha Hb xt yt yg zg yt'.
  assert (Hy : yt' = yt).
  { unfold yt', yg, zg.
    transitivity (yt * (sb * sb + cb * cb)); [ring | rewrite Hb; ring]. }
  rewrite Hy. unfold xt, yt, yg, zg. repeat split.
  - transitivity (u * (sa * sa + ca * ca)); [ring | rewrite Ha; ring].
  - transitivity (v * (sa * sa + ca * ca)); [ring | rewrite Ha; ring].
  - transitivity (w * (sb * sb + cb * cb)); [ring | rewrite Hb; ring].
Qed.

Lemma rotate_tilt_back (sa ca sb cb xg yg zg : R) :
  sa * sa + ca * ca = 1 -> sb * sb + cb * cb = 1 ->
  let yt := yg * cb + zg * sb in
  let zt := - yg * sb + zg * cb in
  let xs := xg * ca - yt * sa in
  let ys := xg * sa + yt * ca in
  let yt' := - xs * sa + ys * ca in
  xs * ca + ys * sa = xg /\ yt' * cb - zt * sb = yg /\ yt' * sb + zt * cb = zg.
Proof.
  intros Ha Hb yt zt xs ys yt'.
  assert (Hy : yt' = yt).
  { unfold yt', xs, ys.
    transitivity (yt * (sa * sa + ca * ca)); [ring | rewrite Ha; ring]. }
  rewrite Hy. unfold xs, ys, yt, zt. repeat split.
  - transitivity (xg * (sa * sa + ca * ca)); [ring | rewrite Ha; ring].
  - transitivity (yg * (sb * sb + cb * cb)); [ring | rewrite Hb; ring].
  - transitivity (zg * (sb * sb + cb * cb)); [ring | rewrite Hb; ring].
Qed.

Lemma sin_cos_unit (a : R) : sin a * sin a + cos a * cos a = 1.
Proof. exact (sin2_cos2 a). Qed.

(** Sky -> galaxy -> sky, with the parameters given as arguments. *)
Lemma inverse_evaluate_args (self : geometry) (x y z i p xs ys vs : R) :
  let '(xg, yg, zg) := evaluate x y z i p xs ys vs in
  inverse_coord_transform self xg yg zg (Some i) (Some p) (Some xs) (Some ys)
  = Ok (x, y, z).
Proof.
  unfold evaluate, inverse_coord_transform. simpl.
  set (a := PI / 180 * (p - 90)). set (b := PI / 180 * i).
  destruct (tilt_rotate_back (sin a) (cos a) (sin b) (cos b) (x - xs) (y - ys) z
              (sin_cos_unit a) (sin_cos_unit b)) as (H1 & H2 & H3).
  rewrite H1, H2, H3.
  replace (x - xs + xs) with x by ring.
  replace (y - ys + ys) with y by ring.
  reflexivity.
Qed.

(** Galaxy -> sky -> galaxy, with the parameters given as arguments. *)
Lemma evaluate_inverse_args (self : geometry) (xg yg zg i p xs ys vs : R) :
  forall x y z,
    inverse_coord_transform self xg yg zg (Some i) (Some p) (Some xs) (Some ys)
    = Ok (x, y, z) ->
    evaluate x y z i p xs ys vs = (xg, yg, zg).
Proof.
  intros x y z H. unfold inverse_coord_transform in H. simpl in H.
  injection H as Hx Hy Hz. subst x y z. unfold evaluate.
  set (a := PI / 180 * (p - 90)). set (b := PI / 180 * i).
  destruct (rotate_tilt_back (sin a) (cos a) (sin b) (cos b) xg yg zg
              (sin_cos_unit a) (sin_cos_unit b)) as (H1 & H2 & H3).
  set (t := yg * cos b + zg * sin b) in *.
  replace (xg * cos a - t * sin a + xs - xs) with (xg * cos a - t * sin a) by ring.
  replace (xg * sin a + t * cos a + ys - ys) with (xg * sin a + t * cos a) by ring.
  rewrite H1, H2, H3. reflexivity.
Qed.

(** C9: [inverse_coord_transform] applied to the output of [evaluate] with
    the same inclination, position angle and shifts returns the original sky
    coordinates, whether the parameters are passed explicitly or taken from
    the instance; and [evaluate] applied to the output of
    [inverse_coord_transform] returns the original galaxy coordinates.  The
    two transforms are mutual inverses over the reals. *)
Theorem inverse_coord_transform_evaluate (self : geometry) (x y z : R) :
  (forall i p xs ys vs : R,
      let '(xg, yg, zg) := evaluate x y z i p xs ys vs in
      inverse_coord_transform self xg yg zg (Some i) (Some p) (Some xs) (Some ys)
      = Ok (x, y, z)) /\
  (let '(xg, yg, zg) :=
     evaluate x y z (inc self) (pa self) (xshift self) (yshift self)
       (vel_shift self) in
   inverse_coord_transform self xg yg zg None None None None = Ok (x, y, z)) /\
  (forall i p xs ys vs : R,
      exists x' y' z',
        inverse_coord_transform self x y z (Some i) (Some p) (Some xs) (Some ys)
        = Ok (x', y', z') /\
        evaluate x' y' z' i p xs ys vs = (x, y, z)).
Proof.
  split; [|split].
  - intros. apply inverse_evaluate_args.
  - exact (inverse_evaluate_args self x y z (inc self) (pa self) (xshift self)
             (yshift self) (vel_shift self)).
  - intros i p xs ys vs.
    destruct (inverse_coord_transform self x y z (Some i) (Some p) (Some xs)
                (Some ys)) as [[[x' y'] z']|e] eqn:E.
    + exists x', y', z'. split; [reflexivity|].
      eapply evaluate_inverse_args; eauto.
    + discriminate E.
Qed.

(** The misspelt name is not an attribute of the instance. *)
Lemma vel_shit_undefined (self : geometry) :
  getattr self "vel_shit" = Raise AttributeError.
Proof. reflexivity. Qed.

(** C10: for every instance, every coordinate triple and every choice of
    keyword arguments, [coord_transform] raises AttributeError (from the read
    of [self.vel_shit]) and so never returns coordinates. *)
Theorem coord_transform_attribute_error (self : geometry) (x y z : R)
    (i p xs ys : option R) :
  coord_transform self x y z i p xs ys = Raise AttributeError /\
  ~ returns (coord_transform self x y z i p xs ys).
Proof.
  assert (H : coord_transform self x y z i p xs ys = Raise AttributeError).
  { unfold coord_transform.
    destruct i, p, xs, ys; reflexivity. }
  split; [exact H|].
  intros [v Hv]. rewrite H in Hv. discriminate Hv.
Qed.

(** *** The line of sight in the frame of the galaxy *)

(** [inc] when given, [self.inc] otherwise. *)
Definition inc_used (self : geometry) (inc : option R) : R :=
  match inc with
  | Some v => v
  | None => Geometry.inc self
  end.

Lemma default_inc (self : geometry) (inc : option R) :
  default self "inc" inc = Ok (inc_used self inc).
Proof. destruct inc; reflexivity. Qed.

Lemma zsky_direction_value (self : geometry) (x y z : R) (inc : option R) :
  zsky_direction_emitframe self x y z inc
  = Ok [0; - sin (PI / 180 * inc_used self inc); cos (PI / 180 * inc_used self inc)].
Proof.
  unfold zsky_direction_emitframe. rewrite default_inc. cbn [bind].
  do 2 f_equal; [ring|]. f_equal; [ring|]. f_equal. ring.
Qed.

(** X8: [zsky_direction_emitframe] returns the same three numbers at every
    position, a vector of length one, and it is the direction in which
    [evaluate] moves the image of a sky point that is moved along the line
    of sight: for every position angle and every shift, the image of
    [(x, y, z + t)] is the image of [(x, y, z)] plus [t] times the vector. *)
Theorem zsky_direction_is_line_of_sight (self : geometry) (x y z : R) (inc : option R) :
  exists a b c,
    zsky_direction_emitframe self x y z inc = Ok [a; b; c] /\
    (forall x' y' z', zsky_direction_emitframe self x' y' z' inc = Ok [a; b; c]) /\
    a * a + b * b + c * c = 1 /\
    (forall u v w t pa xshift yshift vel_shift,
       let '(xg, yg, zg) :=
         evaluate u v w (inc_used self inc) pa xshift yshift vel_shift in
       evaluate u v (w + t) (inc_used self inc) pa xshift yshift vel_shift
       = (xg + t * a, yg + t * b, zg + t * c)).
Proof.
  exists 0, (- sin (PI / 180 * inc_used self inc)), (cos (PI / 180 * inc_used self inc)).
  split; [apply zsky_direction_value|]. split; [intros; apply zsky_direction_value|].
  split.
  - pose proof (sin_cos_unit (PI / 180 * inc_used self inc)). nra.
  - intros u v w t p xs ys vs. unfold evaluate. cbv zeta.
    f_equal; [f_equal|]; ring.
Qed.

(** *** Projection of a velocity on the line of sight *)

Definition identity_matrix : vec3 * vec3 * vec3 := ((1, 0, 0), (0, 1, 0), (0, 0, 1)).

Lemma project_amplitude (self : geometry) (vel_hat : R -> R -> R -> list R)
    (vel x y z a b c : R) (inc : option R) :
  vel_hat x y z = [a; b; c] ->
  project_velocity_along_LOS self (Amplitude vel_hat vel) x y z inc
  = Ok (vel * (- b * sin (PI / 180 * inc_used self inc)
               + c * cos (PI / 180 * inc_used self inc))).
Proof.
  intros Hv. unfold project_velocity_along_LOS. rewrite zsky_direction_value. cbn [bind].
  rewrite Hv. unfold accumulate. cbn [combine fold_left fst snd].
  do 2 f_equal. ring.
Qed.

Lemma project_components (self : geometry) (m : R -> R -> R -> vec3 * vec3 * vec3)
    (x y z vx vy vz : R) (inc : option R) :
  m x y z = identity_matrix ->
  project_velocity_along_LOS self (Components m (vx, vy, vz)) x y z inc
  = Ok (- vy * sin (PI / 180 * inc_used self inc)
        + vz * cos (PI / 180 * inc_used self inc)).
Proof.
  intros Hm. unfold project_velocity_along_LOS. rewrite zsky_direction_value. cbn [bind].
  rewrite Hm. unfold identity_matrix, accumulate, accumulate_row.
  cbn [combine fold_left fst snd]. f_equal. ring.
Qed.

(** X9: [project_velocity_along_LOS].  For three cartesian components (the
    direction matrix is the identity) the result is the third sky coordinate
    [inverse_coord_transform] gives for the velocity vector, whatever the
    position angle and the shifts.  An amplitude along a direction
    [(a, b, c)] projects like the components [vel * (a, b, c)]; when the
    direction has length one the result is at most [|vel|] in size, and at
    inclination 0 it is [vel * c]: a velocity in the plane of a face-on
    galaxy has no component along the line of sight. *)
Theorem project_velocity_along_LOS_is_sky_z (self : geometry) (x y z : R) (inc : option R) :
  (forall m vx vy vz pa xshift yshift,
     m x y z = identity_matrix ->
     exists xsky ysky v_LOS,
       project_velocity_along_LOS self (Components m (vx, vy, vz)) x y z inc = Ok v_LOS /\
       inverse_coord_transform self vx vy vz (Some (inc_used self inc)) pa xshift yshift
       = Ok (xsky, ysky, v_LOS)) /\
  (forall vel_hat m vel a b c,
     vel_hat x y z = [a; b; c] -> m x y z = identity_matrix ->
     project_velocity_along_LOS self (Amplitude vel_hat vel) x y z inc
     = project_velocity_along_LOS self (Components m (vel * a, vel * b, vel * c)) x y z inc) /\
  (forall vel_hat vel a b c,
     vel_hat x y z = [a; b; c] -> a * a + b * b + c * c = 1 ->
     exists v_LOS,
       project_velocity_along_LOS self (Amplitude vel_hat vel) x y z inc = Ok v_LOS /\
       Rabs v_LOS <= Rabs vel) /\
  (forall vel_hat vel a b c,
     vel_hat x y z = [a; b; c] -> inc_used self inc = 0 ->
     project_velocity_along_LOS self (Amplitude vel_hat vel) x y z inc = Ok (vel * c)).
Proof.
  set (i := PI / 180 * inc_used self inc).
  split; [|split; [|split]].
  - intros m vx vy vz p xs ys Hm.
    rewrite (project_components self m x y z vx vy vz inc Hm). fold i.
    unfold inverse_coord_transform. cbn [default bind].
    destruct (default self "pa" p) as [p'|e] eqn:Hp; [|destruct p; discriminate Hp].
    destruct (default self "xshift" xs) as [xs'|e] eqn:Hxs; [|destruct xs; discriminate Hxs].
    destruct (default self "yshift" ys) as [ys'|e] eqn:Hys; [|destruct ys; discriminate Hys].
    cbn [bind]. fold i. eexists. eexists. eexists. split; reflexivity.
  - intros vel_hat m vel a b c Hv Hm.
    rewrite (project_amplitude self vel_hat vel x y z a b c inc Hv).
    rewrite (project_components self m x y z _ _ _ inc Hm). f_equal. ring.
  - intros vel_hat vel a b c Hv Hunit.
    rewrite (project_amplitude self vel_hat vel x y z a b c inc Hv). fold i.
    eexists. split; [reflexivity|].
    rewrite Rabs_mult. rewrite <- (Rmult_1_r (Rabs vel)) at 2.
    apply Rmult_le_compat_l; [apply Rabs_pos|].
    pose proof (sin_cos_unit i) as Hi.
    set (w := - b * sin i + c * cos i).
    assert (Hw : w * w = (b * b + c * c) * (sin i * sin i + cos i * cos i)
                         - (b * cos i + c * sin i) * (b * cos i + c * sin i))
      by (unfold w; ring).
    rewrite Hi in Hw.
    pose proof (Rle_0_sqr (b * cos i + c * sin i)) as Hsq. unfold Rsqr in Hsq.
    pose proof (Rle_0_sqr a) as Ha. unfold Rsqr in Ha.
    assert (Hw1 : w * w <= 1) by lra.
    apply Rabs_le. split; nra.
  - intros vel_hat vel a b c Hv H0.
    rewrite (project_amplitude self vel_hat vel x y z a b c inc Hv). rewrite H0.
    replace (PI / 180 * 0) with 0 by field. rewrite sin_0, cos_0. f_equal. ring.
Qed.

(** *** The transform is a rigid motion *)

Lemma rotate_tilt_norm (sa ca sb cb u v w : R) :
  sa * sa + ca * ca = 1 -> sb * sb + cb * cb = 1 ->
  let xt := u * ca + v * sa in
  let yt := - u * sa + v * ca in
  let yg := yt * cb - w * sb in
  let zg := yt * sb + w * cb in
  xt * xt + yg * yg + zg * zg = u * u + v * v + w * w.
Proof.
  intros Ha Hb xt yt yg zg.
  transitivity (xt * xt + (yt * yt + w * w) * (sb * sb + cb * cb));
    [unfold yg, zg; ring|].
  rewrite Hb.
  transitivity ((u * u + v * v) * (sa * sa + ca * ca) + w * w);
    [unfold xt, yt; ring|].
  rewrite Ha. ring.
Qed.

(** X10: [evaluate] is a rigid motion of space.  The distance between the
    images of two sky points is the distance between the points, for every
    inclination, position angle and shift, and the point [(xshift, yshift, 0)]
    is sent to the origin of the galaxy frame. *)
Theorem evaluate_preserves_distance (inc pa xshift yshift vel_shift : R) :
  (forall x1 y1 z1 x2 y2 z2,
     let '(xg1, yg1, zg1) := evaluate x1 y1 z1 inc pa xshift yshift vel_shift in
     let '(xg2, yg2, zg2) := evaluate x2 y2 z2 inc pa xshift yshift vel_shift in
     (xg1 - xg2) ^ 2 + (yg1 - yg2) ^ 2 + (zg1 - zg2) ^ 2
     = (x1 - x2) ^ 2 + (y1 - y2) ^ 2 + (z1 - z2) ^ 2) /\
  evaluate xshift yshift 0 inc pa xshift yshift vel_shift = (0, 0, 0).
Proof.
  split.
  - intros x1 y1 z1 x2 y2 z2. unfold evaluate. cbv zeta.
    set (a := PI / 180 * (pa - 90)). set (b := PI / 180 * inc).
    pose proof (rotate_tilt_norm (sin a) (cos a) (sin b) (cos b)
                  (x1 - x2) (y1 - y2) (z1 - z2) (sin_cos_unit a) (sin_cos_unit b)) as H.
    cbv zeta in H.
    transitivity ((x1 - x2) * (x1 - x2) + (y1 - y2) * (y1 - y2) + (z1 - z2) * (z1 - z2));
      [|ring].
    rewrite <- H. ring.
  - unfold evaluate. cbv zeta. f_equal; [f_equal|]; ring.
Qed.

End Geometry.

(** ** ModelSet: the component registry and its parameter vectors *)

Module ModelSet.

Open Scope Z_scope.

(** A parameter value is a binary64 float.  The registry only stores and
    copies values, so a rational stands for it. *)
Definition value : Type := Q.

(** [model.name] is a [str] or [None]; it is the key of the registry's
    dictionaries. *)
Definition key : Type := option string.

Definition key_eqb (a b : key) : bool :=
  match a, b with
  | None, None => true
  | Some x, Some y => String.eqb x y
  | _, _ => false
  end.

(** *** Python dictionaries, in insertion order *)

Section Dict.

Context {K V : Type} (eqb : K -> K -> bool).

Fixpoint dict_get (k : K) (d : list (K * V)) : option V :=
  match d with
  | [] => None
  | (k', v) :: d' => if eqb k k' then Some v else dict_get k d'
  end.

(** [d[k] = v]: an existing key keeps its position. *)
Fixpoint dict_set (k : K) (v : V) (d : list (K * V)) : list (K * V) :=
  match d with
  | [] => [(k, v)]
  | (k', v') :: d' =>
      if eqb k k' then (k, v) :: d' else (k', v') :: dict_set k v d'
  end.

Definition dict_keys (d : list (K * V)) : list K := map fst d.

End Dict.

(** *** Python sequences *)

(** [l.index(x)] *)
Fixpoint index (x : string) (l : list string) : option nat :=
  match l with
  | [] => None
  | y :: l' =>
      if String.eqb x y then Some O
      else match index x l' with
           | Some i => Some (S i)
           | None => None
           end
  end.

(** [l.count(x)] *)
Definition count (x : key) (l : list key) : nat :=
  List.length (filter (key_eqb x) l).

(** The position an integer index denotes in a sequence of length [n]:
    negative indices count from the end. *)
Definition position (n : nat) (i : Z) : option nat :=
  if (0 <=? i) && (i <? Z.of_nat n) then Some (Z.to_nat i)
  else if (- Z.of_nat n <=? i) && (i <? 0) then Some (Z.to_nat (i + Z.of_nat n))
  else None.

(** [l] with position [n] replaced. *)
Fixpoint upd {A : Type} (n : nat) (v : A) (l : list A) : list A :=
  match l, n with
  | [], _ => []
  | _ :: l', O => v :: l'
  | x :: l', S n' => x :: upd n' v l'
  end.

(** [a[i]] *)
Definition array_get {A : Type} (a : list A) (i : Z) : result A :=
  match position (List.length a) i with
  | Some n =>
      match nth_error a n with
      | Some v => Ok v
      | None => Raise IndexError
      end
  | None => Raise IndexError
  end.

(** [a[i] = v] *)
Definition array_set {A : Type} (a : list A) (i : Z) (v : A) : result (list A) :=
  match position (List.length a) i with
  | Some n => Ok (upd n v a)
  | None => Raise IndexError
  end.

(** *** Components *)

(** What [add_component] reads of an astropy model: its name, its [_type],
    the declared parameter names, the parameter array and the [fixed]
    dictionary. *)
Record model : Type := mkModel {
  name : key;
  _type : string;
  param_names : list string;
  parameters : list value;
  fixed : list (string * bool)
}.

(** An argument of [add_component]. *)
Inductive py_object : Type :=
| FittableModel (m : model)
| OtherObject.

(** [model.rename(name)]: a copy under the new name. *)
Definition rename (m : model) (n : string) : model :=
  mkModel (Some n) (_type m) (param_names m) (parameters m) (fixed m).

Definition with_parameters (m : model) (ps : list value) : model :=
  mkModel (name m) (_type m) (param_names m) ps (fixed m).

Definition with_fixed (m : model) (fx : list (string * bool)) : model :=
  mkModel (name m) (_type m) (param_names m) (parameters m) fx.

(** *** The registry *)

Record t : Type := mkModelSet {
  mass_components : list (key * bool);
  components : list (key * model);
  geometry : option key;
  parameters_all : option (list value);
  parameters_free : option (list value);
  fixed_all : list (key * list (string * bool));
  param_names_all : list (key * list string);
  _param_keys : list (key * list (string * Z));
  _param_free_keys : list (key * list (string * Z));
  nparams : Z;
  nparams_free : Z
}.

(** [ModelSet.__init__] *)
Definition init : t :=
  mkModelSet [] [] None None None [] [] [] [] 0 0.

Definition set_mass_components (x : list (key * bool)) (s : t) : t :=
  mkModelSet x (components s) (geometry s) (parameters_all s)
    (parameters_free s) (fixed_all s) (param_names_all s) (_param_keys s)
    (_param_free_keys s) (nparams s) (nparams_free s).

Definition set_components (x : list (key * model)) (s : t) : t :=
  mkModelSet (mass_components s) x (geometry s) (parameters_all s)
    (parameters_free s) (fixed_all s) (param_names_all s) (_param_keys s)
    (_param_free_keys s) (nparams s) (nparams_free s).

Definition set_geometry (x : option key) (s : t) : t :=
  mkModelSet (mass_components s) (components s) x (parameters_all s)
    (parameters_free s) (fixed_all s) (param_names_all s) (_param_keys s)
    (_param_free_keys s) (nparams s) (nparams_free s).

Definition set_parameters_all (x : option (list value)) (s : t) : t :=
  mkModelSet (mass_components s) (components s) (geometry s) x
    (parameters_free s) (fixed_all s) (param_names_all s) (_param_keys s)
    (_param_free_keys s) (nparams s) (nparams_free s).

Definition set_parameters_free (x : option (list value)) (s : t) : t :=
  mkModelSet (mass_components s) (components s) (geometry s) (parameters_all s)
    x (fixed_all s) (param_names_all s) (_param_keys s)
    (_param_free_keys s) (nparams s) (nparams_free s).

Definition set_fixed_all (x : list (key * list (string * bool))) (s : t) : t :=
  mkModelSet (mass_components s) (components s) (geometry s) (parameters_all s)
    (parameters_free s) x (param_names_all s) (_param_keys s)
    (_param_free_keys s) (nparams s) (nparams_free s).

(** *** Methods with side effects: state passing with exceptions.
    A raised exception leaves the registry as mutated so far. *)

Definition M (A : Type) : Type := t -> result A * t.

Definition ret {A : Type} (a : A) : M A := fun s => (Ok a, s).

Definition raise {A : Type} (e : exn) : M A := fun s => (Raise e, s).

Definition mbind {A B : Type} (m : M A) (k : A -> M B) : M B :=
  fun s =>
    match m s with
    | (Ok a, s') => k a s'
    | (Raise e, s') => (Raise e, s')
    end.

Definition get : M t := fun s => (Ok s, s).

Definition modify (f : t -> t) : M unit := fun s => (Ok tt, f s).

(** A computation that reads nothing of the registry. *)
Definition lift {A : Type} (r : result A) : M A := fun s => (r, s).

(** A dictionary read; a missing key raises [e]. *)
Definition lookup {A : Type} (o : option A) (e : exn) : result A :=
  match o with
  | Some a => Ok a
  | None => Raise e
  end.

Declare Scope m_scope.
Delimit Scope m_scope with M.
Notation "x <- m ;; k" := (mbind m (fun x => k))
  (at level 61, m at next level, right associativity) : m_scope.
Notation "m ;;; k" := (mbind m (fun _ => k))
  (at level 61, right associativity) : m_scope.

(** [for x in l: body(x)] *)
Fixpoint for_each {A : Type} (l : list A) (body : A -> M unit) : M unit :=
  match l with
  | [] => ret tt
  | x :: l' => mbind (body x) (fun _ => for_each l' body)
  end.

Definition missing_key : exn := KeyError "".
Definition no_array : exn := TypeError "'NoneType' object is not subscriptable".
Definition unnamed_component : exn := ValueError "Please give this component a name!".
Definition duplicate_component : exn :=
  ValueError "Component already exists. Please giveit a unique name.".
Definition unknown_type : exn :=
  TypeError "This model type is not known! Must be either'mass' or 'geometry.'".
Definition not_a_model : exn :=
  TypeError "Model component must be an anastropy.modeling.FittableModel instance!".
Definition model_not_in_set : exn := KeyError "Model not part of the set.".
Definition param_not_in_model : exn := ValueError "Parameter is not part of model.".
Definition length_mismatch : exn :=
  ValueError "Length of theta is not equal to number of free parameters".

(** The first loop of [_add_comp]: the values of the non-fixed parameters,
    appended to [pfree]. *)
Fixpoint append_free (m : model) (names : list string) (i : Z)
    (pfree : list value) : result (list value) :=
  match names with
  | [] => Ok pfree
  | n :: names' =>
      (fx <- lookup (dict_get String.eqb n (fixed m)) missing_key ;;
       if negb fx then
         v <- array_get (parameters m) i ;;
         append_free m names' (i + 1) (pfree ++ [v])
       else append_free m names' (i + 1) pfree)%result
  end.

(** The second loop of [_add_comp]: the index dictionaries.  [i] is the
    loop counter, [j] the count of non-fixed parameters met so far. *)
Fixpoint build_keys (m : model) (names : list string) (i j : Z)
    (nparams nparams_free : Z)
    (key_dict key_dict_free : list (string * Z))
  : result (list (string * Z) * list (string * Z)) :=
  match names with
  | [] => Ok (key_dict, key_dict_free)
  | p :: names' =>
      (let key_dict := dict_set String.eqb p (i + nparams) key_dict in
       fx <- lookup (dict_get String.eqb p (fixed m)) missing_key ;;
       if negb fx then
         build_keys m names' (i + 1) (j + 1) nparams nparams_free key_dict
           (dict_set String.eqb p (j + nparams_free) key_dict_free)
       else
         build_keys m names' (i + 1) j nparams nparams_free key_dict
           (dict_set String.eqb p (-99) key_dict_free))%result
  end.

(** [ModelSet._add_comp] *)
Definition _add_comp (m : model) : M unit :=
  (modify (fun s => set_components (dict_set key_eqb (name m) m (components s)) s) ;;;
   s <- get ;;
   let '(params, pfree) :=
     match parameters_all s, parameters_free s with
     | None, _ => (Ok (parameters m), Ok [])
     | Some ps, Some pf => (Ok (ps ++ parameters m), Ok pf)
     | Some ps, None => (Ok (ps ++ parameters m), Raise AttributeError)
     end in
   params <- lift params ;;
   modify (set_parameters_all (Some params)) ;;;
   pfree <- lift pfree ;;
   pfree <- lift (append_free m (param_names m) 0 pfree) ;;
   modify (set_parameters_free (Some pfree)) ;;;
   modify (fun s =>
     mkModelSet (mass_components s) (components s) (geometry s)
       (parameters_all s) (parameters_free s)
       (dict_set key_eqb (name m) (fixed m) (fixed_all s))
       (dict_set key_eqb (name m) (param_names m) (param_names_all s))
       (_param_keys s) (_param_free_keys s) (nparams s) (nparams_free s)) ;;;
   s <- get ;;
   kd <- lift (build_keys m (param_names m) 0 0 (nparams s) (nparams_free s) [] []) ;;
   modify (fun s =>
     mkModelSet (mass_components s) (components s) (geometry s)
       (parameters_all s) (parameters_free s) (fixed_all s) (param_names_all s)
       (dict_set key_eqb (name m) (fst kd) (_param_keys s))
       (dict_set key_eqb (name m) (snd kd) (_param_free_keys s))
       (nparams s + Z.of_nat (List.length (param_names m)))
       (Z.of_nat (List.length pfree))))%M.

(** [ModelSet.add_component] *)
Definition add_component (obj : py_object) (nm : option string) : M unit :=
  match obj with
  | FittableModel m =>
      if String.eqb (_type m) "mass" then
        match nm, name m with
        | None, None => raise unnamed_component
        | _, _ =>
            let m := match nm with
                     | Some n => rename m n
                     | None => m
                     end in
            (s <- get ;;
             if (0 <? count (name m) (dict_keys (mass_components s)))%nat
             then raise duplicate_component
             else
               modify (fun s => set_mass_components
                         (dict_set key_eqb (name m) true (mass_components s)) s) ;;;
               _add_comp m)%M
        end
      else if String.eqb (_type m) "geometry" then
        (modify (set_geometry (Some (name m))) ;;;
         modify (fun s => set_mass_components
                   (dict_set key_eqb (name m) false (mass_components s)) s) ;;;
         _add_comp m)%M
      else raise unknown_type
  | OtherObject => raise not_a_model
  end.

(** [self.components[model_name].parameters[param_i] = value] *)
Definition write_component (model_name : key) (param_i : nat) (v : value) : M unit :=
  (s <- get ;;
   comp <- lift (lookup (dict_get key_eqb model_name (components s)) missing_key) ;;
   ps <- lift (array_set (parameters comp) (Z.of_nat param_i) v) ;;
   modify (set_components
             (dict_set key_eqb model_name (with_parameters comp ps) (components s))))%M.

(** [ModelSet.set_parameter_value] *)
Definition set_parameter_value (model_name : key) (param_name : string)
    (v : value) : M unit :=
  (s <- get ;;
   comp <- lift (lookup (dict_get key_eqb model_name (components s)) model_not_in_set) ;;
   param_i <- lift (lookup (index param_name (param_names comp)) param_not_in_model) ;;
   write_component model_name param_i v ;;;
   kd <- lift (lookup (dict_get key_eqb model_name (_param_keys s)) missing_key) ;;
   k <- lift (lookup (dict_get String.eqb param_name kd) missing_key) ;;
   ps <- lift (lookup (parameters_all s) no_array) ;;
   ps <- lift (array_set ps k v) ;;
   modify (set_parameters_all (Some ps)) ;;;
   fx <- lift (lookup (dict_get String.eqb param_name (fixed comp)) missing_key) ;;
   if negb fx then
     kf <- lift (lookup (dict_get key_eqb model_name (_param_free_keys s)) missing_key) ;;
     free_ind <- lift (lookup (dict_get String.eqb param_name kf) missing_key) ;;
     pf <- lift (lookup (parameters_free s) no_array) ;;
     pf <- lift (array_set pf free_ind v) ;;
     modify (set_parameters_free (Some pf))
   else ret tt)%M.

(** [ModelSet.set_parameter_fixed] *)
Definition set_parameter_fixed (model_name : key) (param_name : string)
    (fix_ : bool) : M unit :=
  (s <- get ;;
   comp <- lift (lookup (dict_get key_eqb model_name (components s)) model_not_in_set) ;;
   _ <- lift (lookup (index param_name (param_names comp)) param_not_in_model) ;;
   modify (set_components
             (dict_set key_eqb model_name
                (with_fixed comp (dict_set String.eqb param_name fix_ (fixed comp)))
                (components s))) ;;;
   fx <- lift (lookup (dict_get key_eqb model_name (fixed_all s)) missing_key) ;;
   modify (set_fixed_all
             (dict_set key_eqb model_name
                (dict_set String.eqb param_name fix_ fx) (fixed_all s))))%M.

(** The body of the inner loop of [update_parameters]. *)
Definition update_one (theta : list value) (cmp : key) (entry : string * Z) : M unit :=
  let '(pp, ind) := entry in
  if negb (ind =? -99) then
    (v <- lift (array_get theta ind) ;;
     set_parameter_value cmp pp v)%M
  else ret tt.

(** [ModelSet.update_parameters] *)
Definition update_parameters (theta : list value) : M unit :=
  (s <- get ;;
   if negb (Z.of_nat (List.length theta) =? nparams_free s)
   then raise length_mismatch
   else
     for_each (_param_free_keys s)
       (fun '(cmp, kf) => for_each kf (update_one theta cmp)))%M.

(** *** Facts about dictionaries and arrays *)

Section DictFacts.

Context {K V : Type} (eqb : K -> K -> bool).
Hypothesis eqb_eq : forall a b, eqb a b = true <-> a = b.

Lemma eqb_refl' (a : K) : eqb a a = true.
Proof. apply eqb_eq. reflexivity. Qed.

Lemma eqb_neq (a b : K) : a <> b -> eqb a b = false.
Proof.
  intros H. destruct (eqb a b) eqn:E; [|reflexivity].
  apply eqb_eq in E. contradiction.
Qed.

Lemma dict_get_set_same (k : K) (v : V) (d : list (K * V)) :
  dict_get eqb k (dict_set eqb k v d) = Some v.
Proof.
  induction d as [|[k' v'] d IH]; simpl.
  - rewrite eqb_refl'. reflexivity.
  - destruct (eqb k k') eqn:E; simpl.
    + rewrite eqb_refl'. reflexivity.
    + rewrite E. exact IH.
Qed.

Lemma dict_get_set_other (k k' : K) (v : V) (d : list (K * V)) :
  k <> k' -> dict_get eqb k' (dict_set eqb k v d) = dict_get eqb k' d.
Proof.
  intros Hne. induction d as [|[k0 v0] d IH]; simpl.
  - rewrite eqb_neq by congruence. reflexivity.
  - destruct (eqb k k0) eqn:E; simpl.
    + apply eqb_eq in E. subst k0.
      rewrite eqb_neq by congruence. reflexivity.
    + destruct (eqb k' k0); [reflexivity | exact IH].
Qed.

Lemma dict_get_none (k : K) (d : list (K * V)) :
  dict_get eqb k d = None <-> ~ In k (map fst d).
Proof.
  induction d as [|[k' v'] d IH]; simpl.
  - tauto.
  - destruct (eqb k k') eqn:E.
    + apply eqb_eq in E. subst. split; [discriminate | tauto].
    + rewrite IH. split.
      * intros H [H1 | H1]; [|tauto].
        subst. rewrite eqb_refl' in E. discriminate.
      * tauto.
Qed.

Lemma dict_get_some_in (k : K) (v : V) (d : list (K * V)) :
  dict_get eqb k d = Some v -> In (k, v) d.
Proof.
  induction d as [|[k' v'] d IH]; simpl; [discriminate|].
  destruct (eqb k k') eqn:E.
  - apply eqb_eq in E. intros H. injection H as ->. left. congruence.
  - intros H. right. auto.
Qed.

Lemma dict_get_in (k : K) (v : V) (d : list (K * V)) :
  NoDup (map fst d) -> In (k, v) d -> dict_get eqb k d = Some v.
Proof.
  induction d as [|[k' v'] d IH]; simpl; [tauto|].
  intros Hnd [H | H].
  - injection H as -> ->. rewrite eqb_refl'. reflexivity.
  - inversion Hnd as [|? ? Hni Hnd']; subst.
    destruct (eqb k k') eqn:E.
    + apply eqb_eq in E. subst. exfalso. apply Hni.
      change k' with (fst (k', v)). apply in_map. exact H.
    + auto.
Qed.

Lemma dict_set_fresh (k : K) (v : V) (d : list (K * V)) :
  dict_get eqb k d = None -> dict_set eqb k v d = d ++ [(k, v)].
Proof.
  induction d as [|[k' v'] d IH]; simpl; [reflexivity|].
  destruct (eqb k k'); [discriminate|].
  intros H. rewrite IH by exact H. reflexivity.
Qed.

Lemma dict_set_same (k : K) (v : V) (d : list (K * V)) :
  dict_get eqb k d = Some v -> dict_set eqb k v d = d.
Proof.
  induction d as [|[k' v'] d IH]; simpl; [discriminate|].
  destruct (eqb k k') eqn:E.
  - apply eqb_eq in E. intros H. congruence.
  - intros H. rewrite IH by exact H. reflexivity.
Qed.

Lemma dict_set_keys (k : K) (v v0 : V) (d : list (K * V)) :
  dict_get eqb k d = Some v0 -> map fst (dict_set eqb k v d) = map fst d.
Proof.
  induction d as [|[k' v'] d IH]; simpl; [discriminate|].
  destruct (eqb k k') eqn:E; simpl.
  - apply eqb_eq in E. congruence.
  - intros H. rewrite IH by exact H. reflexivity.
Qed.

End DictFacts.

Lemma key_eqb_eq (a b : key) : key_eqb a b = true <-> a = b.
Proof.
  destruct a as [x|], b as [y|]; simpl; try (split; congruence).
  rewrite String.eqb_eq. split; congruence.
Qed.

Lemma string_eqb_eq (a b : string) : String.eqb a b = true <-> a = b.
Proof. apply String.eqb_eq. Qed.

Lemma length_upd {A : Type} (n : nat) (v : A) (l : list A) :
  List.length (upd n v l) = List.length l.
Proof.
  revert n. induction l as [|x l IH]; intros [|n]; simpl; auto.
Qed.

Lemma nth_error_upd_same {A : Type} (n : nat) (v : A) (l : list A) :
  (n < List.length l)%nat -> nth_error (upd n v l) n = Some v.
Proof.
  revert n. induction l as [|x l IH]; intros [|n]; simpl; intros H;
    try lia; auto.
  apply IH. lia.
Qed.

Lemma nth_error_upd_other {A : Type} (n n' : nat) (v : A) (l : list A) :
  n <> n' -> nth_error (upd n v l) n' = nth_error l n'.
Proof.
  revert n n'. induction l as [|x l IH]; intros [|n] [|n'] H; simpl;
    try reflexivity; try congruence.
  apply IH. congruence.
Qed.

Lemma upd_same {A : Type} (n : nat) (v : A) (l : list A) :
  nth_error l n = Some v -> upd n v l = l.
Proof.
  revert n. induction l as [|x l IH]; intros [|n]; simpl; intros H;
    try discriminate.
  - congruence.
  - rewrite IH by exact H. reflexivity.
Qed.

Lemma position_nonneg (n : nat) (i : Z) :
  0 <= i < Z.of_nat n -> position n i = Some (Z.to_nat i).
Proof.
  intros H. unfold position.
  replace (0 <=? i) with true by (symmetry; apply Z.leb_le; lia).
  replace (i <? Z.of_nat n) with true by (symmetry; apply Z.ltb_lt; lia).
  reflexivity.
Qed.

Lemma array_get_nonneg {A : Type} (a : list A) (i : nat) (v : A) :
  nth_error a i = Some v -> array_get a (Z.of_nat i) = Ok v.
Proof.
  intros H. unfold array_get.
  assert (Hlt : (i < List.length a)%nat) by (apply nth_error_Some; congruence).
  rewrite position_nonneg by lia. rewrite Nat2Z.id, H. reflexivity.
Qed.

Lemma array_set_nonneg {A : Type} (a : list A) (i : nat) (v : A) :
  (i < List.length a)%nat -> array_set a (Z.of_nat i) v = Ok (upd i v a).
Proof.
  intros H. unfold array_set.
  rewrite position_nonneg by lia. rewrite Nat2Z.id. reflexivity.
Qed.

Lemma index_in (x : string) (l : list string) :
  In x l -> exists i, index x l = Some i /\ nth_error l i = Some x.
Proof.
  induction l as [|y l IH]; simpl; [tauto|].
  intros H. destruct (String.eqb x y) eqn:E.
  - apply String.eqb_eq in E. subst. exists O. auto.
  - destruct IH as (i & Hi & Hn).
    + destruct H as [H|H]; [|exact H].
      subst. rewrite String.eqb_refl in E. discriminate.
    + exists (S i). rewrite Hi. auto.
Qed.

Lemma index_nth (x : string) (l : list string) (i : nat) :
  NoDup l -> nth_error l i = Some x -> index x l = Some i.
Proof.
  revert i. induction l as [|y l IH]; intros [|i] Hnd H; simpl in *;
    try discriminate.
  - injection H as ->. rewrite String.eqb_refl. reflexivity.
  - inversion Hnd as [|? ? Hni Hnd']; subst.
    destruct (String.eqb x y) eqn:E.
    + apply String.eqb_eq in E. subst. exfalso. apply Hni.
      eapply nth_error_In; eauto.
    + rewrite (IH i Hnd' H). reflexivity.
Qed.

Lemma index_some (x : string) (l : list string) (i : nat) :
  index x l = Some i -> nth_error l i = Some x.
Proof.
  revert i. induction l as [|y l IH]; intros i; simpl; [discriminate|].
  destruct (String.eqb x y) eqn:E.
  - apply String.eqb_eq in E. intros H. injection H as <-. simpl. congruence.
  - destruct (index x l) as [j|]; [|discriminate].
    intros H. injection H as <-. simpl. auto.
Qed.

(** *** Well-formed models and the layout of the index dictionaries *)

(** What astropy guarantees of a model: distinct parameter names, one value
    and one [fixed] entry per name. *)
Definition wf_model (m : model) : Prop :=
  NoDup (param_names m) /\
  List.length (parameters m) = List.length (param_names m) /\
  map fst (fixed m) = param_names m.

(** [not model.fixed[p]], for a name of the model. *)
Definition is_free (m : model) (p : string) : bool :=
  match dict_get String.eqb p (fixed m) with
  | Some b => negb b
  | None => false
  end.

(** The parameters of a model currently marked non-fixed. *)
Definition count_free (m : model) : nat :=
  List.length (filter (is_free m) (param_names m)).

(** The total count over all components of non-fixed parameters. *)
Definition count_nonfixed (s : t) : nat :=
  fold_right (fun cm acc => (count_free (snd cm) + acc)%nat) O (components s).

Fixpoint zseq (start : Z) (len : nat) : list Z :=
  match len with
  | O => []
  | S len' => start :: zseq (start + 1) len'
  end.

(** The entries of a [key_dict]: consecutive indices from [K]. *)
Definition full_entries (names : list string) (K : Z) : list (string * Z) :=
  combine names (zseq K (List.length names)).

(** The entries of a [key_dict_free] for the free flags [fl]: consecutive
    indices from [J] for the free parameters, the sentinel for the others. *)
Fixpoint free_entries (fl : list bool) (names : list string) (J : Z)
  : list (string * Z) :=
  match fl, names with
  | b :: fl', p :: names' =>
      if b then (p, J) :: free_entries fl' names' (J + 1)
      else (p, -99) :: free_entries fl' names' J
  | _, _ => []
  end.

Definition nfree (fl : list bool) : nat := List.length (filter (fun b => b) fl).

(** The values appended to the free vector. *)
Fixpoint free_values (fl : list bool) (vals : list value) : list value :=
  match fl, vals with
  | b :: fl', v :: vals' =>
      if b then v :: free_values fl' vals' else free_values fl' vals'
  | _, _ => []
  end.

(** The three per-component dictionaries describe the same components in the
    same order, each with a block of consecutive full indices from [N] and a
    block of consecutive free indices from [n]. *)
Inductive layout :
  list (key * model) -> list (key * list (string * Z)) ->
  list (key * list (string * Z)) -> Z -> Z -> Z -> Z -> Prop :=
| layout_nil (N n : Z) : layout [] [] [] N n N n
| layout_cons (c : key) (m : model) (fl : list bool) cs ks fs (N n N' n' : Z) :
    wf_model m ->
    List.length fl = List.length (param_names m) ->
    layout cs ks fs (N + Z.of_nat (List.length (param_names m)))
      (n + Z.of_nat (nfree fl)) N' n' ->
    layout ((c, m) :: cs)
      ((c, full_entries (param_names m) N) :: ks)
      ((c, free_entries fl (param_names m) n) :: fs) N n N' n'.

(** The invariant of the registry that every call preserves. *)
Definition shape (s : t) : Prop :=
  layout (components s) (_param_keys s) (_param_free_keys s) 0 0
    (nparams s) (nparams_free s) /\
  NoDup (map fst (components s)) /\
  (forall c, In c (map fst (mass_components s)) <-> In c (map fst (components s))) /\
  ((components s = [] /\ parameters_all s = None /\ parameters_free s = None) \/
   (exists pa pf,
       parameters_all s = Some pa /\ parameters_free s = Some pf /\
       Z.of_nat (List.length pa) = nparams s /\
       Z.of_nat (List.length pf) = nparams_free s)).

(** *** The calls of a client *)

Inductive op : Type :=
| AddComponent (obj : py_object) (nm : option string)
| SetParameterValue (c : key) (p : string) (v : value)
| SetParameterFixed (c : key) (p : string) (b : bool).

Definition call (o : op) : M unit :=
  match o with
  | AddComponent obj nm => add_component obj nm
  | SetParameterValue c p v => set_parameter_value c p v
  | SetParameterFixed c p b => set_parameter_fixed c p b
  end.

(** The registry after a sequence of calls; a caller may catch an exception
    and go on, so the state after a raising call counts too. *)
Definition run (ops : list op) (s : t) : t :=
  fold_left (fun s o => snd (call o s)) ops s.

(** The name under which [add_component] registers a model. *)
Definition registered_name (m : model) (nm : option string) : key :=
  if String.eqb (_type m) "mass" then
    match nm with
    | Some n => Some n
    | None => name m
    end
  else name m.

(** An [add_component] call is admissible when the model is well formed and
    its name is not registered yet. *)
Definition admissible (s : t) (obj : py_object) (nm : option string) : Prop :=
  match obj with
  | FittableModel m =>
      wf_model m /\
      dict_get key_eqb (registered_name m nm) (components s) = None
  | OtherObject => True
  end.

Inductive reachable : t -> Prop :=
| reach_init : reachable init
| reach_add s obj nm :
    reachable s -> admissible s obj nm ->
    reachable (snd (add_component obj nm s))
| reach_set_value s c p v :
    reachable s -> reachable (snd (set_parameter_value c p v s))
| reach_set_fixed s c p b :
    reachable s -> reachable (snd (set_parameter_fixed c p b s)).

(** [set_parameter_fixed c p b] leaves the flag of [p] as it is. *)
Definition keeps_flag (s : t) (c : key) (p : string) (b : bool) : Prop :=
  forall m b0,
    dict_get key_eqb c (components s) = Some m ->
    dict_get String.eqb p (fixed m) = Some b0 -> b0 = b.

(** Reachable without changing a fixed flag after its component was added. *)
Inductive reachable_untoggled : t -> Prop :=
| reachu_init : reachable_untoggled init
| reachu_add s obj nm :
    reachable_untoggled s -> admissible s obj nm ->
    reachable_untoggled (snd (add_component obj nm s))
| reachu_set_value s c p v :
    reachable_untoggled s ->
    reachable_untoggled (snd (set_parameter_value c p v s))
| reachu_set_fixed s c p b :
    reachable_untoggled s -> keeps_flag s c p b ->
    reachable_untoggled (snd (set_parameter_fixed c p b s)).

(** [self.components[c].parameters[i]] for the parameter named [p]. *)
Definition param_value (s : t) (c : key) (p : string) : option value :=
  match dict_get key_eqb c (components s) with
  | Some m =>
      match index p (param_names m) with
      | Some i => nth_error (parameters m) i
      | None => None
      end
  | None => None
  end.

(** [self.parameters[self._param_keys[c][p]]] *)
Definition full_value (s : t) (c : key) (p : string) : option value :=
  match dict_get key_eqb c (_param_keys s), parameters_all s with
  | Some kd, Some pa =>
      match dict_get String.eqb p kd with
      | Some k =>
          match array_get pa k with
          | Ok v => Some v
          | Raise _ => None
          end
      | None => None
      end
  | _, _ => None
  end.

(** The (component, parameter, free index) triples that [update_parameters]
    visits, in the order of its two loops. *)
Definition free_pairs (s : t) : list (key * string * Z) :=
  flat_map
    (fun ckf : key * list (string * Z) =>
       map (fun e : string * Z => (fst ckf, fst e, snd e))
         (filter (fun e : string * Z => negb (snd e =? -99)) (snd ckf)))
    (_param_free_keys s).

(** *** The loops of [_add_comp] *)

Lemma wf_fixed_entry (m : model) (p : string) :
  wf_model m -> In p (param_names m) ->
  exists b, dict_get String.eqb p (fixed m) = Some b.
Proof.
  intros (_ & _ & Hf) Hin.
  destruct (dict_get String.eqb p (fixed m)) as [b|] eqn:E; [eauto|].
  apply (dict_get_none String.eqb string_eqb_eq) in E.
  rewrite Hf in E. contradiction.
Qed.

Lemma is_free_spec (m : model) (p : string) (b : bool) :
  dict_get String.eqb p (fixed m) = Some b -> is_free m p = negb b.
Proof. intros H. unfold is_free. rewrite H. reflexivity. Qed.

Lemma append_free_spec (m : model) (names : list string) :
  (forall p, In p names -> exists b, dict_get String.eqb p (fixed m) = Some b) ->
  forall (i : nat) (vals pf : list value),
    skipn i (parameters m) = vals ->
    List.length vals = List.length names ->
    append_free m names (Z.of_nat i) pf =
    Ok (pf ++ free_values (map (is_free m) names) vals).
Proof.
  induction names as [|p names IH]; intros Hfx i vals pf Hsk Hlen; simpl.
  - rewrite app_nil_r. reflexivity.
  - destruct (Hfx p (or_introl eq_refl)) as [b Hb].
    rewrite Hb. simpl. rewrite (is_free_spec _ _ _ Hb).
    destruct vals as [|v vals]; [discriminate|].
    assert (Hnth : nth_error (parameters m) i = Some v).
    { rewrite <- (firstn_skipn i (parameters m)) at 1. rewrite Hsk.
      assert (Hl : List.length (firstn i (parameters m)) = i).
      { apply firstn_length_le.
        assert (Hs : List.length (skipn i (parameters m)) = S (List.length vals))
          by (rewrite Hsk; reflexivity).
        rewrite length_skipn in Hs. lia. }
      rewrite nth_error_app2 by lia. rewrite Hl, Nat.sub_diag. reflexivity. }
    assert (Hsk' : skipn (S i) (parameters m) = vals).
    { replace (S i) with (1 + i)%nat by lia.
      rewrite <- skipn_skipn. rewrite Hsk. reflexivity. }
    assert (Hi : Z.of_nat i + 1 = Z.of_nat (S i)) by lia.
    destruct b; simpl; rewrite Hi.
    + apply IH; auto. intros q Hq. apply Hfx. right. exact Hq.
    + rewrite (array_get_nonneg _ _ _ Hnth). cbn [bind].
      rewrite (IH (fun q Hq => Hfx q (or_intror Hq)) (S i) vals (pf ++ [v]) Hsk')
        by (simpl in Hlen; lia).
      rewrite <- app_assoc. reflexivity.
Qed.

Lemma full_entries_cons (p : string) (names : list string) (K : Z) :
  full_entries (p :: names) K = (p, K) :: full_entries names (K + 1).
Proof. reflexivity. Qed.

Lemma map_fst_full_entries (names : list string) (K : Z) :
  map fst (full_entries names K) = names.
Proof.
  revert K. induction names as [|p names IH]; intros K; [reflexivity|].
  rewrite full_entries_cons. simpl. rewrite IH. reflexivity.
Qed.

Lemma map_fst_free_entries (fl : list bool) (names : list string) (J : Z) :
  List.length fl = List.length names ->
  map fst (free_entries fl names J) = names.
Proof.
  revert names J. induction fl as [|b fl IH]; intros [|p names] J H;
    simpl in *; try discriminate; [reflexivity|].
  destruct b; simpl; rewrite IH by lia; reflexivity.
Qed.

Lemma build_keys_spec (m : model) (names : list string) :
  (forall p, In p names -> exists b, dict_get String.eqb p (fixed m) = Some b) ->
  forall (i j N n : Z) (kd kf : list (string * Z)),
    NoDup (map fst kd ++ names) ->
    map fst kf = map fst kd ->
    build_keys m names i j N n kd kf =
    Ok (kd ++ full_entries names (i + N),
        kf ++ free_entries (map (is_free m) names) names (j + n)).
Proof.
  induction names as [|p names IH]; intros Hfx i j N n kd kf Hnd Hk; simpl.
  - rewrite !app_nil_r. reflexivity.
  - destruct (Hfx p (or_introl eq_refl)) as [b Hb].
    rewrite Hb. simpl. rewrite (is_free_spec _ _ _ Hb).
    assert (Hp : ~ In p (map fst kd)).
    { apply NoDup_remove_2 in Hnd. intros H. apply Hnd.
      apply in_or_app. left. exact H. }
    assert (Hd : dict_get String.eqb p kd = None)
      by (apply (dict_get_none String.eqb string_eqb_eq); exact Hp).
    assert (Hdf : dict_get String.eqb p kf = None)
      by (apply (dict_get_none String.eqb string_eqb_eq); rewrite Hk; exact Hp).
    rewrite (dict_set_fresh String.eqb _ _ _ Hd).
    assert (Hnd' : NoDup (map fst (kd ++ [(p, i + N)]) ++ names)).
    { rewrite map_app. simpl. rewrite <- app_assoc. simpl. exact Hnd. }
    rewrite full_entries_cons.
    destruct b; simpl.
    + rewrite (dict_set_fresh String.eqb _ _ _ Hdf).
      rewrite (IH (fun q Hq => Hfx q (or_intror Hq)) (i + 1) j N n _ _ Hnd')
        by (rewrite !map_app, Hk; reflexivity).
      rewrite <- !app_assoc. simpl.
      replace (i + 1 + N) with (i + N + 1) by lia. reflexivity.
    + rewrite (dict_set_fresh String.eqb _ _ _ Hdf).
      rewrite (IH (fun q Hq => Hfx q (or_intror Hq)) (i + 1) (j + 1) N n _ _ Hnd')
        by (rewrite !map_app, Hk; reflexivity).
      rewrite <- !app_assoc. simpl.
      replace (i + 1 + N) with (i + N + 1) by lia.
      replace (j + 1 + n) with (j + n + 1) by lia. reflexivity.
Qed.

(** *** The layout is preserved *)

Definition flags_of (m : model) : list bool := map (is_free m) (param_names m).

Definition vec (o : option (list value)) : list value :=
  match o with
  | Some l => l
  | None => []
  end.

Lemma nfree_flags_of (m : model) : nfree (flags_of m) = count_free m.
Proof.
  unfold nfree, flags_of, count_free.
  induction (param_names m) as [|p l IH]; simpl; [reflexivity|].
  destruct (is_free m p); simpl; rewrite IH; reflexivity.
Qed.

Lemma length_free_values (fl : list bool) (vals : list value) :
  List.length fl = List.length vals ->
  List.length (free_values fl vals) = nfree fl.
Proof.
  revert vals. induction fl as [|b fl IH]; intros [|v vals] H; simpl in *;
    try discriminate; [reflexivity|].
  unfold nfree in *. destruct b; simpl; rewrite IH by lia; reflexivity.
Qed.

Lemma layout_keys cs ks fs A a N n :
  layout cs ks fs A a N n ->
  map fst ks = map fst cs /\ map fst fs = map fst cs.
Proof.
  induction 1 as [|c m fl cs ks fs N n N' n' Hwf Hfl Hl [IH1 IH2]]; simpl.
  - auto.
  - rewrite IH1, IH2. auto.
Qed.

Lemma layout_bounds cs ks fs A a N n :
  layout cs ks fs A a N n -> A <= N /\ a <= n.
Proof.
  induction 1 as [|c m fl cs ks fs N n N' n' Hwf Hfl Hl [IH1 IH2]]; lia.
Qed.

Lemma layout_snoc cs ks fs A a N n (c : key) (m : model) (fl : list bool) :
  layout cs ks fs A a N n ->
  wf_model m -> List.length fl = List.length (param_names m) ->
  layout (cs ++ [(c, m)])
    (ks ++ [(c, full_entries (param_names m) N)])
    (fs ++ [(c, free_entries fl (param_names m) n)]) A a
    (N + Z.of_nat (List.length (param_names m))) (n + Z.of_nat (nfree fl)).
Proof.
  intros Hl Hwf Hfl.
  induction Hl as [N n|c0 m0 fl0 cs ks fs N n N' n' Hwf0 Hfl0 Hl IH]; simpl.
  - apply layout_cons; auto. apply layout_nil.
  - apply layout_cons; auto.
Qed.

Lemma layout_replace cs ks fs A a N n (c : key) (m m' : model) :
  layout cs ks fs A a N n ->
  dict_get key_eqb c cs = Some m ->
  param_names m' = param_names m -> wf_model m' ->
  layout (dict_set key_eqb c m' cs) ks fs A a N n.
Proof.
  intros Hl. revert m.
  induction Hl as [N n|c0 m0 fl0 cs ks fs N n N' n' Hwf0 Hfl0 Hl IH];
    intros m0' Hget Hn Hwf; simpl in *.
  - discriminate.
  - destruct (key_eqb c c0) eqn:E.
    + apply key_eqb_eq in E. subst c0. injection Hget as <-.
      rewrite <- Hn. apply layout_cons; auto; rewrite Hn; auto.
    + apply layout_cons; eauto.
Qed.

Lemma layout_get cs ks fs A a N n (c : key) (m : model) :
  layout cs ks fs A a N n ->
  dict_get key_eqb c cs = Some m ->
  exists (fl : list bool) (K J : Z),
    dict_get key_eqb c ks = Some (full_entries (param_names m) K) /\
    dict_get key_eqb c fs = Some (free_entries fl (param_names m) J) /\
    List.length fl = List.length (param_names m) /\ wf_model m /\
    A <= K /\ K + Z.of_nat (List.length (param_names m)) <= N /\
    a <= J /\ J + Z.of_nat (nfree fl) <= n.
Proof.
  induction 1 as [N n|c0 m0 fl0 cs ks fs N n N' n' Hwf0 Hfl0 Hl IH];
    simpl; intros Hget.
  - discriminate.
  - destruct (key_eqb c c0) eqn:E.
    + injection Hget as <-. exists fl0, N, n.
      apply layout_bounds in Hl.
      repeat (split; [first [reflexivity | assumption | lia]|]). lia.
    + destruct (IH Hget) as (fl & K & J & H1 & H2 & H3 & H4 & H5 & H6 & H7 & H8).
      exists fl, K, J.
      repeat (split; [first [reflexivity | assumption | lia]|]). lia.
Qed.

(** The effect of [_add_comp] on a registry that satisfies the invariant,
    for a well-formed model under a new name. *)
Lemma add_comp_result (m : model) (s : t) :
  layout (components s) (_param_keys s) (_param_free_keys s) 0 0
    (nparams s) (nparams_free s) ->
  ((components s = [] /\ parameters_all s = None /\ parameters_free s = None) \/
   (exists pa pf,
       parameters_all s = Some pa /\ parameters_free s = Some pf /\
       Z.of_nat (List.length pa) = nparams s /\
       Z.of_nat (List.length pf) = nparams_free s)) ->
  wf_model m ->
  dict_get key_eqb (name m) (components s) = None ->
  _add_comp m s =
  (Ok tt,
   mkModelSet (mass_components s) (components s ++ [(name m, m)]) (geometry s)
     (Some (vec (parameters_all s) ++ parameters m))
     (Some (vec (parameters_free s) ++ free_values (flags_of m) (parameters m)))
     (dict_set key_eqb (name m) (fixed m) (fixed_all s))
     (dict_set key_eqb (name m) (param_names m) (param_names_all s))
     (_param_keys s ++ [(name m, full_entries (param_names m) (nparams s))])
     (_param_free_keys s
        ++ [(name m, free_entries (flags_of m) (param_names m) (nparams_free s))])
     (nparams s + Z.of_nat (List.length (param_names m)))
     (nparams_free s + Z.of_nat (nfree (flags_of m)))).
Proof.
  intros Hl Hv Hwf Hfresh.
  pose proof (layout_keys _ _ _ _ _ _ _ Hl) as [Hk1 Hk2].
  assert (Hfk : dict_get key_eqb (name m) (_param_keys s) = None).
  { apply (dict_get_none key_eqb key_eqb_eq). rewrite Hk1.
    apply (dict_get_none key_eqb key_eqb_eq). exact Hfresh. }
  assert (Hff : dict_get key_eqb (name m) (_param_free_keys s) = None).
  { apply (dict_get_none key_eqb key_eqb_eq). rewrite Hk2.
    apply (dict_get_none key_eqb key_eqb_eq). exact Hfresh. }
  assert (Hfx : forall p, In p (param_names m) ->
                          exists b, dict_get String.eqb p (fixed m) = Some b)
    by (intros p Hp; apply wf_fixed_entry; auto).
  destruct Hwf as (Hndn & Hlen & Hfixed).
  pose proof (append_free_spec m (param_names m) Hfx O (parameters m)) as Haf.
  pose proof (build_keys_spec m (param_names m) Hfx 0 0 (nparams s)
                (nparams_free s) [] [] Hndn eq_refl) as Hbk.
  simpl in Hbk.
  destruct s as [mc cs g pa pf fa pn ks fs N n]. simpl in *.
  unfold _add_comp, mbind, modify, get, lift. simpl.
  rewrite (dict_set_fresh key_eqb _ _ _ Hfresh).
  destruct Hv as [(Hc & Hpa & Hpf) | (pa' & pf' & Hpa & Hpf & HN & Hn)];
    subst pa pf; simpl.
  - rewrite (Haf [] eq_refl Hlen). simpl. rewrite Hbk. simpl.
    rewrite (dict_set_fresh key_eqb _ _ _ Hfk).
    rewrite (dict_set_fresh key_eqb _ _ _ Hff).
    subst cs. inversion Hl; subst.
    do 2 f_equal.
    rewrite length_free_values by (unfold flags_of; rewrite length_map; lia).
    reflexivity.
  - rewrite (Haf pf' eq_refl Hlen). simpl. rewrite Hbk. simpl.
    rewrite (dict_set_fresh key_eqb _ _ _ Hfk).
    rewrite (dict_set_fresh key_eqb _ _ _ Hff).
    do 2 f_equal.
    rewrite length_app, Nat2Z.inj_add, Hn.
    rewrite length_free_values by (unfold flags_of; rewrite length_map; lia).
    reflexivity.
Qed.

(** Two registries with the same index dictionaries and components that
    differ in values and flags only. *)
Definition comp_rel (cs cs' : list (key * model)) : Prop :=
  Forall2 (fun x y : key * model =>
             fst y = fst x /\ param_names (snd y) = param_names (snd x) /\
             (wf_model (snd x) -> wf_model (snd y))) cs cs'.

Definition similar (s s' : t) : Prop :=
  comp_rel (components s) (components s') /\
  _param_keys s' = _param_keys s /\
  _param_free_keys s' = _param_free_keys s /\
  nparams s' = nparams s /\ nparams_free s' = nparams_free s /\
  mass_components s' = mass_components s /\
  option_map (@List.length value) (parameters_all s')
  = option_map (@List.length value) (parameters_all s) /\
  option_map (@List.length value) (parameters_free s')
  = option_map (@List.length value) (parameters_free s).

Lemma comp_rel_refl (cs : list (key * model)) : comp_rel cs cs.
Proof. induction cs; constructor; auto. Qed.

Lemma comp_rel_trans (a b c : list (key * model)) :
  comp_rel a b -> comp_rel b c -> comp_rel a c.
Proof.
  intros H. revert c. induction H as [|x y a b (H1 & H2 & H3) Hab IH];
    intros c Hbc; inversion Hbc as [|? z ? c' (H4 & H5 & H6) Hbc']; subst.
  - constructor.
  - constructor; [|apply IH; exact Hbc'].
    split; [congruence|]. split; [congruence|]. auto.
Qed.

Lemma comp_rel_keys (a b : list (key * model)) :
  comp_rel a b -> map fst b = map fst a.
Proof.
  induction 1 as [|x y a b (H1 & _) Hab IH]; simpl; congruence.
Qed.

Lemma comp_rel_dict_set (cs : list (key * model)) (c : key) (m m' : model) :
  dict_get key_eqb c cs = Some m ->
  param_names m' = param_names m -> (wf_model m -> wf_model m') ->
  comp_rel cs (dict_set key_eqb c m' cs).
Proof.
  intros Hget Hn Hwf. induction cs as [|[c0 m0] cs IH]; simpl in *.
  - discriminate.
  - destruct (key_eqb c c0) eqn:E.
    + apply key_eqb_eq in E. subst c0. injection Hget as ->.
      constructor; [|apply comp_rel_refl]. simpl. auto.
    + constructor; [simpl; auto | apply IH; exact Hget].
Qed.

Lemma similar_refl (s : t) : similar s s.
Proof. unfold similar. repeat split; auto. apply comp_rel_refl. Qed.

Lemma similar_trans (a b c : t) : similar a b -> similar b c -> similar a c.
Proof.
  unfold similar.
  intros (H1 & H2 & H3 & H4 & H5 & H6 & H7 & H8)
         (G1 & G2 & G3 & G4 & G5 & G6 & G7 & G8).
  repeat split; try congruence. eapply comp_rel_trans; eauto.
Qed.

Lemma layout_comp_rel cs cs' ks fs A a N n :
  layout cs ks fs A a N n -> comp_rel cs cs' -> layout cs' ks fs A a N n.
Proof.
  intros Hl. revert cs'.
  induction Hl as [N n|c0 m0 fl0 cs ks fs N n N' n' Hwf0 Hfl0 Hl IH];
    intros cs' Hr; inversion Hr as [|? [c1 m1] ? cs1 (H1 & H2 & H3) Hr']; subst.
  - constructor.
  - simpl in *. subst c1. rewrite <- H2.
    apply layout_cons; auto; rewrite H2; auto.
Qed.

Lemma similar_shape (s s' : t) : shape s -> similar s s' -> shape s'.
Proof.
  intros (Hl & Hnd & Hmc & Hv) (H1 & H2 & H3 & H4 & H5 & H6 & H7 & H8).
  pose proof (comp_rel_keys _ _ H1) as Hk.
  unfold shape. rewrite H2, H3, H4, H5, H6, Hk.
  repeat split; auto.
  - eapply layout_comp_rel; eauto.
  - apply Hmc.
  - apply Hmc.
  - destruct Hv as [(Hc & Hpa & Hpf) | (pa & pf & Hpa & Hpf & HN & Hn)].
    + left. rewrite Hpa in H7. rewrite Hpf in H8. rewrite Hc in H1.
      inversion H1; subst.
      destruct (parameters_all s'); [discriminate|].
      destruct (parameters_free s'); [discriminate|]. auto.
    + right. rewrite Hpa in H7. rewrite Hpf in H8.
      destruct (parameters_all s') as [pa'|]; [|discriminate].
      destruct (parameters_free s') as [pf'|]; [|discriminate].
      simpl in H7, H8. injection H7 as H7. injection H8 as H8.
      exists pa', pf'. repeat split; auto; congruence.
Qed.

Lemma array_set_length {A : Type} (a a' : list A) (i : Z) (v : A) :
  array_set a i v = Ok a' -> List.length a' = List.length a.
Proof.
  unfold array_set. destruct (position (List.length a) i); [|discriminate].
  intros H. injection H as <-. apply length_upd.
Qed.

Lemma wf_with_parameters (m : model) (ps : list value) :
  List.length ps = List.length (parameters m) ->
  wf_model m -> wf_model (with_parameters m ps).
Proof.
  intros Hlen (H1 & H2 & H3). unfold wf_model. simpl.
  repeat split; auto. congruence.
Qed.

Lemma wf_with_fixed (m : model) (p : string) (b : bool) (i : nat) :
  index p (param_names m) = Some i ->
  wf_model m ->
  wf_model (with_fixed m (dict_set String.eqb p b (fixed m))).
Proof.
  intros Hi Hwf. pose proof Hwf as (H1 & H2 & H3).
  unfold wf_model. simpl. repeat split; auto.
  destruct (wf_fixed_entry m p Hwf) as [b0 Hb0].
  { apply index_some in Hi. eapply nth_error_In; eauto. }
  rewrite (dict_set_keys String.eqb string_eqb_eq _ _ _ _ Hb0). exact H3.
Qed.

(** [set_parameter_value] changes values only, whether it returns or raises. *)
Lemma set_parameter_value_similar (c : key) (p : string) (v : value) (s : t) :
  similar s (snd (set_parameter_value c p v s)).
Proof.
  destruct s as [mc cs g pa pf fa pn ks fs N n].
  unfold set_parameter_value, write_component, mbind, get, lift, lookup,
    modify, ret. simpl.
  destruct (dict_get key_eqb c cs) as [m|] eqn:E1; simpl;
    [|apply similar_refl].
  destruct (index p (param_names m)) as [i|] eqn:E2; simpl;
    [|apply similar_refl].
  destruct (array_set (parameters m) (Z.of_nat i) v) as [ps|e] eqn:E3; simpl;
    [|apply similar_refl].
  assert (Hc : comp_rel cs (dict_set key_eqb c (with_parameters m ps) cs)).
  { eapply comp_rel_dict_set; eauto.
    apply wf_with_parameters. eapply array_set_length; eauto. }
  assert (Hbase : similar (mkModelSet mc cs g pa pf fa pn ks fs N n)
            (mkModelSet mc (dict_set key_eqb c (with_parameters m ps) cs) g pa pf
               fa pn ks fs N n)).
  { unfold similar; simpl. repeat split; auto. }
  destruct (dict_get key_eqb c ks) as [kd|] eqn:E4; simpl; [|exact Hbase].
  destruct (dict_get String.eqb p kd) as [k|] eqn:E5; simpl; [|exact Hbase].
  destruct pa as [pa|]; simpl; [|exact Hbase].
  destruct (array_set pa k v) as [pa'|e] eqn:E6; simpl; [|exact Hbase].
  assert (Hpa : List.length pa' = List.length pa)
    by (eapply array_set_length; eauto).
  assert (Hbase2 : similar (mkModelSet mc cs g (Some pa) pf fa pn ks fs N n)
            (mkModelSet mc (dict_set key_eqb c (with_parameters m ps) cs) g
               (Some pa') pf fa pn ks fs N n)).
  { unfold similar; simpl. repeat split; auto; congruence. }
  destruct (dict_get String.eqb p (fixed m)) as [fx|] eqn:E7; simpl;
    [|exact Hbase2].
  destruct fx; simpl; [exact Hbase2|].
  destruct (dict_get key_eqb c fs) as [kf|] eqn:E8; simpl; [|exact Hbase2].
  destruct (dict_get String.eqb p kf) as [ind|] eqn:E9; simpl; [|exact Hbase2].
  destruct pf as [pf|]; simpl; [|exact Hbase2].
  destruct (array_set pf ind v) as [pf'|e] eqn:E10; simpl; [|exact Hbase2].
  assert (Hpf : List.length pf' = List.length pf)
    by (eapply array_set_length; eauto).
  unfold similar; simpl. repeat split; auto; congruence.
Qed.

(** [set_parameter_fixed] changes flags only. *)
Lemma set_parameter_fixed_similar (c : key) (p : string) (b : bool) (s : t) :
  similar s (snd (set_parameter_fixed c p b s)).
Proof.
  destruct s as [mc cs g pa pf fa pn ks fs N n].
  unfold set_parameter_fixed, mbind, get, lift, lookup, modify, ret. simpl.
  destruct (dict_get key_eqb c cs) as [m|] eqn:E1; simpl;
    [|apply similar_refl].
  destruct (index p (param_names m)) as [i|] eqn:E2; simpl;
    [|apply similar_refl].
  assert (Hc : comp_rel cs
                 (dict_set key_eqb c
                    (with_fixed m (dict_set String.eqb p b (fixed m))) cs)).
  { eapply comp_rel_dict_set; eauto. eapply wf_with_fixed; eauto. }
  destruct (dict_get key_eqb c fa) as [fx|] eqn:E3; simpl;
    unfold similar; simpl; repeat split; auto.
Qed.

Lemma dict_set_keys_in {V : Type} (k c : key) (v : V) (d : list (key * V)) :
  In c (map fst (dict_set key_eqb k v d)) <-> c = k \/ In c (map fst d).
Proof.
  induction d as [|[k' v'] d IH]; simpl.
  - intuition congruence.
  - destruct (key_eqb k k') eqn:E; simpl.
    + apply key_eqb_eq in E. subst. intuition congruence.
    + rewrite IH. intuition congruence.
Qed.

Lemma layout_nil_inv ks fs A a N n :
  layout [] ks fs A a N n -> ks = [] /\ fs = [] /\ N = A /\ n = a.
Proof. intros H. inversion H; subst. auto. Qed.

(** [_add_comp] returns and re-establishes the invariant. *)
Lemma add_comp_shape (m : model) (s : t) :
  layout (components s) (_param_keys s) (_param_free_keys s) 0 0
    (nparams s) (nparams_free s) ->
  NoDup (map fst (components s)) ->
  (forall c, In c (map fst (mass_components s)) <->
             c = name m \/ In c (map fst (components s))) ->
  ((components s = [] /\ parameters_all s = None /\ parameters_free s = None) \/
   (exists pa pf,
       parameters_all s = Some pa /\ parameters_free s = Some pf /\
       Z.of_nat (List.length pa) = nparams s /\
       Z.of_nat (List.length pf) = nparams_free s)) ->
  wf_model m ->
  dict_get key_eqb (name m) (components s) = None ->
  fst (_add_comp m s) = Ok tt /\ shape (snd (_add_comp m s)).
Proof.
  intros Hl Hnd Hmc Hv Hwf Hfresh.
  rewrite (add_comp_result m s Hl Hv Hwf Hfresh). simpl.
  split; [reflexivity|].
  assert (Hlens : Z.of_nat (List.length (vec (parameters_all s))) = nparams s /\
                  Z.of_nat (List.length (vec (parameters_free s))) = nparams_free s).
  { destruct Hv as [(Hc & Hpa & Hpf) | (pa & pf & Hpa & Hpf & HN & Hn)].
    - rewrite Hc in Hl. apply layout_nil_inv in Hl.
      rewrite Hpa, Hpf. simpl. lia.
    - rewrite Hpa, Hpf. simpl. auto. }
  destruct Hlens as [HN Hn].
  pose proof Hwf as (Hw1 & Hw2 & Hw3).
  unfold shape. simpl. repeat split.
  - apply layout_snoc; auto. unfold flags_of. apply length_map.
  - rewrite map_app. simpl.
    apply (dict_get_none key_eqb key_eqb_eq) in Hfresh.
    clear - Hnd Hfresh.
    induction (map fst (components s)) as [|k l IH]; simpl in *.
    + constructor; [tauto | constructor].
    + inversion Hnd; subst. constructor.
      * intros Hin. apply in_app_or in Hin. simpl in Hin. intuition.
      * apply IH; auto.
  - intros Hin. rewrite map_app. apply in_or_app. simpl.
    apply Hmc in Hin. intuition.
  - intros Hin. rewrite map_app in Hin. apply in_app_or in Hin. simpl in Hin.
    apply Hmc. intuition.
  - right. eexists. eexists. split; [reflexivity|]. split; [reflexivity|].
    rewrite !length_app, !Nat2Z.inj_add, HN, Hn, Hw2.
    rewrite length_free_values
      by (unfold flags_of; rewrite length_map; lia).
    auto.
Qed.

Lemma wf_rename (m : model) (n : string) : wf_model m -> wf_model (rename m n).
Proof. intros H. exact H. Qed.

(** An admissible [add_component] preserves the invariant. *)
Lemma add_component_shape (obj : py_object) (nm : option string) (s : t) :
  shape s -> admissible s obj nm -> shape (snd (add_component obj nm s)).
Proof.
  intros Hs Ha. pose proof Hs as (Hl & Hnd & Hmc & Hv).
  destruct obj as [m|]; [|exact Hs].
  destruct Ha as [Hwf Hfresh]. unfold registered_name in Hfresh.
  unfold add_component.
  destruct (String.eqb (_type m) "mass") eqn:Et.
  - assert (Hgo : forall m', wf_model m' ->
                dict_get key_eqb (name m') (components s) = None ->
                shape (snd ((s0 <- get ;;
                             if (0 <? count (name m') (dict_keys (mass_components s0)))%nat
                             then raise duplicate_component
                             else
                               modify (fun s1 => set_mass_components
                                  (dict_set key_eqb (name m') true (mass_components s1)) s1) ;;;
                               _add_comp m')%M s))).
    { intros m' Hwf' Hfresh'. unfold mbind, get. simpl.
      destruct (0 <? count (name m') (dict_keys (mass_components s)))%nat;
        [exact Hs|].
      unfold modify. simpl.
      apply add_comp_shape; simpl; auto.
      intros c. rewrite dict_set_keys_in. rewrite Hmc. tauto. }
    destruct nm as [n|]; [|destruct (name m) as [n0|] eqn:En].
    + apply Hgo; [apply wf_rename; exact Hwf | exact Hfresh].
    + cbv beta iota zeta. rewrite <- En in *. apply Hgo; auto.
    + exact Hs.
  - destruct (String.eqb (_type m) "geometry") eqn:Eg; [|exact Hs].
    unfold mbind, modify. simpl.
    apply add_comp_shape; simpl; auto.
    intros c. rewrite dict_set_keys_in. rewrite Hmc. tauto.
Qed.

Lemma shape_init : shape init.
Proof.
  unfold shape, init. simpl. repeat split; auto.
  - constructor.
  - constructor.
Qed.

(** Every reachable registry satisfies the invariant. *)
Lemma reachable_shape (s : t) : reachable s -> shape s.
Proof.
  induction 1 as [|s obj nm Hr IH Ha|s c p v Hr IH|s c p b Hr IH].
  - apply shape_init.
  - apply add_component_shape; auto.
  - eapply similar_shape; [exact IH | apply set_parameter_value_similar].
  - eapply similar_shape; [exact IH | apply set_parameter_fixed_similar].
Qed.

(** *** [update_parameters] *)

(** One write of [update_parameters]: [set_parameter_value(cmp, pp, theta[ind])]. *)
Definition write_pair (theta : list value) (x : key * string * Z) : M unit :=
  let '(cmp, pp, ind) := x in
  (v <- lift (array_get theta ind) ;; set_parameter_value cmp pp v)%M.

Lemma for_each_app {A : Type} (l1 l2 : list A) (body : A -> M unit) (s : t) :
  for_each (l1 ++ l2) body s
  = mbind (for_each l1 body) (fun _ => for_each l2 body) s.
Proof.
  revert s. induction l1 as [|x l1 IH]; intros s; simpl.
  - reflexivity.
  - unfold mbind in *. destruct (body x s) as [[u|e] s1]; [|reflexivity].
    rewrite IH. reflexivity.
Qed.

Lemma for_each_ext {A : Type} (l : list A) (f g : A -> M unit) (s : t) :
  (forall x s, In x l -> f x s = g x s) -> for_each l f s = for_each l g s.
Proof.
  revert s. induction l as [|x l IH]; intros s H; simpl; [reflexivity|].
  unfold mbind. rewrite (H x s (or_introl eq_refl)).
  destruct (g x s) as [[u|e] s1]; [|reflexivity].
  apply IH. intros y s' Hy. apply H. right. exact Hy.
Qed.

Lemma for_each_inner (theta : list value) (c : key) (kf : list (string * Z)) (s : t) :
  for_each kf (update_one theta c) s
  = for_each
      (map (fun e : string * Z => (c, fst e, snd e))
         (filter (fun e : string * Z => negb (snd e =? -99)) kf))
      (write_pair theta) s.
Proof.
  revert s. induction kf as [|[p ind] kf IH]; intros s; simpl; [reflexivity|].
  destruct (negb (ind =? -99)) eqn:E; simpl.
  - unfold mbind.
    match goal with
    | |- (let (r, s') := ?X in _) = _ => destruct X as [[u|e] s1]
    end; [apply IH | reflexivity].
  - unfold mbind, ret. apply IH.
Qed.

(** The two nested loops visit [free_pairs] in order. *)
Lemma for_each_free_pairs (theta : list value)
    (fs : list (key * list (string * Z))) (s : t) :
  for_each fs (fun '(cmp, kf) => for_each kf (update_one theta cmp)) s
  = for_each
      (flat_map
         (fun ckf : key * list (string * Z) =>
            map (fun e : string * Z => (fst ckf, fst e, snd e))
              (filter (fun e : string * Z => negb (snd e =? -99)) (snd ckf))) fs)
      (write_pair theta) s.
Proof.
  revert s. induction fs as [|[c kf] fs IH]; intros s; simpl; [reflexivity|].
  rewrite for_each_app. unfold mbind. rewrite for_each_inner.
  destruct (for_each _ (write_pair theta) s) as [[u|e] s1]; [|reflexivity].
  apply IH.
Qed.

Lemma set_parameter_value_raises (c : key) (p : string) (v : value) (s : t) (e : exn) :
  fst (set_parameter_value c p v s) = Raise e ->
  e = model_not_in_set \/ e = param_not_in_model \/ e = missing_key \/
  e = no_array \/ e = IndexError.
Proof.
  destruct s as [mc cs g pa pf fa pn ks fs N n].
  unfold set_parameter_value, write_component, mbind, get, lift, lookup,
    modify, ret, array_set. simpl.
  assert (Hfin : forall r : exn,
             r = model_not_in_set \/ r = param_not_in_model \/
             r = missing_key \/ r = no_array \/ r = IndexError ->
             Raise (A:=unit) r = Raise e ->
             e = model_not_in_set \/ e = param_not_in_model \/
             e = missing_key \/ e = no_array \/ e = IndexError).
  { intros r Hr H. injection H as <-. exact Hr. }
  destruct (dict_get key_eqb c cs) as [m|]; simpl; [|apply Hfin; tauto].
  destruct (index p (param_names m)) as [i|]; simpl; [|apply Hfin; tauto].
  destruct (position (List.length (parameters m)) (Z.of_nat i)); simpl;
    [|apply Hfin; tauto].
  destruct (dict_get key_eqb c ks) as [kd|]; simpl; [|apply Hfin; tauto].
  destruct (dict_get String.eqb p kd) as [k|]; simpl; [|apply Hfin; tauto].
  destruct pa as [pa|]; simpl; [|apply Hfin; tauto].
  destruct (position (List.length pa) k); simpl; [|apply Hfin; tauto].
  destruct (dict_get String.eqb p (fixed m)) as [fx|]; simpl;
    [|apply Hfin; tauto].
  destruct fx; simpl; [discriminate|].
  destruct (dict_get key_eqb c fs) as [kf|]; simpl; [|apply Hfin; tauto].
  destruct (dict_get String.eqb p kf) as [ind|]; simpl; [|apply Hfin; tauto].
  destruct pf as [pf|]; simpl; [|apply Hfin; tauto].
  destruct (position (List.length pf) ind); simpl; [|apply Hfin; tauto].
  discriminate.
Qed.

Lemma write_pair_not_length_mismatch (theta : list value) (x : key * string * Z) (s : t) :
  fst (write_pair theta x s) <> Raise length_mismatch.
Proof.
  destruct x as [[c p] ind]. unfold write_pair, mbind, lift.
  unfold array_get.
  destruct (position (List.length theta) ind) as [k|]; [|discriminate].
  destruct (nth_error theta k) as [v|]; [|discriminate].
  intros H. apply set_parameter_value_raises in H.
  unfold length_mismatch, model_not_in_set, param_not_in_model, missing_key,
    no_array in H.
  intuition discriminate.
Qed.

Lemma for_each_not_raise {A : Type} (l : list A) (body : A -> M unit) (e : exn) :
  (forall x s, fst (body x s) <> Raise e) ->
  forall s, fst (for_each l body s) <> Raise e.
Proof.
  intros H. induction l as [|x l IH]; intros s; simpl; [discriminate|].
  unfold mbind. destruct (body x s) as [[u|e'] s1] eqn:E.
  - apply IH.
  - specialize (H x s). rewrite E in H. exact H.
Qed.

(** With the right length, [update_parameters] is the sequence of writes
    over [free_pairs]. *)
Lemma update_parameters_writes (theta : list value) (s : t) :
  Z.of_nat (List.length theta) = nparams_free s ->
  update_parameters theta s = for_each (free_pairs s) (write_pair theta) s.
Proof.
  intros H. unfold update_parameters, mbind, get.
  rewrite H, Z.eqb_refl. simpl. apply for_each_free_pairs.
Qed.

(** *** Indices *)

Lemma zseq_app (a : Z) (x y : nat) :
  zseq a (x + y) = zseq a x ++ zseq (a + Z.of_nat x) y.
Proof.
  revert a. induction x as [|x IH]; intros a.
  - simpl. replace (a + 0) with a by lia. reflexivity.
  - cbn [Nat.add zseq app]. rewrite IH.
    replace (a + 1 + Z.of_nat x) with (a + Z.of_nat (S x)) by lia.
    reflexivity.
Qed.

Lemma full_entries_index (names : list string) (K : Z) (p : string) (i : nat) :
  index p names = Some i ->
  dict_get String.eqb p (full_entries names K) = Some (K + Z.of_nat i).
Proof.
  revert K i. induction names as [|q names IH]; intros K i.
  - discriminate.
  - rewrite full_entries_cons. cbn [index dict_get].
    destruct (String.eqb p q).
    + intros H. injection H as <-. f_equal. lia.
    + destruct (index p names) as [j|]; [|discriminate].
      intros H. injection H as <-.
      rewrite (IH (K + 1) j eq_refl). f_equal. lia.
Qed.

Lemma free_entries_range (fl : list bool) (names : list string) (J : Z)
    (p : string) (ind : Z) :
  In (p, ind) (free_entries fl names J) -> ind <> -99 ->
  J <= ind < J + Z.of_nat (nfree fl).
Proof.
  revert names J. induction fl as [|b fl IH]; intros [|q names] J Hin Hne;
    simpl in *; try tauto.
  unfold nfree in *. destruct b; simpl in *.
  - destruct Hin as [Hin|Hin].
    + injection Hin as -> ->. lia.
    + specialize (IH names (J + 1) Hin Hne). lia.
  - destruct Hin as [Hin|Hin].
    + injection Hin as -> Hi. congruence.
    + apply (IH names J); auto.
Qed.

Lemma free_entries_indices (fl : list bool) (names : list string) (J : Z) :
  0 <= J -> List.length fl = List.length names ->
  map snd (filter (fun e : string * Z => negb (snd e =? -99))
             (free_entries fl names J))
  = zseq J (nfree fl).
Proof.
  revert names J. induction fl as [|b fl IH]; intros [|q names] J HJ Hlen;
    simpl in *; try discriminate; [reflexivity|].
  unfold nfree in *. destruct b; simpl.
  - replace (J =? -99) with false by (symmetry; apply Z.eqb_neq; lia).
    simpl. rewrite IH by lia. reflexivity.
  - apply IH; lia.
Qed.

(** The triples of one component. *)
Definition pairs_of (ckf : key * list (string * Z)) : list (key * string * Z) :=
  map (fun e : string * Z => (fst ckf, fst e, snd e))
    (filter (fun e : string * Z => negb (snd e =? -99)) (snd ckf)).

Lemma free_pairs_unfold (s : t) :
  free_pairs s = flat_map pairs_of (_param_free_keys s).
Proof. reflexivity. Qed.

Lemma in_pairs_of (ckf : key * list (string * Z)) (c : key) (p : string) (ind : Z) :
  In (c, p, ind) (pairs_of ckf) <->
  c = fst ckf /\ In (p, ind) (snd ckf) /\ ind <> -99.
Proof.
  unfold pairs_of. rewrite in_map_iff. split.
  - intros ([q j] & Heq & Hin). simpl in Heq. injection Heq as <- <- <-.
    apply filter_In in Hin. destruct Hin as [Hin Hne]. simpl in Hne.
    repeat split; auto. intros ->. discriminate.
  - intros (-> & Hin & Hne). exists (p, ind). split; [reflexivity|].
    apply filter_In. split; [exact Hin|]. simpl.
    apply negb_true_iff. apply Z.eqb_neq. exact Hne.
Qed.

Lemma in_free_pairs (s : t) (c : key) (p : string) (ind : Z) :
  In (c, p, ind) (free_pairs s) <->
  exists kf, In (c, kf) (_param_free_keys s) /\ In (p, ind) kf /\ ind <> -99.
Proof.
  rewrite free_pairs_unfold, in_flat_map. split.
  - intros ([c' kf] & Hin & Hp). apply in_pairs_of in Hp. simpl in Hp.
    destruct Hp as (-> & Hp & Hne). exists kf. auto.
  - intros (kf & Hin & Hp & Hne). exists (c, kf). split; [exact Hin|].
    apply in_pairs_of. auto.
Qed.

(** The free indices of the visited triples are 0, 1, ..., in this order. *)
Lemma layout_free_indices cs ks fs A a N n :
  layout cs ks fs A a N n -> 0 <= a ->
  map snd (flat_map pairs_of fs) = zseq a (Z.to_nat (n - a)).
Proof.
  induction 1 as [N n|c m fl cs ks fs N n N' n' Hwf Hfl Hl IH]; intros Ha;
    simpl.
  - rewrite Z.sub_diag. reflexivity.
  - rewrite map_app. rewrite IH by lia.
    unfold pairs_of at 1. simpl. rewrite map_map. simpl.
    rewrite <- (map_map (fun e : string * Z => e) snd), map_id.
    rewrite free_entries_indices by auto.
    apply layout_bounds in Hl.
    replace (Z.to_nat (n' - n))
      with (nfree fl + Z.to_nat (n' - (n + Z.of_nat (nfree fl))))%nat by lia.
    rewrite zseq_app. reflexivity.
Qed.

(** What the invariant says of a visited triple. *)
Lemma shape_pair (s : t) (c : key) (p : string) (ind : Z) :
  shape s -> In (c, p, ind) (free_pairs s) ->
  exists (m : model) (i : nat) (fl : list bool) (K J : Z) (pa pf : list value),
    dict_get key_eqb c (components s) = Some m /\ wf_model m /\
    index p (param_names m) = Some i /\
    dict_get key_eqb c (_param_keys s) = Some (full_entries (param_names m) K) /\
    dict_get key_eqb c (_param_free_keys s)
    = Some (free_entries fl (param_names m) J) /\
    dict_get String.eqb p (free_entries fl (param_names m) J) = Some ind /\
    List.length fl = List.length (param_names m) /\
    0 <= K /\ K + Z.of_nat (List.length (param_names m)) <= nparams s /\
    0 <= J /\ J <= ind < J + Z.of_nat (nfree fl) /\
    J + Z.of_nat (nfree fl) <= nparams_free s /\
    parameters_all s = Some pa /\ Z.of_nat (List.length pa) = nparams s /\
    parameters_free s = Some pf /\ Z.of_nat (List.length pf) = nparams_free s.
Proof.
  intros (Hl & Hnd & Hmc & Hv) Hin.
  apply in_free_pairs in Hin. destruct Hin as (kf & Hkf & Hp & Hne).
  pose proof (layout_keys _ _ _ _ _ _ _ Hl) as [Hk1 Hk2].
  assert (Hget : dict_get key_eqb c (_param_free_keys s) = Some kf).
  { apply (dict_get_in key_eqb key_eqb_eq); [rewrite Hk2; exact Hnd | exact Hkf]. }
  destruct (dict_get key_eqb c (components s)) as [m|] eqn:Em.
  2:{ apply (dict_get_none key_eqb key_eqb_eq) in Em. exfalso. apply Em.
      rewrite <- Hk2. change c with (fst (c, kf)). apply in_map. exact Hkf. }
  destruct (layout_get _ _ _ _ _ _ _ c m Hl Em)
    as (fl & K & J & H1 & H2 & H3 & H4 & H5 & H6 & H7 & H8).
  rewrite H2 in Hget. injection Hget as <-.
  assert (Hpn : In p (param_names m)).
  { rewrite <- (map_fst_free_entries fl (param_names m) J H3).
    change p with (fst (p, ind)). apply in_map. exact Hp. }
  destruct (index_in p _ Hpn) as (i & Hi & Hnth).
  assert (Hgp : dict_get String.eqb p (free_entries fl (param_names m) J) = Some ind).
  { apply (dict_get_in String.eqb string_eqb_eq); [|exact Hp].
    rewrite map_fst_free_entries by exact H3. apply H4. }
  pose proof (free_entries_range _ _ _ _ _ Hp Hne) as Hr.
  destruct Hv as [(Hc & _) | (pa & pf & Hpa & Hpf & HN & Hn)].
  { rewrite Hc in Em. discriminate. }
  exists m, i, fl, K, J, pa, pf.
  split; [reflexivity|]. split; [exact H4|].
  repeat (split; [first [assumption | lia]|]). assumption.
Qed.

(** *** The effect of [set_parameter_value] *)

(** When every read succeeds, the three writes. *)
Lemma set_parameter_value_eval (c : key) (p : string) (v : value) (s : t)
    (m : model) (i k : nat) (kd : list (string * Z)) (pa : list value) (fx : bool) :
  dict_get key_eqb c (components s) = Some m ->
  index p (param_names m) = Some i ->
  (i < List.length (parameters m))%nat ->
  dict_get key_eqb c (_param_keys s) = Some kd ->
  dict_get String.eqb p kd = Some (Z.of_nat k) ->
  parameters_all s = Some pa -> (k < List.length pa)%nat ->
  dict_get String.eqb p (fixed m) = Some fx ->
  let s1 :=
    set_parameters_all (Some (upd k v pa))
      (set_components
         (dict_set key_eqb c (with_parameters m (upd i v (parameters m)))
            (components s)) s) in
  (fx = true -> set_parameter_value c p v s = (Ok tt, s1)) /\
  (fx = false ->
   forall (kf : list (string * Z)) (ind : nat) (pf : list value),
     dict_get key_eqb c (_param_free_keys s) = Some kf ->
     dict_get String.eqb p kf = Some (Z.of_nat ind) ->
     parameters_free s = Some pf -> (ind < List.length pf)%nat ->
     set_parameter_value c p v s
     = (Ok tt, set_parameters_free (Some (upd ind v pf)) s1)).
Proof.
  intros H1 H2 H3 H4 H5 H6 H7 H8 s1. subst s1.
  destruct s as [mc cs g pa0 pf0 fa pn ks fs N n]. simpl in *. subst pa0.
  unfold set_parameter_value, write_component, mbind, get, lift, lookup,
    modify, ret. simpl.
  rewrite H1. simpl. rewrite H2. simpl.
  rewrite (array_set_nonneg _ _ _ H3). simpl.
  rewrite H4. simpl. rewrite H5. simpl.
  rewrite (array_set_nonneg _ _ _ H7). simpl.
  rewrite H8. simpl.
  split.
  - intros ->. reflexivity.
  - intros -> kf ind pf G1 G2 G3 G4. simpl. subst pf0.
    rewrite G1. simpl. rewrite G2. simpl.
    rewrite (array_set_nonneg _ _ _ G4). reflexivity.
Qed.

Lemma array_set_nat {A : Type} (a : list A) (i : nat) (v : A) :
  array_set a (Z.of_nat i) v
  = if (i <? List.length a)%nat then Ok (upd i v a) else Raise IndexError.
Proof.
  destruct (i <? List.length a)%nat eqn:E.
  - apply Nat.ltb_lt in E. apply array_set_nonneg. exact E.
  - apply Nat.ltb_ge in E. unfold array_set, position.
    replace (Z.of_nat i <? Z.of_nat (List.length a)) with false
      by (symmetry; apply Z.ltb_ge; lia).
    replace (Z.of_nat i <? 0) with false by (symmetry; apply Z.ltb_ge; lia).
    rewrite !andb_false_r. reflexivity.
Qed.

(** Whatever the outcome, at most one entry of one component array changes. *)
Lemma set_parameter_value_components (c : key) (p : string) (v : value) (s : t) :
  components (snd (set_parameter_value c p v s)) = components s \/
  exists (m : model) (i : nat),
    dict_get key_eqb c (components s) = Some m /\
    index p (param_names m) = Some i /\
    components (snd (set_parameter_value c p v s))
    = dict_set key_eqb c (with_parameters m (upd i v (parameters m)))
        (components s).
Proof.
  destruct s as [mc cs g pa pf fa pn ks fs N n].
  unfold set_parameter_value, write_component, mbind, get, lift, lookup,
    modify, ret. simpl.
  destruct (dict_get key_eqb c cs) as [m|] eqn:E1; simpl; [|auto].
  destruct (index p (param_names m)) as [i|] eqn:E2; simpl; [|auto].
  rewrite array_set_nat.
  destruct (i <? List.length (parameters m))%nat eqn:E3; simpl; [|auto].
  assert (Hr : exists m0 i0,
             Some m = Some m0 /\ index p (param_names m0) = Some i0 /\
             dict_set key_eqb c (with_parameters m (upd i v (parameters m))) cs
             = dict_set key_eqb c (with_parameters m0 (upd i0 v (parameters m0))) cs)
    by (exists m, i; auto).
  destruct (dict_get key_eqb c ks) as [kd|]; simpl; [|right; exact Hr].
  destruct (dict_get String.eqb p kd) as [k|]; simpl; [|right; exact Hr].
  destruct pa as [pa|]; simpl; [|right; exact Hr].
  destruct (array_set pa k v) as [pa'|e]; simpl; [|right; exact Hr].
  destruct (dict_get String.eqb p (fixed m)) as [fx|]; simpl; [|right; exact Hr].
  destruct fx; simpl; [right; exact Hr|].
  destruct (dict_get key_eqb c fs) as [kf|]; simpl; [|right; exact Hr].
  destruct (dict_get String.eqb p kf) as [ind|]; simpl; [|right; exact Hr].
  destruct pf as [pf|]; simpl; [|right; exact Hr].
  destruct (array_set pf ind v) as [pf'|e]; simpl; right; exact Hr.
Qed.

(** A write leaves the value of every other parameter as it is. *)
Lemma param_value_frame (c c' : key) (p p' : string) (v : value) (s : t) :
  (c', p') <> (c, p) ->
  param_value (snd (set_parameter_value c p v s)) c' p' = param_value s c' p'.
Proof.
  intros Hne. unfold param_value.
  destruct (set_parameter_value_components c p v s)
    as [-> | (m & i & Hm & Hi & ->)]; [reflexivity|].
  destruct (key_eqb c c') eqn:E.
  - apply key_eqb_eq in E. subst c'.
    rewrite (dict_get_set_same key_eqb key_eqb_eq). rewrite Hm. simpl.
    destruct (index p' (param_names m)) as [i'|] eqn:Ei'; [|reflexivity].
    apply nth_error_upd_other. intros ->.
    apply index_some in Hi. apply index_some in Ei'. congruence.
  - rewrite (dict_get_set_other key_eqb key_eqb_eq); [reflexivity|].
    intros ->. rewrite (proj2 (key_eqb_eq c' c') eq_refl) in E. discriminate.
Qed.

(** On a visited triple the write succeeds and stores the value. *)
Lemma set_parameter_value_pair (c : key) (p : string) (ind : Z) (v : value) (s : t) :
  shape s -> In (c, p, ind) (free_pairs s) ->
  exists s',
    set_parameter_value c p v s = (Ok tt, s') /\
    param_value s' c p = Some v.
Proof.
  intros Hs Hin.
  destruct (shape_pair s c p ind Hs Hin)
    as (m & i & fl & K & J & pa & pf & H1 & Hwf & H2 & H3 & H4 & H5 & H6 & H7
        & H8 & H9 & H10 & H11 & H12 & H13 & H14 & H15).
  pose proof Hwf as (Hw1 & Hw2 & Hw3).
  assert (Hi : (i < List.length (param_names m))%nat).
  { apply index_some in H2. apply nth_error_Some. congruence. }
  destruct (wf_fixed_entry m p Hwf) as [fx Hfx].
  { apply index_some in H2. eapply nth_error_In; eauto. }
  pose proof (full_entries_index (param_names m) K p i H2) as Hk.
  replace (K + Z.of_nat i) with (Z.of_nat (Z.to_nat K + i)) in Hk by lia.
  destruct (set_parameter_value_eval c p v s m i (Z.to_nat K + i) _ pa fx
              H1 H2 ltac:(lia) H3 Hk H12 ltac:(lia) Hfx) as [Ht Hf].
  assert (Hval : forall s1,
             components s1
             = dict_set key_eqb c (with_parameters m (upd i v (parameters m)))
                 (components s) ->
             param_value s1 c p = Some v).
  { intros s1 Hc. unfold param_value. rewrite Hc.
    rewrite (dict_get_set_same key_eqb key_eqb_eq). simpl. rewrite H2.
    apply nth_error_upd_same. lia. }
  destruct fx.
  - eexists. split; [apply Ht; reflexivity|]. apply Hval. reflexivity.
  - replace ind with (Z.of_nat (Z.to_nat ind)) in H5 by lia.
    eexists. split.
    + eapply Hf; eauto. lia.
    + apply Hval. reflexivity.
Qed.

Lemma nodup_map_fst_filter {A B : Type} (f : A * B -> bool) (l : list (A * B)) :
  NoDup (map fst l) -> NoDup (map fst (filter f l)).
Proof.
  induction l as [|x l IH]; simpl; intros H; [constructor|].
  inversion H as [|? ? Hni Hnd]; subst.
  destruct (f x); simpl; [|auto].
  constructor; [|auto].
  intros Hin. apply Hni. apply in_map_iff in Hin.
  destruct Hin as (y & Hy & Hin). apply filter_In in Hin.
  rewrite <- Hy. apply in_map. tauto.
Qed.

Lemma nodup_pairs_of (c : key) (kf : list (string * Z)) :
  NoDup (map fst kf) -> NoDup (map fst (pairs_of (c, kf))).
Proof.
  intros H. unfold pairs_of. simpl. rewrite map_map. simpl.
  apply (nodup_map_fst_filter (fun e : string * Z => negb (snd e =? -99))) in H.
  induction (filter (fun e : string * Z => negb (snd e =? -99)) kf) as [|x l IH];
    simpl in *; [constructor|].
  inversion H as [|? ? Hni Hnd]; subst. constructor; [|auto].
  intros Hin. apply Hni. apply in_map_iff in Hin.
  destruct Hin as (y & Hy & Hin). injection Hy as Hy.
  rewrite <- Hy. apply in_map. exact Hin.
Qed.

(** No (component, parameter) pair is visited twice. *)
Lemma layout_pairs_nodup cs ks fs A a N n :
  layout cs ks fs A a N n -> NoDup (map fst cs) ->
  NoDup (map fst (flat_map pairs_of fs)).
Proof.
  induction 1 as [N n|c m fl cs ks fs N n N' n' Hwf Hfl Hl IH]; intros Hnd;
    simpl.
  - constructor.
  - inversion Hnd as [|? ? Hni Hnd']; subst.
    rewrite map_app. apply NoDup_app.
    + apply nodup_pairs_of. rewrite map_fst_free_entries by exact Hfl.
      apply Hwf.
    + apply IH. exact Hnd'.
    + intros [c1 p1] Hin1 Hin2.
      apply in_map_iff in Hin1. destruct Hin1 as ([[c2 p2] i2] & Heq & Hin1).
      simpl in Heq. injection Heq as -> ->.
      apply in_pairs_of in Hin1. simpl in Hin1. destruct Hin1 as (-> & _).
      apply in_map_iff in Hin2. destruct Hin2 as ([[c4 p4] i4] & Heq & Hin2).
      simpl in Heq. injection Heq as -> ->.
      apply in_flat_map in Hin2. destruct Hin2 as ([c3 kf3] & Hin3 & Hin2).
      apply in_pairs_of in Hin2. simpl in Hin2. destruct Hin2 as (-> & _).
      apply Hni. pose proof (layout_keys _ _ _ _ _ _ _ Hl) as [_ Hk].
      rewrite <- Hk. change c3 with (fst (c3, kf3)). apply in_map. exact Hin3.
Qed.

Lemma array_get_in_range {A : Type} (a : list A) (i : Z) :
  0 <= i < Z.of_nat (List.length a) -> exists v, array_get a i = Ok v.
Proof.
  intros H. unfold array_get. rewrite position_nonneg by exact H.
  destruct (nth_error a (Z.to_nat i)) as [v|] eqn:E; [eauto|].
  apply nth_error_None in E. lia.
Qed.

Lemma similar_free_pairs (s s' : t) : similar s s' -> free_pairs s' = free_pairs s.
Proof.
  intros (_ & _ & H & _). unfold free_pairs. rewrite H. reflexivity.
Qed.

(** The sequence of writes over triples of the registry returns, and each
    visited parameter ends with its entry of [theta]. *)
Lemma write_pairs_loop (theta : list value) (l : list (key * string * Z)) :
  forall s,
    shape s -> incl l (free_pairs s) -> NoDup (map fst l) ->
    (forall x, In x l -> 0 <= snd x < Z.of_nat (List.length theta)) ->
    exists s',
      for_each l (write_pair theta) s = (Ok tt, s') /\ similar s s' /\
      (forall c p ind,
          In (c, p, ind) l ->
          exists v, array_get theta ind = Ok v /\ param_value s' c p = Some v) /\
      (forall c p, ~ In (c, p) (map fst l) ->
                   param_value s' c p = param_value s c p).
Proof.
  induction l as [|[[c p] ind] l IH]; intros s Hs Hincl Hnd Hrange.
  - exists s. split; [reflexivity|]. split; [apply similar_refl|].
    split; [intros c p ind []|reflexivity].
  - assert (Hin : In (c, p, ind) (free_pairs s)) by (apply Hincl; left; reflexivity).
    destruct (array_get_in_range theta ind (Hrange _ (or_introl eq_refl)))
      as [v Hv].
    destruct (set_parameter_value_pair c p ind v s Hs Hin) as (s1 & Hs1 & Hval).
    pose proof (set_parameter_value_similar c p v s) as Hsim.
    rewrite Hs1 in Hsim. simpl in Hsim.
    pose proof (similar_shape _ _ Hs Hsim) as Hshape1.
    inversion Hnd as [|? ? Hni Hnd']; subst.
    destruct (IH s1 Hshape1) as (s' & Hloop & Hsim' & Hw & Hframe).
    { rewrite (similar_free_pairs _ _ Hsim).
      intros x Hx. apply Hincl. right. exact Hx. }
    { exact Hnd'. }
    { intros x Hx. apply Hrange. right. exact Hx. }
    exists s'. split; [|split; [|split]].
    + simpl. unfold mbind, lift. rewrite Hv. rewrite Hs1. exact Hloop.
    + eapply similar_trans; eauto.
    + intros c' p' ind' [Heq | Hin'].
      * injection Heq as <- <- <-. exists v. split; [exact Hv|].
        rewrite (Hframe c p Hni). exact Hval.
      * apply Hw. exact Hin'.
    + intros c' p' Hni'. simpl in Hni'.
      rewrite Hframe by tauto.
      replace s1 with (snd (set_parameter_value c p v s)) by (rewrite Hs1; reflexivity).
      apply param_value_frame. intros Heq. apply Hni'. left.
      symmetry. exact Heq.
Qed.

(** C7: [update_parameters(theta)] raises the length-mismatch ValueError
    exactly when [len(theta) != nparams_free], and then leaves the registry
    as it was; otherwise it is the sequence of
    [set_parameter_value(cmp, pp, theta[ind])] over the (component, parameter)
    pairs that have a free index, in the order of the loops.  In a reachable
    registry these indices are 0, 1, ..., [nparams_free - 1] in this order,
    the call returns, and every such parameter then holds its entry of
    [theta]. *)
Theorem update_parameters_contract (theta : list value) (s : t) :
  (fst (update_parameters theta s) = Raise length_mismatch <->
   Z.of_nat (List.length theta) <> nparams_free s) /\
  (fst (update_parameters theta s) = Raise length_mismatch ->
   snd (update_parameters theta s) = s) /\
  (Z.of_nat (List.length theta) = nparams_free s ->
   update_parameters theta s = for_each (free_pairs s) (write_pair theta) s) /\
  (reachable s -> Z.of_nat (List.length theta) = nparams_free s ->
   map snd (free_pairs s) = zseq 0 (List.length theta) /\
   exists s',
     update_parameters theta s = (Ok tt, s') /\
     forall c p ind,
       In (c, p, ind) (free_pairs s) ->
       exists v, array_get theta ind = Ok v /\ param_value s' c p = Some v).
Proof.
  assert (Hmis : Z.of_nat (List.length theta) <> nparams_free s ->
                 update_parameters theta s = (Raise length_mismatch, s)).
  { intros H. unfold update_parameters, mbind, get.
    apply Z.eqb_neq in H. rewrite H. reflexivity. }
  assert (Hok : Z.of_nat (List.length theta) = nparams_free s ->
                fst (update_parameters theta s) <> Raise length_mismatch).
  { intros H. rewrite update_parameters_writes by exact H.
    apply for_each_not_raise. apply write_pair_not_length_mismatch. }
  split; [|split; [|split]].
  - split.
    + intros H Heq. exact (Hok Heq H).
    + intros H. rewrite (Hmis H). reflexivity.
  - intros H.
    destruct (Z.eq_dec (Z.of_nat (List.length theta)) (nparams_free s)) as [Heq|Hne].
    + exfalso. exact (Hok Heq H).
    + rewrite (Hmis Hne). reflexivity.
  - apply update_parameters_writes.
  - intros Hr Hlen. pose proof (reachable_shape s Hr) as Hs.
    pose proof Hs as (Hl & Hnd & _ & _).
    assert (Hidx : map snd (free_pairs s) = zseq 0 (List.length theta)).
    { rewrite free_pairs_unfold.
      rewrite (layout_free_indices _ _ _ _ _ _ _ Hl) by lia.
      rewrite Z.sub_0_r, <- Hlen, Nat2Z.id. reflexivity. }
    split; [exact Hidx|].
    destruct (write_pairs_loop theta (free_pairs s) s Hs) as (s' & Hloop & _ & Hw & _).
    + apply incl_refl.
    + rewrite free_pairs_unfold. eapply layout_pairs_nodup; eauto.
    + intros [[c p] ind] Hin. simpl.
      destruct (shape_pair s c p ind Hs Hin)
        as (m & i & fl & K & J & pa & pf & H1 & Hwf & H2 & H3 & H4 & H5 & H6
            & H7 & H8 & H9 & H10 & H11 & _).
      lia.
    + exists s'. split; [|exact Hw].
      rewrite update_parameters_writes by exact Hlen. exact Hloop.
Qed.

(** *** Registries whose flags are as at [add_component] time *)

(** The index dictionaries and the two vectors, as functions of the
    components with their current values and flags. *)
Fixpoint keys_of (cs : list (key * model)) (N : Z) : list (key * list (string * Z)) :=
  match cs with
  | [] => []
  | (c, m) :: cs' =>
      (c, full_entries (param_names m) N)
        :: keys_of cs' (N + Z.of_nat (List.length (param_names m)))
  end.

Fixpoint free_keys_of (cs : list (key * model)) (n : Z)
  : list (key * list (string * Z)) :=
  match cs with
  | [] => []
  | (c, m) :: cs' =>
      (c, free_entries (flags_of m) (param_names m) n)
        :: free_keys_of cs' (n + Z.of_nat (nfree (flags_of m)))
  end.

Definition pa_of (cs : list (key * model)) : list value :=
  flat_map (fun cm : key * model => parameters (snd cm)) cs.

Definition pf_of (cs : list (key * model)) : list value :=
  flat_map (fun cm : key * model =>
              free_values (flags_of (snd cm)) (parameters (snd cm))) cs.

Definition total (cs : list (key * model)) : nat :=
  fold_right (fun cm acc => (List.length (param_names (snd cm)) + acc)%nat) O cs.

Definition total_free (cs : list (key * model)) : nat :=
  fold_right (fun cm acc => (nfree (flags_of (snd cm)) + acc)%nat) O cs.

(** The invariant of a registry whose flags were never changed: both
    vectors and both index dictionaries are determined by the components. *)
Definition canon (s : t) : Prop :=
  Forall (fun cm : key * model => wf_model (snd cm)) (components s) /\
  NoDup (map fst (components s)) /\
  _param_keys s = keys_of (components s) 0 /\
  _param_free_keys s = free_keys_of (components s) 0 /\
  nparams s = Z.of_nat (total (components s)) /\
  nparams_free s = Z.of_nat (total_free (components s)) /\
  (forall c, In c (map fst (mass_components s)) <-> In c (map fst (components s))) /\
  ((components s = [] /\ parameters_all s = None /\ parameters_free s = None) \/
   (parameters_all s = Some (pa_of (components s)) /\
    parameters_free s = Some (pf_of (components s)))).

Lemma total_free_count (s : t) : total_free (components s) = count_nonfixed s.
Proof.
  unfold total_free, count_nonfixed.
  induction (components s) as [|[c m] cs IH]; simpl; [reflexivity|].
  rewrite IH, nfree_flags_of. reflexivity.
Qed.

Lemma length_flags_of (m : model) :
  List.length (flags_of m) = List.length (param_names m).
Proof. unfold flags_of. apply length_map. Qed.

Lemma pa_of_cons (c : key) (m : model) (cs : list (key * model)) :
  pa_of ((c, m) :: cs) = parameters m ++ pa_of cs.
Proof. reflexivity. Qed.

Lemma pf_of_cons (c : key) (m : model) (cs : list (key * model)) :
  pf_of ((c, m) :: cs) = free_values (flags_of m) (parameters m) ++ pf_of cs.
Proof. reflexivity. Qed.

Lemma total_cons (c : key) (m : model) (cs : list (key * model)) :
  total ((c, m) :: cs) = (List.length (param_names m) + total cs)%nat.
Proof. reflexivity. Qed.

Lemma total_free_cons (c : key) (m : model) (cs : list (key * model)) :
  total_free ((c, m) :: cs) = (nfree (flags_of m) + total_free cs)%nat.
Proof. reflexivity. Qed.

Lemma length_pa_of (cs : list (key * model)) :
  Forall (fun cm : key * model => wf_model (snd cm)) cs ->
  List.length (pa_of cs) = total cs.
Proof.
  induction 1 as [|[c m] cs (H1 & H2 & H3) Hf IH]; [reflexivity|].
  rewrite pa_of_cons, total_cons, length_app, IH. simpl in H2. lia.
Qed.

Lemma length_pf_of (cs : list (key * model)) :
  Forall (fun cm : key * model => wf_model (snd cm)) cs ->
  List.length (pf_of cs) = total_free cs.
Proof.
  induction 1 as [|[c m] cs (H1 & H2 & H3) Hf IH]; [reflexivity|].
  rewrite pf_of_cons, total_free_cons, length_app, IH. simpl in H2.
  rewrite length_free_values by (rewrite length_flags_of; lia). reflexivity.
Qed.

Lemma layout_of (cs : list (key * model)) (N n : Z) :
  Forall (fun cm : key * model => wf_model (snd cm)) cs ->
  layout cs (keys_of cs N) (free_keys_of cs n) N n
    (N + Z.of_nat (total cs)) (n + Z.of_nat (total_free cs)).
Proof.
  intros H. revert N n.
  induction H as [|[c m] cs Hwf Hf IH]; intros N n; simpl.
  - rewrite !Z.add_0_r. constructor.
  - apply layout_cons; [exact Hwf | apply length_flags_of |].
    specialize (IH (N + Z.of_nat (List.length (param_names m)))
                  (n + Z.of_nat (nfree (flags_of m)))).
    rewrite !Nat2Z.inj_add, !Z.add_assoc. exact IH.
Qed.

Lemma canon_shape (s : t) : canon s -> shape s.
Proof.
  intros (Hwf & Hnd & Hk & Hf & HN & Hn & Hmc & Hv).
  unfold shape. rewrite Hk, Hf, HN, Hn.
  split; [exact (layout_of (components s) 0 0 Hwf)|].
  split; [exact Hnd|]. split; [exact Hmc|].
  destruct Hv as [Hv | [Hpa Hpf]]; [left; exact Hv|].
  right. exists (pa_of (components s)), (pf_of (components s)).
  rewrite length_pa_of, length_pf_of by exact Hwf. auto.
Qed.

Lemma keys_of_snoc (cs : list (key * model)) (c : key) (m : model) (N : Z) :
  keys_of (cs ++ [(c, m)]) N
  = keys_of cs N ++ [(c, full_entries (param_names m) (N + Z.of_nat (total cs)))].
Proof.
  revert N. induction cs as [|[c0 m0] cs IH]; intros N; simpl.
  - rewrite Z.add_0_r. reflexivity.
  - rewrite IH. rewrite Nat2Z.inj_add, Z.add_assoc. reflexivity.
Qed.

Lemma free_keys_of_snoc (cs : list (key * model)) (c : key) (m : model) (n : Z) :
  free_keys_of (cs ++ [(c, m)]) n
  = free_keys_of cs n
      ++ [(c, free_entries (flags_of m) (param_names m)
                (n + Z.of_nat (total_free cs)))].
Proof.
  revert n. induction cs as [|[c0 m0] cs IH]; intros n; simpl.
  - rewrite Z.add_0_r. reflexivity.
  - rewrite IH. rewrite Nat2Z.inj_add, Z.add_assoc. reflexivity.
Qed.

Lemma total_snoc (cs : list (key * model)) (x : key * model) :
  total (cs ++ [x]) = (total cs + List.length (param_names (snd x)))%nat.
Proof.
  unfold total. induction cs as [|y cs IH]; simpl; [lia|]. rewrite IH. lia.
Qed.

Lemma total_free_snoc (cs : list (key * model)) (x : key * model) :
  total_free (cs ++ [x]) = (total_free cs + nfree (flags_of (snd x)))%nat.
Proof.
  unfold total_free. induction cs as [|y cs IH]; simpl; [lia|]. rewrite IH. lia.
Qed.

(** [_add_comp] keeps the vectors and dictionaries determined. *)
Lemma add_comp_canon (m : model) (s : t) :
  Forall (fun cm : key * model => wf_model (snd cm)) (components s) ->
  NoDup (map fst (components s)) ->
  _param_keys s = keys_of (components s) 0 ->
  _param_free_keys s = free_keys_of (components s) 0 ->
  nparams s = Z.of_nat (total (components s)) ->
  nparams_free s = Z.of_nat (total_free (components s)) ->
  (forall c, In c (map fst (mass_components s)) <->
             c = name m \/ In c (map fst (components s))) ->
  ((components s = [] /\ parameters_all s = None /\ parameters_free s = None) \/
   (parameters_all s = Some (pa_of (components s)) /\
    parameters_free s = Some (pf_of (components s)))) ->
  wf_model m ->
  dict_get key_eqb (name m) (components s) = None ->
  canon (snd (_add_comp m s)).
Proof.
  intros Hwfs Hnd Hk Hf HN Hn Hmc Hv Hwf Hfresh.
  assert (Hl : layout (components s) (_param_keys s) (_param_free_keys s) 0 0
                 (nparams s) (nparams_free s)).
  { rewrite Hk, Hf, HN, Hn. exact (layout_of (components s) 0 0 Hwfs). }
  assert (Hv' : (components s = [] /\ parameters_all s = None /\
                 parameters_free s = None) \/
                (exists pa pf,
                    parameters_all s = Some pa /\ parameters_free s = Some pf /\
                    Z.of_nat (List.length pa) = nparams s /\
                    Z.of_nat (List.length pf) = nparams_free s)).
  { destruct Hv as [Hv | [Hpa Hpf]]; [left; exact Hv|].
    right. exists (pa_of (components s)), (pf_of (components s)).
    rewrite length_pa_of, length_pf_of by exact Hwfs. auto. }
  destruct (add_comp_shape m s Hl Hnd Hmc Hv' Hwf Hfresh) as [_ Hshape].
  destruct Hshape as (_ & Hnd' & Hmc' & _).
  rewrite (add_comp_result m s Hl Hv' Hwf Hfresh) in *. simpl in *.
  assert (Hvec : vec (parameters_all s) = pa_of (components s) /\
                 vec (parameters_free s) = pf_of (components s)).
  { destruct Hv as [(Hc & Hpa & Hpf) | [Hpa Hpf]].
    - rewrite Hc, Hpa, Hpf. auto.
    - rewrite Hpa, Hpf. auto. }
  destruct Hvec as [Hpa Hpf].
  unfold canon. simpl.
  split; [apply Forall_app; split; [exact Hwfs | constructor; [exact Hwf | constructor]]|].
  split; [exact Hnd'|].
  split; [rewrite keys_of_snoc, Hk, HN; reflexivity|].
  split; [rewrite free_keys_of_snoc, Hf, Hn; reflexivity|].
  split; [rewrite total_snoc, HN; simpl; lia|].
  split; [rewrite total_free_snoc, Hn; simpl; lia|].
  split; [exact Hmc'|].
  right. unfold pa_of, pf_of. rewrite !flat_map_app. simpl. rewrite !app_nil_r.
  rewrite Hpa, Hpf. auto.
Qed.

(** An admissible [add_component] keeps them determined. *)
Lemma add_component_canon (obj : py_object) (nm : option string) (s : t) :
  canon s -> admissible s obj nm -> canon (snd (add_component obj nm s)).
Proof.
  intros Hs Ha. pose proof Hs as (Hwfs & Hnd & Hk & Hf & HN & Hn & Hmc & Hv).
  destruct obj as [m|]; [|exact Hs].
  destruct Ha as [Hwf Hfresh]. unfold registered_name in Hfresh.
  unfold add_component.
  destruct (String.eqb (_type m) "mass") eqn:Et.
  - assert (Hgo : forall m', wf_model m' ->
                dict_get key_eqb (name m') (components s) = None ->
                canon (snd ((s0 <- get ;;
                             if (0 <? count (name m') (dict_keys (mass_components s0)))%nat
                             then raise duplicate_component
                             else
                               modify (fun s1 => set_mass_components
                                  (dict_set key_eqb (name m') true (mass_components s1)) s1) ;;;
                               _add_comp m')%M s))).
    { intros m' Hwf' Hfresh'. unfold mbind, get. simpl.
      destruct (0 <? count (name m') (dict_keys (mass_components s)))%nat;
        [exact Hs|].
      unfold modify. simpl.
      apply add_comp_canon; simpl; auto.
      intros c. rewrite dict_set_keys_in. rewrite Hmc. tauto. }
    destruct nm as [n|]; [|destruct (name m) as [n0|] eqn:En].
    + apply Hgo; [apply wf_rename; exact Hwf | exact Hfresh].
    + cbv beta iota zeta. rewrite <- En in *. apply Hgo; auto.
    + exact Hs.
  - destruct (String.eqb (_type m) "geometry") eqn:Eg; [|exact Hs].
    unfold mbind, modify. simpl.
    apply add_comp_canon; simpl; auto.
    intros c. rewrite dict_set_keys_in. rewrite Hmc. tauto.
Qed.

Lemma upd_app_l {A : Type} (i : nat) (v : A) (l1 l2 : list A) :
  (i < List.length l1)%nat -> upd i v (l1 ++ l2) = upd i v l1 ++ l2.
Proof.
  revert i. induction l1 as [|x l1 IH]; intros [|i] H; simpl in *;
    try lia; try reflexivity.
  rewrite IH by lia. reflexivity.
Qed.

Lemma upd_app_r {A : Type} (i : nat) (v : A) (l1 l2 : list A) :
  upd (List.length l1 + i) v (l1 ++ l2) = l1 ++ upd i v l2.
Proof.
  induction l1 as [|x l1 IH]; simpl; [reflexivity|].
  rewrite IH. reflexivity.
Qed.

(** Replacing the model of a registered component by one with the same
    names and flags. *)
Lemma replace_same_names (cs : list (key * model)) (c : key) (m m' : model) :
  dict_get key_eqb c cs = Some m ->
  param_names m' = param_names m -> flags_of m' = flags_of m ->
  (forall N, keys_of (dict_set key_eqb c m' cs) N = keys_of cs N) /\
  (forall n, free_keys_of (dict_set key_eqb c m' cs) n = free_keys_of cs n) /\
  total (dict_set key_eqb c m' cs) = total cs /\
  total_free (dict_set key_eqb c m' cs) = total_free cs /\
  map fst (dict_set key_eqb c m' cs) = map fst cs.
Proof.
  intros Hget Hn Hfl.
  induction cs as [|[c0 m0] cs IH]; [discriminate|].
  cbn [dict_get dict_set] in *.
  destruct (key_eqb c c0) eqn:E.
  - apply key_eqb_eq in E. subst c0. injection Hget as ->.
    rewrite !total_cons, !total_free_cons. cbn [keys_of free_keys_of map fst].
    rewrite Hn, Hfl. auto.
  - destruct (IH Hget) as (H1 & H2 & H3 & H4 & H5).
    rewrite !total_cons, !total_free_cons. cbn [keys_of free_keys_of map fst].
    rewrite H3, H4, H5.
    repeat split; auto; intros; rewrite ?H1, ?H2; reflexivity.
Qed.

Lemma forall_wf_replace (cs : list (key * model)) (c : key) (m' : model) :
  Forall (fun cm : key * model => wf_model (snd cm)) cs -> wf_model m' ->
  Forall (fun cm : key * model => wf_model (snd cm)) (dict_set key_eqb c m' cs).
Proof.
  intros H Hwf. induction H as [|[c0 m0] cs H0 Hf IH]; simpl.
  - constructor; [exact Hwf | constructor].
  - destruct (key_eqb c c0); constructor; auto.
Qed.

(** One component: the free values after a write to the array. *)
Lemma free_values_upd (fl : list bool) :
  forall (names : list string) (ps : list value) (J : Z) (p : string)
         (i : nat) (ind : Z) (v : value),
    List.length names = List.length fl -> List.length ps = List.length fl ->
    0 <= J ->
    index p names = Some i ->
    dict_get String.eqb p (free_entries fl names J) = Some ind ->
    (ind = -99 ->
     nth_error fl i = Some false /\
     free_values fl (upd i v ps) = free_values fl ps) /\
    (ind <> -99 ->
     nth_error fl i = Some true /\ J <= ind /\
     free_values fl (upd i v ps) = upd (Z.to_nat (ind - J)) v (free_values fl ps)).
Proof.
  induction fl as [|b fl IH]; intros [|q names] [|x ps] J p i ind v Hn Hp HJ Hi Hd;
    simpl in *; try discriminate.
  destruct (String.eqb p q) eqn:E.
  - injection Hi as <-. destruct b; simpl in Hd; rewrite E in Hd;
      injection Hd as <-; simpl.
    + split; [lia|]. intros _. rewrite Z.sub_diag. simpl. auto with zarith.
    + split; [auto|]. intros H. congruence.
  - destruct (index p names) as [i'|] eqn:Ei; [|discriminate].
    injection Hi as <-. destruct b; simpl in Hd; rewrite E in Hd; simpl.
    + destruct (IH names ps (J + 1) p i' ind v ltac:(lia) ltac:(lia) ltac:(lia)
                  Ei Hd) as [H1 H2].
      split.
      * intros Hs. destruct (H1 Hs) as [G1 G2]. rewrite G2. auto.
      * intros Hs. destruct (H2 Hs) as (G1 & G2 & G3). rewrite G3.
        split; [exact G1|]. split; [lia|].
        replace (Z.to_nat (ind - J)) with (S (Z.to_nat (ind - (J + 1)))) by lia.
        reflexivity.
    + destruct (IH names ps J p i' ind v ltac:(lia) ltac:(lia) ltac:(lia)
                  Ei Hd) as [H1 H2].
      split.
      * intros Hs. destruct (H1 Hs) as [G1 G2]. rewrite G2. auto.
      * intros Hs. destruct (H2 Hs) as (G1 & G2 & G3). rewrite G3. auto.
Qed.

Lemma nth_flags_of (m : model) (p : string) (i : nat) :
  index p (param_names m) = Some i ->
  nth_error (flags_of m) i = Some (is_free m p).
Proof.
  intros H. apply index_some in H. unfold flags_of.
  rewrite nth_error_map, H. reflexivity.
Qed.

(** The full vector after a write to a component array. *)
Lemma pa_of_write (cs : list (key * model)) :
  forall (N : Z) (c : key) (m : model) (p : string) (i : nat) (k : Z)
         (kd : list (string * Z)) (v : value),
    Forall (fun cm : key * model => wf_model (snd cm)) cs ->
    dict_get key_eqb c cs = Some m ->
    index p (param_names m) = Some i ->
    dict_get key_eqb c (keys_of cs N) = Some kd ->
    dict_get String.eqb p kd = Some k ->
    N <= k < N + Z.of_nat (total cs) /\
    pa_of (dict_set key_eqb c (with_parameters m (upd i v (parameters m))) cs)
    = upd (Z.to_nat (k - N)) v (pa_of cs).
Proof.
  induction cs as [|[c0 m0] cs IH]; intros N c m p i k kd v Hwf Hget Hi Hkd Hk;
    [discriminate|].
  inversion Hwf as [|? ? Hwf0 Hwf']; subst. simpl in Hwf0.
  cbn [dict_get dict_set keys_of] in *.
  rewrite total_cons.
  destruct (key_eqb c c0) eqn:E.
  - injection Hget as ->. injection Hkd as <-.
    rewrite (full_entries_index _ N p i Hi) in Hk. injection Hk as <-.
    assert (Hlt : (i < List.length (param_names m))%nat).
    { apply index_some in Hi. apply nth_error_Some. congruence. }
    destruct Hwf0 as (_ & Hlen & _).
    split; [lia|].
    rewrite !pa_of_cons. simpl.
    replace (Z.to_nat (N + Z.of_nat i - N)) with i by lia.
    rewrite upd_app_l by lia. reflexivity.
  - destruct (IH _ c m p i k kd v Hwf' Hget Hi Hkd Hk) as [Hr Heq].
    split; [lia|].
    rewrite !pa_of_cons. simpl. rewrite Heq.
    destruct Hwf0 as (_ & Hlen & _).
    replace (Z.to_nat (k - N))
      with (List.length (parameters m0)
            + Z.to_nat (k - (N + Z.of_nat (List.length (param_names m0)))))%nat
      by lia.
    rewrite upd_app_r. reflexivity.
Qed.

(** The free vector after a write to a component array. *)
Lemma pf_of_write (cs : list (key * model)) :
  forall (n : Z) (c : key) (m : model) (p : string) (i : nat) (ind : Z)
         (kf : list (string * Z)) (v : value),
    Forall (fun cm : key * model => wf_model (snd cm)) cs ->
    0 <= n ->
    dict_get key_eqb c cs = Some m ->
    index p (param_names m) = Some i ->
    dict_get key_eqb c (free_keys_of cs n) = Some kf ->
    dict_get String.eqb p kf = Some ind ->
    (ind = -99 ->
     is_free m p = false /\
     pf_of (dict_set key_eqb c (with_parameters m (upd i v (parameters m))) cs)
     = pf_of cs) /\
    (ind <> -99 ->
     is_free m p = true /\ n <= ind < n + Z.of_nat (total_free cs) /\
     pf_of (dict_set key_eqb c (with_parameters m (upd i v (parameters m))) cs)
     = upd (Z.to_nat (ind - n)) v (pf_of cs)).
Proof.
  induction cs as [|[c0 m0] cs IH];
    intros n c m p i ind kf v Hwf Hn Hget Hi Hkf Hind; [discriminate|].
  inversion Hwf as [|? ? Hwf0 Hwf']; subst. simpl in Hwf0.
  cbn [dict_get dict_set free_keys_of] in *.
  rewrite total_free_cons.
  destruct (key_eqb c c0) eqn:E.
  - injection Hget as ->. injection Hkf as <-.
    pose proof Hwf0 as (_ & Hlen & _).
    destruct (free_values_upd (flags_of m) (param_names m) (parameters m) n p i
                ind v (eq_sym (length_flags_of m))
                ltac:(rewrite length_flags_of; exact Hlen) Hn Hi Hind)
      as [H1 H2].
    pose proof (nth_flags_of m p i Hi) as Hfl.
    pose proof (free_entries_range _ _ _ _ _
                  (dict_get_some_in String.eqb string_eqb_eq _ _ _ Hind)) as Hr.
    rewrite !pf_of_cons.
    change (flags_of (with_parameters m (upd i v (parameters m))))
      with (flags_of m).
    change (parameters (with_parameters m (upd i v (parameters m))))
      with (upd i v (parameters m)).
    split.
    + intros Hs. destruct (H1 Hs) as [G1 G2]. rewrite G2. split; congruence.
    + intros Hs. destruct (H2 Hs) as (G1 & G2 & G3). rewrite G3.
      specialize (Hr Hs).
      split; [congruence|]. split; [lia|].
      rewrite upd_app_l; [reflexivity|].
      rewrite length_free_values by (rewrite length_flags_of; lia). lia.
  - destruct (IH (n + Z.of_nat (nfree (flags_of m0))) c m p i ind kf v Hwf'
                ltac:(lia) Hget Hi Hkf Hind) as [H1 H2].
    rewrite !pf_of_cons.
    pose proof Hwf0 as (_ & Hlen & _).
    assert (Hfv : List.length (free_values (flags_of m0) (parameters m0))
                  = nfree (flags_of m0))
      by (apply length_free_values; rewrite length_flags_of; lia).
    split.
    + intros Hs. destruct (H1 Hs) as [G1 G2]. rewrite G2. auto.
    + intros Hs. destruct (H2 Hs) as (G1 & G2 & G3). rewrite G3.
      split; [exact G1|]. split; [lia|].
      replace (Z.to_nat (ind - n))
        with (List.length (free_values (flags_of m0) (parameters m0))
              + Z.to_nat (ind - (n + Z.of_nat (nfree (flags_of m0)))))%nat
        by lia.
      rewrite upd_app_r. reflexivity.
Qed.

Lemma with_parameters_same (m : model) : with_parameters m (parameters m) = m.
Proof. destruct m. reflexivity. Qed.

Lemma with_fixed_same (m : model) : with_fixed m (fixed m) = m.
Proof. destruct m. reflexivity. Qed.

Lemma set_parameter_value_unknown (c : key) (p : string) (v : value) (s : t) :
  (dict_get key_eqb c (components s) = None \/
   exists m, dict_get key_eqb c (components s) = Some m /\
             index p (param_names m) = None) ->
  snd (set_parameter_value c p v s) = s.
Proof.
  unfold set_parameter_value, mbind, get, lift, lookup. simpl.
  intros [H | (m & H1 & H2)].
  - rewrite H. reflexivity.
  - rewrite H1. simpl. rewrite H2. reflexivity.
Qed.

(** What the determined registry says of a parameter of a component. *)
Lemma canon_param (s : t) (c : key) (m : model) (p : string) (i : nat) :
  canon s ->
  dict_get key_eqb c (components s) = Some m ->
  index p (param_names m) = Some i ->
  exists (kd kf : list (string * Z)) (k ind : Z) (fx : bool),
    wf_model m /\ (i < List.length (parameters m))%nat /\
    dict_get key_eqb c (_param_keys s) = Some kd /\
    dict_get String.eqb p kd = Some k /\
    dict_get key_eqb c (_param_free_keys s) = Some kf /\
    dict_get String.eqb p kf = Some ind /\
    dict_get String.eqb p (fixed m) = Some fx /\
    parameters_all s = Some (pa_of (components s)) /\
    parameters_free s = Some (pf_of (components s)).
Proof.
  intros Hc Hm Hi. pose proof (canon_shape s Hc) as (Hl & _).
  destruct Hc as (Hwfs & Hnd & Hk & Hf & HN & Hn & Hmc & Hv).
  destruct (layout_get _ _ _ _ _ _ _ c m Hl Hm)
    as (fl & K & J & H1 & H2 & H3 & Hwf & _).
  pose proof Hwf as (_ & Hlen & _).
  assert (Hp : In p (param_names m)).
  { apply index_some in Hi. eapply nth_error_In; eauto. }
  assert (Hlt : (i < List.length (param_names m))%nat).
  { apply index_some in Hi. apply nth_error_Some. congruence. }
  destruct (wf_fixed_entry m p Hwf Hp) as [fx Hfx].
  destruct (dict_get String.eqb p (free_entries fl (param_names m) J))
    as [ind|] eqn:Eind.
  2:{ apply (dict_get_none String.eqb string_eqb_eq) in Eind.
      rewrite map_fst_free_entries in Eind by exact H3. contradiction. }
  destruct Hv as [(Hcs & _) | [Hpa Hpf]].
  { rewrite Hcs in Hm. discriminate. }
  exists (full_entries (param_names m) K), (free_entries fl (param_names m) J),
    (K + Z.of_nat i), ind, fx.
  split; [exact Hwf|]. split; [lia|].
  split; [exact H1|]. split; [apply full_entries_index; exact Hi|].
  split; [exact H2|]. split; [exact Eind|]. auto.
Qed.

(** [set_parameter_value] keeps the vectors determined by the components. *)
Lemma set_parameter_value_canon (c : key) (p : string) (v : value) (s : t) :
  canon s -> canon (snd (set_parameter_value c p v s)).
Proof.
  intros Hc.
  destruct (dict_get key_eqb c (components s)) as [m|] eqn:Em.
  2:{ rewrite set_parameter_value_unknown; auto. }
  destruct (index p (param_names m)) as [i|] eqn:Ei.
  2:{ rewrite set_parameter_value_unknown; eauto. }
  destruct (canon_param s c m p i Hc Em Ei)
    as (kd & kf & k & ind & fx & Hwf & Hlt & Hkd & Hk & Hkf & Hind & Hfx & Hpa & Hpf).
  pose proof Hc as (Hwfs & Hnd & HK & HF & HN & Hn & Hmc & Hv).
  rewrite HK in Hkd. rewrite HF in Hkf.
  destruct (pa_of_write _ 0 c m p i k kd v Hwfs Em Ei Hkd Hk) as [Hkr Hpaw].
  destruct (pf_of_write _ 0 c m p i ind kf v Hwfs ltac:(lia) Em Ei Hkf Hind)
    as [Hf1 Hf2].
  rewrite Z.sub_0_r in Hpaw.
  set (m' := with_parameters m (upd i v (parameters m))) in *.
  assert (Hwf' : wf_model m')
    by (apply wf_with_parameters; [apply length_upd | exact Hwf]).
  destruct (replace_same_names (components s) c m m' Em eq_refl eq_refl)
    as (R1 & R2 & R3 & R4 & R5).
  assert (Hbase : forall s',
             components s' = dict_set key_eqb c m' (components s) ->
             _param_keys s' = _param_keys s ->
             _param_free_keys s' = _param_free_keys s ->
             nparams s' = nparams s -> nparams_free s' = nparams_free s ->
             mass_components s' = mass_components s ->
             parameters_all s' = Some (upd (Z.to_nat k) v (pa_of (components s))) ->
             parameters_free s' = Some (pf_of (dict_set key_eqb c m' (components s))) ->
             canon s').
  { intros s' E1 E2 E3 E4 E5 E6 E7 E8. unfold canon.
    rewrite E1, E2, E3, E4, E5, E6, E7, E8, R1, R2, R3, R4, R5, <- Hpaw.
    split; [apply forall_wf_replace; assumption|].
    repeat (split; [assumption|]). right. auto. }
  assert (Hk' : dict_get String.eqb p kd = Some (Z.of_nat (Z.to_nat k)))
    by (rewrite Z2Nat.id by lia; exact Hk).
  rewrite <- HK in Hkd. rewrite <- HF in Hkf.
  destruct (set_parameter_value_eval c p v s m i (Z.to_nat k) kd
              (pa_of (components s)) fx Em Ei Hlt Hkd Hk' Hpa
              ltac:(rewrite length_pa_of by exact Hwfs; lia) Hfx) as [Ht Hf].
  destruct fx.
  - rewrite (Ht eq_refl). simpl.
    apply Hbase; simpl; auto.
    destruct (Z.eq_dec ind (-99)) as [Hs | Hs].
    + destruct (Hf1 Hs) as [_ ->]. exact Hpf.
    + destruct (Hf2 Hs) as [Hfree _].
      rewrite (is_free_spec _ _ _ Hfx) in Hfree. discriminate.
  - destruct (Z.eq_dec ind (-99)) as [Hs | Hs].
    + destruct (Hf1 Hs) as [Hfree _].
      rewrite (is_free_spec _ _ _ Hfx) in Hfree. discriminate.
    + destruct (Hf2 Hs) as (_ & Hr & Hpfw). rewrite Z.sub_0_r in Hpfw.
      assert (Hind' : dict_get String.eqb p kf = Some (Z.of_nat (Z.to_nat ind)))
        by (rewrite Z2Nat.id by lia; exact Hind).
      rewrite (Hf eq_refl kf (Z.to_nat ind) (pf_of (components s)) Hkf Hind' Hpf
                 ltac:(rewrite length_pf_of by exact Hwfs; lia)).
      simpl. apply Hbase; simpl; auto. rewrite Hpfw. reflexivity.
Qed.

(** A [set_parameter_fixed] that keeps the flag changes nothing the
    invariant reads. *)
Lemma set_parameter_fixed_canon (c : key) (p : string) (b : bool) (s : t) :
  canon s -> keeps_flag s c p b -> canon (snd (set_parameter_fixed c p b s)).
Proof.
  intros Hc Hkeep.
  destruct s as [mc cs g pa pf fa pn ks fs N n].
  unfold set_parameter_fixed, mbind, get, lift, lookup, modify, ret. simpl.
  destruct (dict_get key_eqb c cs) as [m|] eqn:E1; simpl; [|exact Hc].
  destruct (index p (param_names m)) as [i|] eqn:E2; simpl; [|exact Hc].
  pose proof Hc as (Hwfs & _). simpl in Hwfs.
  assert (Hwf : wf_model m).
  { apply (dict_get_some_in key_eqb key_eqb_eq) in E1.
    rewrite Forall_forall in Hwfs. exact (Hwfs _ E1). }
  destruct (wf_fixed_entry m p Hwf) as [b0 Hb0].
  { apply index_some in E2. eapply nth_error_In; eauto. }
  assert (Hb : b0 = b) by (eapply Hkeep; simpl; eauto). subst b0.
  rewrite (dict_set_same String.eqb string_eqb_eq _ _ _ Hb0).
  rewrite with_fixed_same.
  rewrite (dict_set_same key_eqb key_eqb_eq _ _ _ E1).
  destruct (dict_get key_eqb c fa); simpl; exact Hc.
Qed.

Lemma canon_init : canon init.
Proof.
  unfold canon, init. simpl.
  split; [constructor|]. split; [constructor|].
  do 4 (split; [reflexivity|]). split; [tauto|]. left. auto.
Qed.

Lemma reachable_untoggled_canon (s : t) : reachable_untoggled s -> canon s.
Proof.
  induction 1 as [|s obj nm Hr IH Ha|s c p v Hr IH|s c p b Hr IH Hk].
  - apply canon_init.
  - apply add_component_canon; auto.
  - apply set_parameter_value_canon; auto.
  - apply set_parameter_fixed_canon; auto.
Qed.

Lemma write_same (cs : list (key * model)) (c : key) (m : model) (i : nat)
    (v : value) :
  dict_get key_eqb c cs = Some m -> nth_error (parameters m) i = Some v ->
  dict_set key_eqb c (with_parameters m (upd i v (parameters m))) cs = cs.
Proof.
  intros Hm Hv. rewrite (upd_same _ _ _ Hv), with_parameters_same.
  apply (dict_set_same key_eqb key_eqb_eq). exact Hm.
Qed.

Lemma upd_fixpoint {A : Type} (j : nat) (v : A) (l : list A) :
  (j < List.length l)%nat -> l = upd j v l -> nth_error l j = Some v.
Proof.
  intros Hlt Heq. rewrite Heq. apply nth_error_upd_same. exact Hlt.
Qed.

(** In a registry whose flags were never changed, writing the entry of the
    free vector back into its parameter changes nothing. *)
Lemma write_pair_identity (s : t) (theta : list value) (c : key) (p : string)
    (ind : Z) :
  canon s -> parameters_free s = Some theta ->
  In (c, p, ind) (free_pairs s) ->
  write_pair theta (c, p, ind) s = (Ok tt, s).
Proof.
  intros Hc Htheta Hin.
  destruct (shape_pair s c p ind (canon_shape s Hc) Hin)
    as (m & i & fl & K & J & pa0 & pf0 & Em & _ & Ei & _ & S4 & S5 & _ & _ & _
        & S9 & S10 & _).
  destruct (canon_param s c m p i Hc Em Ei)
    as (kd & kf & k & ind' & fx & Hwf & Hlt & Hkd & Hk & Hkf & Hind & Hfx & Hpa & Hpf).
  rewrite S4 in Hkf. injection Hkf as <-. rewrite S5 in Hind.
  injection Hind as <-.
  assert (Hne : ind <> -99) by lia.
  pose proof Hc as (Hwfs & Hnd & HK & HF & HN & Hn & Hmc & Hv).
  destruct (nth_error (parameters m) i) as [v0|] eqn:Ev0.
  2:{ apply nth_error_None in Ev0. lia. }
  pose proof Hkd as Hkd'. rewrite HK in Hkd'.
  pose proof S4 as S4'. rewrite HF in S4'.
  destruct (pa_of_write _ 0 c m p i k kd v0 Hwfs Em Ei Hkd' Hk) as [Hkr Hpaw].
  destruct (pf_of_write _ 0 c m p i ind _ v0 Hwfs ltac:(lia) Em Ei S4' S5)
    as [_ Hf2].
  destruct (Hf2 Hne) as (Hfree & Hr & Hpfw).
  rewrite (write_same _ _ _ _ _ Em Ev0) in Hpaw, Hpfw.
  rewrite Z.sub_0_r in Hpaw, Hpfw.
  assert (Hpan : nth_error (pa_of (components s)) (Z.to_nat k) = Some v0).
  { apply upd_fixpoint; [|exact Hpaw].
    rewrite length_pa_of by exact Hwfs. lia. }
  assert (Hpfn : nth_error (pf_of (components s)) (Z.to_nat ind) = Some v0).
  { apply upd_fixpoint; [|exact Hpfw].
    rewrite length_pf_of by exact Hwfs. lia. }
  assert (Hfx' : fx = false).
  { rewrite (is_free_spec _ _ _ Hfx) in Hfree. destruct fx; [discriminate|reflexivity]. }
  subst fx.
  rewrite Hpf in Htheta. injection Htheta as <-.
  unfold write_pair, mbind, lift.
  replace ind with (Z.of_nat (Z.to_nat ind)) at 1 by lia.
  rewrite (array_get_nonneg _ _ _ Hpfn).
  assert (Hk' : dict_get String.eqb p kd = Some (Z.of_nat (Z.to_nat k)))
    by (rewrite Z2Nat.id by lia; exact Hk).
  assert (Hind' : dict_get String.eqb p (free_entries fl (param_names m) J)
                  = Some (Z.of_nat (Z.to_nat ind)))
    by (rewrite Z2Nat.id by lia; exact S5).
  destruct (set_parameter_value_eval c p v0 s m i (Z.to_nat k) kd
              (pa_of (components s)) false Em Ei Hlt Hkd Hk' Hpa
              ltac:(rewrite length_pa_of by exact Hwfs; lia) Hfx) as [_ Hf].
  rewrite (Hf eq_refl _ (Z.to_nat ind) (pf_of (components s)) S4 Hind' Hpf
             ltac:(rewrite length_pf_of by exact Hwfs; lia)).
  rewrite (write_same _ _ _ _ _ Em Ev0).
  rewrite (upd_same _ _ _ Hpan), (upd_same _ _ _ Hpfn).
  f_equal. destruct s. simpl in *. subst. reflexivity.
Qed.

Lemma for_each_identity {A : Type} (l : list A) (body : A -> M unit) (s : t) :
  (forall x, In x l -> body x s = (Ok tt, s)) ->
  for_each l body s = (Ok tt, s).
Proof.
  induction l as [|x l IH]; intros H; simpl; [reflexivity|].
  unfold mbind. rewrite (H x (or_introl eq_refl)).
  apply IH. intros y Hy. apply H. right. exact Hy.
Qed.

Lemma length_zseq (a : Z) (n : nat) : List.length (zseq a n) = n.
Proof. revert a. induction n as [|n IH]; intros a; simpl; auto. Qed.

(** Example components: a Sersic disk with [n] fixed and a geometry with
    [pa] fixed. *)
Definition example_disk : model :=
  mkModel (Some "disk"%string) "mass"
    ["total_mass"; "r_eff"; "n"]%string [11; 5; 1]%Q
    [("total_mass", false); ("r_eff", false); ("n", true)]%string.

Definition example_geom : model :=
  mkModel (Some "geom"%string) "geometry"
    ["inc"; "pa"]%string [45; 0]%Q
    [("inc", false); ("pa", true)]%string.

(** The registry after adding the two components and setting a value. *)
Definition example_set : t :=
  snd (set_parameter_value (Some "disk"%string) "r_eff" 7%Q
         (snd (add_component (FittableModel example_geom) None
                 (snd (add_component (FittableModel example_disk) None init))))).

(** The registry after adding the disk, fixing [r_eff] and then setting it. *)
Definition example_toggled : t :=
  run [AddComponent (FittableModel example_disk) None;
       SetParameterFixed (Some "disk"%string) "r_eff" true;
       SetParameterValue (Some "disk"%string) "r_eff" 9%Q] init.

Lemma wf_example_disk : wf_model example_disk.
Proof.
  unfold wf_model. simpl. repeat split.
  repeat constructor; simpl; intuition discriminate.
Qed.

Lemma wf_example_geom : wf_model example_geom.
Proof.
  unfold wf_model. simpl. repeat split.
  repeat constructor; simpl; intuition discriminate.
Qed.

Lemma example_set_untoggled : reachable_untoggled example_set.
Proof.
  unfold example_set.
  apply reachu_set_value. apply reachu_add.
  - apply reachu_add; [apply reachu_init|].
    split; [apply wf_example_disk | reflexivity].
  - split; [apply wf_example_geom | reflexivity].
Qed.

Lemma reachable_untoggled_reachable (s : t) : reachable_untoggled s -> reachable s.
Proof.
  induction 1; [apply reach_init | apply reach_add | apply reach_set_value
                | apply reach_set_fixed]; auto.
Qed.

(** C6 (as amended): let [theta] be the free vector of the registry.  After
    any sequence of admissible [add_component] calls (well-formed models
    under names not yet registered), [set_parameter_value] and
    [set_parameter_fixed] calls, the length of [theta] equals [nparams_free]
    and the number of parameters that have a free index, i.e. that were
    non-fixed when their component was added.  If moreover no
    [set_parameter_fixed] call changed a flag, this is the count of parameters
    currently marked non-fixed, and [update_parameters(theta)] returns and
    leaves the whole registry, hence every parameter value, unchanged. *)
Theorem free_vector_consistency (s : t) (theta : list value) :
  parameters_free s = Some theta ->
  (reachable s ->
   Z.of_nat (List.length theta) = nparams_free s /\
   List.length theta = List.length (free_pairs s)) /\
  (reachable_untoggled s ->
   List.length theta = count_nonfixed s /\
   update_parameters theta s = (Ok tt, s)).
Proof.
  intros Htheta. split.
  - intros Hr. pose proof (reachable_shape s Hr) as (Hl & _ & _ & Hv).
    destruct Hv as [(_ & _ & Hpf) | (pa & pf & _ & Hpf & _ & Hn)];
      rewrite Hpf in Htheta; [discriminate|].
    injection Htheta as <-. split; [exact Hn|].
    rewrite <- (length_map snd (free_pairs s)), free_pairs_unfold.
    rewrite (layout_free_indices _ _ _ _ _ _ _ Hl) by lia.
    rewrite length_zseq. lia.
  - intros Hr. pose proof (reachable_untoggled_canon s Hr) as Hc.
    pose proof Hc as (Hwfs & _ & _ & _ & _ & Hn & _ & Hv).
    destruct Hv as [(_ & _ & Hpf) | (_ & Hpf)];
      rewrite Hpf in Htheta; [discriminate|].
    injection Htheta as <-.
    assert (Hlen : List.length (pf_of (components s)) = count_nonfixed s)
      by (rewrite length_pf_of by exact Hwfs; apply total_free_count).
    split; [exact Hlen|].
    rewrite update_parameters_writes
      by (rewrite length_pf_of by exact Hwfs; symmetry; exact Hn).
    apply for_each_identity. intros [[c p] ind] Hin.
    apply write_pair_identity; auto.
Qed.

Lemma free_vector_consistency_witness :
  List.length [11; 7; 45]%Q = count_nonfixed example_set /\
  update_parameters [11; 7; 45]%Q example_set = (Ok tt, example_set).
Proof.
  apply (proj2 (free_vector_consistency example_set [11; 7; 45]%Q eq_refl)).
  apply example_set_untoggled.
Defined.

(** C6 fails as stated: after fixing a parameter that was free when its
    component was added, the free vector keeps its two entries while one
    parameter is non-fixed; and after setting that parameter the free vector
    holds the old value, which the round trip writes back. *)
Lemma free_vector_stale_after_fixing :
  exists theta,
    parameters_free example_toggled = Some theta /\
    List.length theta = 2%nat /\ count_nonfixed example_toggled = 1%nat /\
    List.length theta <> count_nonfixed example_toggled /\
    param_value example_toggled (Some "disk"%string) "r_eff" = Some 9%Q /\
    param_value (snd (update_parameters theta example_toggled))
      (Some "disk"%string) "r_eff" = Some 5%Q /\
    param_value (snd (update_parameters theta example_toggled))
      (Some "disk"%string) "r_eff"
    <> param_value example_toggled (Some "disk"%string) "r_eff".
Proof.
  exists [11; 5]%Q. vm_compute.
  repeat split; try reflexivity; intros H; discriminate H.
Qed.

Lemma update_parameters_contract_witness :
  map snd (free_pairs example_set) = zseq 0 3 /\
  exists s',
    update_parameters [1; 2; 3]%Q example_set = (Ok tt, s') /\
    forall c p ind,
      In (c, p, ind) (free_pairs example_set) ->
      exists v, array_get [1; 2; 3]%Q ind = Ok v /\ param_value s' c p = Some v.
Proof.
  apply (proj2 (proj2 (proj2 (update_parameters_contract [1; 2; 3]%Q example_set)))).
  - apply reachable_untoggled_reachable. apply example_set_untoggled.
  - reflexivity.
Defined.

(** *** The full vector mirrors the component arrays *)

(** The part of a write that does not depend on the fixed flags: the
    component array and the full vector are written first. *)
Lemma set_parameter_value_full (c : key) (p : string) (v : value) (s : t)
    (m : model) (i k : nat) (kd : list (string * Z)) (pa : list value) :
  dict_get key_eqb c (components s) = Some m ->
  index p (param_names m) = Some i ->
  (i < List.length (parameters m))%nat ->
  dict_get key_eqb c (_param_keys s) = Some kd ->
  dict_get String.eqb p kd = Some (Z.of_nat k) ->
  parameters_all s = Some pa -> (k < List.length pa)%nat ->
  components (snd (set_parameter_value c p v s))
  = dict_set key_eqb c (with_parameters m (upd i v (parameters m))) (components s) /\
  parameters_all (snd (set_parameter_value c p v s)) = Some (upd k v pa) /\
  _param_keys (snd (set_parameter_value c p v s)) = _param_keys s /\
  nparams (snd (set_parameter_value c p v s)) = nparams s.
Proof.
  intros H1 H2 H3 H4 H5 H6 H7.
  destruct s as [mc cs g pa0 pf fa pn ks fs N n]. simpl in *. subst pa0.
  unfold set_parameter_value, write_component, mbind, get, lift, lookup,
    modify, ret. simpl.
  rewrite H1. simpl. rewrite H2. simpl.
  rewrite (array_set_nonneg _ _ _ H3). simpl.
  rewrite H4. simpl. rewrite H5. simpl.
  rewrite (array_set_nonneg _ _ _ H7). simpl.
  destruct (dict_get String.eqb p (fixed m)) as [fx|]; simpl; [|auto].
  destruct fx; simpl; [auto|].
  destruct (dict_get key_eqb c fs) as [kf|]; simpl; [|auto].
  destruct (dict_get String.eqb p kf) as [ind|]; simpl; [|auto].
  destruct pf as [pf|]; simpl; [|auto].
  destruct (array_set pf ind v) as [pf'|e]; simpl; auto.
Qed.

(** What [set_parameter_fixed] changes: the flag of one parameter, in the
    component and in the registry's dictionary of flags. *)
Lemma set_parameter_fixed_state (c : key) (p : string) (b : bool) (s : t) :
  parameters_all (snd (set_parameter_fixed c p b s)) = parameters_all s /\
  parameters_free (snd (set_parameter_fixed c p b s)) = parameters_free s /\
  _param_keys (snd (set_parameter_fixed c p b s)) = _param_keys s /\
  _param_free_keys (snd (set_parameter_fixed c p b s)) = _param_free_keys s /\
  nparams (snd (set_parameter_fixed c p b s)) = nparams s /\
  nparams_free (snd (set_parameter_fixed c p b s)) = nparams_free s /\
  (components (snd (set_parameter_fixed c p b s)) = components s \/
   exists (m : model) (i : nat),
     dict_get key_eqb c (components s) = Some m /\
     index p (param_names m) = Some i /\
     components (snd (set_parameter_fixed c p b s))
     = dict_set key_eqb c (with_fixed m (dict_set String.eqb p b (fixed m)))
         (components s)).
Proof.
  destruct s as [mc cs g pa pf fa pn ks fs N n].
  unfold set_parameter_fixed, mbind, get, lift, lookup, modify, ret. simpl.
  destruct (dict_get key_eqb c cs) as [m|] eqn:E1; simpl; [|repeat split; auto].
  destruct (index p (param_names m)) as [i|] eqn:E2; simpl; [|repeat split; auto].
  destruct (dict_get key_eqb c fa) as [fx|]; simpl;
    (repeat (split; [reflexivity|])); right; exists m, i; auto.
Qed.

(** Replacing a component by one with the same names and values moves
    nothing in the full vector or in the full index dictionary. *)
Lemma replace_same_values (cs : list (key * model)) (c : key) (m m' : model) :
  dict_get key_eqb c cs = Some m ->
  param_names m' = param_names m -> parameters m' = parameters m ->
  (forall N, keys_of (dict_set key_eqb c m' cs) N = keys_of cs N) /\
  total (dict_set key_eqb c m' cs) = total cs /\
  pa_of (dict_set key_eqb c m' cs) = pa_of cs.
Proof.
  intros Hget Hn Hp.
  induction cs as [|[c0 m0] cs IH]; [discriminate|].
  cbn [dict_get dict_set] in *.
  destruct (key_eqb c c0) eqn:E.
  - apply key_eqb_eq in E. subst c0. injection Hget as ->.
    rewrite !total_cons, !pa_of_cons. cbn [keys_of snd]. rewrite Hn, Hp. auto.
  - destruct (IH Hget) as (H1 & H2 & H3).
    rewrite !total_cons, !pa_of_cons. cbn [keys_of]. rewrite H2, H3.
    repeat split; auto. intros. rewrite H1. reflexivity.
Qed.

(** The entry of the full vector at the index of a parameter. *)
Lemma pa_of_read (cs : list (key * model)) :
  forall (N : Z) (c : key) (m : model) (p : string) (i : nat),
    Forall (fun cm : key * model => wf_model (snd cm)) cs ->
    dict_get key_eqb c cs = Some m ->
    index p (param_names m) = Some i ->
    exists (kd : list (string * Z)) (k : Z),
      dict_get key_eqb c (keys_of cs N) = Some kd /\
      dict_get String.eqb p kd = Some k /\
      N <= k < N + Z.of_nat (total cs) /\
      nth_error (pa_of cs) (Z.to_nat (k - N)) = nth_error (parameters m) i.
Proof.
  induction cs as [|[c0 m0] cs IH]; intros N c m p i Hwf Hget Hi; [discriminate|].
  inversion Hwf as [|? ? Hwf0 Hwf']; subst. simpl in Hwf0.
  cbn [dict_get keys_of] in *. rewrite total_cons.
  destruct (key_eqb c c0) eqn:E.
  - injection Hget as ->.
    exists (full_entries (param_names m) N), (N + Z.of_nat i).
    assert (Hlt : (i < List.length (param_names m))%nat).
    { apply index_some in Hi. apply nth_error_Some. congruence. }
    destruct Hwf0 as (_ & Hlen & _).
    split; [reflexivity|]. split; [apply full_entries_index; exact Hi|].
    split; [lia|].
    rewrite pa_of_cons. simpl.
    replace (Z.to_nat (N + Z.of_nat i - N)) with i by lia.
    apply nth_error_app1. lia.
  - destruct (IH (N + Z.of_nat (List.length (param_names m0))) c m p i Hwf' Hget Hi)
      as (kd & k & H1 & H2 & H3 & H4).
    exists kd, k. split; [exact H1|]. split; [exact H2|]. split; [lia|].
    rewrite pa_of_cons. simpl.
    destruct Hwf0 as (_ & Hlen & _).
    rewrite nth_error_app2 by lia. rewrite <- H4. f_equal. lia.
Qed.

(** The invariant every reachable registry satisfies, whatever was done to
    the fixed flags: the full index dictionary, the parameter count and the
    full vector are determined by the components. *)
Definition mirrored (s : t) : Prop :=
  Forall (fun cm : key * model => wf_model (snd cm)) (components s) /\
  _param_keys s = keys_of (components s) 0 /\
  nparams s = Z.of_nat (total (components s)) /\
  vec (parameters_all s) = pa_of (components s) /\
  (parameters_all s = None -> components s = []).

Lemma add_comp_mirrored (m : model) (s : t) :
  layout (components s) (_param_keys s) (_param_free_keys s) 0 0
    (nparams s) (nparams_free s) ->
  ((components s = [] /\ parameters_all s = None /\ parameters_free s = None) \/
   (exists pa pf,
       parameters_all s = Some pa /\ parameters_free s = Some pf /\
       Z.of_nat (List.length pa) = nparams s /\
       Z.of_nat (List.length pf) = nparams_free s)) ->
  mirrored s -> wf_model m ->
  dict_get key_eqb (name m) (components s) = None ->
  mirrored (snd (_add_comp m s)).
Proof.
  intros Hl Hv (Hwfs & Hk & HN & Hpa & _) Hwf Hfresh.
  rewrite (add_comp_result m s Hl Hv Hwf Hfresh). unfold mirrored. simpl.
  split; [apply Forall_app; split; [exact Hwfs | constructor; [exact Hwf | constructor]]|].
  split; [rewrite keys_of_snoc, Hk, HN; reflexivity|].
  split; [rewrite total_snoc, HN; simpl; lia|].
  split; [|discriminate].
  unfold pa_of. rewrite flat_map_app. simpl. rewrite app_nil_r.
  fold (pa_of (components s)). rewrite Hpa. reflexivity.
Qed.

Lemma add_component_mirrored (obj : py_object) (nm : option string) (s : t) :
  shape s -> mirrored s -> admissible s obj nm ->
  mirrored (snd (add_component obj nm s)).
Proof.
  intros (Hl & _ & _ & Hv) Hs Ha.
  destruct obj as [m|]; [|exact Hs].
  destruct Ha as [Hwf Hfresh]. unfold registered_name in Hfresh.
  unfold add_component.
  destruct (String.eqb (_type m) "mass") eqn:Et.
  - assert (Hgo : forall m', wf_model m' ->
                dict_get key_eqb (name m') (components s) = None ->
                mirrored (snd ((s0 <- get ;;
                             if (0 <? count (name m') (dict_keys (mass_components s0)))%nat
                             then raise duplicate_component
                             else
                               modify (fun s1 => set_mass_components
                                  (dict_set key_eqb (name m') true (mass_components s1)) s1) ;;;
                               _add_comp m')%M s))).
    { intros m' Hwf' Hfresh'. unfold mbind, get. simpl.
      destruct (0 <? count (name m') (dict_keys (mass_components s)))%nat;
        [exact Hs|].
      unfold modify. simpl.
      apply add_comp_mirrored; simpl; auto. }
    destruct nm as [n|]; [|destruct (name m) as [n0|] eqn:En].
    + apply Hgo; [apply wf_rename; exact Hwf | exact Hfresh].
    + cbv beta iota zeta. rewrite <- En in *. apply Hgo; auto.
    + exact Hs.
  - destruct (String.eqb (_type m) "geometry") eqn:Eg; [|exact Hs].
    unfold mbind, modify. simpl.
    apply add_comp_mirrored; simpl; auto.
Qed.

Lemma mirrored_param (s : t) (c : key) (m : model) (p : string) (i : nat) :
  mirrored s ->
  dict_get key_eqb c (components s) = Some m ->
  index p (param_names m) = Some i ->
  exists (kd : list (string * Z)) (k : nat),
    wf_model m /\ (i < List.length (parameters m))%nat /\
    dict_get key_eqb c (_param_keys s) = Some kd /\
    dict_get String.eqb p kd = Some (Z.of_nat k) /\
    parameters_all s = Some (pa_of (components s)) /\
    (k < List.length (pa_of (components s)))%nat /\
    nth_error (pa_of (components s)) k = nth_error (parameters m) i /\
    forall v,
      pa_of (dict_set key_eqb c (with_parameters m (upd i v (parameters m)))
               (components s))
      = upd k v (pa_of (components s)).
Proof.
  intros (Hwfs & Hk & HN & Hpa & Hne) Hm Hi.
  destruct (pa_of_read (components s) 0 c m p i Hwfs Hm Hi)
    as (kd & k & H1 & H2 & H3 & H4).
  rewrite Z.sub_0_r in H4.
  assert (Hwf : wf_model m).
  { apply (dict_get_some_in key_eqb key_eqb_eq) in Hm.
    rewrite Forall_forall in Hwfs. exact (Hwfs _ Hm). }
  assert (Hlt : (i < List.length (param_names m))%nat).
  { apply index_some in Hi. apply nth_error_Some. congruence. }
  pose proof Hwf as (_ & Hlen & _).
  exists kd, (Z.to_nat k).
  split; [exact Hwf|]. split; [lia|].
  split; [rewrite Hk; exact H1|].
  split; [rewrite Z2Nat.id by lia; exact H2|].
  split.
  { destruct (parameters_all s) as [pa|] eqn:Epa.
    - simpl in Hpa. rewrite Hpa. reflexivity.
    - rewrite (Hne eq_refl) in Hm. discriminate. }
  split; [rewrite length_pa_of by exact Hwfs; lia|].
  split; [exact H4|].
  intros v.
  destruct (pa_of_write (components s) 0 c m p i k kd v Hwfs Hm Hi H1 H2) as [_ Hw].
  rewrite Z.sub_0_r in Hw. exact Hw.
Qed.

Lemma set_parameter_value_mirrored (c : key) (p : string) (v : value) (s : t) :
  mirrored s -> mirrored (snd (set_parameter_value c p v s)).
Proof.
  intros Hs.
  destruct (dict_get key_eqb c (components s)) as [m|] eqn:Em.
  2:{ rewrite set_parameter_value_unknown; auto. }
  destruct (index p (param_names m)) as [i|] eqn:Ei.
  2:{ rewrite set_parameter_value_unknown; eauto. }
  destruct (mirrored_param s c m p i Hs Em Ei)
    as (kd & k & Hwf & Hlt & Hkd & Hk & Hpa & Hkl & _ & Hw).
  destruct (set_parameter_value_full c p v s m i k kd _ Em Ei Hlt Hkd Hk Hpa Hkl)
    as (E1 & E2 & E3 & E4).
  destruct Hs as (Hwfs & HK & HN & _ & _).
  set (m' := with_parameters m (upd i v (parameters m))) in *.
  assert (Hwf' : wf_model m')
    by (apply wf_with_parameters; [apply length_upd | exact Hwf]).
  destruct (replace_same_names (components s) c m m' Em eq_refl eq_refl)
    as (R1 & _ & R3 & _ & _).
  unfold mirrored. rewrite E1, E2, E3, E4, R1, R3.
  split; [apply forall_wf_replace; assumption|].
  split; [exact HK|]. split; [exact HN|].
  split; [simpl; symmetry; apply Hw|discriminate].
Qed.

Lemma set_parameter_fixed_mirrored (c : key) (p : string) (b : bool) (s : t) :
  mirrored s -> mirrored (snd (set_parameter_fixed c p b s)).
Proof.
  intros (Hwfs & HK & HN & Hpa & Hne).
  destruct (set_parameter_fixed_state c p b s)
    as (E1 & _ & E3 & _ & E5 & _ & [Ec | (m & i & Hm & Hi & Ec)]).
  - unfold mirrored. rewrite E1, E3, E5, Ec. auto.
  - assert (Hwf : wf_model m).
    { apply (dict_get_some_in key_eqb key_eqb_eq) in Hm.
      rewrite Forall_forall in Hwfs. exact (Hwfs _ Hm). }
    set (m' := with_fixed m (dict_set String.eqb p b (fixed m))) in *.
    destruct (replace_same_values (components s) c m m' Hm eq_refl eq_refl)
      as (R1 & R2 & R3).
    unfold mirrored. rewrite E1, E3, E5, Ec, R1, R2, R3.
    split; [apply forall_wf_replace; [exact Hwfs|eapply wf_with_fixed; eauto]|].
    split; [exact HK|]. split; [exact HN|]. split; [exact Hpa|].
    intros Hn. rewrite (Hne Hn) in Hm. discriminate.
Qed.

Lemma mirrored_init : mirrored init.
Proof. unfold mirrored, init. simpl. repeat split; auto. Qed.

Lemma reachable_mirrored (s : t) : reachable s -> mirrored s.
Proof.
  induction 1 as [|s obj nm Hr IH Ha|s c p v Hr IH|s c p b Hr IH].
  - apply mirrored_init.
  - apply add_component_mirrored; auto. apply reachable_shape. exact Hr.
  - apply set_parameter_value_mirrored. exact IH.
  - apply set_parameter_fixed_mirrored. exact IH.
Qed.

Lemma mirrored_full_value (s : t) (c : key) (p : string) (v : value) :
  mirrored s -> param_value s c p = Some v -> full_value s c p = Some v.
Proof.
  intros Hs. unfold param_value.
  destruct (dict_get key_eqb c (components s)) as [m|] eqn:Em; [|discriminate].
  destruct (index p (param_names m)) as [i|] eqn:Ei; [|discriminate].
  intros Hv.
  destruct (mirrored_param s c m p i Hs Em Ei)
    as (kd & k & _ & _ & Hkd & Hk & Hpa & _ & Hnth & _).
  unfold full_value. rewrite Hkd, Hpa, Hk.
  rewrite (array_get_nonneg _ k v); [reflexivity|]. rewrite Hnth. exact Hv.
Qed.

Lemma registered_param_value (s : t) (c : key) (m : model) (p : string) (i : nat) :
  mirrored s ->
  dict_get key_eqb c (components s) = Some m ->
  index p (param_names m) = Some i ->
  exists v, param_value s c p = Some v.
Proof.
  intros Hs Em Ei.
  destruct (mirrored_param s c m p i Hs Em Ei) as (_ & _ & _ & Hlt & _).
  unfold param_value. rewrite Em, Ei.
  destruct (nth_error (parameters m) i) as [v|] eqn:E; [eauto|].
  apply nth_error_None in E. lia.
Qed.

Lemma example_toggled_reachable : reachable example_toggled.
Proof.
  unfold example_toggled, run. cbn [fold_left call].
  apply reach_set_value. apply reach_set_fixed. apply reach_add; [apply reach_init|].
  split; [apply wf_example_disk | reflexivity].
Qed.

(** X11: in every registry reached by admissible [add_component] calls and
    any [set_parameter_value] and [set_parameter_fixed] calls, whether they
    returned or raised and whatever was done to the fixed flags, the full
    parameter vector is the concatenation of the component arrays in the
    order the components were added, [nparams] is its length, every declared
    parameter of a registered component has a value, and the entry of the
    full vector at its index in [_param_keys] is that value. *)
Theorem full_vector_mirrors_components (s : t) (Hs : reachable s) :
  vec (parameters_all s) = pa_of (components s) /\
  nparams s = Z.of_nat (List.length (vec (parameters_all s))) /\
  (forall c m p i,
     dict_get key_eqb c (components s) = Some m ->
     index p (param_names m) = Some i ->
     exists v, param_value s c p = Some v /\ full_value s c p = Some v).
Proof.
  pose proof (reachable_mirrored s Hs) as Hm.
  pose proof Hm as (Hwfs & _ & HN & Hpa & _).
  split; [exact Hpa|]. split.
  - rewrite Hpa, length_pa_of by exact Hwfs. exact HN.
  - intros c m p i Em Ei.
    destruct (registered_param_value s c m p i Hm Em Ei) as [v Hv].
    exists v. split; [exact Hv|]. apply mirrored_full_value; assumption.
Qed.

Lemma full_vector_mirrors_components_witness :
  vec (parameters_all example_toggled) = pa_of (components example_toggled) /\
  nparams example_toggled = Z.of_nat (List.length (vec (parameters_all example_toggled))) /\
  (forall c m p i,
     dict_get key_eqb c (components example_toggled) = Some m ->
     index p (param_names m) = Some i ->
     exists v, param_value example_toggled c p = Some v /\
               full_value example_toggled c p = Some v).
Proof.
  apply (full_vector_mirrors_components example_toggled). apply example_toggled_reachable.
Defined.

(** *** The contract of [set_parameter_value] *)

(** [self._param_free_keys[c][p]] *)
Definition free_index (s : t) (c : key) (p : string) : option Z :=
  match dict_get key_eqb c (_param_free_keys s) with
  | Some kf => dict_get String.eqb p kf
  | None => None
  end.

(** The second half of a write, on a registry that satisfies the
    invariants: the flag is read and, for a non-fixed parameter, the free
    vector is written at the free index, which may be the sentinel. *)
Lemma set_parameter_value_outcome (c : key) (p : string) (v : value) (s : t)
    (m : model) (i : nat) :
  shape s -> mirrored s ->
  dict_get key_eqb c (components s) = Some m ->
  index p (param_names m) = Some i ->
  exists (ind : Z) (fx : bool) (pf : list value),
    dict_get String.eqb p (fixed m) = Some fx /\
    free_index s c p = Some ind /\
    parameters_free s = Some pf /\
    Z.of_nat (List.length pf) = nparams_free s /\
    (ind = -99 \/ 0 <= ind < nparams_free s) /\
    fst (set_parameter_value c p v s)
    = (if fx then Ok tt
       else match array_set pf ind v with
            | Ok _ => Ok tt
            | Raise e => Raise e
            end) /\
    parameters_free (snd (set_parameter_value c p v s))
    = (if fx then Some pf
       else match array_set pf ind v with
            | Ok pf' => Some pf'
            | Raise _ => Some pf
            end).
Proof.
  intros (Hl & _ & _ & Hv) Hs Em Ei.
  destruct (mirrored_param s c m p i Hs Em Ei)
    as (kd & k & Hwf & Hlt & Hkd & Hk & Hpa & Hkl & _ & _).
  destruct (layout_get _ _ _ _ _ _ _ c m Hl Em)
    as (fl & K & J & _ & Hkf & Hfl & _ & _ & _ & HJ & HJn).
  assert (Hp : In p (param_names m)).
  { apply index_some in Ei. eapply nth_error_In; eauto. }
  destruct (wf_fixed_entry m p Hwf Hp) as [fx Hfx].
  destruct (dict_get String.eqb p (free_entries fl (param_names m) J))
    as [ind|] eqn:Eind.
  2:{ apply (dict_get_none String.eqb string_eqb_eq) in Eind.
      rewrite map_fst_free_entries in Eind by exact Hfl. contradiction. }
  destruct Hv as [(Hcs & _) | (pa & pf & _ & Hpf & _ & Hn)].
  { rewrite Hcs in Em. discriminate. }
  exists ind, fx, pf.
  split; [exact Hfx|]. split; [unfold free_index; rewrite Hkf; exact Eind|].
  split; [exact Hpf|]. split; [exact Hn|].
  split.
  { destruct (Z.eq_dec ind (-99)) as [He|He]; [left; exact He|right].
    pose proof (free_entries_range fl (param_names m) J p ind
                  (dict_get_some_in String.eqb string_eqb_eq _ _ _ Eind) He). lia. }
  destruct s as [mc cs g pa0 pf0 fa pn ks fs N n]. simpl in *. subst pa0 pf0.
  unfold set_parameter_value, write_component, mbind, get, lift, lookup,
    modify, ret. simpl.
  rewrite Em. simpl. rewrite Ei. simpl.
  rewrite (array_set_nonneg _ _ _ Hlt). simpl.
  rewrite Hkd. simpl. rewrite Hk. simpl.
  rewrite (array_set_nonneg _ _ _ Hkl). simpl.
  rewrite Hfx. simpl.
  destruct fx; simpl; [auto|].
  rewrite Hkf. simpl. rewrite Eind. simpl.
  destruct (array_set pf ind v) as [pf'|e]; simpl; auto.
Qed.

Lemma array_set_sentinel {A : Type} (a : list A) (v : A) :
  array_set a (-99) v
  = if Z.of_nat (List.length a) <? 99 then Raise IndexError
    else Ok (upd (Z.to_nat (Z.of_nat (List.length a) - 99)) v a).
Proof.
  unfold array_set, position. cbn [Z.leb Z.ltb Z.compare andb].
  destruct (Z.of_nat (List.length a) <? 99) eqn:E.
  - apply Z.ltb_lt in E.
    replace (- Z.of_nat (List.length a) <=? -99) with false
      by (symmetry; apply Z.leb_gt; lia).
    reflexivity.
  - apply Z.ltb_ge in E.
    replace (- Z.of_nat (List.length a) <=? -99) with true
      by (symmetry; apply Z.leb_le; lia).
    cbn [andb]. do 2 f_equal. lia.
Qed.

Lemma set_parameter_value_errors (c : key) (p : string) (v : value) (s : t) :
  (dict_get key_eqb c (components s) = None ->
   set_parameter_value c p v s = (Raise model_not_in_set, s)) /\
  (forall m, dict_get key_eqb c (components s) = Some m ->
             index p (param_names m) = None ->
             set_parameter_value c p v s = (Raise param_not_in_model, s)).
Proof.
  unfold set_parameter_value, mbind, get, lift, lookup. split.
  - intros ->. reflexivity.
  - intros m -> Hi. cbn [fst snd]. rewrite Hi. reflexivity.
Qed.

Lemma set_parameter_value_reads_back (c : key) (p : string) (v : value) (s : t)
    (m : model) (i : nat) :
  mirrored s ->
  dict_get key_eqb c (components s) = Some m ->
  index p (param_names m) = Some i ->
  param_value (snd (set_parameter_value c p v s)) c p = Some v.
Proof.
  intros Hs Em Ei.
  destruct (mirrored_param s c m p i Hs Em Ei)
    as (kd & k & Hwf & Hlt & Hkd & Hk & Hpa & Hkl & _ & _).
  destruct (set_parameter_value_full c p v s m i k kd _ Em Ei Hlt Hkd Hk Hpa Hkl)
    as (E1 & _).
  unfold param_value. rewrite E1.
  rewrite (dict_get_set_same key_eqb key_eqb_eq). cbn [with_parameters param_names parameters].
  rewrite Ei. apply nth_error_upd_same. exact Hlt.
Qed.

(** X12: [set_parameter_value] on a reachable registry.  An unknown
    component raises the KeyError and an unknown parameter the ValueError,
    both with the registry unchanged.  For a declared parameter of a
    registered component the value is stored in the component and in the
    full vector, and every other parameter keeps its value in both, whether
    the call returns or raises.  The call returns unless it raises
    IndexError, which happens exactly when the parameter is non-fixed now,
    was fixed when its component was added (its free index is the sentinel
    -99) and there are fewer than 99 free parameters. *)
Theorem set_parameter_value_contract (s : t) (c : key) (p : string) (v : value)
    (Hs : reachable s) :
  (dict_get key_eqb c (components s) = None ->
   set_parameter_value c p v s = (Raise model_not_in_set, s)) /\
  (forall m, dict_get key_eqb c (components s) = Some m ->
             index p (param_names m) = None ->
             set_parameter_value c p v s = (Raise param_not_in_model, s)) /\
  (forall m i,
     dict_get key_eqb c (components s) = Some m ->
     index p (param_names m) = Some i ->
     param_value (snd (set_parameter_value c p v s)) c p = Some v /\
     full_value (snd (set_parameter_value c p v s)) c p = Some v /\
     (forall c' p' v',
        (c', p') <> (c, p) -> param_value s c' p' = Some v' ->
        param_value (snd (set_parameter_value c p v s)) c' p' = Some v' /\
        full_value (snd (set_parameter_value c p v s)) c' p' = Some v') /\
     (fst (set_parameter_value c p v s) = Ok tt \/
      fst (set_parameter_value c p v s) = Raise IndexError) /\
     (fst (set_parameter_value c p v s) = Raise IndexError <->
      is_free m p = true /\ free_index s c p = Some (-99) /\ nparams_free s < 99)).
Proof.
  pose proof (reachable_mirrored s Hs) as Hm.
  pose proof (reachable_shape s Hs) as Hsh.
  pose proof (set_parameter_value_mirrored c p v s Hm) as Hm'.
  destruct (set_parameter_value_errors c p v s) as [He1 He2].
  split; [exact He1|]. split; [exact He2|].
  intros m i Em Ei.
  pose proof (set_parameter_value_reads_back c p v s m i Hm Em Ei) as Hrb.
  split; [exact Hrb|]. split; [apply mirrored_full_value; assumption|].
  split.
  { intros c' p' v' Hne Hv'.
    assert (Hp : param_value (snd (set_parameter_value c p v s)) c' p' = Some v')
      by (rewrite param_value_frame by exact Hne; exact Hv').
    split; [exact Hp|]. apply mirrored_full_value; assumption. }
  destruct (set_parameter_value_outcome c p v s m i Hsh Hm Em Ei)
    as (ind & fx & pf & Hfx & Hind & Hpf & Hn & Hr & Hfst & _).
  rewrite Hfst, (is_free_spec m p fx Hfx), Hind.
  destruct fx; cbn [negb].
  - split; [left; reflexivity|]. split; [discriminate|]. intros [H _]. discriminate.
  - destruct Hr as [-> | Hr].
    + rewrite array_set_sentinel, Hn.
      destruct (nparams_free s <? 99) eqn:E.
      * apply Z.ltb_lt in E. split; [right; reflexivity|]. split; auto.
      * apply Z.ltb_ge in E. split; [left; reflexivity|].
        split; [discriminate|]. intros (_ & _ & H). lia.
    + replace ind with (Z.of_nat (Z.to_nat ind)) by lia.
      rewrite array_set_nonneg by lia.
      split; [left; reflexivity|]. split; [discriminate|].
      intros (_ & H & _). injection H as H. lia.
Qed.

(** The registry after adding the disk and releasing [n], which was fixed
    when the disk was added. *)
Definition example_released : t :=
  run [AddComponent (FittableModel example_disk) None;
       SetParameterFixed (Some "disk"%string) "n" false] init.

Lemma example_released_reachable : reachable example_released.
Proof.
  unfold example_released, run. cbn [fold_left call].
  apply reach_set_fixed. apply reach_add; [apply reach_init|].
  split; [apply wf_example_disk | reflexivity].
Qed.

Lemma set_parameter_value_contract_witness :
  fst (set_parameter_value (Some "disk"%string) "n" 2%Q example_released) = Raise IndexError /\
  param_value (snd (set_parameter_value (Some "disk"%string) "n" 2%Q example_released))
    (Some "disk"%string) "n" = Some 2%Q.
Proof.
  pose proof (proj2 (proj2 (set_parameter_value_contract example_released
                              (Some "disk"%string) "n" 2%Q example_released_reachable))
                _ 2%nat eq_refl eq_refl) as (H1 & _ & _ & _ & H5).
  split; [apply (proj2 H5); repeat split; reflexivity|exact H1].
Defined.

(** *** The contract of [add_component] *)

Lemma count_pos_in (x : key) (l : list key) :
  (0 <? count x l)%nat = true <-> In x l.
Proof.
  unfold count. induction l as [|y l IH]; simpl.
  - split; [discriminate|tauto].
  - destruct (key_eqb x y) eqn:E; simpl.
    + apply key_eqb_eq in E. subst. split; auto.
    + rewrite IH. split; [tauto|]. intros [H|H]; [|exact H].
      subst. rewrite (proj2 (key_eqb_eq x x) eq_refl) in E. discriminate.
Qed.

Lemma dict_get_app_l {V : Type} (c : key) (v : V) (d d' : list (key * V)) :
  dict_get key_eqb c d = Some v -> dict_get key_eqb c (d ++ d') = Some v.
Proof.
  induction d as [|[k' v'] d IH]; simpl; [discriminate|].
  destruct (key_eqb c k'); auto.
Qed.

Lemma dict_get_app_r {V : Type} (c : key) (d d' : list (key * V)) :
  dict_get key_eqb c d = None -> dict_get key_eqb c (d ++ d') = dict_get key_eqb c d'.
Proof.
  induction d as [|[k' v'] d IH]; simpl; [reflexivity|].
  destruct (key_eqb c k'); [discriminate|auto].
Qed.

(** On a registry that satisfies the invariant, a mass component is taken
    for a duplicate exactly when its name is registered, as a mass or as a
    geometry component. *)
Lemma duplicate_iff_registered (s : t) (c : key) :
  shape s ->
  (0 <? count c (dict_keys (mass_components s)))%nat
  = match dict_get key_eqb c (components s) with
    | Some _ => true
    | None => false
    end.
Proof.
  intros (_ & _ & Hmc & _).
  destruct (dict_get key_eqb c (components s)) as [m|] eqn:E.
  - apply count_pos_in. apply Hmc.
    apply (dict_get_some_in key_eqb key_eqb_eq) in E.
    change c with (fst (c, m)). apply in_map. exact E.
  - apply (dict_get_none key_eqb key_eqb_eq) in E.
    destruct (0 <? count c (dict_keys (mass_components s)))%nat eqn:Ec; [|reflexivity].
    apply count_pos_in in Ec. apply Hmc in Ec. contradiction.
Qed.

(** The registry after a successful [_add_comp], as a client sees it. *)
Definition added (s : t) (m : model) (s' : t) : Prop :=
  components s' = components s ++ [(name m, m)] /\
  nparams s' = nparams s + Z.of_nat (List.length (param_names m)) /\
  nparams_free s' = nparams_free s + Z.of_nat (count_free m) /\
  vec (parameters_all s') = vec (parameters_all s) ++ parameters m /\
  vec (parameters_free s')
  = vec (parameters_free s) ++ free_values (flags_of m) (parameters m) /\
  (forall c p v, param_value s c p = Some v -> param_value s' c p = Some v) /\
  (forall p i, index p (param_names m) = Some i ->
               param_value s' (name m) p = nth_error (parameters m) i).

Lemma add_comp_added (m : model) (s0 s : t) :
  shape s0 ->
  components s = components s0 -> _param_keys s = _param_keys s0 ->
  _param_free_keys s = _param_free_keys s0 ->
  nparams s = nparams s0 -> nparams_free s = nparams_free s0 ->
  parameters_all s = parameters_all s0 -> parameters_free s = parameters_free s0 ->
  wf_model m ->
  dict_get key_eqb (name m) (components s0) = None ->
  exists s', _add_comp m s = (Ok tt, s') /\ added s0 m s' /\
             geometry s' = geometry s.
Proof.
  intros (Hl & _ & _ & Hv) E1 E2 E3 E4 E5 E6 E7 Hwf Hfresh.
  rewrite <- E1, <- E2, <- E3, <- E4, <- E5 in Hl.
  rewrite <- E1, <- E4, <- E5, <- E6, <- E7 in Hv. rewrite <- E1 in Hfresh.
  rewrite (add_comp_result m s Hl Hv Hwf Hfresh).
  eexists. split; [reflexivity|]. split; [|reflexivity].
  unfold added. cbn [components nparams nparams_free parameters_all parameters_free vec].
  rewrite <- E1, <- E4, <- E5, <- E6, <- E7, nfree_flags_of.
  repeat (split; [reflexivity|]). split.
  - intros c p v. unfold param_value. cbn [components]. rewrite <- E1.
    destruct (dict_get key_eqb c (components s)) as [m0|] eqn:Em; [|discriminate].
    rewrite (dict_get_app_l c m0 _ _ Em). exact (fun H => H).
  - intros p i Hi. unfold param_value. cbn [components].
    rewrite (dict_get_app_r _ _ _ Hfresh). cbn [dict_get].
    rewrite (proj2 (key_eqb_eq _ _) eq_refl), Hi. reflexivity.
Qed.

(** The model [add_component] registers: a mass component is renamed when a
    name is given. *)
Definition registered_model (m : model) (nm : option string) : model :=
  if String.eqb (_type m) "mass" then
    match nm with
    | Some n => rename m n
    | None => m
    end
  else m.

Lemma name_registered_model (m : model) (nm : option string) :
  name (registered_model m nm) = registered_name m nm.
Proof.
  unfold registered_model, registered_name.
  destruct (String.eqb (_type m) "mass"); [destruct nm|]; reflexivity.
Qed.

Lemma wf_registered_model (m : model) (nm : option string) :
  wf_model m -> wf_model (registered_model m nm).
Proof.
  intros H. unfold registered_model.
  destruct (String.eqb (_type m) "mass"); [destruct nm|]; auto using wf_rename.
Qed.

(** X13: [add_component] on a reachable registry, for a well-formed model.
    An object that is no model, a model of an unknown type, an unnamed mass
    component and a mass component whose name is registered (as a mass or as
    a geometry component) are rejected with the registry unchanged.  A named
    mass component or a geometry under a new name is accepted: it is
    appended to the components, [nparams] grows by the number of its
    parameters and [nparams_free] by the number of its non-fixed ones, its
    values are appended to the full vector and its non-fixed values to the
    free vector, the parameters registered before keep their values, and a
    geometry becomes the registry's geometry. *)
Theorem add_component_contract (s : t) (m : model) (nm : option string)
    (Hs : reachable s) (Hwf : wf_model m) :
  add_component OtherObject nm s = (Raise not_a_model, s) /\
  (_type m <> "mass"%string -> _type m <> "geometry"%string ->
   add_component (FittableModel m) nm s = (Raise unknown_type, s)) /\
  (_type m = "mass"%string -> registered_name m nm = None ->
   add_component (FittableModel m) nm s = (Raise unnamed_component, s)) /\
  (_type m = "mass"%string -> registered_name m nm <> None ->
   dict_get key_eqb (registered_name m nm) (components s) <> None ->
   add_component (FittableModel m) nm s = (Raise duplicate_component, s)) /\
  ((_type m = "mass"%string /\ registered_name m nm <> None) \/
   _type m = "geometry"%string ->
   dict_get key_eqb (registered_name m nm) (components s) = None ->
   exists s',
     add_component (FittableModel m) nm s = (Ok tt, s') /\
     added s (registered_model m nm) s' /\
     geometry s'
     = if String.eqb (_type m) "geometry" then Some (name m) else geometry s).
Proof.
  pose proof (reachable_shape s Hs) as Hsh.
  split; [reflexivity|]. split; [|split; [|split]].
  - intros H1 H2. unfold add_component.
    apply String.eqb_neq in H1. apply String.eqb_neq in H2. rewrite H1, H2. reflexivity.
  - intros H1 Hn. unfold add_component, registered_name in *. rewrite H1 in *.
    cbn [String.eqb Ascii.eqb Bool.eqb] in *.
    destruct nm as [n|]; [discriminate|]. rewrite Hn. reflexivity.
  - intros H1 Hn Hreg.
    pose proof (name_registered_model m nm) as Hname.
    unfold add_component, registered_name, registered_model in *. rewrite H1 in *.
    cbn [String.eqb Ascii.eqb Bool.eqb] in *.
    assert (Hdup : forall m', name m' = match nm with Some n => Some n | None => name m end ->
              (s0 <- get ;;
               if (0 <? count (name m') (dict_keys (mass_components s0)))%nat
               then raise duplicate_component
               else
                 modify (fun s1 => set_mass_components
                    (dict_set key_eqb (name m') true (mass_components s1)) s1) ;;;
                 _add_comp m')%M s = (Raise duplicate_component, s)).
    { intros m' Hm'. unfold mbind, get. cbn [fst snd].
      rewrite (duplicate_iff_registered s (name m') Hsh), Hm'.
      destruct (dict_get key_eqb _ (components s)); [reflexivity|contradiction]. }
    destruct nm as [n|]; [apply Hdup; reflexivity|].
    destruct (name m) as [n0|] eqn:En; [|contradiction].
    cbv beta iota zeta. rewrite <- En. apply Hdup. exact En.
  - intros Hty Hfresh.
    pose proof (name_registered_model m nm) as Hname.
    pose proof (wf_registered_model m nm Hwf) as Hwf'.
    unfold add_component.
    destruct Hty as [[H1 Hn] | H2].
    + unfold registered_model in *. unfold registered_name in Hn, Hfresh, Hname.
      rewrite H1 in *. cbn [String.eqb Ascii.eqb Bool.eqb] in *.
      assert (Hgo : forall m', wf_model m' ->
                name m' = match nm with Some n => Some n | None => name m end ->
                exists s',
                  (s0 <- get ;;
                   if (0 <? count (name m') (dict_keys (mass_components s0)))%nat
                   then raise duplicate_component
                   else
                     modify (fun s1 => set_mass_components
                        (dict_set key_eqb (name m') true (mass_components s1)) s1) ;;;
                     _add_comp m')%M s = (Ok tt, s') /\
                  added s m' s' /\ geometry s' = geometry s).
      { intros m' Hwfm Hm'.
        assert (Hf' : dict_get key_eqb (name m') (components s) = None)
          by (rewrite Hm'; exact Hfresh).
        unfold mbind, get, modify. cbn [fst snd].
        rewrite (duplicate_iff_registered s (name m') Hsh), Hf'.
        destruct (add_comp_added m' s
                    (set_mass_components
                       (dict_set key_eqb (name m') true (mass_components s)) s) Hsh)
          as (s' & E & Ha & Hg); auto.
        exists s'. split; [exact E|]. split; [exact Ha|exact Hg]. }
      destruct nm as [n|].
      * apply Hgo; [exact Hwf'|reflexivity].
      * destruct (name m) as [n0|] eqn:En; [|contradiction].
        cbv beta iota zeta. rewrite <- En. apply Hgo; [exact Hwf|exact En].
    + unfold registered_model in *. unfold registered_name in Hfresh, Hname.
      rewrite H2 in *. cbn [String.eqb Ascii.eqb Bool.eqb] in *.
      unfold mbind, modify. cbn [fst snd].
      destruct (add_comp_added m s
                  (set_mass_components
                     (dict_set key_eqb (name m) false
                        (mass_components (set_geometry (Some (name m)) s)))
                     (set_geometry (Some (name m)) s)))
        as (s' & E & Ha & Hg); auto.
      exists s'. auto.
Qed.

Lemma add_component_contract_witness :
  add_component (FittableModel example_disk) (Some "geom"%string) example_set
  = (Raise duplicate_component, example_set).
Proof.
  apply (proj1 (proj2 (proj2 (proj2
           (add_component_contract example_set example_disk (Some "geom"%string)
              (reachable_untoggled_reachable _ example_set_untoggled) wf_example_disk))))).
  - reflexivity.
  - discriminate.
  - discriminate.
Defined.

(** *** The contract of [set_parameter_fixed] *)

(** The registry's dictionary of flags holds the [fixed] dictionaries of the
    components (in the source they are the same objects). *)
Definition flags_shared (s : t) : Prop :=
  fixed_all s = map (fun cm : key * model => (fst cm, fixed (snd cm))) (components s).

Lemma dict_get_map_fixed (c : key) (cs : list (key * model)) :
  dict_get key_eqb c (map (fun cm : key * model => (fst cm, fixed (snd cm))) cs)
  = option_map fixed (dict_get key_eqb c cs).
Proof.
  induction cs as [|[c0 m0] cs IH]; simpl; [reflexivity|].
  destruct (key_eqb c c0); [reflexivity|exact IH].
Qed.

Lemma map_fixed_dict_set (c : key) (m' : model) (cs : list (key * model)) :
  map (fun cm : key * model => (fst cm, fixed (snd cm))) (dict_set key_eqb c m' cs)
  = dict_set key_eqb c (fixed m')
      (map (fun cm : key * model => (fst cm, fixed (snd cm))) cs).
Proof.
  induction cs as [|[c0 m0] cs IH]; simpl; [reflexivity|].
  destruct (key_eqb c c0); simpl; [reflexivity|]. rewrite IH. reflexivity.
Qed.

Lemma set_parameter_value_fixed_all (c : key) (p : string) (v : value) (s : t) :
  fixed_all (snd (set_parameter_value c p v s)) = fixed_all s.
Proof.
  destruct s as [mc cs g pa pf fa pn ks fs N n].
  unfold set_parameter_value, write_component, mbind, get, lift, lookup,
    modify, ret. simpl.
  destruct (dict_get key_eqb c cs) as [m|]; simpl; [|reflexivity].
  destruct (index p (param_names m)) as [i|]; simpl; [|reflexivity].
  destruct (array_set (parameters m) (Z.of_nat i) v); simpl; [|reflexivity].
  destruct (dict_get key_eqb c ks) as [kd|]; simpl; [|reflexivity].
  destruct (dict_get String.eqb p kd) as [k|]; simpl; [|reflexivity].
  destruct pa as [pa|]; simpl; [|reflexivity].
  destruct (array_set pa k v) as [pa'|e]; simpl; [|reflexivity].
  destruct (dict_get String.eqb p (fixed m)) as [fx|]; simpl; [|reflexivity].
  destruct fx; simpl; [reflexivity|].
  destruct (dict_get key_eqb c fs) as [kf|]; simpl; [|reflexivity].
  destruct (dict_get String.eqb p kf) as [ind|]; simpl; [|reflexivity].
  destruct pf as [pf|]; simpl; [|reflexivity].
  destruct (array_set pf ind v) as [pf'|e]; reflexivity.
Qed.

Lemma set_parameter_fixed_eval (c : key) (p : string) (b : bool) (s : t)
    (m : model) (i : nat) :
  flags_shared s ->
  dict_get key_eqb c (components s) = Some m ->
  index p (param_names m) = Some i ->
  set_parameter_fixed c p b s
  = (Ok tt,
     set_fixed_all
       (dict_set key_eqb c (dict_set String.eqb p b (fixed m)) (fixed_all s))
       (set_components
          (dict_set key_eqb c (with_fixed m (dict_set String.eqb p b (fixed m)))
             (components s)) s)).
Proof.
  intros Hf Em Ei.
  assert (Hfa : dict_get key_eqb c (fixed_all s) = Some (fixed m))
    by (rewrite Hf, dict_get_map_fixed, Em; reflexivity).
  unfold set_parameter_fixed, mbind, get, lift, lookup, modify. cbn [fst snd].
  rewrite Em, Ei. cbn [fixed_all set_components]. rewrite Hfa. reflexivity.
Qed.

Lemma set_parameter_fixed_errors (c : key) (p : string) (b : bool) (s : t) :
  (dict_get key_eqb c (components s) = None ->
   set_parameter_fixed c p b s = (Raise model_not_in_set, s)) /\
  (forall m, dict_get key_eqb c (components s) = Some m ->
             index p (param_names m) = None ->
             set_parameter_fixed c p b s = (Raise param_not_in_model, s)).
Proof.
  unfold set_parameter_fixed, mbind, get, lift, lookup. split.
  - intros ->. reflexivity.
  - intros m -> Hi. cbn [fst snd]. rewrite Hi. reflexivity.
Qed.

Lemma add_component_flags_shared (obj : py_object) (nm : option string) (s : t) :
  shape s -> flags_shared s -> admissible s obj nm ->
  flags_shared (snd (add_component obj nm s)).
Proof.
  intros Hsh Hf Ha.
  assert (Hgo : forall m' s1,
            components s1 = components s -> _param_keys s1 = _param_keys s ->
            _param_free_keys s1 = _param_free_keys s ->
            nparams s1 = nparams s -> nparams_free s1 = nparams_free s ->
            parameters_all s1 = parameters_all s ->
            parameters_free s1 = parameters_free s -> fixed_all s1 = fixed_all s ->
            wf_model m' -> dict_get key_eqb (name m') (components s) = None ->
            flags_shared (snd (_add_comp m' s1))).
  { intros m' s1 E1 E2 E3 E4 E5 E6 E7 E8 Hwf' Hfresh.
    pose proof Hsh as (Hl & _ & _ & Hv).
    rewrite <- E1, <- E2, <- E3, <- E4, <- E5 in Hl.
    rewrite <- E1, <- E4, <- E5, <- E6, <- E7 in Hv.
    pose proof Hfresh as Hfresh1. rewrite <- E1 in Hfresh1.
    rewrite (add_comp_result m' s1 Hl Hv Hwf' Hfresh1).
    unfold flags_shared. cbn [snd fixed_all components].
    rewrite E8, E1, Hf, map_app. cbn [map fst snd].
    apply (dict_set_fresh key_eqb).
    rewrite dict_get_map_fixed, Hfresh. reflexivity. }
  destruct obj as [m|]; [|exact Hf].
  destruct Ha as [Hwf Hfresh]. unfold registered_name in Hfresh.
  unfold add_component.
  destruct (String.eqb (_type m) "mass") eqn:Et.
  - assert (Hgo' : forall m', wf_model m' ->
                dict_get key_eqb (name m') (components s) = None ->
                flags_shared (snd ((s0 <- get ;;
                             if (0 <? count (name m') (dict_keys (mass_components s0)))%nat
                             then raise duplicate_component
                             else
                               modify (fun s1 => set_mass_components
                                  (dict_set key_eqb (name m') true (mass_components s1)) s1) ;;;
                               _add_comp m')%M s))).
    { intros m' Hwf' Hfresh'. unfold mbind, get. simpl.
      destruct (0 <? count (name m') (dict_keys (mass_components s)))%nat;
        [exact Hf|].
      unfold modify. simpl. apply Hgo; auto. }
    destruct nm as [n|]; [|destruct (name m) as [n0|] eqn:En].
    + apply Hgo'; [apply wf_rename; exact Hwf | exact Hfresh].
    + cbv beta iota zeta. rewrite <- En in *. apply Hgo'; auto.
    + exact Hf.
  - destruct (String.eqb (_type m) "geometry") eqn:Eg; [|exact Hf].
    unfold mbind, modify. simpl. apply Hgo; auto.
Qed.

Lemma reachable_flags_shared (s : t) : reachable s -> flags_shared s.
Proof.
  induction 1 as [|s obj nm Hr IH Ha|s c p v Hr IH|s c p b Hr IH].
  - reflexivity.
  - apply add_component_flags_shared; auto. apply reachable_shape. exact Hr.
  - unfold flags_shared. rewrite set_parameter_value_fixed_all.
    destruct (set_parameter_value_components c p v s)
      as [-> | (m & i & Hm & Hi & ->)]; [exact IH|].
    rewrite map_fixed_dict_set. cbn [with_parameters fixed]. rewrite <- IH.
    symmetry. apply (dict_set_same key_eqb key_eqb_eq).
    rewrite IH, dict_get_map_fixed, Hm. reflexivity.
  - destruct (dict_get key_eqb c (components s)) as [m|] eqn:Em.
    2:{ rewrite (proj1 (set_parameter_fixed_errors c p b s) Em). exact IH. }
    destruct (index p (param_names m)) as [i|] eqn:Ei.
    2:{ rewrite (proj2 (set_parameter_fixed_errors c p b s) m Em Ei). exact IH. }
    rewrite (set_parameter_fixed_eval c p b s m i IH Em Ei).
    unfold flags_shared. cbn [snd fixed_all components set_fixed_all set_components].
    rewrite map_fixed_dict_set. cbn [with_fixed fixed]. rewrite IH. reflexivity.
Qed.

(** [self.components[c].fixed[p]] *)
Definition flag (s : t) (c : key) (p : string) : option bool :=
  match dict_get key_eqb c (components s) with
  | Some m => dict_get String.eqb p (fixed m)
  | None => None
  end.

(** X14: [set_parameter_fixed] on a reachable registry.  An unknown
    component raises the KeyError and an unknown parameter the ValueError,
    both with the registry unchanged.  For a declared parameter of a
    registered component the call returns, the flag of the parameter is the
    one given, in the component and in the registry's dictionary of flags,
    and every other flag is as before.  Nothing else changes: the parameter
    values, both vectors, both index dictionaries and both counts are those
    of the registry before, so the free vector and the free indices do not
    follow the flag. *)
Theorem set_parameter_fixed_contract (s : t) (c : key) (p : string) (b : bool)
    (Hs : reachable s) :
  (dict_get key_eqb c (components s) = None ->
   set_parameter_fixed c p b s = (Raise model_not_in_set, s)) /\
  (forall m, dict_get key_eqb c (components s) = Some m ->
             index p (param_names m) = None ->
             set_parameter_fixed c p b s = (Raise param_not_in_model, s)) /\
  (forall m i,
     dict_get key_eqb c (components s) = Some m ->
     index p (param_names m) = Some i ->
     exists s',
       set_parameter_fixed c p b s = (Ok tt, s') /\
       flag s' c p = Some b /\
       (forall c' p', (c', p') <> (c, p) -> flag s' c' p' = flag s c' p') /\
       (forall c', dict_get key_eqb c' (fixed_all s')
                   = option_map fixed (dict_get key_eqb c' (components s'))) /\
       (forall c' p', param_value s' c' p' = param_value s c' p') /\
       parameters_all s' = parameters_all s /\
       parameters_free s' = parameters_free s /\
       _param_keys s' = _param_keys s /\
       _param_free_keys s' = _param_free_keys s /\
       nparams s' = nparams s /\ nparams_free s' = nparams_free s).
Proof.
  pose proof (reachable_flags_shared s Hs) as Hf.
  destruct (set_parameter_fixed_errors c p b s) as [He1 He2].
  split; [exact He1|]. split; [exact He2|].
  intros m i Em Ei.
  pose proof (reachable_flags_shared _ (reach_set_fixed s c p b Hs)) as Hf'.
  rewrite (set_parameter_fixed_eval c p b s m i Hf Em Ei) in *.
  eexists. split; [reflexivity|].
  cbn [snd] in Hf'.
  set (m' := with_fixed m (dict_set String.eqb p b (fixed m))) in *.
  split.
  { unfold flag. cbn [components set_fixed_all set_components].
    rewrite (dict_get_set_same key_eqb key_eqb_eq). cbn [m' with_fixed fixed].
    apply (dict_get_set_same String.eqb string_eqb_eq). }
  split.
  { intros c' p' Hne. unfold flag. cbn [components set_fixed_all set_components].
    destruct (key_eqb c' c) eqn:E.
    - apply key_eqb_eq in E. subst c'.
      rewrite (dict_get_set_same key_eqb key_eqb_eq), Em. cbn [m' with_fixed fixed].
      apply (dict_get_set_other String.eqb string_eqb_eq). congruence.
    - rewrite (dict_get_set_other key_eqb key_eqb_eq); [reflexivity|].
      intros <-. rewrite (proj2 (key_eqb_eq c c) eq_refl) in E. discriminate. }
  split.
  { intros c'. rewrite Hf'. apply dict_get_map_fixed. }
  split.
  { intros c' p'. unfold param_value. cbn [components set_fixed_all set_components].
    destruct (key_eqb c' c) eqn:E.
    - apply key_eqb_eq in E. subst c'.
      rewrite (dict_get_set_same key_eqb key_eqb_eq), Em. reflexivity.
    - rewrite (dict_get_set_other key_eqb key_eqb_eq); [reflexivity|].
      intros <-. rewrite (proj2 (key_eqb_eq c c) eq_refl) in E. discriminate. }
  repeat split; reflexivity.
Qed.

Lemma set_parameter_fixed_contract_witness :
  exists s',
    set_parameter_fixed (Some "disk"%string) "n" false example_set = (Ok tt, s') /\
    flag s' (Some "disk"%string) "n" = Some false /\
    nparams_free s' = nparams_free example_set.
Proof.
  destruct (proj2 (proj2 (set_parameter_fixed_contract example_set (Some "disk"%string)
                            "n" false
                            (reachable_untoggled_reachable _ example_set_untoggled)))
              _ 2%nat eq_refl eq_refl)
    as (s' & H1 & H2 & _ & _ & _ & _ & _ & _ & _ & _ & H3).
  exists s'. auto.
Defined.

(** *** [update_parameters] as a round trip *)

Lemma update_parameters_loop (theta : list value) (s : t) :
  shape s -> Z.of_nat (List.length theta) = nparams_free s ->
  map snd (free_pairs s) = zseq 0 (List.length theta) /\
  exists s',
    update_parameters theta s = (Ok tt, s') /\ similar s s' /\
    (forall c p ind,
        In (c, p, ind) (free_pairs s) ->
        exists v, array_get theta ind = Ok v /\ param_value s' c p = Some v) /\
    (forall c p, ~ In (c, p) (map fst (free_pairs s)) ->
                 param_value s' c p = param_value s c p).
Proof.
  intros Hs Hlen. pose proof Hs as (Hl & Hnd & _ & _).
  split.
  { rewrite free_pairs_unfold.
    rewrite (layout_free_indices _ _ _ _ _ _ _ Hl) by lia.
    rewrite Z.sub_0_r, <- Hlen, Nat2Z.id. reflexivity. }
  destruct (write_pairs_loop theta (free_pairs s) s Hs) as (s' & Hloop & Hsim & Hw & Hfr).
  - apply incl_refl.
  - rewrite free_pairs_unfold. eapply layout_pairs_nodup; eauto.
  - intros [[c p] ind] Hin. simpl.
    destruct (shape_pair s c p ind Hs Hin)
      as (m & i & fl & K & J & pa & pf & H1 & Hwf & H2 & H3 & H4 & H5 & H6
          & H7 & H8 & H9 & H10 & H11 & _).
    lia.
  - exists s'. split; [|auto].
    rewrite update_parameters_writes by exact Hlen. exact Hloop.
Qed.

Lemma write_pair_canon (theta : list value) (x : key * string * Z) (s : t) :
  canon s -> canon (snd (write_pair theta x s)).
Proof.
  intros Hc. destruct x as [[c p] ind]. unfold write_pair, mbind, lift.
  destruct (array_get theta ind) as [v|e]; [|exact Hc].
  apply set_parameter_value_canon. exact Hc.
Qed.

Lemma for_each_canon (theta : list value) (l : list (key * string * Z)) :
  forall s, canon s -> canon (snd (for_each l (write_pair theta) s)).
Proof.
  induction l as [|x l IH]; intros s Hc; [exact Hc|].
  cbn [for_each]. unfold mbind.
  pose proof (write_pair_canon theta x s Hc) as H1.
  destruct (write_pair theta x s) as [[u|e] s1]; cbn [snd] in *; [apply IH|]; exact H1.
Qed.

(** In a registry whose flags were never changed, the free vector holds at
    each free index the value of its parameter. *)
Lemma canon_free_read (s : t) (c : key) (p : string) (ind : Z) :
  canon s -> In (c, p, ind) (free_pairs s) ->
  exists v,
    param_value s c p = Some v /\
    nth_error (pf_of (components s)) (Z.to_nat ind) = Some v /\
    0 <= ind < nparams_free s.
Proof.
  intros Hc Hin.
  destruct (shape_pair s c p ind (canon_shape s Hc) Hin)
    as (m & i & fl & K & J & pa0 & pf0 & Em & _ & Ei & _ & S4 & S5 & _ & _ & _
        & S9 & S10 & S11 & _).
  destruct (canon_param s c m p i Hc Em Ei)
    as (kd & kf & k & ind' & fx & Hwf & Hlt & Hkd & Hk & Hkf & Hind & Hfx & Hpa & Hpf).
  rewrite S4 in Hkf. injection Hkf as <-. rewrite S5 in Hind.
  injection Hind as <-.
  assert (Hne : ind <> -99) by lia.
  pose proof Hc as (Hwfs & Hnd & HK & HF & HN & Hn & Hmc & Hv).
  destruct (nth_error (parameters m) i) as [v0|] eqn:Ev0.
  2:{ apply nth_error_None in Ev0. lia. }
  pose proof S4 as S4'. rewrite HF in S4'.
  destruct (pf_of_write _ 0 c m p i ind _ v0 Hwfs ltac:(lia) Em Ei S4' S5)
    as [_ Hf2].
  destruct (Hf2 Hne) as (Hfree & Hr & Hpfw).
  rewrite (write_same _ _ _ _ _ Em Ev0) in Hpfw.
  rewrite Z.sub_0_r in Hpfw.
  exists v0. split; [unfold param_value; rewrite Em, Ei; exact Ev0|].
  split; [|lia].
  apply upd_fixpoint; [|exact Hpfw].
  rewrite length_pf_of by exact Hwfs. lia.
Qed.

Lemma array_get_nth {A : Type} (a : list A) (i : Z) (v : A) :
  0 <= i -> array_get a i = Ok v -> nth_error a (Z.to_nat i) = Some v.
Proof.
  intros Hi. unfold array_get, position.
  replace (0 <=? i) with true by (symmetry; apply Z.leb_le; lia).
  destruct (i <? Z.of_nat (List.length a)) eqn:E; cbn [andb].
  - destruct (nth_error a (Z.to_nat i)); [intros H; injection H as ->; reflexivity|discriminate].
  - replace (i <? 0) with false by (symmetry; apply Z.ltb_ge; lia).
    rewrite andb_false_r. discriminate.
Qed.

Lemma in_zseq (a : Z) (n : nat) (j : Z) : a <= j < a + Z.of_nat n -> In j (zseq a n).
Proof.
  revert a. induction n as [|n IH]; intros a H; [lia|].
  cbn [zseq]. destruct (Z.eq_dec a j) as [->|Hne]; [left; reflexivity|].
  right. apply IH. lia.
Qed.

(** X15: [update_parameters(theta)] on a reachable registry, with
    [len(theta) == nparams_free].  The call returns; a parameter without a
    free index (fixed when its component was added) keeps its value, and the
    free indices and [nparams_free] are as before.  If no flag was changed
    since the components were added, the free vector of the registry is
    [theta] afterwards, and a second call with the same [theta] changes
    nothing. *)
Theorem update_parameters_round_trip (s : t) (theta : list value)
    (Hs : reachable s) (Hlen : Z.of_nat (List.length theta) = nparams_free s) :
  exists s',
    update_parameters theta s = (Ok tt, s') /\
    (forall c p,
       free_index s c p = None \/ free_index s c p = Some (-99) ->
       param_value s' c p = param_value s c p) /\
    _param_free_keys s' = _param_free_keys s /\
    nparams_free s' = nparams_free s /\
    (reachable_untoggled s ->
     vec (parameters_free s') = theta /\
     update_parameters theta s' = (Ok tt, s')).
Proof.
  pose proof (reachable_shape s Hs) as Hsh.
  destruct (update_parameters_loop theta s Hsh Hlen)
    as (Hidx & s' & Hrun & Hsim & Hw & Hfr).
  exists s'. split; [exact Hrun|].
  pose proof Hsim as (_ & _ & Hkf & _ & Hnf & _).
  split.
  { intros c p Hfi. apply Hfr. intros Hin.
    apply in_map_iff in Hin. destruct Hin as ([[c0 p0] ind] & Heq & Hin).
    cbn [fst] in Heq. injection Heq as -> ->.
    destruct (shape_pair s c p ind Hsh Hin)
      as (m & i & fl & K & J & pa & pf & _ & _ & _ & _ & H4 & H5 & _ & _ & _
          & H9 & H10 & _).
    unfold free_index in Hfi. rewrite H4, H5 in Hfi.
    destruct Hfi as [Hfi|Hfi]; [discriminate|]. injection Hfi as Hfi. lia. }
  split; [exact Hkf|]. split; [exact Hnf|].
  intros Hu. pose proof (reachable_untoggled_canon s Hu) as Hc.
  assert (Hc' : canon s').
  { replace s' with (snd (update_parameters theta s)) by (rewrite Hrun; reflexivity).
    rewrite update_parameters_writes by exact Hlen. apply for_each_canon. exact Hc. }
  pose proof Hc' as (Hwfs & _ & _ & _ & _ & Hn' & _ & Hv').
  assert (Hpf : pf_of (components s') = theta).
  { apply nth_error_ext. intros j.
    destruct (Nat.lt_ge_cases j (List.length theta)) as [Hj|Hj].
    - assert (Hin : In (Z.of_nat j) (map snd (free_pairs s)))
        by (rewrite Hidx; apply in_zseq; lia).
      apply in_map_iff in Hin. destruct Hin as ([[c p] ind] & Heq & Hin).
      cbn [snd] in Heq. subst ind.
      destruct (Hw c p _ Hin) as (v & Hv & Hp).
      rewrite <- (similar_free_pairs _ _ Hsim) in Hin.
      destruct (canon_free_read s' c p _ Hc' Hin) as (v' & Hp' & Hr & _).
      rewrite Nat2Z.id in Hr. rewrite Hr.
      apply array_get_nth in Hv; [|lia]. rewrite Nat2Z.id in Hv. rewrite Hv.
      congruence.
    - rewrite (proj2 (nth_error_None theta j) Hj).
      apply nth_error_None. rewrite length_pf_of by exact Hwfs. lia. }
  destruct Hv' as [(Hcs & _ & Hnone) | (_ & Hsome)].
  - split; [rewrite Hnone; rewrite Hcs in Hpf; exact Hpf|].
    rewrite update_parameters_writes by lia.
    unfold free_pairs. destruct Hc' as (_ & _ & _ & HF & _). rewrite HF, Hcs. reflexivity.
  - split; [rewrite Hsome; exact Hpf|].
    rewrite update_parameters_writes by lia.
    apply for_each_identity. intros [[c p] ind] Hin.
    apply write_pair_identity; auto. rewrite Hsome, Hpf. reflexivity.
Qed.

Lemma update_parameters_round_trip_witness :
  exists s',
    update_parameters [1; 2; 3]%Q example_set = (Ok tt, s') /\
    vec (parameters_free s') = [1; 2; 3]%Q /\
    param_value s' (Some "disk"%string) "n" = Some 1%Q.
Proof.
  destruct (update_parameters_round_trip example_set [1; 2; 3]%Q
              (reachable_untoggled_reachable _ example_set_untoggled) eq_refl)
    as (s' & H1 & H2 & _ & _ & H5).
  exists s'. split; [exact H1|]. split; [apply H5; apply example_set_untoggled|].
  rewrite H2; [reflexivity|right; reflexivity].
Defined.

(** *** Adding a geometry under a registered name *)

(** [_add_comp] for a well-formed model on a registry that holds both
    vectors, whether the name is registered or not. *)
Lemma add_comp_eval (m : model) (s : t) (pa pf : list value) :
  wf_model m -> parameters_all s = Some pa -> parameters_free s = Some pf ->
  _add_comp m s =
  (Ok tt,
   mkModelSet (mass_components s) (dict_set key_eqb (name m) m (components s))
     (geometry s)
     (Some (pa ++ parameters m))
     (Some (pf ++ free_values (flags_of m) (parameters m)))
     (dict_set key_eqb (name m) (fixed m) (fixed_all s))
     (dict_set key_eqb (name m) (param_names m) (param_names_all s))
     (dict_set key_eqb (name m) (full_entries (param_names m) (nparams s))
        (_param_keys s))
     (dict_set key_eqb (name m)
        (free_entries (flags_of m) (param_names m) (nparams_free s))
        (_param_free_keys s))
     (nparams s + Z.of_nat (List.length (param_names m)))
     (Z.of_nat (List.length (pf ++ free_values (flags_of m) (parameters m))))).
Proof.
  intros Hwf Hpa Hpf.
  assert (Hfx : forall p, In p (param_names m) ->
                          exists b, dict_get String.eqb p (fixed m) = Some b)
    by (intros p Hp; apply wf_fixed_entry; auto).
  destruct Hwf as (Hndn & Hlen & Hfixed).
  pose proof (append_free_spec m (param_names m) Hfx O (parameters m)) as Haf.
  pose proof (build_keys_spec m (param_names m) Hfx 0 0 (nparams s)
                (nparams_free s) [] [] Hndn eq_refl) as Hbk.
  simpl in Hbk.
  destruct s as [mc cs g pa0 pf0 fa pn ks fs N n]. simpl in *. subst pa0 pf0.
  unfold _add_comp, mbind, modify, get, lift. simpl.
  rewrite (Haf pf eq_refl Hlen). simpl. rewrite Hbk. reflexivity.
Qed.

Lemma total_dict_set (cs : list (key * model)) (c : key) (m0 m : model) :
  dict_get key_eqb c cs = Some m0 ->
  (total (dict_set key_eqb c m cs) + List.length (param_names m0)
   = total cs + List.length (param_names m))%nat.
Proof.
  induction cs as [|[c0 m1] cs IH]; [discriminate|].
  cbn [dict_get dict_set]. destruct (key_eqb c c0) eqn:E.
  - intros H. injection H as ->. rewrite !total_cons. cbn [snd]. lia.
  - intros H. specialize (IH H). rewrite !total_cons. cbn [snd]. lia.
Qed.

(** X16: adding a geometry under a name that is registered is not
    rejected.  On a reachable registry the call returns and the component
    of that name is replaced, but its old parameters stay in the vectors:
    the values of the new model are appended to the full vector and its
    non-fixed values to the free vector, [nparams] grows by the number of
    its parameters and [nparams_free] by the number of its non-fixed ones,
    so [nparams] exceeds the number of parameters the components hold by
    the number of parameters of the replaced component. *)
Theorem geometry_overwrite_keeps_old_parameters (s : t) (m m0 : model)
    (nm : option string)
    (Hs : reachable s) (Hwf : wf_model m) (Hty : _type m = "geometry"%string)
    (Hreg : dict_get key_eqb (name m) (components s) = Some m0) :
  exists s',
    add_component (FittableModel m) nm s = (Ok tt, s') /\
    components s' = dict_set key_eqb (name m) m (components s) /\
    map fst (components s') = map fst (components s) /\
    vec (parameters_all s') = vec (parameters_all s) ++ parameters m /\
    vec (parameters_free s')
    = vec (parameters_free s) ++ free_values (flags_of m) (parameters m) /\
    nparams s' = nparams s + Z.of_nat (List.length (param_names m)) /\
    nparams_free s' = nparams_free s + Z.of_nat (count_free m) /\
    nparams s'
    = Z.of_nat (total (components s')) + Z.of_nat (List.length (param_names m0)).
Proof.
  pose proof (reachable_shape s Hs) as (_ & _ & _ & Hv).
  pose proof (reachable_mirrored s Hs) as (_ & _ & HN & _ & _).
  destruct Hv as [(Hcs & _) | (pa & pf & Hpa & Hpf & _ & Hn)].
  { rewrite Hcs in Hreg. discriminate. }
  unfold add_component. rewrite Hty. cbn [String.eqb Ascii.eqb Bool.eqb].
  unfold mbind, modify. cbn [fst snd].
  rewrite (add_comp_eval m _ pa pf Hwf); [|exact Hpa|exact Hpf].
  eexists. split; [reflexivity|].
  cbn [components parameters_all parameters_free nparams nparams_free vec
       set_mass_components set_geometry].
  rewrite Hpa, Hpf. cbn [vec].
  split; [reflexivity|].
  split; [apply (dict_set_keys key_eqb key_eqb_eq _ _ _ _ Hreg)|].
  split; [reflexivity|]. split; [reflexivity|]. split; [reflexivity|].
  split.
  - rewrite length_app, Nat2Z.inj_add, Hn, <- nfree_flags_of.
    rewrite length_free_values; [reflexivity|].
    destruct Hwf as (_ & Hlen & _). unfold flags_of. rewrite length_map. lia.
  - pose proof (total_dict_set (components s) (name m) m0 m Hreg). lia.
Qed.

Lemma geometry_overwrite_keeps_old_parameters_witness :
  exists s',
    add_component (FittableModel example_geom) None example_set = (Ok tt, s') /\
    map fst (components s') = map fst (components example_set) /\
    nparams s' = 7 /\ total (components s') = 5%nat.
Proof.
  destruct (geometry_overwrite_keeps_old_parameters example_set example_geom
              (with_parameters example_geom [45; 0]%Q) None
              (reachable_untoggled_reachable _ example_set_untoggled)
              wf_example_geom eq_refl eq_refl)
    as (s' & H1 & H2 & H3 & _ & _ & H6 & _).
  exists s'. split; [exact H1|]. split; [exact H3|].
  split; [rewrite H6; reflexivity|rewrite H2; reflexivity].
Defined.

End ModelSet.

(** ** Floats with infinities and NaN *)

Module Float.

Open Scope R_scope.

(** A binary64 value: a real number (rounding and overflow are not
    modelled), an infinity or a NaN.  The sign of zero is not modelled. *)
Inductive fl : Type :=
| NaN
| PInf
| NInf
| Fin (x : R).

Definition Rltb (a b : R) : bool := if Rlt_dec a b then true else false.

Definition Reqb (a b : R) : bool := if Req_dec_T a b then true else false.

(** [a < b]; every comparison with NaN is false. *)
Definition ltb (a b : fl) : bool :=
  match a, b with
  | NaN, _ => false
  | _, NaN => false
  | Fin x, Fin y => Rltb x y
  | NInf, NInf => false
  | NInf, _ => true
  | PInf, _ => false
  | Fin _, PInf => true
  | Fin _, NInf => false
  end.

Definition gtb (a b : fl) : bool := ltb b a.

(** [a == b] *)
Definition eqb (a b : fl) : bool :=
  match a, b with
  | Fin x, Fin y => Reqb x y
  | PInf, PInf => true
  | NInf, NInf => true
  | _, _ => false
  end.

(** [np.isfinite] *)
Definition isfinite (a : fl) : bool :=
  match a with
  | Fin _ => true
  | _ => false
  end.

Definition neg (a : fl) : fl :=
  match a with
  | NaN => NaN
  | PInf => NInf
  | NInf => PInf
  | Fin x => Fin (- x)
  end.

Definition add (a b : fl) : fl :=
  match a, b with
  | NaN, _ => NaN
  | _, NaN => NaN
  | Fin x, Fin y => Fin (x + y)
  | PInf, NInf => NaN
  | NInf, PInf => NaN
  | PInf, _ => PInf
  | NInf, _ => NInf
  | Fin _, PInf => PInf
  | Fin _, NInf => NInf
  end.

Definition sub (a b : fl) : fl := add a (neg b).

(** The infinity of the sign of [x], NaN for zero. *)
Definition inf_of_sign (x : R) : fl :=
  if Rltb 0 x then PInf else if Rltb x 0 then NInf else NaN.

Definition mul (a b : fl) : fl :=
  match a, b with
  | NaN, _ => NaN
  | _, NaN => NaN
  | Fin x, Fin y => Fin (x * y)
  | PInf, PInf => PInf
  | NInf, NInf => PInf
  | PInf, NInf => NInf
  | NInf, PInf => NInf
  | PInf, Fin y => inf_of_sign y
  | NInf, Fin y => inf_of_sign (- y)
  | Fin x, PInf => inf_of_sign x
  | Fin x, NInf => inf_of_sign (- x)
  end.

(** numpy division: a non-zero number over zero is an infinity, zero over
    zero is NaN. *)
Definition div (a b : fl) : fl :=
  match a, b with
  | NaN, _ => NaN
  | _, NaN => NaN
  | Fin x, Fin y => if Reqb y 0 then inf_of_sign x else Fin (x / y)
  | Fin _, _ => Fin 0
  | PInf, Fin y => if Rltb y 0 then NInf else PInf
  | NInf, Fin y => if Rltb y 0 then PInf else NInf
  | _, _ => NaN
  end.

(** [np.power] of a non-negative base. *)
Definition power (a : fl) (y : R) : fl :=
  match a with
  | Fin x =>
      if Reqb x 0 then
        if Rltb y 0 then PInf else if Reqb y 0 then Fin 1 else Fin 0
      else Fin (Rpower x y)
  | PInf => if Rltb y 0 then Fin 0 else if Reqb y 0 then Fin 1 else PInf
  | _ => NaN
  end.

(** [np.sqrt], [np.log] and [np.arctan] (warnings are silenced by the
    module: a negative argument gives NaN, [log 0] is minus infinity). *)
Definition np_sqrt (a : fl) : fl :=
  match a with
  | Fin x => if Rltb x 0 then NaN else Fin (sqrt x)
  | PInf => PInf
  | _ => NaN
  end.

Definition np_log (a : fl) : fl :=
  match a with
  | Fin x => if Rltb x 0 then NaN else if Reqb x 0 then NInf else Fin (ln x)
  | PInf => PInf
  | _ => NaN
  end.

Definition np_arctan (a : fl) : fl :=
  match a with
  | Fin x => Fin (atan x)
  | PInf => Fin (PI / 2)
  | NInf => Fin (- (PI / 2))
  | NaN => NaN
  end.

Lemma Rltb_true (a b : R) : a < b -> Rltb a b = true.
Proof. intros H. unfold Rltb. destruct (Rlt_dec a b); [reflexivity | contradiction]. Qed.

Lemma Rltb_false (a b : R) : b <= a -> Rltb a b = false.
Proof. intros H. unfold Rltb. destruct (Rlt_dec a b); [lra | reflexivity]. Qed.

Lemma Reqb_true (a b : R) : a = b -> Reqb a b = true.
Proof. intros H. unfold Reqb. destruct (Req_dec_T a b); [reflexivity | contradiction]. Qed.

Lemma Reqb_false (a b : R) : a <> b -> Reqb a b = false.
Proof. intros H. unfold Reqb. destruct (Req_dec_T a b); [contradiction | reflexivity]. Qed.

End Float.

(** ** Mass profiles and dark-matter halos *)

Module Halos.

Import Float.
Open Scope R_scope.

(** *** Constants and cosmology *)

(** The constants [G], [M_sun] and [pc] the module imports from
    astropy.constants (SI values; the solar mass is the nominal solar mass
    parameter over [G]). *)
Definition G_si : R := 6.6743e-11.
Definition GM_sun : R := 1.3271244e20.
Definition M_sun_si : R := GM_sun / G_si.
Definition pc_si : R := 3.0856775814913673e16.

(** [G.to(u.pc / u.Msun * (u.km / u.s) ** 2).value] *)
Definition g_new_unit : R := G_si * M_sun_si / pc_si / 10 ^ 6.

(** [G.cgs.value], [Msun.cgs.value], [pc.cgs.value] *)
Definition G_cgs : R := G_si * 10 ^ 3.
Definition Msun_cgs : R := M_sun_si * 10 ^ 3.
Definition pc_cgs : R := pc_si * 10 ^ 2.

(** The cosmology the halos are given, astropy's flat LambdaCDM model with
    [H0] and [Om0] (no radiation term); [H(z)] in km/s/Mpc. *)
Record cosmology : Type := FlatLambdaCDM {
  H0 : R;
  Om0 : R
}.

Definition H (cosmo : cosmology) (z : R) : R :=
  H0 cosmo * sqrt (Om0 cosmo * (1 + z) ^ 3 + (1 - Om0 cosmo)).

Definition _default_cosmo : cosmology := FlatLambdaCDM 70 0.3.

(** numpy's power on a non-negative base, for every pair other than zero to
    a negative power (which is an infinity, see [Float.power]). *)
Definition power (x y : R) : R :=
  if Req_dec_T x 0 then (if Rlt_dec 0 y then 0 else 1) else Rpower x y.

(** [DarkMatterHalo.calc_rvir] *)
Definition calc_rvir (mvirial z : R) (cosmo : cosmology) : R :=
  let hz := H cosmo z in
  Rpower (Rpower 10 mvirial * (g_new_unit * 1e-3) / (10 * hz * 1e-3) ^ 2) (1 / 3).

(** [MassModel.circular_velocity]: sqrt(G M(r) / r) in km/s, for [r > 0]. *)
Definition circular_velocity (enclosed_mass : R -> R) (r : R) : R :=
  let mass_enc := enclosed_mass r in
  let vcirc := sqrt (G_cgs * mass_enc * Msun_cgs / (r * 1000 * pc_cgs)) in
  vcirc / 1e5.

(** The same as numpy evaluates it, on a mass that may be infinite or NaN
    and at any radius. *)
Definition circular_velocity_fl (enclosed_mass : R -> fl) (r : R) : fl :=
  let mass_enc := enclosed_mass r in
  let vcirc :=
    np_sqrt (Float.div (Float.mul (Float.mul (Fin G_cgs) mass_enc) (Fin Msun_cgs))
                       (Fin (r * 1000 * pc_cgs))) in
  Float.div vcirc (Fin 1e5).

(** The functions of scipy.special the profiles call. *)
Record special : Type := mkSpecial {
  gammainc : R -> R -> R;
  gammaincinv : R -> R -> R;
  gamma : R -> R;
  hyp2f1 : R -> R -> R -> R -> R
}.

(** *** NFW *)

Module NFW.

Record t : Type := mk {
  mvirial : R;
  conc : R;
  fdm : fl;
  z : R;
  cosmo : cosmology
}.

Definition calc_rvir (self : t) : R := Halos.calc_rvir (mvirial self) (z self) (cosmo self).

Definition calc_rho0 (self : t) : R :=
  let rvirial := calc_rvir self in
  let aa := Rpower 10 (mvirial self) / (4 * PI * rvirial ^ 3) * conc self ^ 3 in
  let bb := 1 / (ln (1 + conc self) - conc self / (1 + conc self)) in
  aa * bb.

Definition enclosed_mass (self : t) (r : R) : R :=
  let rho0 := calc_rho0 self in
  let rvirial := calc_rvir self in
  let rs := rvirial / conc self in
  let aa := 4 * PI * rho0 * rvirial ^ 3 / conc self ^ 3 in
  let bb := Rabs (ln ((rs + r) / rs) - r / (rs + r)) in
  aa * bb.

(** [NFW.evaluate]: the mass density at [r]; the parameter values astropy
    passes as arguments are not used, the instance is read instead. *)
Definition evaluate (self : t) (r mvirial conc : R) (fdm : fl) : R :=
  let rvirial := calc_rvir self in
  let rho0 := calc_rho0 self in
  let rs := rvirial / NFW.conc self in
  rho0 / (r / rs * (1 + r / rs) ^ 2).

End NFW.

(** *** LinearNFW: the virial mass in linear units *)

Module LinearNFW.

Record t : Type := mk {
  mvirial : R;
  conc : R;
  fdm : fl;
  z : R;
  cosmo : cosmology
}.

(** The inherited [calc_rvir] reads [10 ** self.mvirial]. *)
Definition calc_rvir (self : t) : R := Halos.calc_rvir (mvirial self) (z self) (cosmo self).

Definition calc_rho0 (self : t) : R :=
  let rvirial := calc_rvir self in
  let aa := mvirial self / (4 * PI * rvirial ^ 3) * conc self ^ 3 in
  let bb := 1 / (ln (1 + conc self) - conc self / (1 + conc self)) in
  aa * bb.

Definition enclosed_mass (self : t) (r : R) : R :=
  let rho0 := calc_rho0 self in
  let rvirial := calc_rvir self in
  let rs := rvirial / conc self in
  let aa := 4 * PI * rho0 * rvirial ^ 3 / conc self ^ 3 in
  let bb := Rabs (ln ((rs + r) / rs) - r / (rs + r)) in
  aa * bb.

End LinearNFW.

(** *** TwoPowerHalo *)

Module TwoPowerHalo.

Record t : Type := mk {
  mvirial : R;
  conc : R;
  alpha : R;
  beta : R;
  fdm : fl;
  z : R;
  cosmo : cosmology
}.

Definition calc_rvir (self : t) : R := Halos.calc_rvir (mvirial self) (z self) (cosmo self).

Definition enclosed_mass (sp : special) (self : t) (r : R) : R :=
  let rvirial := calc_rvir self in
  let rs := rvirial / conc self in
  let aa := Rpower 10 (mvirial self) * power (r / rvirial) (3 - alpha self) in
  let bb := hyp2f1 sp (3 - alpha self) (beta self - alpha self) (4 - alpha self) (- r / rs)
            / hyp2f1 sp (3 - alpha self) (beta self - alpha self) (4 - alpha self)
                (- conc self) in
  aa * bb.

End TwoPowerHalo.

(** *** Burkert *)

Module Burkert.

Record t : Type := mk {
  mvirial : R;
  rB : R;
  fdm : fl;
  z : R;
  cosmo : cosmology
}.

Definition calc_rvir (self : t) : R := Halos.calc_rvir (mvirial self) (z self) (cosmo self).

Definition I (self : t) (r : R) : R :=
  0.25 * (ln (r ^ 2 + rB self ^ 2) + 2 * ln (r + rB self)
          - 2 * atan (r / rB self) - 4 * ln (rB self)).

Definition enclosed_mass (self : t) (r : R) : R :=
  let rvir := calc_rvir self in
  let Irvir := I self rvir in
  let aa := Rpower 10 (mvirial self) / Irvir in
  let bb := I self r in
  aa * bb.

(** [I] and [enclosed_mass] as numpy evaluates them, also for [rB = 0]. *)
Definition I_fl (self : t) (r : R) : fl :=
  Float.mul (Fin 0.25)
    (Float.sub
       (Float.sub
          (Float.add (np_log (Fin (r ^ 2 + rB self ^ 2)))
                     (Float.mul (Fin 2) (np_log (Fin (r + rB self)))))
          (Float.mul (Fin 2) (np_arctan (Float.div (Fin r) (Fin (rB self))))))
       (Float.mul (Fin 4) (np_log (Fin (rB self))))).

Definition enclosed_mass_fl (self : t) (r : R) : fl :=
  let rvir := calc_rvir self in
  let Irvir := I_fl self rvir in
  let aa := Float.div (Fin (Rpower 10 (mvirial self))) Irvir in
  let bb := I_fl self r in
  Float.mul aa bb.

(** The halo [_minfunc_vdm_rB_from_fDM] builds, [Burkert(mvirial=mass,
    rB=rB, z=z)], with the default cosmology and the default [fdm]. *)
Definition trial (mass z : R) : R -> R -> result fl :=
  fun rB r =>
    Ok (circular_velocity_fl (enclosed_mass_fl (mk mass rB (Fin (-99.9)) z _default_cosmo)) r).

(** [Burkert.calc_rho0] *)
Definition calc_rho0 (self : t) : R :=
  let rvir := calc_rvir self in
  let Irvir := I self rvir in
  let aa := Rpower 10 (mvirial self) / (4 * PI * rB self ^ 3) in
  let bb := 1 / Irvir in
  aa * bb.

(** [Burkert.evaluate]: the mass density at [r], with the core radius
    passed as an argument. *)
Definition evaluate (self : t) (r mvirial rB : R) (fdm : fl) : R :=
  let rho0 := calc_rho0 self in
  rho0 / ((1 + r / rB) * (1 + (r / rB) ^ 2)).

End Burkert.

(** *** Einasto *)

Module Einasto.

Record t : Type := mk {
  mvirial : R;
  conc : R;
  nEinasto : R;
  alphaEinasto : R;
  fdm : fl;
  z : R;
  cosmo : cosmology;
  Einasto_param : string
}.

Definition both_set : exn :=
  ValueError "If both 'alphaEinasto' and 'nEinasto' are set, must specify which is the fit variable with 'Einasto_param'".

Definition none_set : exn :=
  ValueError "Must set at least one of alphaEinasto and nEinasto!".

Definition not_recognized : exn :=
  ValueError "Einasto_param not recognized! [options: 'nEinasto', 'alphaEinasto']".

(** [str.lower] on the three spellings the constructor compares with. *)
Definition lower (s : string) : string :=
  if (s =? "nEinasto")%string then "neinasto"
  else if (s =? "alphaEinasto")%string then "alphaeinasto"
  else if (s =? "None")%string then "none"
  else s.

(** [Einasto.__init__]: the arguments [alphaEinasto] and [nEinasto] default
    to [None], [Einasto_param] to ['None'].  Both are named arguments of the
    constructor and are not handed on to the base class, which fills in the
    parameter values from the remaining keywords: the two parameters start
    at their defaults 1.0 and -99. *)
Definition init (mvirial conc : R) (nEinasto alphaEinasto : option R)
    (z : R) (cosmo : cosmology) (Einasto_param : string) : result t :=
  match alphaEinasto, nEinasto with
  | None, None => Raise none_set
  | _, _ =>
      if (match alphaEinasto, nEinasto with
          | Some _, Some _ => true
          | _, _ => false
          end && (Einasto_param =? "None")%string)%bool
      then Raise both_set
      else
        let n := 1 in
        let a := -99 in
        if ((lower Einasto_param =? "neinasto")%string
            || match alphaEinasto with None => true | Some _ => false end)%bool
        then Ok (mk mvirial conc n a (Fin (-99.9)) z cosmo "nEinasto")
        else if ((lower Einasto_param =? "alphaeinasto")%string
                 || match nEinasto with None => true | Some _ => false end)%bool
        then Ok (mk mvirial conc n a (Fin (-99.9)) z cosmo "alphaEinasto")
        else Raise not_recognized
  end.

Definition calc_rvir (self : t) : R := Halos.calc_rvir (mvirial self) (z self) (cosmo self).

Definition calc_rho0 (sp : special) (self : t) : R :=
  let rvir := calc_rvir self in
  let rs := rvir / conc self in
  let h := rs / power (2 * nEinasto self) (nEinasto self) in
  let incomp_gam :=
    gammainc sp (3 * nEinasto self)
      (2 * nEinasto self * power (conc self) (1 / nEinasto self))
    * gamma sp (3 * nEinasto self) in
  Rpower 10 (mvirial self)
  / (4 * PI * nEinasto self * power h 3 * incomp_gam).

Definition enclosed_mass (sp : special) (self : t) (r : R) : R :=
  let rvirial := calc_rvir self in
  let rs := rvirial / conc self in
  let h := rs / power (2 * nEinasto self) (nEinasto self) in
  let rho0 := calc_rho0 sp self in
  let incomp_gam :=
    gammainc sp (3 * nEinasto self)
      (2 * nEinasto self * power (r / rs) (1 / nEinasto self))
    * gamma sp (3 * nEinasto self) in
  4 * PI * rho0 * power h 3 * nEinasto self * incomp_gam.

(** The halo [_minfunc_vdm_nEin_from_fdm] builds, [Einasto(mvirial=mass,
    conc=conc, nEinasto=nEinasto, alphaEinasto=alphaEinasto, z=z)]: both
    arguments are given and [Einasto_param] is left at its default. *)
Definition trial (sp : special) (mass conc alphaEinasto z : R) : R -> R -> result fl :=
  fun nEinasto r =>
    halo <- init mass conc (Some nEinasto) (Some alphaEinasto) z _default_cosmo "None" ;;
    Ok (Fin (circular_velocity (enclosed_mass sp halo) r)).

End Einasto.

(** *** Dekel-Zhao *)

Module DekelZhao.

Record t : Type := mk {
  mvirial : R;
  s1 : R;
  c2 : R;
  fdm : fl;
  z : R;
  cosmo : cosmology
}.

Definition calc_rvir (self : t) : R := Halos.calc_rvir (mvirial self) (z self) (cosmo self).

Definition calc_a_c (self : t) : R * R :=
  let r12 := sqrt 0.01 in
  let c12 := sqrt (c2 self) in
  let a := (1.5 * s1 self - 2 * (3.5 - s1 self) * r12 * c12)
           / (1.5 - (3.5 - s1 self) * r12 * c12) in
  let c := ((s1 self - 2) / ((3.5 - s1 self) * r12 - 1.5 / c12)) ^ 2 in
  (a, c).

Definition calc_mu (self : t) : R :=
  let '(a, c) := calc_a_c self in
  power c (a - 3) * power (1 + sqrt c) (2 * (3 - a)).

(** [enclosed_mass] for [r > 0], where every power has a positive base. *)
Definition enclosed_mass (self : t) (r : R) : R :=
  let mvir := Rpower 10 (mvirial self) in
  let rvir := calc_rvir self in
  let '(a, c) := calc_a_c self in
  let rc := rvir / c in
  let x := r / rc in
  let mu := calc_mu self in
  mu * mvir / (power x (a - 3) * power (1 + sqrt x) (2 * (3 - a))).

(** [enclosed_mass] as numpy evaluates it, also at [r = 0]. *)
Definition enclosed_mass_fl (self : t) (r : R) : fl :=
  let mvir := Rpower 10 (mvirial self) in
  let rvir := calc_rvir self in
  let '(a, c) := calc_a_c self in
  let rc := rvir / c in
  let x := r / rc in
  let mu := calc_mu self in
  Float.div (Fin (mu * mvir))
    (Float.mul (Float.power (Fin x) (a - 3))
       (Float.power (Fin (1 + sqrt x)) (2 * (3 - a)))).

(** [DekelZhao.calc_rhovirbar]: the mean density inside the virial radius. *)
Definition calc_rhovirbar (self : t) : R :=
  let mvir := Rpower 10 (mvirial self) in
  let rvir := calc_rvir self in
  3 * mvir / (4 * PI * rvir ^ 3).

(** [DekelZhao.calc_rho0] *)
Definition calc_rho0 (self : t) : R :=
  let '(a, c) := calc_a_c self in
  let mu := calc_mu self in
  let rhovirbar := calc_rhovirbar self in
  let rhocbar := c ^ 3 * mu * rhovirbar in
  (1 - a / 3) * rhocbar.

(** [DekelZhao.evaluate]: the mass density at [r > 0]. *)
Definition evaluate (self : t) (r mvirial s1 c2 : R) (fdm : fl) : R :=
  let rvir := calc_rvir self in
  let rhoc := calc_rho0 self in
  let '(a, c) := calc_a_c self in
  let rc := rvir / c in
  let x := r / rc in
  rhoc / (power x a * power (1 + sqrt x) (2 * (3.5 - a))).

End DekelZhao.

(** *** Sersic (src/dysmalpy/models.py) *)

Module Sersic.

Record t : Type := mk {
  total_mass : R;
  r_eff : R;
  n : R;
  invq : R
}.

Definition enclosed_mass (sp : special) (self : t) (r : R) : R :=
  let bn := gammaincinv sp (2 * n self) 0.5 in
  let integ := gammainc sp (2 * n self) (bn * power (r / r_eff self) (1 / n self)) in
  let norm := Rpower 10 (total_mass self) in
  norm * integ.

End Sersic.

(** *** The halo classes and the inherited [velocity_profile] *)

Inductive halo : Type :=
| HNFW (h : NFW.t)
| HTwoPowerHalo (h : TwoPowerHalo.t)
| HBurkert (h : Burkert.t)
| HEinasto (h : Einasto.t)
| HDekelZhao (h : DekelZhao.t)
| HLinearNFW (h : LinearNFW.t).

Definition halo_enclosed_mass (sp : special) (h : halo) (r : R) : R :=
  match h with
  | HNFW h => NFW.enclosed_mass h r
  | HTwoPowerHalo h => TwoPowerHalo.enclosed_mass sp h r
  | HBurkert h => Burkert.enclosed_mass h r
  | HEinasto h => Einasto.enclosed_mass sp h r
  | HDekelZhao h => DekelZhao.enclosed_mass h r
  | HLinearNFW h => LinearNFW.enclosed_mass h r
  end.

Definition halo_circular_velocity (sp : special) (h : halo) (r : R) : R :=
  circular_velocity (halo_enclosed_mass sp h) r.

(** What [velocity_profile] reads of its argument [model]. *)
Record kinematic_options : Type := mkKinematicOptions {
  adiabatic_contract : bool
}.

Record model_set : Type := mkModelSetView {
  kinematic_options_of : kinematic_options
}.

Definition not_supported : exn :=
  NotImplementedError "Adiabatic contraction not currently supported!".

(** [DarkMatterHalo.velocity_profile], which no halo class overrides. *)
Definition velocity_profile (sp : special) (self : halo) (r : R)
    (model : model_set) : result R :=
  if adiabatic_contract (kinematic_options_of model)
  then Raise not_supported
  else Ok (halo_circular_velocity sp self r).

(** *** Inversions from the dark-matter fraction *)

(** [np.arange(start, stop, step)] for integer arguments and a positive
    step. *)
Definition arange (start stop step : Z) : list R :=
  map (fun i => IZR (start + Z.of_nat i * step))
      (seq 0 (Z.to_nat ((stop - start + step - 1) / step))).

(** Selection by a boolean mask, [xs[mask]]. *)
Fixpoint masked {A : Type} (xs : list A) (mask : list bool) : list A :=
  match xs, mask with
  | x :: xs', m :: mask' => if m then x :: masked xs' mask' else masked xs' mask'
  | _, _ => []
  end.

(** [a[i]], with Python's negative indices. *)
Definition item {A : Type} (a : list A) (i : Z) : result A :=
  let n := Z.of_nat (List.length a) in
  let j := if (i <? 0)%Z then (i + n)%Z else i in
  if ((j <? 0)%Z || (n <=? j)%Z)%bool then Raise IndexError
  else match nth_error a (Z.to_nat j) with
       | Some v => Ok v
       | None => Raise IndexError
       end.

(** A list comprehension [[f(x) for x in xs]]: the first exception ends it. *)
Fixpoint list_comp {A B : Type} (f : A -> result B) (xs : list A) : result (list B) :=
  match xs with
  | [] => Ok []
  | x :: xs' => y <- f x ;; ys <- list_comp f xs' ;; Ok (y :: ys)
  end.

(** [vtest < 0] and [vtest > 0] *)
Definition negative (vtest : list fl) : list bool := map (fun v => Float.ltb v (Fin 0)) vtest.
Definition positive (vtest : list fl) : list bool := map (fun v => Float.gtb v (Fin 0)) vtest.

Definition sign_error : exn := ValueError "f(a) and f(b) must have different signs".

(** An objective function of the root finder: it may raise. *)
Definition objective : Type := R -> result fl.

(** The iteration of a root finder, entered once the bracket is accepted. *)
Definition solver : Type := objective -> R -> R -> result fl.

(** [scipy.optimize.brentq(f, a, b)]: an external library.  It evaluates [f]
    at both ends and raises ValueError when the two values have the same
    sign; otherwise it iterates, which is left to the [core] given. *)
Definition brentq (core : solver) (f : objective) (a b : R) : result fl :=
  fa <- f a ;;
  fb <- f b ;;
  if Float.gtb (Float.mul fa fb) (Fin 0) then Raise sign_error
  else core f a b.

(** [(self.fdm.value > self.bounds['fdm'][1]) | (self.fdm.value < self.bounds['fdm'][0])] *)
Definition out_of_bounds (bounds : R * R) (fdm : fl) : bool :=
  (Float.gtb fdm (Fin (snd bounds)) || Float.ltb fdm (Fin (fst bounds)))%bool.

(** The bounds the classes declare for [fdm]. *)
Definition fdm_bounds : R * R := (0, 1).

(** [vsqr_bar_re / (1./fdm - 1)] with [vsqr_bar_re = baryons.circular_velocity(r_fdm)**2] *)
Definition vsqr_dm_re_target (vbar fdm : fl) : fl :=
  Float.div (Float.mul vbar vbar) (Float.sub (Float.div (Fin 1) fdm) (Fin 1)).

(** The halo a [_minfunc_vdm_*] helper builds for a trial value of the
    parameter, as its circular velocity at a radius; building it may raise. *)
Definition trial_halo : Type := R -> R -> result fl.

(** [halo.circular_velocity(r) ** 2 - vtarget] *)
Definition _minfunc_vdm (halo : trial_halo) (vtarget : fl) (r : R) : objective :=
  fun p => v <- halo p r ;; Ok (Float.sub (Float.mul v v) vtarget).

(** [a = grid[vtest < 0][-1]] and [b = grid[vtest > 0][0]] *)
Definition last_negative (grid : list R) (vtest : list fl) : result R :=
  item (masked grid (negative vtest)) (-1).

Definition first_positive (grid : list R) (vtest : list fl) : result R :=
  item (masked grid (positive vtest)) 0.

Definition no_bracket : exn := ValueError EmptyString.

(** [DarkMatterHalo.calc_mvirial_from_fdm], which [DekelZhao] repeats with
    its own helpers.  [minfunc] and [minfunc_AC] are the two helpers
    [_minfunc_vdm_mvir_from_fdm] and [_minfunc_vdm_mvir_from_fdm_AC] as
    functions of the trial mass, the target and the radius; [baryons] is
    [baryons.circular_velocity]. *)
Definition calc_mvirial_from_fdm (core : solver)
    (minfunc minfunc_AC : fl -> R -> objective) (bounds : R * R) (fdm : fl)
    (baryons : R -> result fl) (r_fdm : R) (adiabatic_contract : bool) : result fl :=
  if out_of_bounds bounds fdm then Ok NaN
  else if Float.eqb fdm (Fin 1) then Ok PInf
  else if Float.eqb fdm (Fin 0) then Ok NInf
  else if Float.ltb fdm (Fin 1e-10) then Ok NInf
  else if Rltb r_fdm 0 then Ok NaN
  else
    vbar <- baryons r_fdm ;;
    let target := vsqr_dm_re_target vbar fdm in
    if negb (isfinite target) then Ok NaN
    else
      let mtest := arange (-5) 50 1 in
      if adiabatic_contract then
        vtest <- list_comp (minfunc_AC target r_fdm) mtest ;;
        vtest_noAC <- list_comp (minfunc target r_fdm) mtest ;;
        match (a <- last_negative mtest vtest ;;
               b <- first_positive mtest vtest ;;
               a_noAC <- last_negative mtest vtest_noAC ;;
               b_noAC <- first_positive mtest vtest_noAC ;;
               Ok (a, b, a_noAC, b_noAC)) with
        | Raise _ => Raise no_bracket
        | Ok (a, b, a_noAC, b_noAC) =>
            mvirial <- brentq core (minfunc_AC target r_fdm) a b ;;
            mvirial_noAC <- brentq core (minfunc target r_fdm) a_noAC b_noAC ;;
            Ok mvirial
        end
      else
        vtest <- list_comp (minfunc target r_fdm) mtest ;;
        match (a <- last_negative mtest vtest ;;
               b <- first_positive mtest vtest ;;
               Ok (a, b)) with
        | Raise _ => Raise no_bracket
        | Ok (a, b) => brentq core (minfunc target r_fdm) a b
        end.

(** The bracket of [calc_alpha_from_fdm] and [calc_nEinasto_from_fdm]: the
    last two grid points when no value is positive, the first two when no
    value is negative. *)
Definition bracket_alpha (grid : list R) (vtest : list fl) : result (R * R) :=
  match last_negative grid vtest with
  | Ok a =>
      match first_positive grid vtest with
      | Ok b => Ok (a, b)
      | Raise _ => a' <- item grid (-2) ;; b' <- item grid (-1) ;; Ok (a', b')
      end
  | Raise _ => a' <- item grid 0 ;; b' <- item grid 1 ;; Ok (a', b')
  end.

(** The bracket of [calc_rB_from_fdm]: the two fallbacks are swapped. *)
Definition bracket_rB (grid : list R) (vtest : list fl) : result (R * R) :=
  match last_negative grid vtest with
  | Ok a =>
      match first_positive grid vtest with
      | Ok b => Ok (a, b)
      | Raise _ => a' <- item grid 0 ;; b' <- item grid 1 ;; Ok (a', b')
      end
  | Raise _ => a' <- item grid (-2) ;; b' <- item grid (-1) ;; Ok (a', b')
  end.

(** [TwoPowerHalo.calc_alpha_from_fdm]; [halo alpha r] is the circular
    velocity at [r] of [TwoPowerHalo(mvirial, conc, alpha, beta, z)]. *)
Definition calc_alpha_from_fdm (core : solver) (halo : trial_halo)
    (bounds : R * R) (fdm : fl) (baryons : R -> result fl) (r_fdm : R) : result fl :=
  if out_of_bounds bounds fdm then Ok NaN
  else
    vbar <- baryons r_fdm ;;
    let target := vsqr_dm_re_target vbar fdm in
    let alphtest := arange (-50) 50 1 in
    vtest <- list_comp (_minfunc_vdm halo target r_fdm) alphtest ;;
    ab <- bracket_alpha alphtest vtest ;;
    brentq core (_minfunc_vdm halo target r_fdm) (fst ab) (snd ab).

(** [np.average([a, b])] *)
Definition average (a b : R) : fl := Fin ((a + b) / 2).

(** [Burkert.calc_rB_from_fdm]; [halo rB r] is the circular velocity at [r]
    of [Burkert(mvirial, rB, z)].  Any exception of the root finder is
    replaced by the middle of the bracket. *)
Definition calc_rB_from_fdm (core : solver) (halo : trial_halo)
    (bounds : R * R) (fdm : fl) (baryons : R -> result fl) (r_fdm : R) : result fl :=
  if out_of_bounds bounds fdm then Ok NaN
  else
    vbar <- baryons r_fdm ;;
    let target := vsqr_dm_re_target vbar fdm in
    let rBtest := arange 0 250 5 in
    vtest <- list_comp (_minfunc_vdm halo target r_fdm) rBtest ;;
    ab <- bracket_rB rBtest vtest ;;
    match brentq core (_minfunc_vdm halo target r_fdm) (fst ab) (snd ab) with
    | Ok rB => Ok rB
    | Raise _ => Ok (average (fst ab) (snd ab))
    end.

(** [Einasto.calc_nEinasto_from_fdm]: the root is bound to the name [alpha],
    and the name returned, [nEinasto], is bound only when [fdm] is out of
    bounds. *)
Definition calc_nEinasto_from_fdm (core : solver) (halo : trial_halo)
    (bounds : R * R) (fdm : fl) (baryons : R -> result fl) (r_fdm : R) : result fl :=
  if out_of_bounds bounds fdm then Ok NaN
  else
    vbar <- baryons r_fdm ;;
    let target := vsqr_dm_re_target vbar fdm in
    let nEinastotest := arange (-50) 50 1 in
    vtest <- list_comp (_minfunc_vdm halo target r_fdm) nEinastotest ;;
    ab <- bracket_alpha nEinastotest vtest ;;
    alpha <- brentq core (_minfunc_vdm halo target r_fdm) (fst ab) (snd ab) ;;
    Raise UnboundLocalError.

(** [Einasto.calc_alphaEinasto_from_fdm] *)
Definition calc_alphaEinasto_from_fdm (core : solver) (halo : trial_halo)
    (bounds : R * R) (fdm : fl) (baryons : R -> result fl) (r_fdm : R) : result fl :=
  nEinasto <- calc_nEinasto_from_fdm core halo bounds fdm baryons r_fdm ;;
  if isfinite nEinasto then Ok (Float.div (Fin 1) nEinasto) else Ok NaN.

(** *** Facts on the grid scans *)

Lemma list_comp_ok {A B : Type} (f : A -> result B) (g : A -> B) (xs : list A) :
  (forall x, In x xs -> f x = Ok (g x)) -> list_comp f xs = Ok (map g xs).
Proof.
  induction xs as [|x xs IH]; intros Hf; [reflexivity|].
  cbn [list_comp map]. rewrite (Hf x (or_introl eq_refl)). cbn [bind].
  rewrite IH; [reflexivity|]. intros y Hy. apply Hf. right. exact Hy.
Qed.

Lemma list_comp_raise {A B : Type} (f : A -> result B) (e : exn) (x : A) (xs : list A) :
  f x = Raise e -> list_comp f (x :: xs) = Raise e.
Proof. intros Hf. cbn [list_comp]. rewrite Hf. reflexivity. Qed.

Lemma list_comp_length {A B : Type} (f : A -> result B) (xs : list A) (ys : list B) :
  list_comp f xs = Ok ys -> List.length ys = List.length xs.
Proof.
  revert ys. induction xs as [|x xs IH]; intros ys H.
  - inversion H. reflexivity.
  - cbn [list_comp] in H. destruct (f x) as [y|e]; [|discriminate].
    cbn [bind] in H. destruct (list_comp f xs) as [ys'|e]; [|discriminate].
    inversion H. cbn [List.length]. rewrite (IH ys' eq_refl). reflexivity.
Qed.

Lemma masked_none {A B : Type} (p : B -> bool) (xs : list A) (vs : list B) :
  Forall (fun v => p v = false) vs -> masked xs (map p vs) = [].
Proof.
  intros H. revert xs. induction H as [|v vs Hv _ IH]; intros xs.
  - destruct xs; reflexivity.
  - destruct xs as [|x xs]; [reflexivity|]. cbn [map masked]. rewrite Hv. apply IH.
Qed.

Lemma item_nil {A : Type} (i : Z) : item (@nil A) i = Raise IndexError.
Proof.
  unfold item. cbn [List.length Z.of_nat].
  destruct (i <? 0)%Z eqn:Hi.
  - rewrite Z.add_0_r, Hi. reflexivity.
  - rewrite Hi. cbn [orb].
    replace (0 <=? i)%Z with true; [reflexivity|].
    symmetry. apply Z.leb_le. apply Z.ltb_ge in Hi. exact Hi.
Qed.

(** No grid value is negative, or none is positive. *)
Definition no_negative (vtest : list fl) : Prop :=
  Forall (fun v => Float.ltb v (Fin 0) = false) vtest.

Definition no_positive (vtest : list fl) : Prop :=
  Forall (fun v => Float.gtb v (Fin 0) = false) vtest.

Lemma last_negative_none (grid : list R) (vtest : list fl) :
  no_negative vtest -> last_negative grid vtest = Raise IndexError.
Proof.
  intros H. unfold last_negative, negative.
  rewrite (masked_none (fun v => Float.ltb v (Fin 0)) grid vtest H). apply item_nil.
Qed.

Lemma first_positive_none (grid : list R) (vtest : list fl) :
  no_positive vtest -> first_positive grid vtest = Raise IndexError.
Proof.
  intros H. unfold first_positive, positive.
  rewrite (masked_none (fun v => Float.gtb v (Fin 0)) grid vtest H). apply item_nil.
Qed.

(** Both ends of a bracket have the same strict sign. *)
Definition same_sign (fa fb : fl) : Prop :=
  Float.gtb (Float.mul fa fb) (Fin 0) = true.

Lemma brentq_same_sign (core : solver) (f : objective) (a b : R) (fa fb : fl) :
  f a = Ok fa -> f b = Ok fb -> same_sign fa fb ->
  brentq core f a b = Raise sign_error.
Proof.
  intros Ha Hb Hs. unfold brentq. rewrite Ha, Hb. cbn [bind].
  unfold same_sign in Hs. rewrite Hs. reflexivity.
Qed.

Lemma brentq_accepts (core : solver) (f : objective) (a b : R) (v : fl) :
  brentq core f a b = Ok v ->
  exists fa fb, f a = Ok fa /\ f b = Ok fb /\
    Float.gtb (Float.mul fa fb) (Fin 0) = false /\ core f a b = Ok v.
Proof.
  unfold brentq. intros H.
  destruct (f a) as [fa|e]; [|discriminate]. cbn [bind] in H.
  destruct (f b) as [fb|e]; [|discriminate]. cbn [bind] in H.
  destruct (Float.gtb (Float.mul fa fb) (Fin 0)) eqn:Hs; [discriminate|].
  exists fa, fb. auto.
Qed.

Lemma out_of_bounds_fin (x : R) :
  x < 0 \/ 1 < x -> out_of_bounds fdm_bounds (Fin x) = true.
Proof.
  intros H. unfold out_of_bounds, fdm_bounds, Float.gtb, Float.ltb. cbn [fst snd].
  destruct H as [H|H].
  - rewrite (Rltb_true x 0 H). apply orb_true_r.
  - rewrite (Rltb_true 1 x H). reflexivity.
Qed.

Lemma in_bounds_fin (x : R) :
  0 <= x <= 1 -> out_of_bounds fdm_bounds (Fin x) = false.
Proof.
  intros H. unfold out_of_bounds, fdm_bounds, Float.gtb, Float.ltb. cbn [fst snd].
  rewrite (Rltb_false 1 x), (Rltb_false x 0); [reflexivity| |]; lra.
Qed.

Lemma shape_out_of_bounds (core : solver) (halo : trial_halo) (fdm : fl)
    (baryons : R -> result fl) (r_fdm : R) :
  out_of_bounds fdm_bounds fdm = true ->
  calc_alpha_from_fdm core halo fdm_bounds fdm baryons r_fdm = Ok NaN /\
  calc_rB_from_fdm core halo fdm_bounds fdm baryons r_fdm = Ok NaN /\
  calc_nEinasto_from_fdm core halo fdm_bounds fdm baryons r_fdm = Ok NaN /\
  calc_alphaEinasto_from_fdm core halo fdm_bounds fdm baryons r_fdm = Ok NaN.
Proof.
  intros H.
  unfold calc_alphaEinasto_from_fdm, calc_alpha_from_fdm, calc_rB_from_fdm,
    calc_nEinasto_from_fdm.
  rewrite H. cbn [bind isfinite]. repeat split; reflexivity.
Qed.

(** *** Real-analysis facts the profiles rest on *)

Lemma calc_rvir_pos (mvirial z : R) (cosmo : cosmology) : 0 < calc_rvir mvirial z cosmo.
Proof. unfold calc_rvir, Rpower. apply exp_pos. Qed.

Lemma Rpower_10_pos (m : R) : 0 < Rpower 10 m.
Proof. unfold Rpower. apply exp_pos. Qed.

(** [ln u >= 1 - 1/u] *)
Lemma ln_lower_bound (u : R) : 0 < u -> 1 - / u <= ln u.
Proof.
  intros Hu.
  pose proof (exp_ineq1_le (- ln u)) as H.
  rewrite exp_Ropp, exp_ln in H by exact Hu. lra.
Qed.

Lemma div_nonneg (a b : R) : 0 <= a -> 0 < b -> 0 <= a / b.
Proof. intros Ha Hb. unfold Rdiv. apply Rle_mult_inv_pos; assumption. Qed.

Lemma ln_quot (a b : R) : 0 < a -> 0 < b -> ln (a / b) = ln a - ln b.
Proof.
  intros Ha Hb. unfold Rdiv.
  rewrite ln_mult by (try apply Rinv_0_lt_compat; assumption).
  rewrite ln_Rinv by assumption. ring.
Qed.

(** The bracketed term of the NFW mass, [ln((rs + r)/rs) - r/(rs + r)]. *)
Definition nfw_term (rs r : R) : R := ln ((rs + r) / rs) - r / (rs + r).

Lemma nfw_term_0 (rs : R) : 0 < rs -> nfw_term rs 0 = 0.
Proof.
  intros Hrs. unfold nfw_term.
  replace ((rs + 0) / rs) with 1 by (field; lra).
  rewrite ln_1. unfold Rdiv. ring.
Qed.

Lemma nfw_term_mono (rs r1 r2 : R) :
  0 < rs -> 0 <= r1 -> r1 <= r2 -> nfw_term rs r1 <= nfw_term rs r2.
Proof.
  intros Hrs H1 H12. unfold nfw_term.
  assert (Hq : ln ((rs + r2) / rs) - ln ((rs + r1) / rs) = ln ((rs + r2) / (rs + r1))).
  { rewrite !ln_quot by lra. ring. }
  assert (Hu : 0 < (rs + r2) / (rs + r1)) by (apply Rdiv_lt_0_compat; lra).
  pose proof (ln_lower_bound _ Hu) as Hl.
  assert (Hd : r2 / (rs + r2) - r1 / (rs + r1) <= 1 - / ((rs + r2) / (rs + r1))).
  { replace (1 - / ((rs + r2) / (rs + r1))) with ((r2 - r1) / (rs + r2)) by (field; lra).
    replace (r2 / (rs + r2) - r1 / (rs + r1))
      with ((r2 - r1) / (rs + r2) * (rs / (rs + r1))) by (field; lra).
    rewrite <- (Rmult_1_r ((r2 - r1) / (rs + r2))) at 2.
    apply Rmult_le_compat_l.
    - apply div_nonneg; lra.
    - apply (Rmult_le_reg_r (rs + r1)); [lra|].
      replace (rs / (rs + r1) * (rs + r1)) with rs by (field; lra). lra. }
  lra.
Qed.

Lemma nfw_term_nonneg (rs r : R) : 0 < rs -> 0 <= r -> 0 <= nfw_term rs r.
Proof.
  intros Hrs Hr. rewrite <- (nfw_term_0 rs Hrs). apply nfw_term_mono; lra.
Qed.

Lemma NFW_enclosed_mass_mono (self : NFW.t) (r1 r2 : R) :
  0 < NFW.conc self -> 0 <= r1 -> r1 <= r2 ->
  NFW.enclosed_mass self r1 <= NFW.enclosed_mass self r2.
Proof.
  intros Hc H1 H12. unfold NFW.enclosed_mass.
  set (rvir := NFW.calc_rvir self).
  assert (Hrv : 0 < rvir) by apply calc_rvir_pos.
  set (rs := rvir / NFW.conc self).
  assert (Hrs : 0 < rs) by (apply Rdiv_lt_0_compat; assumption).
  cbv zeta.
  fold (nfw_term rs r1). fold (nfw_term rs r2).
  rewrite !Rabs_pos_eq by (apply nfw_term_nonneg; lra).
  apply Rmult_le_compat_l; [|apply nfw_term_mono; assumption].
  assert (Hrho : 0 <= NFW.calc_rho0 self).
  { unfold NFW.calc_rho0. fold rvir. cbv zeta.
    fold (nfw_term 1 (NFW.conc self)).
    apply Rmult_le_pos.
    - apply Rmult_le_pos.
      + apply div_nonneg; [left; apply Rpower_10_pos|].
        apply Rmult_lt_0_compat; [apply Rmult_lt_0_compat; [lra|apply PI_RGT_0]|].
        apply pow_lt. exact Hrv.
      + apply pow_le. lra.
    - assert (Hn : 0 <= ln (1 + NFW.conc self) - NFW.conc self / (1 + NFW.conc self)).
      { pose proof (nfw_term_nonneg 1 (NFW.conc self) Rlt_0_1 (Rlt_le _ _ Hc)) as Hn.
        unfold nfw_term in Hn.
        replace ((1 + NFW.conc self) / 1) with (1 + NFW.conc self) in Hn by field.
        exact Hn. }
      destruct Hn as [Hn|Hn].
      + left. apply Rdiv_lt_0_compat; lra.
      + rewrite <- Hn. unfold Rdiv. rewrite Rinv_0. lra. }
  apply div_nonneg; [|apply pow_lt; exact Hc].
  apply Rmult_le_pos; [|apply pow_le; lra].
  apply Rmult_le_pos; [|exact Hrho].
  apply Rmult_le_pos; [lra|left; apply PI_RGT_0].
Qed.

Lemma NFW_enclosed_mass_0 (self : NFW.t) :
  0 < NFW.conc self -> NFW.enclosed_mass self 0 = 0.
Proof.
  intros Hc. unfold NFW.enclosed_mass. cbv zeta.
  set (rs := NFW.calc_rvir self / NFW.conc self).
  assert (Hrs : 0 < rs).
  { apply Rdiv_lt_0_compat; [apply calc_rvir_pos|exact Hc]. }
  fold (nfw_term rs 0). rewrite (nfw_term_0 rs Hrs), Rabs_R0. ring.
Qed.

(** *** Burkert: the function [I] *)

(** The derivative of [I] in [r]. *)
Definition Burkert_dI (rB r : R) : R := r ^ 2 / ((r ^ 2 + rB ^ 2) * (r + rB)).

Lemma Burkert_I_derivable (self : Burkert.t) (c : R) :
  0 < Burkert.rB self -> 0 <= c ->
  derivable_pt_lim (Burkert.I self) c (Burkert_dI (Burkert.rB self) c).
Proof.
  intros Hb Hc. set (b := Burkert.rB self) in *.
  assert (Hsq : 0 < c ^ 2 + b ^ 2) by nra.
  unfold Burkert.I. fold b.
  change (fun r : R => 0.25 * (ln (r ^ 2 + b ^ 2) + 2 * ln (r + b) - 2 * atan (r / b) - 4 * ln b))
    with (mult_real_fct 0.25
            (comp ln (fun r : R => r ^ 2 + b ^ 2)%R
             + mult_real_fct 2 (comp ln (fun r : R => r + b)%R)
             - mult_real_fct 2 (comp atan (fun r : R => r / b)%R)
             - fct_cte (4 * ln b))%F).
  replace (Burkert_dI b c)
    with (0.25 * (/ (c ^ 2 + b ^ 2) * (INR 2 * c ^ Init.Nat.pred 2 + 0)
                  + 2 * (/ (c + b) * (1 + 0))
                  - 2 * (/ (1 + (c / b) ^ 2) * (1 / b))
                  - 0)).
  2:{ unfold Burkert_dI. change (Init.Nat.pred 2) with 1%nat.
      replace (INR 2) with 2 by (simpl; ring).
      replace 0.25 with (/ 4) by lra.
      field. repeat split; nra. }
  apply derivable_pt_lim_scal.
  apply derivable_pt_lim_minus; [|apply derivable_pt_lim_const].
  apply derivable_pt_lim_minus.
  - apply derivable_pt_lim_plus.
    + apply (derivable_pt_lim_comp (fun r : R => r ^ 2 + b ^ 2) ln).
      * apply (derivable_pt_lim_plus (fun r : R => r ^ 2) (fun _ : R => b ^ 2)).
        -- apply derivable_pt_lim_pow.
        -- apply (derivable_pt_lim_const (b ^ 2)).
      * apply derivable_pt_lim_ln. exact Hsq.
    + apply derivable_pt_lim_scal.
      apply (derivable_pt_lim_comp (fun r : R => r + b) ln).
      * apply (derivable_pt_lim_plus (fun r : R => r) (fun _ : R => b)).
        -- apply derivable_pt_lim_id.
        -- apply (derivable_pt_lim_const b).
      * apply derivable_pt_lim_ln. lra.
  - apply derivable_pt_lim_scal.
    apply (derivable_pt_lim_comp (fun r : R => r / b) atan).
    + apply (derivable_pt_lim_div_scal (fun r : R => r) c 1 b).
      apply derivable_pt_lim_id.
    + apply derivable_pt_lim_atan.
Qed.

Lemma Burkert_dI_nonneg (rB r : R) : 0 < rB -> 0 <= r -> 0 <= Burkert_dI rB r.
Proof.
  intros Hb Hr. unfold Burkert_dI. apply div_nonneg; [nra|].
  apply Rmult_lt_0_compat; nra.
Qed.

Lemma Burkert_dI_pos (rB r : R) : 0 < rB -> 0 < r -> 0 < Burkert_dI rB r.
Proof.
  intros Hb Hr. unfold Burkert_dI. apply Rdiv_lt_0_compat; [nra|].
  apply Rmult_lt_0_compat; nra.
Qed.

Lemma Burkert_I_0 (self : Burkert.t) : 0 < Burkert.rB self -> Burkert.I self 0 = 0.
Proof.
  intros Hb. unfold Burkert.I.
  replace (0 ^ 2 + Burkert.rB self ^ 2) with (Burkert.rB self * Burkert.rB self) by ring.
  rewrite ln_mult by assumption.
  replace (0 + Burkert.rB self) with (Burkert.rB self) by ring.
  replace (0 / Burkert.rB self) with 0 by (unfold Rdiv; ring).
  rewrite atan_0. ring.
Qed.

Lemma Burkert_I_mono (self : Burkert.t) (r1 r2 : R) :
  0 < Burkert.rB self -> 0 <= r1 -> r1 <= r2 -> Burkert.I self r1 <= Burkert.I self r2.
Proof.
  intros Hb H1 [H12|H12]; [|subst; lra].
  destruct (MVT_cor2 (Burkert.I self) (Burkert_dI (Burkert.rB self)) r1 r2 H12) as [c [Hc1 Hc2]].
  - intros c Hc. apply Burkert_I_derivable; lra.
  - pose proof (Burkert_dI_nonneg (Burkert.rB self) c Hb) as Hd. nra.
Qed.

Lemma Burkert_I_pos (self : Burkert.t) (r : R) :
  0 < Burkert.rB self -> 0 < r -> 0 < Burkert.I self r.
Proof.
  intros Hb Hr.
  destruct (MVT_cor2 (Burkert.I self) (Burkert_dI (Burkert.rB self)) 0 r Hr) as [c [Hc1 Hc2]].
  - intros c Hc. apply Burkert_I_derivable; lra.
  - rewrite (Burkert_I_0 self Hb) in Hc1.
    pose proof (Burkert_dI_pos (Burkert.rB self) c Hb) as Hd. nra.
Qed.

Lemma Burkert_enclosed_mass_mono (self : Burkert.t) (r1 r2 : R) :
  0 < Burkert.rB self -> 0 <= r1 -> r1 <= r2 ->
  Burkert.enclosed_mass self r1 <= Burkert.enclosed_mass self r2.
Proof.
  intros Hb H1 H12. unfold Burkert.enclosed_mass. cbv zeta.
  apply Rmult_le_compat_l; [|apply Burkert_I_mono; assumption].
  apply div_nonneg; [left; apply Rpower_10_pos|].
  apply Burkert_I_pos; [exact Hb|apply calc_rvir_pos].
Qed.

Lemma Burkert_enclosed_mass_0 (self : Burkert.t) :
  0 < Burkert.rB self -> Burkert.enclosed_mass self 0 = 0.
Proof.
  intros Hb. unfold Burkert.enclosed_mass. cbv zeta.
  rewrite (Burkert_I_0 self Hb). ring.
Qed.

(** *** Numerical facts *)

Lemma g_new_unit_value : g_new_unit = 1.3271244e20 / 3.0856775814913673e16 / 10 ^ 6.
Proof. unfold g_new_unit, M_sun_si, G_si, GM_sun, pc_si. lra. Qed.

Lemma g_new_unit_bounds : 0.0043009 < g_new_unit < 0.0043010.
Proof. rewrite g_new_unit_value. lra. Qed.

(** The square of the circular velocity is [G M / r] in the units of
    [g_new_unit], with the radius in kpc. *)
Lemma circular_velocity_sq (enclosed_mass : R -> R) (r : R) :
  0 <= enclosed_mass r -> 0 < r ->
  circular_velocity enclosed_mass r * circular_velocity enclosed_mass r
  = g_new_unit * 1e-3 * enclosed_mass r / r.
Proof.
  intros HM Hr. unfold circular_velocity. cbv zeta.
  set (X := G_cgs * enclosed_mass r * Msun_cgs / (r * 1000 * pc_cgs)).
  assert (HX : 0 <= X).
  { unfold X. apply div_nonneg.
    - unfold G_cgs, Msun_cgs, M_sun_si, G_si, GM_sun. nra.
    - unfold pc_cgs, pc_si. nra. }
  replace (sqrt X / 1e5 * (sqrt X / 1e5)) with (sqrt X * sqrt X / 1e10) by lra.
  rewrite (sqrt_sqrt X HX). unfold X.
  rewrite g_new_unit_value.
  unfold G_cgs, Msun_cgs, pc_cgs, M_sun_si, G_si, GM_sun, pc_si.
  field. lra.
Qed.

Lemma Rpower_nat (x : R) (n : nat) : 0 < x -> Rpower x (INR n) = x ^ n.
Proof. intros Hx. apply Rpower_pow. exact Hx. Qed.

Lemma cube_root_cube (a : R) : 0 < a -> Rpower (a ^ 3) (1 / 3) = a.
Proof.
  intros Ha. rewrite <- (Rpower_nat a 3 Ha), Rpower_mult.
  replace (INR 3 * (1 / 3)) with 1 by (simpl; lra).
  apply Rpower_1. exact Ha.
Qed.

Lemma cube_root_gt (a x : R) : 0 < a -> a ^ 3 < x -> a < Rpower x (1 / 3).
Proof.
  intros Ha Hx. rewrite <- (cube_root_cube a Ha) at 1.
  apply Rlt_Rpower_l; [lra|]. split; [apply pow_lt; exact Ha|exact Hx].
Qed.

Lemma cube_root_lt (b x : R) : 0 < x -> x < b ^ 3 -> 0 < b -> Rpower x (1 / 3) < b.
Proof.
  intros Hx Hb Hb0. rewrite <- (cube_root_cube b Hb0) at 1.
  apply Rlt_Rpower_l; [lra|]. split; assumption.
Qed.

Lemma Rpower_10_12 : Rpower 10 12 = 10 ^ 12.
Proof.
  replace 12 with (INR 12) at 1 by (simpl; lra).
  apply Rpower_nat. lra.
Qed.

(** The Hubble parameter of the default cosmology today. *)
Lemma H_default_0 : H _default_cosmo 0 = 70.
Proof.
  unfold H, _default_cosmo. cbn [H0 Om0].
  replace (0.3 * (1 + 0) ^ 3 + (1 - 0.3)) with 1 by lra.
  rewrite sqrt_1. lra.
Qed.

(** The virial radius of a halo of [10^12] solar masses at redshift 0. *)
Lemma calc_rvir_12_0 : 206 < calc_rvir 12 0 _default_cosmo < 207.
Proof.
  unfold calc_rvir. cbv zeta. rewrite H_default_0, Rpower_10_12.
  pose proof g_new_unit_bounds as [Hg1 Hg2].
  split.
  - apply cube_root_gt; [lra|].
    apply (Rmult_lt_reg_r ((10 * 70 * 1e-3) ^ 2)); [nra|].
    replace (10 ^ 12 * (g_new_unit * 1e-3) / (10 * 70 * 1e-3) ^ 2 * (10 * 70 * 1e-3) ^ 2)
      with (10 ^ 12 * (g_new_unit * 1e-3)) by (field; lra).
    lra.
  - apply cube_root_lt; [| |lra].
    + apply Rdiv_lt_0_compat; [nra|nra].
    + apply (Rmult_lt_reg_r ((10 * 70 * 1e-3) ^ 2)); [nra|].
      replace (10 ^ 12 * (g_new_unit * 1e-3) / (10 * 70 * 1e-3) ^ 2 * (10 * 70 * 1e-3) ^ 2)
        with (10 ^ 12 * (g_new_unit * 1e-3)) by (field; lra).
      lra.
Qed.

(** *** The Burkert halo as numpy evaluates it *)

Ltac fl_compare :=
  repeat first
    [ rewrite Rltb_true by lra | rewrite Rltb_false by lra
    | rewrite Reqb_true by lra | rewrite Reqb_false by lra ].

Lemma np_log_pos (x : R) : 0 < x -> np_log (Fin x) = Fin (ln x).
Proof. intros H. unfold np_log. fl_compare. reflexivity. Qed.

Lemma div_fin (x y : R) : y <> 0 -> Float.div (Fin x) (Fin y) = Fin (x / y).
Proof. intros H. unfold Float.div. rewrite (Reqb_false y 0 H). reflexivity. Qed.

Lemma Burkert_I_fl_fin (self : Burkert.t) (r : R) :
  0 < Burkert.rB self -> 0 < r -> Burkert.I_fl self r = Fin (Burkert.I self r).
Proof.
  intros Hb Hr. unfold Burkert.I_fl.
  rewrite !np_log_pos by nra. rewrite div_fin by lra.
  cbn [np_arctan Float.mul Float.add Float.sub Float.neg].
  apply f_equal. unfold Burkert.I. ring.
Qed.

Lemma Burkert_enclosed_mass_fl_fin (self : Burkert.t) (r : R) :
  0 < Burkert.rB self -> 0 < r ->
  Burkert.enclosed_mass_fl self r = Fin (Burkert.enclosed_mass self r).
Proof.
  intros Hb Hr. unfold Burkert.enclosed_mass_fl. cbv zeta.
  rewrite !Burkert_I_fl_fin by (try apply calc_rvir_pos; assumption).
  rewrite div_fin.
  - reflexivity.
  - apply Rgt_not_eq. apply Burkert_I_pos; [exact Hb|apply calc_rvir_pos].
Qed.

Lemma circular_velocity_fl_fin (enclosed_mass : R -> fl) (M r : R) :
  enclosed_mass r = Fin M -> 0 <= M -> 0 < r ->
  circular_velocity_fl enclosed_mass r = Fin (circular_velocity (fun _ => M) r).
Proof.
  intros HM HM0 Hr. unfold circular_velocity_fl, circular_velocity. cbv zeta.
  rewrite HM. cbn [Float.mul].
  assert (Hpc : 0 < r * 1000 * pc_cgs) by (unfold pc_cgs, pc_si; nra).
  rewrite div_fin by lra.
  unfold np_sqrt. rewrite Rltb_false.
  - rewrite div_fin by lra. reflexivity.
  - apply div_nonneg; [|exact Hpc].
    unfold G_cgs, Msun_cgs, M_sun_si, G_si, GM_sun. nra.
Qed.

Lemma Burkert_enclosed_mass_nonneg (self : Burkert.t) (r : R) :
  0 < Burkert.rB self -> 0 <= r -> 0 <= Burkert.enclosed_mass self r.
Proof.
  intros Hb Hr. rewrite <- (Burkert_enclosed_mass_0 self Hb).
  apply Burkert_enclosed_mass_mono; lra.
Qed.

(** The trial halo of [calc_rB_from_fdm] for a positive core radius. *)
Lemma Burkert_trial_fin (mass z rB r : R) :
  0 < rB -> 0 < r ->
  Burkert.trial mass z rB r
  = Ok (Fin (circular_velocity
               (Burkert.enclosed_mass (Burkert.mk mass rB (Fin (-99.9)) z _default_cosmo)) r)).
Proof.
  intros Hb Hr. unfold Burkert.trial.
  set (self := Burkert.mk mass rB (Fin (-99.9)) z _default_cosmo).
  rewrite (circular_velocity_fl_fin _ (Burkert.enclosed_mass self r) r).
  - reflexivity.
  - apply Burkert_enclosed_mass_fl_fin; assumption.
  - apply Burkert_enclosed_mass_nonneg; [exact Hb|lra].
  - exact Hr.
Qed.

(** The first grid point, [rB = 0]: [I] is infinite at both radii, the mass
    is zero times infinity. *)
Lemma Burkert_I_fl_rB0 (self : Burkert.t) (r : R) :
  Burkert.rB self = 0 -> 0 < r -> Burkert.I_fl self r = PInf.
Proof.
  intros Hb Hr. unfold Burkert.I_fl. rewrite Hb.
  rewrite !np_log_pos by nra.
  unfold Float.div. rewrite (Reqb_true 0 0 eq_refl).
  unfold inf_of_sign. rewrite (Rltb_true 0 r Hr).
  unfold np_log. fl_compare.
  cbn [np_arctan Float.mul Float.add Float.sub Float.neg].
  unfold inf_of_sign. fl_compare. cbn [Float.add Float.neg Float.mul].
  unfold inf_of_sign. fl_compare. reflexivity.
Qed.

Lemma Burkert_trial_rB0 (mass z r : R) : 0 < r -> Burkert.trial mass z 0 r = Ok NaN.
Proof.
  intros Hr. unfold Burkert.trial, circular_velocity_fl, Burkert.enclosed_mass_fl.
  cbv zeta.
  rewrite !Burkert_I_fl_rB0 by (try apply calc_rvir_pos; auto).
  cbn [Float.div Float.mul]. unfold inf_of_sign. fl_compare. reflexivity.
Qed.

(** *** A light-baryon run of [Burkert.calc_rB_from_fdm] *)

Lemma Burkert_I_upper (self : Burkert.t) (r : R) :
  0 < Burkert.rB self -> 0 < r -> Burkert.I self r <= r / Burkert.rB self.
Proof.
  intros Hb Hr.
  destruct (MVT_cor2 (Burkert.I self) (Burkert_dI (Burkert.rB self)) 0 r Hr) as [c [Hc1 Hc2]].
  - intros c Hc. apply Burkert_I_derivable; lra.
  - rewrite (Burkert_I_0 self Hb) in Hc1.
    assert (Hd : Burkert_dI (Burkert.rB self) c <= / Burkert.rB self).
    { unfold Burkert_dI. set (b := Burkert.rB self) in *.
      apply (Rmult_le_reg_r (((c ^ 2 + b ^ 2) * (c + b)) * b)).
      - apply Rmult_lt_0_compat; [apply Rmult_lt_0_compat; nra|exact Hb].
      - replace (c ^ 2 / ((c ^ 2 + b ^ 2) * (c + b)) * ((c ^ 2 + b ^ 2) * (c + b) * b))
          with (c ^ 2 * b) by (field; nra).
        replace (/ b * ((c ^ 2 + b ^ 2) * (c + b) * b))
          with ((c ^ 2 + b ^ 2) * (c + b)) by (field; lra).
        nra. }
    replace (r / Burkert.rB self) with (/ Burkert.rB self * (r - 0)) by (field; lra).
    replace (Burkert.I self r) with (Burkert_dI (Burkert.rB self) c * (r - 0)) by lra.
    apply Rmult_le_compat_r; lra.
Qed.

Lemma Burkert_I_lower (self : Burkert.t) (r : R) :
  0 < Burkert.rB self -> 0 < r ->
  r ^ 3 / (3 * ((r ^ 2 + Burkert.rB self ^ 2) * (r + Burkert.rB self))) <= Burkert.I self r.
Proof.
  intros Hb Hr. set (b := Burkert.rB self) in *.
  set (K := (r ^ 2 + b ^ 2) * (r + b)).
  assert (HK : 0 < K) by (unfold K; apply Rmult_lt_0_compat; nra).
  destruct (MVT_cor2 (minus_fct (Burkert.I self) (fun t : R => t ^ 3 / (3 * K)))
              (fun t : R => Burkert_dI b t - INR 3 * t ^ Init.Nat.pred 3 / (3 * K)) 0 r Hr)
    as [c [Hc1 Hc2]].
  - intros c Hc. apply derivable_pt_lim_minus.
    + apply Burkert_I_derivable; [exact Hb|lra].
    + apply (derivable_pt_lim_div_scal (fun t : R => t ^ 3)).
      apply derivable_pt_lim_pow.
  - unfold minus_fct in Hc1. rewrite (Burkert_I_0 self Hb) in Hc1.
    change (Init.Nat.pred 3) with 2%nat in Hc1.
    replace (INR 3) with 3 in Hc1 by (simpl; lra).
    assert (Hd : 0 <= Burkert_dI b c - 3 * c ^ 2 / (3 * K)).
    { unfold Burkert_dI.
      replace (3 * c ^ 2 / (3 * K)) with (c ^ 2 / K) by (field; lra).
      assert (Hk : (c ^ 2 + b ^ 2) * (c + b) <= K).
      { unfold K. apply Rmult_le_compat; nra. }
      assert (Hk0 : 0 < (c ^ 2 + b ^ 2) * (c + b)) by (apply Rmult_lt_0_compat; nra).
      assert (Hi : / K <= / ((c ^ 2 + b ^ 2) * (c + b))).
      { apply Rinv_le_contravar; assumption. }
      unfold Rdiv. assert (0 <= c ^ 2) by nra. nra. }
    replace (0 ^ 3 / (3 * K)) with 0 in Hc1 by (field; lra).
    fold K. nra.
Qed.

(** The halo of [10^12] solar masses at redshift 0: for every core radius of
    the grid other than 0 the squared circular velocity at 5 kpc exceeds
    2 (km/s)^2. *)
Lemma Burkert_light_vsq (rB : R) :
  5 <= rB <= 245 ->
  let self := Burkert.mk 12 rB (Fin (-99.9)) 0 _default_cosmo in
  2 < circular_velocity (Burkert.enclosed_mass self) 5
      * circular_velocity (Burkert.enclosed_mass self) 5.
Proof.
  intros HrB self.
  assert (Hb : 0 < Burkert.rB self) by (cbn; lra).
  rewrite circular_velocity_sq; [|apply Burkert_enclosed_mass_nonneg; [exact Hb|lra]|lra].
  unfold Burkert.enclosed_mass. cbv zeta.
  unfold Burkert.calc_rvir. cbn [Burkert.mvirial Burkert.z Burkert.cosmo self].
  pose proof calc_rvir_12_0 as [Hv1 Hv2].
  set (rvir := calc_rvir 12 0 _default_cosmo) in *.
  pose proof (Burkert_I_upper self rvir Hb ltac:(lra)) as Hup.
  pose proof (Burkert_I_pos self rvir Hb ltac:(lra)) as Hpos.
  pose proof (Burkert_I_lower self 5 Hb ltac:(lra)) as Hlow.
  cbn [Burkert.rB self] in Hup, Hlow.
  fold self.
  set (Ir := Burkert.I self rvir) in *. set (I5 := Burkert.I self 5) in *.
  rewrite Rpower_10_12.
  pose proof g_new_unit_bounds as [Hg1 Hg2].
  assert (H5 : / (1500 * rB) <= I5).
  { eapply Rle_trans; [|exact Hlow].
    replace (/ (1500 * rB)) with (5 ^ 3 / (3 * (62500 * rB))) by (field; lra).
    unfold Rdiv. apply Rmult_le_compat_l; [lra|].
    apply Rinv_le_contravar; [apply Rmult_lt_0_compat; [lra|apply Rmult_lt_0_compat; nra]|].
    apply Rmult_le_compat_l; [lra|].
    replace (62500 * rB) with ((250 * rB) * 250) by ring.
    apply Rmult_le_compat; nra. }
  assert (Hq : / 310500 <= I5 / Ir).
  { apply (Rmult_le_reg_r Ir); [exact Hpos|].
    replace (I5 / Ir * Ir) with I5 by (field; lra).
    assert (Hrb : Ir * rB <= 207).
    { apply (Rmult_le_compat_r rB) in Hup; [|lra].
      replace (rvir / rB * rB) with rvir in Hup by (field; lra). lra. }
    assert (H5b : 1 <= I5 * (1500 * rB)).
    { apply (Rmult_le_compat_r (1500 * rB)) in H5; [|lra].
      replace (/ (1500 * rB) * (1500 * rB)) with 1 in H5 by (field; lra). exact H5. }
    apply (Rmult_le_reg_r rB); [lra|]. nra. }
  replace (g_new_unit * 1e-3 * (10 ^ 12 / Ir * I5) / 5)
    with (g_new_unit * (2 * 10 ^ 8) * (I5 / Ir)) by (field; lra).
  assert (Hc : 860180 < g_new_unit * (2 * 10 ^ 8)) by lra.
  assert (Hq0 : 2 < 860180 * / 310500) by lra.
  nra.
Qed.

Lemma arange_rB_members (x : R) : In x (arange 0 250 5) -> x = 0 \/ 5 <= x <= 245.
Proof.
  unfold arange. intros H. apply in_map_iff in H. destruct H as [i [Hx Hi]].
  change (Z.to_nat ((250 - 0 + 5 - 1) / 5)) with 50%nat in Hi.
  apply in_seq in Hi. subst x.
  destruct i as [|i]; [left; reflexivity|right].
  split; apply IZR_le; lia.
Qed.

Lemma arange_rB_last_two :
  item (arange 0 250 5) (-2) = Ok 240 /\ item (arange 0 250 5) (-1) = Ok 245.
Proof. split; reflexivity. Qed.

Lemma list_comp_forall {A B : Type} (f : A -> result B) (Q : B -> Prop) (xs : list A) :
  (forall x, In x xs -> exists v, f x = Ok v /\ Q v) ->
  exists vs, list_comp f xs = Ok vs /\ Forall Q vs.
Proof.
  induction xs as [|x xs IH]; intros Hf.
  - exists []. split; [reflexivity|constructor].
  - destruct (Hf x (or_introl eq_refl)) as [v [Hv HQ]].
    destruct IH as [vs [Hvs HQs]]; [intros y Hy; apply Hf; right; exact Hy|].
    exists (v :: vs). split; [|constructor; assumption].
    cbn [list_comp]. rewrite Hv. cbn [bind]. rewrite Hvs. reflexivity.
Qed.

Lemma Burkert_light_objective (t rB : R) :
  0 <= t <= 2 -> rB = 0 \/ 5 <= rB <= 245 ->
  exists v, _minfunc_vdm (Burkert.trial 12 0) (Fin t) 5 rB = Ok v /\
            Float.ltb v (Fin 0) = false /\
            (5 <= rB -> exists e, v = Fin e /\ 0 < e).
Proof.
  intros Ht [H0|H5]; unfold _minfunc_vdm.
  - subst rB. rewrite Burkert_trial_rB0 by lra. exists NaN.
    split; [reflexivity|]. split; [reflexivity|]. intros H. lra.
  - rewrite Burkert_trial_fin by lra.
    cbn [bind Float.mul Float.sub Float.add Float.neg].
    pose proof (Burkert_light_vsq rB H5) as Hv. cbv zeta in Hv.
    eexists. split; [reflexivity|]. split.
    + unfold Float.ltb. apply Rltb_false. lra.
    + intros _. eexists. split; [reflexivity|lra].
Qed.

(** With a target of at most 2 (km/s)^2 no grid value is negative: the
    bracket is forced to the last two grid points, the root finder refuses
    it, and the middle of it is returned. *)
Lemma Burkert_light_run (core : solver) (vbar t : R) (fdm : fl) :
  out_of_bounds fdm_bounds fdm = false ->
  vsqr_dm_re_target (Fin vbar) fdm = Fin t -> 0 <= t <= 2 ->
  (exists vtest,
     list_comp (_minfunc_vdm (Burkert.trial 12 0) (Fin t) 5) (arange 0 250 5) = Ok vtest /\
     no_negative vtest) /\
  calc_rB_from_fdm core (Burkert.trial 12 0) fdm_bounds fdm (fun _ => Ok (Fin vbar)) 5
  = Ok (Fin 242.5).
Proof.
  intros Hb Htarget Ht.
  destruct (list_comp_forall (_minfunc_vdm (Burkert.trial 12 0) (Fin t) 5)
              (fun v => Float.ltb v (Fin 0) = false) (arange 0 250 5)) as [vtest [Hvt Hneg]].
  { intros x Hx. apply arange_rB_members in Hx.
    destruct (Burkert_light_objective t x Ht Hx) as [v [Hv [Hn _]]].
    exists v. split; assumption. }
  split; [exists vtest; split; assumption|].
  unfold calc_rB_from_fdm. rewrite Hb. cbn [bind]. rewrite Htarget, Hvt. cbn [bind].
  unfold bracket_rB. rewrite (last_negative_none _ _ Hneg).
  destruct arange_rB_last_two as [H2 H1]. rewrite H2, H1. cbn [bind fst snd].
  destruct (Burkert_light_objective t 240 Ht) as [fa [Hfa [_ Ha]]]; [right; lra|].
  destruct (Burkert_light_objective t 245 Ht) as [fb [Hfb [_ Hb']]]; [right; lra|].
  destruct Ha as [ea [-> Hea]]; [lra|]. destruct Hb' as [eb [-> Heb]]; [lra|].
  rewrite (brentq_same_sign core _ 240 245 (Fin ea) (Fin eb) Hfa Hfb).
  - unfold average. do 2 f_equal. lra.
  - unfold same_sign. cbn [Float.mul]. unfold Float.gtb, Float.ltb.
    apply Rltb_true. nra.
Qed.

(** A stand-in for the iteration of the root finder; the runs below end
    before it is entered. *)
Definition first_end : solver := fun _ a _ => Ok (Fin a).

Lemma target_fdm_0 (vbar : R) : vsqr_dm_re_target (Fin vbar) (Fin 0) = Fin 0.
Proof.
  unfold vsqr_dm_re_target. cbn [Float.mul].
  unfold Float.div at 2. rewrite (Reqb_true 0 0 eq_refl).
  unfold inf_of_sign. fl_compare. reflexivity.
Qed.

Lemma target_fdm_half : vsqr_dm_re_target (Fin 1) (Fin 0.5) = Fin 1.
Proof.
  unfold vsqr_dm_re_target. cbn [Float.mul].
  rewrite (div_fin 1 0.5) by lra. cbn [Float.sub Float.add Float.neg].
  rewrite div_fin by lra. f_equal.
  replace (1 / 0.5 + - (1)) with 1 by lra. lra.
Qed.

(** *** The edge cases of the inversions *)

Lemma mvirial_cascade (core : solver) (minfunc minfunc_AC : fl -> R -> objective)
    (baryons : R -> result fl) (r_fdm : R) (ac : bool) (x : R) :
  let mass := calc_mvirial_from_fdm core minfunc minfunc_AC fdm_bounds (Fin x) baryons r_fdm ac in
  (x < 0 \/ 1 < x -> mass = Ok NaN) /\
  (x = 1 -> mass = Ok PInf) /\
  (0 <= x < 1e-10 -> mass = Ok NInf) /\
  (1e-10 <= x < 1 -> r_fdm < 0 -> mass = Ok NaN).
Proof.
  cbv zeta. unfold calc_mvirial_from_fdm. repeat split.
  - intros H. rewrite (out_of_bounds_fin x H). reflexivity.
  - intros ->. rewrite in_bounds_fin by lra. unfold Float.eqb.
    rewrite (Reqb_true 1 1 eq_refl). reflexivity.
  - intros H. rewrite in_bounds_fin by lra. unfold Float.eqb, Float.ltb.
    rewrite (Reqb_false x 1) by lra.
    destruct (Req_dec_T x 0) as [H0|H0].
    + rewrite (Reqb_true x 0 H0). reflexivity.
    + rewrite (Reqb_false x 0 H0). rewrite Rltb_true by lra. reflexivity.
  - intros H Hr. rewrite in_bounds_fin by lra. unfold Float.eqb, Float.ltb.
    rewrite (Reqb_false x 1), (Reqb_false x 0) by lra.
    rewrite (Rltb_false x 1e-10) by lra. rewrite (Rltb_true r_fdm 0 Hr). reflexivity.
Qed.

(** C2 (amended): [calc_mvirial_from_fdm] returns its edge cases directly,
    whatever the baryons, the objective and the root finder are, and in this
    order: NaN for [fdm] outside [0, 1], plus infinity for [fdm == 1], minus
    infinity for [fdm == 0] and for [fdm < 1e-10], NaN for [r_fdm < 0].  The
    inversions of the shape parameters return NaN directly for [fdm] outside
    [0, 1]; this is their only edge case. *)
Theorem fdm_edge_cases (core : solver) (minfunc minfunc_AC : fl -> R -> objective)
    (halo : trial_halo) (baryons : R -> result fl) (r_fdm : R) (ac : bool) :
  (forall x, x < 0 \/ 1 < x ->
     calc_mvirial_from_fdm core minfunc minfunc_AC fdm_bounds (Fin x) baryons r_fdm ac = Ok NaN /\
     calc_alpha_from_fdm core halo fdm_bounds (Fin x) baryons r_fdm = Ok NaN /\
     calc_rB_from_fdm core halo fdm_bounds (Fin x) baryons r_fdm = Ok NaN /\
     calc_nEinasto_from_fdm core halo fdm_bounds (Fin x) baryons r_fdm = Ok NaN /\
     calc_alphaEinasto_from_fdm core halo fdm_bounds (Fin x) baryons r_fdm = Ok NaN) /\
  calc_mvirial_from_fdm core minfunc minfunc_AC fdm_bounds (Fin 1) baryons r_fdm ac = Ok PInf /\
  calc_mvirial_from_fdm core minfunc minfunc_AC fdm_bounds (Fin 0) baryons r_fdm ac = Ok NInf /\
  (forall x, 0 <= x < 1e-10 ->
     calc_mvirial_from_fdm core minfunc minfunc_AC fdm_bounds (Fin x) baryons r_fdm ac = Ok NInf) /\
  (forall x, 1e-10 <= x < 1 -> r_fdm < 0 ->
     calc_mvirial_from_fdm core minfunc minfunc_AC fdm_bounds (Fin x) baryons r_fdm ac = Ok NaN).
Proof.
  assert (Hc : forall x,
    (x < 0 \/ 1 < x ->
     calc_mvirial_from_fdm core minfunc minfunc_AC fdm_bounds (Fin x) baryons r_fdm ac = Ok NaN) /\
    (x = 1 ->
     calc_mvirial_from_fdm core minfunc minfunc_AC fdm_bounds (Fin x) baryons r_fdm ac = Ok PInf) /\
    (0 <= x < 1e-10 ->
     calc_mvirial_from_fdm core minfunc minfunc_AC fdm_bounds (Fin x) baryons r_fdm ac = Ok NInf) /\
    (1e-10 <= x < 1 -> r_fdm < 0 ->
     calc_mvirial_from_fdm core minfunc minfunc_AC fdm_bounds (Fin x) baryons r_fdm ac = Ok NaN)).
  { intros x. exact (mvirial_cascade core minfunc minfunc_AC baryons r_fdm ac x). }
  split; [|split; [|split; [|split]]].
  - intros x Hx. split.
    + apply (proj1 (Hc x)). exact Hx.
    + apply shape_out_of_bounds. apply out_of_bounds_fin. exact Hx.
  - apply (proj1 (proj2 (Hc 1))). reflexivity.
  - apply (proj1 (proj2 (proj2 (Hc 0)))). lra.
  - intros x Hx. apply (proj1 (proj2 (proj2 (Hc x)))). exact Hx.
  - intros x Hx Hr. apply (proj2 (proj2 (proj2 (Hc x)))); assumption.
Qed.

(** C2, as stated, fails for the shape inversions: with [fdm = 0] the
    Burkert inversion (halo of [10^12] solar masses at redshift 0, baryons of
    100 km/s at 5 kpc) returns 242.5, not minus infinity. *)
Lemma Burkert_fdm_zero_not_sentinel :
  calc_rB_from_fdm first_end (Burkert.trial 12 0) fdm_bounds (Fin 0)
    (fun _ => Ok (Fin 100)) 5 = Ok (Fin 242.5)
  /\ Ok (Fin 242.5) <> Ok NInf.
Proof.
  split; [|discriminate].
  apply (Burkert_light_run first_end 100 0 (Fin 0)).
  - apply in_bounds_fin. lra.
  - apply target_fdm_0.
  - lra.
Qed.

(** *** The policy when the grid shows no sign change *)

Definition some_negative (vtest : list fl) : Prop :=
  Exists (fun v => Float.ltb v (Fin 0) = true) vtest.

Lemma masked_some {A B : Type} (p : B -> bool) (xs : list A) (vs : list B) :
  List.length xs = List.length vs -> Exists (fun v => p v = true) vs ->
  masked xs (map p vs) <> [].
Proof.
  intros Hlen H. revert xs Hlen. induction H as [v vs Hv|v vs _ IH]; intros xs Hlen.
  - destruct xs as [|x xs]; [discriminate|]. cbn [map masked]. rewrite Hv. discriminate.
  - destruct xs as [|x xs]; [discriminate|]. cbn [map masked].
    destruct (p v); [discriminate|]. apply IH. injection Hlen as Hlen. exact Hlen.
Qed.

Lemma item_last {A : Type} (l : list A) : l <> [] -> exists a, item l (-1) = Ok a.
Proof.
  intros Hl. unfold item.
  assert (Hn : (1 <= Z.of_nat (List.length l))%Z).
  { destruct l; [contradiction|]. cbn [List.length]. lia. }
  change (-1 <? 0)%Z with true. cbv iota.
  replace (-1 + Z.of_nat (List.length l) <? 0)%Z with false by (symmetry; apply Z.ltb_ge; lia).
  replace (Z.of_nat (List.length l) <=? -1 + Z.of_nat (List.length l))%Z with false
    by (symmetry; apply Z.leb_gt; lia).
  cbn [orb].
  destruct (nth_error l (Z.to_nat (-1 + Z.of_nat (List.length l)))) as [a|] eqn:Ha.
  - exists a. reflexivity.
  - apply nth_error_None in Ha. lia.
Qed.

Lemma last_negative_some (grid : list R) (vtest : list fl) :
  List.length grid = List.length vtest -> some_negative vtest ->
  exists a, last_negative grid vtest = Ok a.
Proof.
  intros Hlen H. unfold last_negative, negative. apply item_last.
  apply masked_some; assumption.
Qed.

Lemma arange_alpha_ends :
  item (arange (-50) 50 1) 0 = Ok (-50) /\ item (arange (-50) 50 1) 1 = Ok (-49) /\
  item (arange (-50) 50 1) (-2) = Ok 48 /\ item (arange (-50) 50 1) (-1) = Ok 49.
Proof. repeat split; reflexivity. Qed.

Lemma arange_rB_first_two :
  item (arange 0 250 5) 0 = Ok 0 /\ item (arange 0 250 5) 1 = Ok 5.
Proof. split; reflexivity. Qed.

Lemma bracket_alpha_forced (grid : list R) (vtest : list fl) :
  List.length grid = List.length vtest ->
  (no_negative vtest ->
   bracket_alpha grid vtest = (a' <- item grid 0 ;; b' <- item grid 1 ;; Ok (a', b'))) /\
  (some_negative vtest -> no_positive vtest ->
   bracket_alpha grid vtest = (a' <- item grid (-2) ;; b' <- item grid (-1) ;; Ok (a', b'))).
Proof.
  intros Hlen. unfold bracket_alpha. split.
  - intros Hn. rewrite (last_negative_none grid vtest Hn). reflexivity.
  - intros Hs Hp. destruct (last_negative_some grid vtest Hlen Hs) as [a Ha].
    rewrite Ha, (first_positive_none grid vtest Hp). reflexivity.
Qed.

Lemma bracket_rB_forced (grid : list R) (vtest : list fl) :
  List.length grid = List.length vtest ->
  (no_negative vtest ->
   bracket_rB grid vtest = (a' <- item grid (-2) ;; b' <- item grid (-1) ;; Ok (a', b'))) /\
  (some_negative vtest -> no_positive vtest ->
   bracket_rB grid vtest = (a' <- item grid 0 ;; b' <- item grid 1 ;; Ok (a', b'))).
Proof.
  intros Hlen. unfold bracket_rB. split.
  - intros Hn. rewrite (last_negative_none grid vtest Hn). reflexivity.
  - intros Hs Hp. destruct (last_negative_some grid vtest Hlen Hs) as [a Ha].
    rewrite Ha, (first_positive_none grid vtest Hp). reflexivity.
Qed.

(** Every bracket of [calc_rB_from_fdm] is made of grid points or forced. *)
Lemma bracket_rB_returns (vtest : list fl) :
  exists ab, bracket_rB (arange 0 250 5) vtest = Ok ab.
Proof.
  unfold bracket_rB.
  destruct arange_rB_last_two as [H2 H1]. destruct arange_rB_first_two as [H3 H4].
  destruct (last_negative (arange 0 250 5) vtest) as [a|e].
  - destruct (first_positive (arange 0 250 5) vtest) as [b|e].
    + eexists. reflexivity.
    + rewrite H3, H4. eexists. reflexivity.
  - rewrite H2, H1. eexists. reflexivity.
Qed.

Lemma mvirial_no_bracket (core : solver) (minfunc minfunc_AC : fl -> R -> objective)
    (baryons : R -> result fl) (r_fdm x : R) (vbar : fl) (vtest : list fl) :
  1e-10 <= x < 1 -> 0 <= r_fdm -> baryons r_fdm = Ok vbar ->
  isfinite (vsqr_dm_re_target vbar (Fin x)) = true ->
  list_comp (minfunc (vsqr_dm_re_target vbar (Fin x)) r_fdm) (arange (-5) 50 1) = Ok vtest ->
  no_negative vtest \/ no_positive vtest ->
  calc_mvirial_from_fdm core minfunc minfunc_AC fdm_bounds (Fin x) baryons r_fdm false
  = Raise no_bracket.
Proof.
  intros Hx Hr Hbar Hfin Hvt Hno. unfold calc_mvirial_from_fdm.
  rewrite in_bounds_fin by lra. unfold Float.eqb, Float.ltb.
  rewrite (Reqb_false x 1), (Reqb_false x 0) by lra.
  rewrite (Rltb_false x 1e-10), (Rltb_false r_fdm 0) by lra.
  rewrite Hbar. cbn [bind]. rewrite Hfin. cbn [negb]. rewrite Hvt. cbn [bind].
  destruct Hno as [Hn|Hp].
  - rewrite (last_negative_none _ _ Hn). reflexivity.
  - rewrite (first_positive_none _ _ Hp).
    destruct (last_negative (arange (-5) 50 1) vtest); reflexivity.
Qed.

Lemma alpha_forced_bracket (core : solver) (halo : trial_halo)
    (baryons : R -> result fl) (r_fdm x : R) (vbar : fl) (vtest : list fl) :
  0 <= x <= 1 -> baryons r_fdm = Ok vbar ->
  list_comp (_minfunc_vdm halo (vsqr_dm_re_target vbar (Fin x)) r_fdm) (arange (-50) 50 1)
  = Ok vtest ->
  (no_negative vtest ->
   calc_alpha_from_fdm core halo fdm_bounds (Fin x) baryons r_fdm
   = brentq core (_minfunc_vdm halo (vsqr_dm_re_target vbar (Fin x)) r_fdm) (-50) (-49)) /\
  (some_negative vtest -> no_positive vtest ->
   calc_alpha_from_fdm core halo fdm_bounds (Fin x) baryons r_fdm
   = brentq core (_minfunc_vdm halo (vsqr_dm_re_target vbar (Fin x)) r_fdm) 48 49).
Proof.
  intros Hx Hbar Hvt. unfold calc_alpha_from_fdm.
  rewrite in_bounds_fin by lra. rewrite Hbar. cbn [bind]. rewrite Hvt. cbn [bind].
  pose proof (list_comp_length _ _ _ Hvt) as Hlen. symmetry in Hlen.
  destruct (bracket_alpha_forced _ _ Hlen) as [Hf1 Hf2].
  destruct arange_alpha_ends as [H0 [H1 [H2 H3]]].
  split.
  - intros Hn. rewrite (Hf1 Hn), H0, H1. reflexivity.
  - intros Hs Hp. rewrite (Hf2 Hs Hp), H2, H3. reflexivity.
Qed.

Lemma rB_fallback (core : solver) (halo : trial_halo)
    (baryons : R -> result fl) (r_fdm x : R) (vbar : fl) (vtest : list fl) :
  0 <= x <= 1 -> baryons r_fdm = Ok vbar ->
  list_comp (_minfunc_vdm halo (vsqr_dm_re_target vbar (Fin x)) r_fdm) (arange 0 250 5)
  = Ok vtest ->
  returns (calc_rB_from_fdm core halo fdm_bounds (Fin x) baryons r_fdm) /\
  (no_negative vtest ->
   calc_rB_from_fdm core halo fdm_bounds (Fin x) baryons r_fdm
   = Ok match brentq core (_minfunc_vdm halo (vsqr_dm_re_target vbar (Fin x)) r_fdm) 240 245 with
        | Ok rB => rB
        | Raise _ => Fin 242.5
        end) /\
  (some_negative vtest -> no_positive vtest ->
   calc_rB_from_fdm core halo fdm_bounds (Fin x) baryons r_fdm
   = Ok match brentq core (_minfunc_vdm halo (vsqr_dm_re_target vbar (Fin x)) r_fdm) 0 5 with
        | Ok rB => rB
        | Raise _ => Fin 2.5
        end).
Proof.
  intros Hx Hbar Hvt. unfold calc_rB_from_fdm.
  rewrite in_bounds_fin by lra. rewrite Hbar. cbn [bind]. rewrite Hvt. cbn [bind].
  pose proof (list_comp_length _ _ _ Hvt) as Hlen. symmetry in Hlen.
  destruct (bracket_rB_forced _ _ Hlen) as [Hf1 Hf2].
  destruct arange_rB_last_two as [H2 H1]. destruct arange_rB_first_two as [H3 H4].
  split; [|split].
  - destruct (bracket_rB_returns vtest) as [ab Hab]. rewrite Hab. cbn [bind].
    destruct (brentq core _ (fst ab) (snd ab)); eexists; reflexivity.
  - intros Hn. rewrite (Hf1 Hn), H2, H1. cbn [bind fst snd].
    destruct (brentq core _ 240 245); [reflexivity|].
    unfold average. do 2 f_equal. lra.
  - intros Hs Hp. rewrite (Hf2 Hs Hp), H3, H4. cbn [bind fst snd].
    destruct (brentq core _ 0 5); [reflexivity|].
    unfold average. do 2 f_equal. lra.
Qed.

(** C4 (amended): past the edge cases, with the grid evaluated:
    [calc_mvirial_from_fdm] raises ValueError when no grid value is negative
    or none is positive; [calc_alpha_from_fdm] then hands the first two or
    the last two grid points to the root finder, which raises ValueError
    whenever the objective has the same strict sign at the two ends it is
    given; [calc_rB_from_fdm] always returns, and when the root finder
    raises on the forced bracket it returns its middle, 242.5 or 2.5. *)
Theorem no_sign_change_policy (core : solver) (minfunc minfunc_AC : fl -> R -> objective)
    (halo : trial_halo) (baryons : R -> result fl) (r_fdm x : R) (vbar : fl)
    (Hx : 1e-10 <= x < 1) (Hr : 0 <= r_fdm) (Hbar : baryons r_fdm = Ok vbar) :
  (forall vtest,
     isfinite (vsqr_dm_re_target vbar (Fin x)) = true ->
     list_comp (minfunc (vsqr_dm_re_target vbar (Fin x)) r_fdm) (arange (-5) 50 1) = Ok vtest ->
     no_negative vtest \/ no_positive vtest ->
     calc_mvirial_from_fdm core minfunc minfunc_AC fdm_bounds (Fin x) baryons r_fdm false
     = Raise no_bracket) /\
  (forall vtest,
     list_comp (_minfunc_vdm halo (vsqr_dm_re_target vbar (Fin x)) r_fdm) (arange (-50) 50 1)
     = Ok vtest ->
     (no_negative vtest ->
      calc_alpha_from_fdm core halo fdm_bounds (Fin x) baryons r_fdm
      = brentq core (_minfunc_vdm halo (vsqr_dm_re_target vbar (Fin x)) r_fdm) (-50) (-49)) /\
     (some_negative vtest -> no_positive vtest ->
      calc_alpha_from_fdm core halo fdm_bounds (Fin x) baryons r_fdm
      = brentq core (_minfunc_vdm halo (vsqr_dm_re_target vbar (Fin x)) r_fdm) 48 49)) /\
  (forall (f : objective) a b fa fb,
     f a = Ok fa -> f b = Ok fb -> same_sign fa fb ->
     brentq core f a b = Raise sign_error) /\
  (forall vtest,
     list_comp (_minfunc_vdm halo (vsqr_dm_re_target vbar (Fin x)) r_fdm) (arange 0 250 5)
     = Ok vtest ->
     returns (calc_rB_from_fdm core halo fdm_bounds (Fin x) baryons r_fdm) /\
     (no_negative vtest ->
      calc_rB_from_fdm core halo fdm_bounds (Fin x) baryons r_fdm
      = Ok match brentq core (_minfunc_vdm halo (vsqr_dm_re_target vbar (Fin x)) r_fdm) 240 245 with
           | Ok rB => rB
           | Raise _ => Fin 242.5
           end) /\
     (some_negative vtest -> no_positive vtest ->
      calc_rB_from_fdm core halo fdm_bounds (Fin x) baryons r_fdm
      = Ok match brentq core (_minfunc_vdm halo (vsqr_dm_re_target vbar (Fin x)) r_fdm) 0 5 with
           | Ok rB => rB
           | Raise _ => Fin 2.5
           end)).
Proof.
  split; [|split; [|split]].
  - intros vtest Hfin Hvt Hno.
    apply (mvirial_no_bracket core minfunc minfunc_AC baryons r_fdm x vbar vtest); assumption.
  - intros vtest Hvt. apply (alpha_forced_bracket core halo baryons r_fdm x vbar vtest);
      [lra|assumption|assumption].
  - intros f a b fa fb. apply brentq_same_sign.
  - intros vtest Hvt. apply (rB_fallback core halo baryons r_fdm x vbar vtest);
      [lra|assumption|assumption].
Qed.

Lemma no_sign_change_policy_witness :
  returns (calc_rB_from_fdm first_end (Burkert.trial 12 0) fdm_bounds (Fin 0.5)
             (fun _ => Ok (Fin 1)) 5).
Proof.
  destruct (Burkert_light_run first_end 1 1 (Fin 0.5)) as [[vtest [Hvt _]] _].
  - apply in_bounds_fin. lra.
  - apply target_fdm_half.
  - lra.
  - rewrite <- target_fdm_half in Hvt.
    apply (proj2 (proj2 (proj2
             (no_sign_change_policy first_end (fun t r => _minfunc_vdm (Burkert.trial 12 0) t r)
                (fun t r => _minfunc_vdm (Burkert.trial 12 0) t r) (Burkert.trial 12 0)
                (fun _ => Ok (Fin 1)) 5 0.5 (Fin 1) ltac:(lra) ltac:(lra) eq_refl))) vtest Hvt).
Defined.

(** C4, as stated, fails: the Burkert inversion for [fdm = 0.5], baryons of
    1 km/s at 5 kpc and a halo of [10^12] solar masses at redshift 0 finds
    no negative value on its grid and returns 242.5, the middle of the
    bracket it forced. *)
Lemma Burkert_no_sign_change_returns :
  (exists vtest,
     list_comp (_minfunc_vdm (Burkert.trial 12 0) (vsqr_dm_re_target (Fin 1) (Fin 0.5)) 5)
       (arange 0 250 5) = Ok vtest /\
     no_negative vtest) /\
  calc_rB_from_fdm first_end (Burkert.trial 12 0) fdm_bounds (Fin 0.5)
    (fun _ => Ok (Fin 1)) 5 = Ok (Fin 242.5).
Proof.
  rewrite target_fdm_half.
  apply (Burkert_light_run first_end 1 1 (Fin 0.5)).
  - apply in_bounds_fin. lra.
  - apply target_fdm_half.
  - lra.
Qed.

(** *** The round trip through an inversion *)

(** The dark-matter fraction the round trip recomputes at [r_fdm],
    [v_dm^2 / (v_dm^2 + v_bar^2)]. *)
Definition dm_fraction (vdm vbar : R) : R := vdm * vdm / (vdm * vdm + vbar * vbar).

(** The halo with the parameter [p] installed reproduces [fdm] within
    [tol]. *)
Definition round_trip_within (halo : trial_halo) (r_fdm vbar fdm tol p : R) : Prop :=
  exists vdm, halo p r_fdm = Ok (Fin vdm) /\ Rabs (dm_fraction vdm vbar - fdm) <= tol.

Lemma target_fin (vbar x : R) :
  0 < x < 1 ->
  vsqr_dm_re_target (Fin vbar) (Fin x) = Fin (vbar * vbar / (1 / x + - (1))).
Proof.
  intros Hx. unfold vsqr_dm_re_target. cbn [Float.mul].
  rewrite (div_fin 1 x) by lra. cbn [Float.sub Float.add Float.neg].
  rewrite div_fin; [reflexivity|].
  assert (H : 1 < 1 / x).
  { apply (Rmult_lt_reg_r x); [lra|]. replace (1 / x * x) with 1 by (field; lra). lra. }
  lra.
Qed.

Lemma dm_fraction_error (x B t V eps : R) :
  0 < x < 1 -> 0 < B -> t = B / (1 / x + - (1)) -> 0 <= V ->
  Rabs (V + - t) <= eps ->
  Rabs (V / (V + B) - x) <= eps / B.
Proof.
  intros Hx HB Ht HV He.
  assert (Htx : t * (1 - x) = B * x).
  { rewrite Ht. field. split; [lra|].
    intros H. assert (x = 1) by lra. lra. }
  assert (Hd : V / (V + B) - x = (1 - x) * (V + - t) / (V + B)).
  { replace ((1 - x) * (V + - t)) with (V * (1 - x) - t * (1 - x)) by ring.
    rewrite Htx. field. lra. }
  rewrite Hd. unfold Rdiv. rewrite !Rabs_mult.
  rewrite (Rabs_pos_eq (1 - x)) by lra.
  rewrite (Rabs_pos_eq (/ (V + B))) by (left; apply Rinv_0_lt_compat; lra).
  assert (Hi : / (V + B) <= / B) by (apply Rinv_le_contravar; lra).
  assert (Hi0 : 0 < / (V + B)) by (apply Rinv_0_lt_compat; lra).
  pose proof (Rabs_pos (V + - t)) as Ha.
  assert (H1 : (1 - x) * Rabs (V + - t) <= eps) by nra.
  assert (H0 : 0 <= (1 - x) * Rabs (V + - t)) by nra.
  nra.
Qed.

Lemma residual_round_trip (halo : trial_halo) (r_fdm x vbar eps p e : R) :
  0 < x < 1 -> vbar <> 0 ->
  _minfunc_vdm halo (vsqr_dm_re_target (Fin vbar) (Fin x)) r_fdm p = Ok (Fin e) ->
  Rabs e <= eps ->
  round_trip_within halo r_fdm vbar x (eps / (vbar * vbar)) p.
Proof.
  intros Hx Hv Hf He. rewrite (target_fin vbar x Hx) in Hf.
  unfold _minfunc_vdm in Hf.
  destruct (halo p r_fdm) as [v|ex] eqn:Hh; [|discriminate].
  cbn [bind] in Hf.
  destruct v as [| | |vdm]; cbn in Hf; try discriminate.
  injection Hf as Hf. exists vdm. split; [exact Hh|].
  unfold dm_fraction. subst e.
  apply (dm_fraction_error x (vbar * vbar) (vbar * vbar / (1 / x + - (1))) (vdm * vdm) eps);
    try assumption; try reflexivity; nra.
Qed.

(** C3 (amended): for [fdm] strictly inside (0, 1), [r_fdm > 0] and baryons
    of a finite non-zero circular velocity at [r_fdm], and a root finder
    whose result leaves a residual of at most [eps] in the objective: every
    finite value [calc_mvirial_from_fdm] (adiabatic contraction off) or
    [calc_alpha_from_fdm] returns, and every finite value [calc_rB_from_fdm]
    returns when the root finder did not raise, gives a halo whose
    recomputed dark-matter fraction differs from [fdm] by at most
    [eps / v_bar^2]. *)
Theorem fdm_round_trip (core : solver) (halo : trial_halo) (minfunc_AC : fl -> R -> objective)
    (baryons : R -> result fl) (r_fdm x vbar eps : R)
    (Hx : 0 < x < 1) (Hr : 0 < r_fdm)
    (Hbar : baryons r_fdm = Ok (Fin vbar)) (Hv : vbar <> 0)
    (Hcore : forall a b p,
       core (_minfunc_vdm halo (vsqr_dm_re_target (Fin vbar) (Fin x)) r_fdm) a b = Ok (Fin p) ->
       exists e,
         _minfunc_vdm halo (vsqr_dm_re_target (Fin vbar) (Fin x)) r_fdm p = Ok (Fin e) /\
         Rabs e <= eps) :
  (forall p,
     calc_mvirial_from_fdm core (_minfunc_vdm halo) minfunc_AC fdm_bounds (Fin x) baryons r_fdm false
     = Ok (Fin p) ->
     round_trip_within halo r_fdm vbar x (eps / (vbar * vbar)) p) /\
  (forall p,
     calc_alpha_from_fdm core halo fdm_bounds (Fin x) baryons r_fdm = Ok (Fin p) ->
     round_trip_within halo r_fdm vbar x (eps / (vbar * vbar)) p) /\
  (forall p vtest ab,
     list_comp (_minfunc_vdm halo (vsqr_dm_re_target (Fin vbar) (Fin x)) r_fdm) (arange 0 250 5)
     = Ok vtest ->
     bracket_rB (arange 0 250 5) vtest = Ok ab ->
     returns (brentq core (_minfunc_vdm halo (vsqr_dm_re_target (Fin vbar) (Fin x)) r_fdm)
                (fst ab) (snd ab)) ->
     calc_rB_from_fdm core halo fdm_bounds (Fin x) baryons r_fdm = Ok (Fin p) ->
     round_trip_within halo r_fdm vbar x (eps / (vbar * vbar)) p).
Proof.
  assert (Hroot : forall a b p,
    brentq core (_minfunc_vdm halo (vsqr_dm_re_target (Fin vbar) (Fin x)) r_fdm) a b = Ok (Fin p) ->
    round_trip_within halo r_fdm vbar x (eps / (vbar * vbar)) p).
  { intros a b p H. apply brentq_accepts in H. destruct H as (fa & fb & _ & _ & _ & Hc).
    destruct (Hcore a b p Hc) as [e [Hf He]].
    apply (residual_round_trip halo r_fdm x vbar eps p e); assumption. }
  split; [|split].
  - intros p H. unfold calc_mvirial_from_fdm in H.
    rewrite in_bounds_fin in H by lra. unfold Float.eqb, Float.ltb in H.
    rewrite (Reqb_false x 1), (Reqb_false x 0) in H by lra.
    destruct (Rltb x 1e-10); [discriminate|]. destruct (Rltb r_fdm 0); [discriminate|].
    rewrite Hbar in H. cbn [bind] in H.
    destruct (isfinite (vsqr_dm_re_target (Fin vbar) (Fin x))); cbn [negb] in H; [|discriminate].
    destruct (list_comp _ (arange (-5) 50 1)) as [vtest|]; [|discriminate]. cbn [bind] in H.
    destruct (last_negative (arange (-5) 50 1) vtest) as [a|]; cbn [bind] in H; [|discriminate].
    destruct (first_positive (arange (-5) 50 1) vtest) as [b|]; cbn [bind] in H; [|discriminate].
    apply (Hroot a b p H).
  - intros p H. unfold calc_alpha_from_fdm in H.
    rewrite in_bounds_fin in H by lra. rewrite Hbar in H. cbn [bind] in H.
    destruct (list_comp _ (arange (-50) 50 1)) as [vtest|]; [|discriminate]. cbn [bind] in H.
    destruct (bracket_alpha (arange (-50) 50 1) vtest) as [ab|]; [|discriminate].
    cbn [bind] in H. apply (Hroot (fst ab) (snd ab) p H).
  - intros p vtest ab Hvt Hab [v Hret] H. unfold calc_rB_from_fdm in H.
    rewrite in_bounds_fin in H by lra. rewrite Hbar in H. cbn [bind] in H.
    rewrite Hvt in H. cbn [bind] in H. rewrite Hab in H. cbn [bind] in H.
    rewrite Hret in H. injection H as H. subst v.
    apply (Hroot (fst ab) (snd ab) p Hret).
Qed.

(** C3, as stated, fails: the Burkert inversion for [fdm = 0.5], baryons of
    1 km/s at 5 kpc and a halo of [10^12] solar masses at redshift 0 returns
    242.5, and the halo with that core radius has a dark-matter fraction
    above 0.5 + 1e-6 at 5 kpc. *)
Lemma Burkert_round_trip_fails :
  calc_rB_from_fdm first_end (Burkert.trial 12 0) fdm_bounds (Fin 0.5)
    (fun _ => Ok (Fin 1)) 5 = Ok (Fin 242.5) /\
  exists vdm, Burkert.trial 12 0 242.5 5 = Ok (Fin vdm) /\
              0.5 + 1e-6 < dm_fraction vdm 1.
Proof.
  split.
  - apply (Burkert_light_run first_end 1 1 (Fin 0.5)).
    + apply in_bounds_fin. lra.
    + apply target_fdm_half.
    + lra.
  - eexists. split; [apply Burkert_trial_fin; lra|].
    pose proof (Burkert_light_vsq 242.5 ltac:(lra)) as Hv. cbv zeta in Hv.
    unfold dm_fraction.
    set (V := circular_velocity _ 5 * circular_velocity _ 5) in *.
    apply (Rmult_lt_reg_r (V + 1 * 1)); [lra|].
    replace (V / (V + 1 * 1) * (V + 1 * 1)) with V by (field; lra).
    lra.
Qed.

(** A run that goes through the root finder: a trial family whose circular
    velocity is the parameter itself, baryons of 3 km/s and [fdm = 0.5], so
    that the objective is [p^2 - 9], and an iteration that answers 3. *)
Definition linear_trial : trial_halo := fun p _ => Ok (Fin p).

Definition answer_3 : solver := fun _ _ _ => Ok (Fin 3).

Lemma Rltb_IZR (a b : Z) : Rltb (IZR a) (IZR b) = (a <? b)%Z.
Proof.
  destruct (a <? b)%Z eqn:H.
  - apply Rltb_true. apply IZR_lt. apply Z.ltb_lt. exact H.
  - apply Rltb_false. apply IZR_le. apply Z.ltb_ge. exact H.
Qed.

Lemma masked_Z (zs : list Z) (h : Z -> bool) (g : R -> fl) (p : fl -> bool) :
  (forall z, In z zs -> p (g (IZR z)) = h z) ->
  masked (map IZR zs) (map p (map g (map IZR zs))) = map IZR (filter h zs).
Proof.
  induction zs as [|z zs IH]; intros H; [reflexivity|].
  cbn [map masked filter]. rewrite (H z (or_introl eq_refl)).
  rewrite IH by (intros y Hy; apply H; right; exact Hy).
  destruct (h z); reflexivity.
Qed.

Lemma arange_Z (start stop step : Z) :
  arange start stop step
  = map IZR (map (fun i => (start + Z.of_nat i * step)%Z)
               (seq 0 (Z.to_nat ((stop - start + step - 1) / step)))).
Proof. unfold arange. rewrite map_map. reflexivity. Qed.

Lemma target_9 : vsqr_dm_re_target (Fin 3) (Fin 0.5) = Fin 9.
Proof.
  rewrite target_fin by lra. f_equal.
  replace (1 / 0.5 + - (1)) with 1 by lra. lra.
Qed.

Lemma linear_alpha_run :
  calc_alpha_from_fdm answer_3 linear_trial fdm_bounds (Fin 0.5) (fun _ => Ok (Fin 3)) 5
  = Ok (Fin 3).
Proof.
  unfold calc_alpha_from_fdm. rewrite in_bounds_fin by lra. cbn [bind].
  rewrite target_9.
  set (g := fun m : R => Fin (m * m + - (9))).
  rewrite (list_comp_ok _ g) by (intros m _; reflexivity). cbn [bind].
  assert (Hg : forall z : Z, g (IZR z) = Fin (IZR (z * z - 9))).
  { intros z. unfold g. f_equal. rewrite minus_IZR, mult_IZR. ring. }
  assert (Hneg : last_negative (arange (-50) 50 1) (map g (arange (-50) 50 1)) = Ok 2).
  { unfold last_negative, negative. rewrite arange_Z.
    rewrite (masked_Z _ (fun z => (z * z - 9 <? 0)%Z)).
    - reflexivity.
    - intros z _. rewrite Hg. unfold Float.ltb. apply Rltb_IZR. }
  assert (Hpos : first_positive (arange (-50) 50 1) (map g (arange (-50) 50 1)) = Ok (-50)).
  { unfold first_positive, positive. rewrite arange_Z.
    rewrite (masked_Z _ (fun z => (0 <? z * z - 9)%Z)).
    - reflexivity.
    - intros z _. rewrite Hg. unfold Float.gtb, Float.ltb. apply Rltb_IZR. }
  unfold bracket_alpha. rewrite Hneg, Hpos. cbn [bind fst snd].
  unfold brentq, _minfunc_vdm, linear_trial. cbn [bind Float.mul Float.sub Float.add Float.neg].
  unfold Float.gtb, Float.ltb. rewrite Rltb_false by lra. reflexivity.
Qed.

Lemma fdm_round_trip_witness : round_trip_within linear_trial 5 3 0.5 (0 / (3 * 3)) 3.
Proof.
  assert (Hcore : forall a b p,
            answer_3 (_minfunc_vdm linear_trial (vsqr_dm_re_target (Fin 3) (Fin 0.5)) 5) a b
            = Ok (Fin p) ->
            exists e,
              _minfunc_vdm linear_trial (vsqr_dm_re_target (Fin 3) (Fin 0.5)) 5 p = Ok (Fin e) /\
              Rabs e <= 0).
  { intros a b p Hc. injection Hc as Hp. subst p. rewrite target_9.
    exists (3 * 3 + - (9)). split; [reflexivity|].
    replace (3 * 3 + - (9)) with 0 by lra. rewrite Rabs_R0. lra. }
  apply (proj1 (proj2
           (fdm_round_trip answer_3 linear_trial (_minfunc_vdm linear_trial)
              (fun _ => Ok (Fin 3)) 5 0.5 3 0 ltac:(lra) ltac:(lra) eq_refl ltac:(lra) Hcore))).
  apply linear_alpha_run.
Defined.

(** *** The velocity profile *)

(** C8: for every halo component and every radius, [velocity_profile]
    raises NotImplementedError when the model's adiabatic-contraction flag is
    set and returns [circular_velocity(r)] when it is not; the flag alone
    decides. *)
Theorem velocity_profile_flag (sp : special) (self : halo) (r : R)
    (model : model_set) :
  (adiabatic_contract (kinematic_options_of model) = true ->
   velocity_profile sp self r model = Raise not_supported) /\
  (adiabatic_contract (kinematic_options_of model) = false ->
   velocity_profile sp self r model = Ok (halo_circular_velocity sp self r)) /\
  (returns (velocity_profile sp self r model) <->
   adiabatic_contract (kinematic_options_of model) = false).
Proof.
  unfold velocity_profile.
  destruct (adiabatic_contract (kinematic_options_of model)).
  - split; [reflexivity|]. split; [discriminate|].
    split; [intros [v Hv]; discriminate Hv | discriminate].
  - split; [discriminate|]. split; [reflexivity|].
    split; [reflexivity|]. intros _. eexists. reflexivity.
Qed.

(** *** Dekel-Zhao: the mass as a function of the radius *)

Lemma ln_le_mono (x y : R) : 0 < x -> x <= y -> ln x <= ln y.
Proof.
  intros Hx [H|H]; [left; apply ln_increasing; assumption|subst; lra].
Qed.

Lemma exp_le_mono (x y : R) : x <= y -> exp x <= exp y.
Proof.
  intros [H|H]; [left; apply exp_increasing; assumption|subst; lra].
Qed.

Lemma power_Rpower (x y : R) : x <> 0 -> power x y = Rpower x y.
Proof. intros H. unfold power. destruct (Req_dec_T x 0); [contradiction|reflexivity]. Qed.

(** [ln x - 2 ln(1 + sqrt x)], the logarithm of [x / (1 + sqrt x)^2]. *)
Definition DZ_log (x : R) : R := ln x - 2 * ln (1 + sqrt x).

Lemma DZ_denominator (a x : R) :
  0 < x ->
  power x (a - 3) * power (1 + sqrt x) (2 * (3 - a)) = exp ((a - 3) * DZ_log x).
Proof.
  intros Hx. pose proof (sqrt_pos x) as Hs.
  rewrite !power_Rpower by lra. unfold Rpower, DZ_log.
  rewrite <- exp_plus. f_equal. ring.
Qed.

Lemma DZ_log_mono (x1 x2 : R) : 0 < x1 -> x1 <= x2 -> DZ_log x1 <= DZ_log x2.
Proof.
  intros H1 H12. unfold DZ_log.
  assert (Hs1 : 0 < sqrt x1) by (apply sqrt_lt_R0; exact H1).
  assert (Hs2 : 0 < sqrt x2) by (apply sqrt_lt_R0; lra).
  assert (Hs : sqrt x1 <= sqrt x2) by (apply sqrt_le_1_alt; exact H12).
  assert (Hl : forall x, 0 < x -> ln x - 2 * ln (1 + sqrt x) = 2 * ln (sqrt x / (1 + sqrt x))).
  { intros x Hx. assert (Hsx : 0 < sqrt x) by (apply sqrt_lt_R0; exact Hx).
    rewrite ln_quot by lra.
    rewrite <- (sqrt_sqrt x) at 1 by lra. rewrite ln_mult by assumption. ring. }
  rewrite (Hl x1 H1), (Hl x2) by lra.
  apply Rmult_le_compat_l; [lra|].
  apply ln_le_mono; [apply Rdiv_lt_0_compat; lra|].
  apply (Rmult_le_reg_r ((1 + sqrt x1) * (1 + sqrt x2))); [nra|].
  replace (sqrt x1 / (1 + sqrt x1) * ((1 + sqrt x1) * (1 + sqrt x2)))
    with (sqrt x1 * (1 + sqrt x2)) by (field; lra).
  replace (sqrt x2 / (1 + sqrt x2) * ((1 + sqrt x1) * (1 + sqrt x2)))
    with (sqrt x2 * (1 + sqrt x1)) by (field; lra).
  nra.
Qed.

Lemma DZ_log_strict (x1 x2 : R) : 0 < x1 -> x1 < x2 -> DZ_log x1 < DZ_log x2.
Proof.
  intros H1 H12. unfold DZ_log.
  assert (Hs1 : 0 < sqrt x1) by (apply sqrt_lt_R0; exact H1).
  assert (Hs2 : 0 < sqrt x2) by (apply sqrt_lt_R0; lra).
  assert (Hs : sqrt x1 < sqrt x2) by (apply sqrt_lt_1_alt; lra).
  assert (Hl : forall x, 0 < x -> ln x - 2 * ln (1 + sqrt x) = 2 * ln (sqrt x / (1 + sqrt x))).
  { intros x Hx. assert (Hsx : 0 < sqrt x) by (apply sqrt_lt_R0; exact Hx).
    rewrite ln_quot by lra.
    rewrite <- (sqrt_sqrt x) at 1 by lra. rewrite ln_mult by assumption. ring. }
  rewrite (Hl x1 H1), (Hl x2) by lra.
  apply Rmult_lt_compat_l; [lra|].
  apply ln_increasing; [apply Rdiv_lt_0_compat; lra|].
  apply (Rmult_lt_reg_r ((1 + sqrt x1) * (1 + sqrt x2))); [nra|].
  replace (sqrt x1 / (1 + sqrt x1) * ((1 + sqrt x1) * (1 + sqrt x2)))
    with (sqrt x1 * (1 + sqrt x2)) by (field; lra).
  replace (sqrt x2 / (1 + sqrt x2) * ((1 + sqrt x1) * (1 + sqrt x2)))
    with (sqrt x2 * (1 + sqrt x1)) by (field; lra).
  nra.
Qed.

(** The mass in closed form, for [c > 0] and [r > 0]. *)
Lemma DZ_enclosed_mass_form (self : DekelZhao.t) (a c r : R) :
  DekelZhao.calc_a_c self = (a, c) -> 0 < c -> 0 < r ->
  DekelZhao.enclosed_mass self r
  = exp ((a - 3) * DZ_log c) * Rpower 10 (DekelZhao.mvirial self)
    * exp ((3 - a) * DZ_log (r / (DekelZhao.calc_rvir self / c))).
Proof.
  intros Hac Hc Hr. unfold DekelZhao.enclosed_mass, DekelZhao.calc_mu. rewrite Hac.
  cbv zeta.
  assert (Hrv : 0 < DekelZhao.calc_rvir self) by apply calc_rvir_pos.
  assert (Hx : 0 < r / (DekelZhao.calc_rvir self / c)).
  { apply Rdiv_lt_0_compat; [exact Hr|apply Rdiv_lt_0_compat; assumption]. }
  rewrite (DZ_denominator a c Hc), (DZ_denominator a _ Hx).
  replace ((3 - a) * DZ_log (r / (DekelZhao.calc_rvir self / c)))
    with (- ((a - 3) * DZ_log (r / (DekelZhao.calc_rvir self / c)))) by ring.
  rewrite exp_Ropp. reflexivity.
Qed.

Lemma DZ_enclosed_mass_mono (self : DekelZhao.t) (r1 r2 : R) :
  fst (DekelZhao.calc_a_c self) < 3 -> 0 < snd (DekelZhao.calc_a_c self) ->
  0 < r1 -> r1 <= r2 ->
  DekelZhao.enclosed_mass self r1 <= DekelZhao.enclosed_mass self r2.
Proof.
  destruct (DekelZhao.calc_a_c self) as [a c] eqn:Hac. cbn [fst snd].
  intros Ha Hc H1 H12.
  rewrite (DZ_enclosed_mass_form self a c r1 Hac Hc H1).
  rewrite (DZ_enclosed_mass_form self a c r2 Hac Hc) by lra.
  assert (Hrc : 0 < DekelZhao.calc_rvir self / c).
  { apply Rdiv_lt_0_compat; [apply calc_rvir_pos|exact Hc]. }
  apply Rmult_le_compat_l.
  - apply Rmult_le_pos; left; [apply exp_pos|apply Rpower_10_pos].
  - apply exp_le_mono. apply Rmult_le_compat_l; [lra|].
    apply DZ_log_mono; [apply Rdiv_lt_0_compat; assumption|].
    unfold Rdiv. apply Rmult_le_compat_r; [left; apply Rinv_0_lt_compat; exact Hrc|exact H12].
Qed.

Lemma DZ_enclosed_mass_decreasing (self : DekelZhao.t) (r1 r2 : R) :
  3 < fst (DekelZhao.calc_a_c self) -> 0 < snd (DekelZhao.calc_a_c self) ->
  0 < r1 -> r1 < r2 ->
  DekelZhao.enclosed_mass self r2 < DekelZhao.enclosed_mass self r1.
Proof.
  destruct (DekelZhao.calc_a_c self) as [a c] eqn:Hac. cbn [fst snd].
  intros Ha Hc H1 H12.
  rewrite (DZ_enclosed_mass_form self a c r1 Hac Hc H1).
  rewrite (DZ_enclosed_mass_form self a c r2 Hac Hc) by lra.
  assert (Hrc : 0 < DekelZhao.calc_rvir self / c).
  { apply Rdiv_lt_0_compat; [apply calc_rvir_pos|exact Hc]. }
  apply Rmult_lt_compat_l.
  - apply Rmult_lt_0_compat; [apply exp_pos|apply Rpower_10_pos].
  - apply exp_increasing.
    assert (Hl : DZ_log (r1 / (DekelZhao.calc_rvir self / c))
                 < DZ_log (r2 / (DekelZhao.calc_rvir self / c))).
    { apply DZ_log_strict; [apply Rdiv_lt_0_compat; assumption|].
      unfold Rdiv. apply Rmult_lt_compat_r; [apply Rinv_0_lt_compat; exact Hrc|exact H12]. }
    nra.
Qed.

Lemma DZ_enclosed_mass_fl_pos (self : DekelZhao.t) (r : R) :
  0 < snd (DekelZhao.calc_a_c self) -> 0 < r ->
  DekelZhao.enclosed_mass_fl self r = Fin (DekelZhao.enclosed_mass self r).
Proof.
  unfold DekelZhao.enclosed_mass_fl, DekelZhao.enclosed_mass.
  destruct (DekelZhao.calc_a_c self) as [a c] eqn:Hac. cbn [fst snd]. cbv zeta.
  intros Hc Hr.
  assert (Hx : 0 < r / (DekelZhao.calc_rvir self / c)).
  { apply Rdiv_lt_0_compat; [exact Hr|apply Rdiv_lt_0_compat; [apply calc_rvir_pos|exact Hc]]. }
  pose proof (sqrt_pos (r / (DekelZhao.calc_rvir self / c))) as Hs.
  unfold Float.power. rewrite !Reqb_false by lra. cbn [Float.mul].
  rewrite !power_Rpower by lra.
  rewrite div_fin; [reflexivity|].
  apply Rgt_not_eq. apply Rmult_lt_0_compat; unfold Rpower; apply exp_pos.
Qed.

Lemma DZ_enclosed_mass_fl_0 (self : DekelZhao.t) :
  fst (DekelZhao.calc_a_c self) < 3 -> 0 < snd (DekelZhao.calc_a_c self) ->
  DekelZhao.enclosed_mass_fl self 0 = Fin 0.
Proof.
  unfold DekelZhao.enclosed_mass_fl.
  destruct (DekelZhao.calc_a_c self) as [a c] eqn:Hac. cbn [fst snd]. cbv zeta.
  intros Ha Hc.
  replace (0 / (DekelZhao.calc_rvir self / c)) with 0 by (unfold Rdiv; ring).
  rewrite sqrt_0. unfold Float.power.
  rewrite (Reqb_true 0 0 eq_refl), (Rltb_true (a - 3) 0) by lra.
  rewrite (Reqb_false (1 + 0) 0) by lra. cbn [Float.mul].
  unfold inf_of_sign. rewrite Rltb_true by (unfold Rpower; apply exp_pos).
  reflexivity.
Qed.

Lemma sqrt_of_square (x y : R) : 0 <= y -> y * y = x -> sqrt x = y.
Proof. intros Hy <-. apply sqrt_square. exact Hy. Qed.

(** A Dekel-Zhao halo inside the declared bounds of [s1] and [c2] whose
    inner slope [a] is above 3. *)
Definition steep_halo : DekelZhao.t :=
  DekelZhao.mk 12 0.5 36 (Fin (-99.9)) 0 _default_cosmo.

Lemma steep_halo_a_c : DekelZhao.calc_a_c steep_halo = (9.5, 900).
Proof.
  unfold DekelZhao.calc_a_c, steep_halo. cbn [DekelZhao.s1 DekelZhao.c2]. cbv zeta.
  rewrite (sqrt_of_square 0.01 0.1) by lra.
  rewrite (sqrt_of_square 36 6) by lra.
  f_equal.
  - replace (1.5 * 0.5 - 2 * (3.5 - 0.5) * 0.1 * 6) with (-2.85) by lra.
    replace (1.5 - (3.5 - 0.5) * 0.1 * 6) with (-0.3) by lra. lra.
  - replace ((3.5 - 0.5) * 0.1 - 1.5 / 6) with 0.05 by lra.
    replace ((0.5 - 2) / 0.05) with (-30) by lra. lra.
Qed.

(** *** Profiles built on the functions of scipy.special *)

Lemma power_nonneg (x y : R) : 0 <= power x y.
Proof.
  unfold power. destruct (Req_dec_T x 0); [destruct (Rlt_dec 0 y); lra|].
  left. unfold Rpower. apply exp_pos.
Qed.

Lemma power_0 (y : R) : 0 < y -> power 0 y = 0.
Proof.
  intros Hy. unfold power. destruct (Req_dec_T 0 0); [|contradiction].
  destruct (Rlt_dec 0 y); [reflexivity|contradiction].
Qed.

Lemma power_mono (x1 x2 y : R) : 0 < y -> 0 <= x1 -> x1 <= x2 -> power x1 y <= power x2 y.
Proof.
  intros Hy H1 H12. destruct (Req_dec_T x1 0) as [H0|H0].
  - subst x1. rewrite (power_0 y Hy). apply power_nonneg.
  - rewrite !power_Rpower by lra. apply Rle_Rpower_l; lra.
Qed.

Lemma power_mult (x1 x2 y : R) :
  0 < y -> 0 <= x1 -> 0 <= x2 -> power (x1 * x2) y = power x1 y * power x2 y.
Proof.
  intros Hy H1 H2. destruct (Req_dec_T x1 0) as [H0|H0].
  - subst x1. rewrite Rmult_0_l, (power_0 y Hy). ring.
  - destruct (Req_dec_T x2 0) as [H0'|H0'].
    + subst x2. rewrite Rmult_0_r, (power_0 y Hy). ring.
    + rewrite !power_Rpower by (try apply Rmult_integral_contrapositive_currified; assumption).
      symmetry. apply Rpower_mult_distr; lra.
Qed.

(** What the monotonicity of the Sersic mass rests on: a positive index and
    effective radius, and, for the profile's own first argument [2 n], a
    regularised incomplete gamma function that vanishes at 0 and does not
    decrease, with a non-negative median. *)
Definition Sersic_valid (sp : special) (self : Sersic.t) : Prop :=
  0 < Sersic.n self /\ 0 < Sersic.r_eff self /\
  0 <= gammaincinv sp (2 * Sersic.n self) 0.5 /\
  gammainc sp (2 * Sersic.n self) 0 = 0 /\
  (forall x y, 0 <= x -> x <= y ->
     gammainc sp (2 * Sersic.n self) x <= gammainc sp (2 * Sersic.n self) y).

Lemma Sersic_enclosed_mass_mono (sp : special) (self : Sersic.t) (r1 r2 : R) :
  Sersic_valid sp self -> 0 <= r1 -> r1 <= r2 ->
  Sersic.enclosed_mass sp self r1 <= Sersic.enclosed_mass sp self r2.
Proof.
  intros (Hn & Hre & Hbn & _ & Hmono) H1 H12. unfold Sersic.enclosed_mass. cbv zeta.
  apply Rmult_le_compat_l; [left; apply Rpower_10_pos|].
  assert (Hi : 0 < 1 / Sersic.n self) by (apply Rdiv_lt_0_compat; lra).
  apply Hmono.
  - apply Rmult_le_pos; [exact Hbn|apply power_nonneg].
  - apply Rmult_le_compat_l; [exact Hbn|].
    apply power_mono; [exact Hi|apply div_nonneg; assumption|].
    unfold Rdiv. apply Rmult_le_compat_r; [left; apply Rinv_0_lt_compat; exact Hre|exact H12].
Qed.

Lemma Sersic_enclosed_mass_0 (sp : special) (self : Sersic.t) :
  Sersic_valid sp self -> Sersic.enclosed_mass sp self 0 = 0.
Proof.
  intros (Hn & Hre & Hbn & H0 & _). unfold Sersic.enclosed_mass. cbv zeta.
  replace (0 / Sersic.r_eff self) with 0 by (unfold Rdiv; ring).
  rewrite power_0 by (apply Rdiv_lt_0_compat; lra).
  rewrite Rmult_0_r, H0. ring.
Qed.

(** The same for Einasto, whose first argument is [3 n]; the normalisation
    divides by the incomplete gamma function at the virial radius. *)
Definition Einasto_valid (sp : special) (self : Einasto.t) : Prop :=
  0 < Einasto.nEinasto self /\ 0 < Einasto.conc self /\
  0 < gamma sp (3 * Einasto.nEinasto self) /\
  0 < gammainc sp (3 * Einasto.nEinasto self)
        (2 * Einasto.nEinasto self * power (Einasto.conc self) (1 / Einasto.nEinasto self)) /\
  gammainc sp (3 * Einasto.nEinasto self) 0 = 0 /\
  (forall x y, 0 <= x -> x <= y ->
     gammainc sp (3 * Einasto.nEinasto self) x <= gammainc sp (3 * Einasto.nEinasto self) y).

Lemma Einasto_coefficient_nonneg (sp : special) (self : Einasto.t) :
  Einasto_valid sp self ->
  0 <= 4 * PI * Einasto.calc_rho0 sp self
       * power (Einasto.calc_rvir self / Einasto.conc self
                / power (2 * Einasto.nEinasto self) (Einasto.nEinasto self)) 3
       * Einasto.nEinasto self.
Proof.
  intros (Hn & Hc & Hg & Hp & _ & _).
  pose proof PI_RGT_0 as Hpi.
  set (h3 := power _ 3). assert (Hh : 0 <= h3) by apply power_nonneg.
  assert (Hrho : 0 <= Einasto.calc_rho0 sp self).
  { unfold Einasto.calc_rho0. cbv zeta. fold h3.
    set (d := 4 * PI * Einasto.nEinasto self * h3 * _).
    assert (Hd : 0 <= d).
    { unfold d. assert (H4 : 0 < 4 * PI * Einasto.nEinasto self) by nra.
      apply Rmult_le_pos; [apply Rmult_le_pos; [lra|exact Hh]|apply Rmult_le_pos; lra]. }
    destruct Hd as [Hd|Hd].
    - apply div_nonneg; [left; apply Rpower_10_pos|exact Hd].
    - rewrite <- Hd. unfold Rdiv. rewrite Rinv_0. lra. }
  apply Rmult_le_pos; [|lra].
  apply Rmult_le_pos; [|exact Hh].
  apply Rmult_le_pos; [lra|exact Hrho].
Qed.

Lemma Einasto_enclosed_mass_mono (sp : special) (self : Einasto.t) (r1 r2 : R) :
  Einasto_valid sp self -> 0 <= r1 -> r1 <= r2 ->
  Einasto.enclosed_mass sp self r1 <= Einasto.enclosed_mass sp self r2.
Proof.
  intros Hv H1 H12. pose proof (Einasto_coefficient_nonneg sp self Hv) as Hco.
  destruct Hv as (Hn & Hc & Hg & Hp & _ & Hmono).
  unfold Einasto.enclosed_mass. cbv zeta.
  apply Rmult_le_compat_l; [exact Hco|].
  apply Rmult_le_compat_r; [lra|].
  assert (Hrs : 0 < Einasto.calc_rvir self / Einasto.conc self).
  { apply Rdiv_lt_0_compat; [apply calc_rvir_pos|exact Hc]. }
  assert (Hi : 0 < 1 / Einasto.nEinasto self) by (apply Rdiv_lt_0_compat; lra).
  apply Hmono.
  - apply Rmult_le_pos; [lra|apply power_nonneg].
  - apply Rmult_le_compat_l; [lra|].
    apply power_mono; [exact Hi|apply div_nonneg; assumption|].
    unfold Rdiv. apply Rmult_le_compat_r; [left; apply Rinv_0_lt_compat; exact Hrs|exact H12].
Qed.

Lemma Einasto_enclosed_mass_0 (sp : special) (self : Einasto.t) :
  Einasto_valid sp self -> Einasto.enclosed_mass sp self 0 = 0.
Proof.
  intros (Hn & Hc & Hg & Hp & H0 & _). unfold Einasto.enclosed_mass. cbv zeta.
  replace (0 / (Einasto.calc_rvir self / Einasto.conc self)) with 0 by (unfold Rdiv; ring).
  rewrite power_0 by (apply Rdiv_lt_0_compat; lra).
  rewrite Rmult_0_r, H0. ring.
Qed.

(** For the two-power halo: an inner slope below 3, and a hypergeometric
    function, at the profile's own parameters, that is positive at the
    virial radius and makes [u^(3 - alpha) * hyp2f1(.., -u)] non-decreasing. *)
Definition TwoPowerHalo_valid (sp : special) (self : TwoPowerHalo.t) : Prop :=
  let a := 3 - TwoPowerHalo.alpha self in
  let F := hyp2f1 sp a (TwoPowerHalo.beta self - TwoPowerHalo.alpha self)
             (4 - TwoPowerHalo.alpha self) in
  0 < a /\ 0 < TwoPowerHalo.conc self /\ 0 < F (- TwoPowerHalo.conc self) /\
  (forall u v, 0 <= u -> u <= v -> power u a * F (- u) <= power v a * F (- v)).

Lemma TwoPowerHalo_enclosed_mass_form (sp : special) (self : TwoPowerHalo.t) (r : R) :
  TwoPowerHalo_valid sp self -> 0 <= r ->
  TwoPowerHalo.enclosed_mass sp self r
  = Rpower 10 (TwoPowerHalo.mvirial self)
    * power (/ TwoPowerHalo.conc self) (3 - TwoPowerHalo.alpha self)
    / hyp2f1 sp (3 - TwoPowerHalo.alpha self) (TwoPowerHalo.beta self - TwoPowerHalo.alpha self)
        (4 - TwoPowerHalo.alpha self) (- TwoPowerHalo.conc self)
    * (power (r / (TwoPowerHalo.calc_rvir self / TwoPowerHalo.conc self))
         (3 - TwoPowerHalo.alpha self)
       * hyp2f1 sp (3 - TwoPowerHalo.alpha self)
           (TwoPowerHalo.beta self - TwoPowerHalo.alpha self) (4 - TwoPowerHalo.alpha self)
           (- (r / (TwoPowerHalo.calc_rvir self / TwoPowerHalo.conc self)))).
Proof.
  intros Hv Hr. unfold TwoPowerHalo_valid in Hv. cbv zeta in Hv.
  destruct Hv as (Ha & Hc & HF & _).
  unfold TwoPowerHalo.enclosed_mass. cbv zeta.
  assert (Hrv : 0 < TwoPowerHalo.calc_rvir self) by apply calc_rvir_pos.
  set (rvir := TwoPowerHalo.calc_rvir self) in *.
  set (c := TwoPowerHalo.conc self) in *.
  replace (r / rvir) with (r / (rvir / c) * / c) by (field; lra).
  rewrite power_mult; [| exact Ha | | ].
  - replace (- r / (rvir / c)) with (- (r / (rvir / c))) by (field; lra).
    field. lra.
  - apply div_nonneg; [exact Hr|apply Rdiv_lt_0_compat; assumption].
  - left. apply Rinv_0_lt_compat. exact Hc.
Qed.

Lemma TwoPowerHalo_enclosed_mass_mono (sp : special) (self : TwoPowerHalo.t) (r1 r2 : R) :
  TwoPowerHalo_valid sp self -> 0 <= r1 -> r1 <= r2 ->
  TwoPowerHalo.enclosed_mass sp self r1 <= TwoPowerHalo.enclosed_mass sp self r2.
Proof.
  intros Hv H1 H12.
  rewrite (TwoPowerHalo_enclosed_mass_form sp self r1 Hv H1).
  rewrite (TwoPowerHalo_enclosed_mass_form sp self r2 Hv) by lra.
  unfold TwoPowerHalo_valid in Hv. cbv zeta in Hv. destruct Hv as (Ha & Hc & HF & Hmono).
  assert (Hrs : 0 < TwoPowerHalo.calc_rvir self / TwoPowerHalo.conc self).
  { apply Rdiv_lt_0_compat; [apply calc_rvir_pos|exact Hc]. }
  apply Rmult_le_compat_l.
  - apply div_nonneg; [|exact HF].
    apply Rmult_le_pos; [left; apply Rpower_10_pos|apply power_nonneg].
  - apply Hmono.
    + apply div_nonneg; assumption.
    + unfold Rdiv. apply Rmult_le_compat_r; [left; apply Rinv_0_lt_compat; exact Hrs|exact H12].
Qed.

Lemma TwoPowerHalo_enclosed_mass_0 (sp : special) (self : TwoPowerHalo.t) :
  TwoPowerHalo_valid sp self -> TwoPowerHalo.enclosed_mass sp self 0 = 0.
Proof.
  intros Hv. unfold TwoPowerHalo_valid in Hv. cbv zeta in Hv. destruct Hv as (Ha & _).
  unfold TwoPowerHalo.enclosed_mass. cbv zeta.
  replace (0 / TwoPowerHalo.calc_rvir self) with 0 by (unfold Rdiv; ring).
  rewrite (power_0 _ Ha). ring.
Qed.

Lemma DZ_enclosed_mass_nonneg (self : DekelZhao.t) (r : R) :
  0 < snd (DekelZhao.calc_a_c self) -> 0 < r -> 0 <= DekelZhao.enclosed_mass self r.
Proof.
  destruct (DekelZhao.calc_a_c self) as [a c] eqn:Hac. cbn [fst snd]. intros Hc Hr.
  rewrite (DZ_enclosed_mass_form self a c r Hac Hc Hr).
  apply Rmult_le_pos; [apply Rmult_le_pos|]; left;
    first [apply exp_pos|apply Rpower_10_pos].
Qed.

(** *** Monotonicity of the enclosed mass *)

(** C5 (amended): over the reals, for a Sersic profile ([n > 0],
    [r_eff > 0]), an NFW halo ([conc > 0]), a two-power halo ([alpha < 3],
    [conc > 0]), a Burkert halo ([rB > 0]) and an Einasto halo ([n > 0],
    [conc > 0]), and with the stated facts on the functions of scipy.special
    at the profile's own parameters, [enclosed_mass] does not decrease on
    [r >= 0] and is 0 at 0.  For a Dekel-Zhao halo with inner slope [a < 3]
    and [c > 0], [enclosed_mass] does not decrease on [r > 0], is
    non-negative there, and evaluates to 0 at [r = 0]. *)
Theorem enclosed_mass_monotone (sp : special) (ser : Sersic.t) (nfw : NFW.t)
    (tph : TwoPowerHalo.t) (bur : Burkert.t) (ein : Einasto.t) (dz : DekelZhao.t)
    (Hser : Sersic_valid sp ser) (Hnfw : 0 < NFW.conc nfw)
    (Htph : TwoPowerHalo_valid sp tph) (Hbur : 0 < Burkert.rB bur)
    (Hein : Einasto_valid sp ein)
    (Hdz : fst (DekelZhao.calc_a_c dz) < 3 /\ 0 < snd (DekelZhao.calc_a_c dz)) :
  (forall r1 r2, 0 <= r1 -> r1 <= r2 ->
     Sersic.enclosed_mass sp ser r1 <= Sersic.enclosed_mass sp ser r2 /\
     NFW.enclosed_mass nfw r1 <= NFW.enclosed_mass nfw r2 /\
     TwoPowerHalo.enclosed_mass sp tph r1 <= TwoPowerHalo.enclosed_mass sp tph r2 /\
     Burkert.enclosed_mass bur r1 <= Burkert.enclosed_mass bur r2 /\
     Einasto.enclosed_mass sp ein r1 <= Einasto.enclosed_mass sp ein r2) /\
  (Sersic.enclosed_mass sp ser 0 = 0 /\
   NFW.enclosed_mass nfw 0 = 0 /\
   TwoPowerHalo.enclosed_mass sp tph 0 = 0 /\
   Burkert.enclosed_mass bur 0 = 0 /\
   Einasto.enclosed_mass sp ein 0 = 0) /\
  (forall r1 r2, 0 < r1 -> r1 <= r2 ->
     DekelZhao.enclosed_mass dz r1 <= DekelZhao.enclosed_mass dz r2) /\
  (forall r, 0 < r ->
     DekelZhao.enclosed_mass_fl dz r = Fin (DekelZhao.enclosed_mass dz r) /\
     0 <= DekelZhao.enclosed_mass dz r) /\
  DekelZhao.enclosed_mass_fl dz 0 = Fin 0.
Proof.
  destruct Hdz as [Ha Hc].
  split; [|split; [|split; [|split]]].
  - intros r1 r2 H1 H12.
    split; [apply Sersic_enclosed_mass_mono; assumption|].
    split; [apply NFW_enclosed_mass_mono; assumption|].
    split; [apply TwoPowerHalo_enclosed_mass_mono; assumption|].
    split; [apply Burkert_enclosed_mass_mono; assumption|].
    apply Einasto_enclosed_mass_mono; assumption.
  - split; [apply Sersic_enclosed_mass_0; assumption|].
    split; [apply NFW_enclosed_mass_0; assumption|].
    split; [apply TwoPowerHalo_enclosed_mass_0; assumption|].
    split; [apply Burkert_enclosed_mass_0; assumption|].
    apply Einasto_enclosed_mass_0; assumption.
  - intros r1 r2 H1 H12. apply DZ_enclosed_mass_mono; assumption.
  - intros r Hr. split.
    + apply DZ_enclosed_mass_fl_pos; assumption.
    + apply DZ_enclosed_mass_nonneg; assumption.
  - apply DZ_enclosed_mass_fl_0; assumption.
Qed.

(** The functions of scipy.special at the arguments the example profiles
    below use: [gammainc(1, x) = 1 - exp(-x)], [gammaincinv(1, 0.5) = ln 2],
    [gamma(1) = 1] and [hyp2f1(a, 0, c, z) = 1]. *)
Definition special_at_one : special :=
  mkSpecial (fun _ x => 1 - exp (- x)) (fun _ _ => ln 2) (fun _ => 1) (fun _ _ _ _ => 1).

Definition example_sersic : Sersic.t := Sersic.mk 10 3 (1 / 2) 1.
Definition example_nfw : NFW.t := NFW.mk 12 5 (Fin (-99.9)) 0 _default_cosmo.
Definition example_two_power : TwoPowerHalo.t :=
  TwoPowerHalo.mk 12 5 1 1 (Fin (-99.9)) 0 _default_cosmo.
Definition example_burkert : Burkert.t := Burkert.mk 12 10 (Fin (-99.9)) 0 _default_cosmo.
Definition example_einasto : Einasto.t :=
  Einasto.mk 12 5 (1 / 3) 3 (Fin (-99.9)) 0 _default_cosmo "nEinasto".
Definition example_dekel_zhao : DekelZhao.t :=
  DekelZhao.mk 12 1.5 25 (Fin (-99.9)) 0 _default_cosmo.

Lemma one_minus_exp_mono (x y : R) : x <= y -> 1 - exp (- x) <= 1 - exp (- y).
Proof. intros H. pose proof (exp_le_mono (- y) (- x) ltac:(lra)). lra. Qed.

Lemma one_minus_exp_0 : 1 - exp (- 0) = 0.
Proof. rewrite Ropp_0, exp_0. ring. Qed.

Lemma example_sersic_valid : Sersic_valid special_at_one example_sersic.
Proof.
  unfold Sersic_valid, special_at_one, example_sersic.
  cbn [Sersic.n Sersic.r_eff gammainc gammaincinv].
  split; [lra|]. split; [lra|]. split; [pose proof ln_lt_2; lra|].
  split; [apply one_minus_exp_0|]. intros x y _ H. apply one_minus_exp_mono. exact H.
Qed.

Lemma example_einasto_valid : Einasto_valid special_at_one example_einasto.
Proof.
  unfold Einasto_valid, special_at_one, example_einasto.
  cbn [Einasto.nEinasto Einasto.conc gammainc gamma].
  split; [lra|]. split; [lra|]. split; [lra|].
  split; [|split; [apply one_minus_exp_0|]].
  - rewrite power_Rpower by lra.
    assert (Ht : 0 < Rpower 5 (1 / (1 / 3))) by (unfold Rpower; apply exp_pos).
    pose proof (exp_increasing (- (2 * (1 / 3) * Rpower 5 (1 / (1 / 3)))) 0 ltac:(lra)) as He.
    rewrite exp_0 in He. lra.
  - intros x y _ H. apply one_minus_exp_mono. exact H.
Qed.

Lemma example_two_power_valid : TwoPowerHalo_valid special_at_one example_two_power.
Proof.
  unfold TwoPowerHalo_valid, special_at_one, example_two_power.
  cbn [TwoPowerHalo.alpha TwoPowerHalo.beta TwoPowerHalo.conc hyp2f1]. cbv zeta.
  split; [lra|]. split; [lra|]. split; [lra|].
  intros u v Hu Huv. rewrite !Rmult_1_r. apply power_mono; lra.
Qed.

Lemma example_dekel_zhao_a_c : DekelZhao.calc_a_c example_dekel_zhao = (0.5, 25).
Proof.
  unfold DekelZhao.calc_a_c, example_dekel_zhao. cbn [DekelZhao.s1 DekelZhao.c2]. cbv zeta.
  rewrite (sqrt_of_square 0.01 0.1) by lra.
  rewrite (sqrt_of_square 25 5) by lra.
  f_equal.
  - replace (1.5 * 1.5 - 2 * (3.5 - 1.5) * 0.1 * 5) with 0.25 by lra.
    replace (1.5 - (3.5 - 1.5) * 0.1 * 5) with 0.5 by lra. lra.
  - replace ((3.5 - 1.5) * 0.1 - 1.5 / 5) with (-0.1) by lra.
    replace ((1.5 - 2) / -0.1) with 5 by lra. lra.
Qed.

Lemma enclosed_mass_monotone_witness :
  Sersic.enclosed_mass special_at_one example_sersic 1
  <= Sersic.enclosed_mass special_at_one example_sersic 2 /\
  NFW.enclosed_mass example_nfw 1 <= NFW.enclosed_mass example_nfw 2 /\
  TwoPowerHalo.enclosed_mass special_at_one example_two_power 1
  <= TwoPowerHalo.enclosed_mass special_at_one example_two_power 2 /\
  Burkert.enclosed_mass example_burkert 1 <= Burkert.enclosed_mass example_burkert 2 /\
  Einasto.enclosed_mass special_at_one example_einasto 1
  <= Einasto.enclosed_mass special_at_one example_einasto 2.
Proof.
  apply (proj1 (enclosed_mass_monotone special_at_one example_sersic example_nfw
                  example_two_power example_burkert example_einasto example_dekel_zhao
                  example_sersic_valid ltac:(cbn; lra) example_two_power_valid
                  ltac:(cbn; lra) example_einasto_valid
                  ltac:(rewrite example_dekel_zhao_a_c; cbn [fst snd]; split; lra)));
    lra.
Defined.

(** C5, as stated, fails: the Dekel-Zhao halo with [s1 = 0.5] and
    [c2 = 36], inside the declared bounds, has [a = 9.5]; its enclosed mass
    at 2 kpc is below the one at 1 kpc, and at [r = 0] it evaluates to plus
    infinity. *)
Lemma DekelZhao_mass_decreases :
  DekelZhao.calc_a_c steep_halo = (9.5, 900) /\
  DekelZhao.enclosed_mass steep_halo 2 < DekelZhao.enclosed_mass steep_halo 1 /\
  DekelZhao.enclosed_mass_fl steep_halo 0 = PInf.
Proof.
  split; [apply steep_halo_a_c|]. split.
  - apply DZ_enclosed_mass_decreasing; try rewrite steep_halo_a_c; cbn [fst snd]; lra.
  - unfold DekelZhao.enclosed_mass_fl, DekelZhao.calc_mu. rewrite steep_halo_a_c. cbv zeta.
    replace (0 / (DekelZhao.calc_rvir steep_halo / 900)) with 0 by (unfold Rdiv; ring).
    rewrite sqrt_0. unfold Float.power.
    rewrite (Reqb_true 0 0 eq_refl).
    rewrite (Rltb_false (9.5 - 3) 0), (Reqb_false (9.5 - 3) 0) by lra.
    rewrite (Reqb_false (1 + 0) 0) by lra. cbn [Float.mul].
    unfold Float.div. rewrite Reqb_true by ring.
    unfold inf_of_sign. rewrite Rltb_true; [reflexivity|].
    pose proof (sqrt_pos 900) as Hs.
    rewrite !power_Rpower by lra.
    apply Rmult_lt_0_compat; [apply Rmult_lt_0_compat|]; unfold Rpower; apply exp_pos.
Qed.

(** *** Bounds on [exp] and [ln] by Taylor polynomials *)

(** The terms [(-t)^n / n!] and the partial sums of the series of
    [exp (-t)]. *)
Fixpoint exp_term (n : nat) (t : R) : R :=
  match n with
  | O => 1
  | S m => exp_term m t * (- t) / IZR (Z.of_nat (S m))
  end.

Fixpoint exp_sum (n : nat) (t : R) : R :=
  match n with
  | O => 1
  | S m => exp_sum m t + exp_term (S m) t
  end.

Lemma IZR_nat_pos (n : nat) : 0 < IZR (Z.of_nat (S n)).
Proof. apply (IZR_lt 0). lia. Qed.

Lemma IZR_nat_succ (n : nat) : IZR (Z.of_nat (S (S n))) = IZR (Z.of_nat (S n)) + 1.
Proof. rewrite (Nat2Z.inj_succ (S n)). apply succ_IZR. Qed.

Lemma derivable_pt_lim_ext (f g : R -> R) (x l : R) :
  (forall y, f y = g y) -> derivable_pt_lim f x l -> derivable_pt_lim g x l.
Proof.
  intros Heq Hf eps Heps. destruct (Hf eps Heps) as [delta Hd].
  exists delta. intros h Hh Hlt. rewrite <- !Heq. apply Hd; assumption.
Qed.

Lemma derivable_pt_lim_eq (f : R -> R) (x l l' : R) :
  l = l' -> derivable_pt_lim f x l -> derivable_pt_lim f x l'.
Proof. intros <-. exact (fun H => H). Qed.

Lemma derivable_pt_lim_neg (t : R) : derivable_pt_lim (fun s : R => - s) t (- 1).
Proof. apply (derivable_pt_lim_opp id t 1). apply derivable_pt_lim_id. Qed.

Lemma exp_term_derivable (n : nat) (t : R) :
  derivable_pt_lim (exp_term (S n)) t (- exp_term n t).
Proof.
  induction n as [|n IH].
  - apply (derivable_pt_lim_ext (fun s : R => - s)).
    + intros s. cbn [exp_term Z.of_nat Pos.of_succ_nat]. field.
    + apply (derivable_pt_lim_eq _ _ (- 1)); [reflexivity|]. apply derivable_pt_lim_neg.
  - pose proof (IZR_nat_pos n) as Hc1. pose proof (IZR_nat_pos (S n)) as Hc2.
    apply (derivable_pt_lim_ext
             (mult_fct (exp_term (S n)) (fun s : R => (- s) / IZR (Z.of_nat (S (S n)))))).
    + intros s. unfold mult_fct. cbn [exp_term]. unfold Rdiv. ring.
    + eapply derivable_pt_lim_eq; [|apply derivable_pt_lim_mult;
                                      [exact IH
                                      |apply (derivable_pt_lim_div_scal (fun s : R => - s));
                                       apply derivable_pt_lim_neg]].
      cbn [exp_term]. rewrite (IZR_nat_succ n) in *.
      set (c := IZR (Z.of_nat (S n))) in *. field. lra.
Qed.

Lemma exp_sum_derivable (n : nat) (t : R) :
  derivable_pt_lim (exp_sum (S n)) t (- exp_sum n t).
Proof.
  induction n as [|n IH].
  - apply (derivable_pt_lim_ext (plus_fct (fct_cte 1) (exp_term 1))).
    + intros s. reflexivity.
    + eapply derivable_pt_lim_eq; [|apply derivable_pt_lim_plus;
                                      [apply derivable_pt_lim_const
                                      |apply (exp_term_derivable 0)]].
      cbn [exp_sum exp_term]. ring.
  - apply (derivable_pt_lim_ext (plus_fct (exp_sum (S n)) (exp_term (S (S n))))).
    + intros s. reflexivity.
    + eapply derivable_pt_lim_eq; [|apply derivable_pt_lim_plus;
                                      [exact IH|apply (exp_term_derivable (S n))]].
      cbn [exp_sum]. ring.
Qed.

Lemma exp_neg_derivable (t : R) : derivable_pt_lim (fun s : R => exp (- s)) t (- exp (- t)).
Proof.
  eapply derivable_pt_lim_eq;
    [|apply (derivable_pt_lim_comp (fun s : R => - s) exp t (- 1) (exp (- t)));
      [apply derivable_pt_lim_neg|apply derivable_pt_lim_exp]].
  ring.
Qed.

Lemma exp_sum_0 (n : nat) : exp_sum n 0 = 1.
Proof.
  induction n as [|n IH]; [reflexivity|].
  cbn [exp_sum exp_term]. rewrite IH. unfold Rdiv. ring.
Qed.

(** For [t >= 0] the partial sums of even order are above [exp (-t)], those
    of odd order below. *)
Lemma exp_sum_bounds (n : nat) (t : R) :
  0 <= t ->
  if Nat.even n then exp (- t) <= exp_sum n t else exp_sum n t <= exp (- t).
Proof.
  revert t. induction n as [|n IH]; intros t Ht.
  - cbn [Nat.even exp_sum]. rewrite <- exp_0. apply exp_le_mono. lra.
  - rewrite Nat.even_succ, <- Nat.negb_even.
    destruct Ht as [Ht|Ht].
    2:{ subst t. rewrite exp_sum_0, Ropp_0, exp_0. destruct (negb (Nat.even n)); lra. }
    destruct (MVT_cor2 (fun s : R => exp (- s) - exp_sum (S n) s)
                (fun s : R => - exp (- s) - - exp_sum n s) 0 t Ht) as [c [Hc1 Hc2]].
    + intros c Hc.
      apply (derivable_pt_lim_minus (fun s : R => exp (- s)) (exp_sum (S n))).
      * apply exp_neg_derivable.
      * apply exp_sum_derivable.
    + rewrite exp_sum_0, Ropp_0, exp_0 in Hc1.
      specialize (IH c ltac:(lra)).
      destruct (Nat.even n); cbn [negb]; nra.
Qed.

Lemma ln_above (u L : R) (n : nat) :
  Nat.even n = false -> 0 <= L -> 0 < u -> / u <= exp_sum n L -> L <= ln u.
Proof.
  intros Hn HL Hu H. pose proof (exp_sum_bounds n L HL) as Hb. rewrite Hn in Hb.
  rewrite <- (ln_exp L). apply ln_le_mono; [apply exp_pos|].
  assert (He : / u <= / exp L) by (rewrite <- exp_Ropp; lra).
  apply Rinv_le_contravar in He; [|apply Rinv_0_lt_compat; exact Hu].
  rewrite !Rinv_inv in He. exact He.
Qed.

Lemma ln_below (u L : R) (n : nat) :
  Nat.even n = true -> 0 <= L -> 0 < u -> exp_sum n L <= / u -> ln u <= L.
Proof.
  intros Hn HL Hu H. pose proof (exp_sum_bounds n L HL) as Hb. rewrite Hn in Hb.
  rewrite <- (ln_exp L). apply ln_le_mono; [exact Hu|].
  assert (He : / exp L <= / u) by (rewrite <- exp_Ropp; lra).
  apply Rinv_le_contravar in He; [|apply Rinv_0_lt_compat; apply exp_pos].
  rewrite !Rinv_inv in He. exact He.
Qed.

Ltac exp_sum_eval :=
  cbn [exp_sum exp_term Z.of_nat Pos.of_succ_nat Pos.succ]; lra.

Lemma ln_6_bounds : 1.79175946 <= ln 6 <= 1.79175947.
Proof.
  split.
  - apply (ln_above 6 1.79175946 15); [reflexivity|lra|lra|]. exp_sum_eval.
  - apply (ln_below 6 1.79175947 16); [reflexivity|lra|lra|]. exp_sum_eval.
Qed.

(** *** The NFW halo of the regression test *)

(** The halo of [test_NFW]: [mvirial = 12], [conc = 5], [fdm = 0.5] and the
    redshift [z = 1.613] of the test set-up. *)
Definition test_halo : NFW.t := NFW.mk 12 5 (Fin 0.5) 1.613 _default_cosmo.

(** The same halo at redshift 0. *)
Definition halo_at_redshift_0 : NFW.t := NFW.mk 12 5 (Fin 0.5) 0 _default_cosmo.

Lemma H_test_sq : (10 * H _default_cosmo 1.613 * 1e-3) ^ 2 = 2.965621178359.
Proof.
  unfold H, _default_cosmo. cbn [H0 Om0].
  replace (0.3 * (1 + 1.613) ^ 3 + (1 - 0.3)) with 6.0522881191 by lra.
  replace ((10 * (70 * sqrt 6.0522881191) * 1e-3) ^ 2)
    with (0.49 * (sqrt 6.0522881191 * sqrt 6.0522881191)) by lra.
  rewrite sqrt_sqrt by lra. lra.
Qed.

Lemma calc_rvir_test :
  113.1918447 < calc_rvir 12 1.613 _default_cosmo < 113.1918449.
Proof.
  unfold calc_rvir. cbv zeta. rewrite H_test_sq, Rpower_10_12, g_new_unit_value.
  split.
  - apply cube_root_gt; lra.
  - apply cube_root_lt; lra.
Qed.

Lemma NFW_enclosed_mass_form (self : NFW.t) (r : R) :
  0 < NFW.conc self ->
  NFW.enclosed_mass self r
  = Rpower 10 (NFW.mvirial self)
    * (1 / (ln (1 + NFW.conc self) - NFW.conc self / (1 + NFW.conc self)))
    * Rabs (nfw_term (NFW.calc_rvir self / NFW.conc self) r).
Proof.
  intros Hc. unfold NFW.enclosed_mass, NFW.calc_rho0. cbv zeta.
  fold (nfw_term (NFW.calc_rvir self / NFW.conc self) r).
  assert (Hrv : 0 < NFW.calc_rvir self) by apply calc_rvir_pos.
  set (iD := 1 / (ln (1 + NFW.conc self) - NFW.conc self / (1 + NFW.conc self))).
  pose proof PI_RGT_0 as Hpi.
  field. repeat split; lra.
Qed.

Lemma nfw_term_scale (rs r : R) : 0 < rs -> 0 <= r -> nfw_term rs r = nfw_term 1 (r / rs).
Proof.
  intros Hrs Hr. unfold nfw_term.
  assert (Hq : 0 <= r / rs) by (apply div_nonneg; assumption).
  f_equal; [f_equal|]; field; lra.
Qed.

(** The bracketed term at [x = r / rs] between two decimals. *)
Lemma nfw_term_test (x : R) :
  0.1104319838 <= x <= 0.1104319843 ->
  0.00529954375 <= nfw_term 1 x <= 0.00529954395.
Proof.
  intros [H1 H2].
  pose proof (nfw_term_mono 1 0.1104319838 x Rlt_0_1 ltac:(lra) H1) as Hlo.
  pose proof (nfw_term_mono 1 x 0.1104319843 Rlt_0_1 ltac:(lra) H2) as Hhi.
  unfold nfw_term in Hlo at 1. unfold nfw_term in Hhi at 2.
  replace ((1 + 0.1104319838) / 1) with 1.1104319838 in Hlo by lra.
  replace ((1 + 0.1104319843) / 1) with 1.1104319843 in Hhi by lra.
  assert (Ha : 0.1047491142 <= ln 1.1104319838).
  { apply (ln_above _ _ 7); [reflexivity|lra|lra|]. exp_sum_eval. }
  assert (Hb : ln 1.1104319843 <= 0.1047491148).
  { apply (ln_below _ _ 8); [reflexivity|lra|lra|]. exp_sum_eval. }
  split; lra.
Qed.

Lemma div_div_scale (a r c : R) : r <> 0 -> c <> 0 -> a / (r / c) = a * c / r.
Proof. intros Hr Hc. field. split; assumption. Qed.

Lemma NFW_test_mass :
  5529423230 <= NFW.enclosed_mass test_halo 2.5 <= 5529423510.
Proof.
  rewrite NFW_enclosed_mass_form by (cbn; lra).
  unfold NFW.calc_rvir, test_halo. cbn [NFW.mvirial NFW.conc NFW.z NFW.cosmo].
  pose proof calc_rvir_test as [Hr1 Hr2].
  set (rvir := calc_rvir 12 1.613 _default_cosmo) in *.
  rewrite nfw_term_scale by lra.
  assert (Hx : 0.1104319838 <= 2.5 / (rvir / 5) <= 0.1104319843).
  { rewrite div_div_scale by lra. replace (2.5 * 5) with 12.5 by lra.
    split.
    - apply (Rmult_le_reg_r rvir); [lra|].
      replace (12.5 / rvir * rvir) with 12.5 by (field; lra). nra.
    - apply (Rmult_le_reg_r rvir); [lra|].
      replace (12.5 / rvir * rvir) with 12.5 by (field; lra). nra. }
  pose proof (nfw_term_test _ Hx) as [Hp1 Hp2].
  set (phi := nfw_term 1 (2.5 / (rvir / 5))) in *.
  rewrite (Rabs_pos_eq phi) by lra.
  replace (1 + 5) with 6 by lra.
  pose proof ln_6_bounds as [Hl1 Hl2].
  set (D := ln 6 - 5 / 6).
  assert (HD : 0.958426126 <= D <= 0.958426137) by (unfold D; lra).
  rewrite Rpower_10_12.
  replace (10 ^ 12 * (1 / D) * phi) with (10 ^ 12 * phi / D) by (field; lra).
  split.
  - apply (Rmult_le_reg_r D); [lra|].
    replace (10 ^ 12 * phi / D * D) with (10 ^ 12 * phi) by (field; lra). nra.
  - apply (Rmult_le_reg_r D); [lra|].
    replace (10 ^ 12 * phi / D * D) with (10 ^ 12 * phi) by (field; lra). nra.
Qed.

Lemma circular_velocity_nonneg (enclosed_mass : R -> R) (r : R) :
  0 <= circular_velocity enclosed_mass r.
Proof.
  unfold circular_velocity. cbv zeta. apply div_nonneg; [apply sqrt_pos|lra].
Qed.

Lemma NFW_test_velocity :
  97.5327 <= circular_velocity (NFW.enclosed_mass test_halo) 2.5 <= 97.5328.
Proof.
  pose proof NFW_test_mass as [HM1 HM2].
  pose proof (circular_velocity_sq (NFW.enclosed_mass test_halo) 2.5 ltac:(lra) ltac:(lra)) as Hsq.
  pose proof (circular_velocity_nonneg (NFW.enclosed_mass test_halo) 2.5) as Hv.
  rewrite g_new_unit_value in Hsq.
  set (v := circular_velocity (NFW.enclosed_mass test_halo) 2.5) in *.
  set (M := NFW.enclosed_mass test_halo 2.5) in *.
  assert (Hlo : 97.5327 * 97.5327 <= v * v) by lra.
  assert (Hhi : v * v <= 97.5328 * 97.5328) by lra.
  split; nra.
Qed.

(** C1 (amended): the NFW halo of the regression test, [mvirial = 12],
    [conc = 5], default cosmology and redshift [z = 1.613], has a virial
    radius within 1e-6 (relative) of 113.19184480200144 kpc, a circular
    velocity at 2.5 kpc within 1e-6 of 97.53274745638375 km/s and an
    enclosed mass at 2.5 kpc within 1e-6 of 5529423277.0931425 solar masses
    (over the reals). *)
Theorem NFW_test_values :
  Rabs (NFW.calc_rvir test_halo - 113.19184480200144) <= 1e-6 * 113.19184480200144 /\
  Rabs (circular_velocity (NFW.enclosed_mass test_halo) 2.5 - 97.53274745638375)
  <= 1e-6 * 97.53274745638375 /\
  Rabs (NFW.enclosed_mass test_halo 2.5 - 5529423277.0931425) <= 1e-6 * 5529423277.0931425.
Proof.
  pose proof calc_rvir_test as [Hr1 Hr2].
  pose proof NFW_test_velocity as [Hv1 Hv2].
  pose proof NFW_test_mass as [HM1 HM2].
  change (NFW.calc_rvir test_halo) with (calc_rvir 12 1.613 _default_cosmo).
  repeat split; apply Rabs_le; lra.
Qed.

(** C1, as stated, fails: at redshift 0 the virial radius of that halo is
    above 206 kpc, not within 1e-6 of 113.19 kpc. *)
Lemma NFW_redshift_zero_radius :
  206 < NFW.calc_rvir halo_at_redshift_0 /\
  1e-6 * 113.19 < Rabs (NFW.calc_rvir halo_at_redshift_0 - 113.19).
Proof.
  change (NFW.calc_rvir halo_at_redshift_0) with (calc_rvir 12 0 _default_cosmo).
  pose proof calc_rvir_12_0 as [H1 H2].
  split; [exact H1|]. rewrite Rabs_pos_eq; lra.
Qed.

(** ** Further properties of the mass profiles *)

(** *** The virial radius *)

Lemma cube_root_pow3 (x : R) : 0 < x -> Rpower x (1 / 3) ^ 3 = x.
Proof.
  intros Hx. rewrite <- Rpower_nat by (unfold Rpower; apply exp_pos).
  rewrite Rpower_mult. replace (1 / 3 * INR 3) with 1 by (simpl; lra).
  apply Rpower_1. exact Hx.
Qed.

Lemma Rpower_10_add (m d : R) : Rpower 10 (m + d) = Rpower 10 m * Rpower 10 d.
Proof. apply Rpower_plus. Qed.

Lemma Rpower_10_3 : Rpower 10 3 = 10 ^ 3.
Proof. replace 3 with (INR 3) at 1 by (simpl; lra). apply Rpower_nat. lra. Qed.

(** The argument of the cube root in [calc_rvir]. *)
Definition rvir_cube (mvirial z : R) (cosmo : cosmology) : R :=
  Rpower 10 mvirial * (g_new_unit * 1e-3) / (10 * H cosmo z * 1e-3) ^ 2.

Lemma rvir_cube_pos (mvirial z : R) (cosmo : cosmology) :
  H cosmo z <> 0 -> 0 < rvir_cube mvirial z cosmo.
Proof.
  intros HH. unfold rvir_cube. pose proof g_new_unit_bounds as [Hg _].
  pose proof (Rpower_10_pos mvirial) as Hm.
  apply Rdiv_lt_0_compat; [nra|].
  assert (Hh : 10 * H cosmo z * 1e-3 <> 0) by nra.
  nra.
Qed.

(** X1: for a cosmology with [H(z) <> 0], [calc_rvir] returns the positive
    radius [R] with [10^mvirial = (10 H(z) 1e-3)^2 R^3 / (G 1e-3)], the
    formula [M_vir = 100 H(z)^2 R_vir^3 / G] of its docstring in the units
    of the code; the radius does not decrease with [mvirial], and three dex
    more mass give ten times the radius. *)
Theorem calc_rvir_defining_equation (mvirial z : R) (cosmo : cosmology)
    (HH : H cosmo z <> 0) :
  0 < calc_rvir mvirial z cosmo /\
  calc_rvir mvirial z cosmo ^ 3 * (10 * H cosmo z * 1e-3) ^ 2
  = Rpower 10 mvirial * (g_new_unit * 1e-3) /\
  (forall m', mvirial <= m' -> calc_rvir mvirial z cosmo <= calc_rvir m' z cosmo) /\
  calc_rvir (mvirial + 3) z cosmo = 10 * calc_rvir mvirial z cosmo.
Proof.
  assert (Hh : (10 * H cosmo z * 1e-3) ^ 2 <> 0).
  { assert (10 * H cosmo z * 1e-3 <> 0) by nra. nra. }
  split; [apply calc_rvir_pos|]. split; [|split].
  - unfold calc_rvir. cbv zeta. fold (rvir_cube mvirial z cosmo).
    rewrite (cube_root_pow3 _ (rvir_cube_pos mvirial z cosmo HH)).
    unfold rvir_cube. field. exact HH.
  - intros m' Hm. unfold calc_rvir. cbv zeta.
    fold (rvir_cube mvirial z cosmo). fold (rvir_cube m' z cosmo).
    apply Rle_Rpower_l; [lra|]. split; [apply rvir_cube_pos; exact HH|].
    unfold rvir_cube, Rdiv. pose proof g_new_unit_bounds as [Hg _].
    apply Rmult_le_compat_r.
    + left. apply Rinv_0_lt_compat. assert (10 * H cosmo z * 1e-3 <> 0) by nra. nra.
    + apply Rmult_le_compat_r; [lra|]. apply Rle_Rpower; lra.
  - unfold calc_rvir. cbv zeta.
    fold (rvir_cube mvirial z cosmo). fold (rvir_cube (mvirial + 3) z cosmo).
    assert (Hc : rvir_cube (mvirial + 3) z cosmo = 10 ^ 3 * rvir_cube mvirial z cosmo).
    { unfold rvir_cube. rewrite Rpower_10_add, Rpower_10_3. field. exact HH. }
    rewrite Hc, <- Rpower_mult_distr by (try apply rvir_cube_pos; try exact HH; lra).
    rewrite (cube_root_cube 10) by lra. reflexivity.
Qed.

Lemma calc_rvir_defining_equation_witness :
  calc_rvir 15 0 _default_cosmo = 10 * calc_rvir 12 0 _default_cosmo.
Proof.
  replace 15 with (12 + 3) by lra.
  apply (calc_rvir_defining_equation 12 0 _default_cosmo).
  rewrite H_default_0. lra.
Defined.

(** *** The mass inside the virial radius *)

Lemma ln_lower_strict (u : R) : 0 < u -> u <> 1 -> 1 - / u < ln u.
Proof.
  intros Hu H1.
  assert (Hl : - ln u <> 0).
  { intros H0. apply H1. rewrite <- (exp_ln u Hu).
    replace (ln u) with 0 by lra. apply exp_0. }
  pose proof (exp_ineq1 (- ln u) Hl) as H.
  rewrite exp_Ropp, exp_ln in H by exact Hu. lra.
Qed.

(** The normalisation of the NFW profile is positive. *)
Lemma nfw_norm_pos (c : R) : 0 < c -> 0 < ln (1 + c) - c / (1 + c).
Proof.
  intros Hc. pose proof (ln_lower_strict (1 + c) ltac:(lra) ltac:(lra)) as H.
  replace (c / (1 + c)) with (1 - / (1 + c)) by (field; lra). lra.
Qed.

Lemma Rpower_1_l (y : R) : Rpower 1 y = 1.
Proof. unfold Rpower. rewrite ln_1, Rmult_0_r. apply exp_0. Qed.

Lemma NFW_mass_at_rvir (self : NFW.t) :
  0 < NFW.conc self ->
  NFW.enclosed_mass self (NFW.calc_rvir self) = Rpower 10 (NFW.mvirial self).
Proof.
  intros Hc. rewrite NFW_enclosed_mass_form by exact Hc.
  assert (Hrv : 0 < NFW.calc_rvir self) by apply calc_rvir_pos.
  rewrite nfw_term_scale by (try apply Rdiv_lt_0_compat; lra).
  replace (NFW.calc_rvir self / (NFW.calc_rvir self / NFW.conc self))
    with (NFW.conc self) by (field; lra).
  unfold nfw_term.
  replace ((1 + NFW.conc self) / 1) with (1 + NFW.conc self) by field.
  pose proof (nfw_norm_pos _ Hc) as HD.
  set (D := ln (1 + NFW.conc self) - NFW.conc self / (1 + NFW.conc self)) in *.
  rewrite Rabs_pos_eq by lra. field. lra.
Qed.

Lemma Burkert_mass_at_rvir (self : Burkert.t) :
  0 < Burkert.rB self ->
  Burkert.enclosed_mass self (Burkert.calc_rvir self) = Rpower 10 (Burkert.mvirial self).
Proof.
  intros Hb. unfold Burkert.enclosed_mass. cbv zeta.
  pose proof (Burkert_I_pos self (Burkert.calc_rvir self) Hb (calc_rvir_pos _ _ _)) as HI.
  field. lra.
Qed.

Lemma DekelZhao_mass_at_rvir (self : DekelZhao.t) :
  0 < snd (DekelZhao.calc_a_c self) ->
  DekelZhao.enclosed_mass self (DekelZhao.calc_rvir self)
  = Rpower 10 (DekelZhao.mvirial self).
Proof.
  destruct (DekelZhao.calc_a_c self) as [a c] eqn:Hac. cbn [snd]. intros Hc.
  assert (Hrv : 0 < DekelZhao.calc_rvir self) by apply calc_rvir_pos.
  rewrite (DZ_enclosed_mass_form self a c _ Hac Hc Hrv).
  replace (DekelZhao.calc_rvir self / (DekelZhao.calc_rvir self / c)) with c
    by (field; lra).
  replace ((3 - a) * DZ_log c) with (- ((a - 3) * DZ_log c)) by ring.
  rewrite exp_Ropp. field. apply Rgt_not_eq. apply exp_pos.
Qed.

Lemma TwoPowerHalo_mass_at_rvir (sp : special) (self : TwoPowerHalo.t) :
  0 < TwoPowerHalo.conc self ->
  hyp2f1 sp (3 - TwoPowerHalo.alpha self) (TwoPowerHalo.beta self - TwoPowerHalo.alpha self)
    (4 - TwoPowerHalo.alpha self) (- TwoPowerHalo.conc self) <> 0 ->
  TwoPowerHalo.enclosed_mass sp self (TwoPowerHalo.calc_rvir self)
  = Rpower 10 (TwoPowerHalo.mvirial self).
Proof.
  intros Hc HF. unfold TwoPowerHalo.enclosed_mass. cbv zeta.
  assert (Hrv : 0 < TwoPowerHalo.calc_rvir self) by apply calc_rvir_pos.
  replace (TwoPowerHalo.calc_rvir self / TwoPowerHalo.calc_rvir self) with 1
    by (field; lra).
  rewrite power_Rpower by lra. rewrite Rpower_1_l.
  replace (- TwoPowerHalo.calc_rvir self
           / (TwoPowerHalo.calc_rvir self / TwoPowerHalo.conc self))
    with (- TwoPowerHalo.conc self) by (field; lra).
  field. exact HF.
Qed.

Lemma Einasto_mass_at_rvir (sp : special) (self : Einasto.t) :
  Einasto_valid sp self ->
  Einasto.enclosed_mass sp self (Einasto.calc_rvir self)
  = Rpower 10 (Einasto.mvirial self).
Proof.
  intros (Hn & Hc & Hg & Hp & _ & _).
  unfold Einasto.enclosed_mass, Einasto.calc_rho0. cbv zeta.
  assert (Hrv : 0 < Einasto.calc_rvir self) by apply calc_rvir_pos.
  replace (Einasto.calc_rvir self / (Einasto.calc_rvir self / Einasto.conc self))
    with (Einasto.conc self) by (field; lra).
  set (P := gammainc sp _ _) in *. set (G := gamma sp _) in *.
  assert (Hh : 0 < Einasto.calc_rvir self / Einasto.conc self
                   / power (2 * Einasto.nEinasto self) (Einasto.nEinasto self)).
  { apply Rdiv_lt_0_compat; [apply Rdiv_lt_0_compat; assumption|].
    rewrite power_Rpower by lra. unfold Rpower. apply exp_pos. }
  set (h := Einasto.calc_rvir self / Einasto.conc self / _) in *.
  assert (Hh3 : 0 < power h 3).
  { rewrite power_Rpower by lra. unfold Rpower. apply exp_pos. }
  pose proof PI_RGT_0 as Hpi.
  field. repeat split; lra.
Qed.

(** X2: every halo profile is normalised to its virial mass: the mass
    enclosed by the virial radius [calc_rvir()] is [10^mvirial], for an NFW
    halo ([conc > 0]), a Burkert halo ([rB > 0]), a Dekel-Zhao halo
    ([c > 0]), a two-power halo ([conc > 0], a non-zero hypergeometric
    normalisation) and an Einasto halo (under [Einasto_valid]). *)
Theorem enclosed_mass_at_virial_radius (sp : special) (nfw : NFW.t) (bur : Burkert.t)
    (dz : DekelZhao.t) (tph : TwoPowerHalo.t) (ein : Einasto.t)
    (Hnfw : 0 < NFW.conc nfw) (Hbur : 0 < Burkert.rB bur)
    (Hdz : 0 < snd (DekelZhao.calc_a_c dz))
    (Htph : 0 < TwoPowerHalo.conc tph /\
            hyp2f1 sp (3 - TwoPowerHalo.alpha tph)
              (TwoPowerHalo.beta tph - TwoPowerHalo.alpha tph)
              (4 - TwoPowerHalo.alpha tph) (- TwoPowerHalo.conc tph) <> 0)
    (Hein : Einasto_valid sp ein) :
  NFW.enclosed_mass nfw (NFW.calc_rvir nfw) = Rpower 10 (NFW.mvirial nfw) /\
  Burkert.enclosed_mass bur (Burkert.calc_rvir bur) = Rpower 10 (Burkert.mvirial bur) /\
  DekelZhao.enclosed_mass dz (DekelZhao.calc_rvir dz) = Rpower 10 (DekelZhao.mvirial dz) /\
  TwoPowerHalo.enclosed_mass sp tph (TwoPowerHalo.calc_rvir tph)
  = Rpower 10 (TwoPowerHalo.mvirial tph) /\
  Einasto.enclosed_mass sp ein (Einasto.calc_rvir ein) = Rpower 10 (Einasto.mvirial ein).
Proof.
  split; [apply NFW_mass_at_rvir; exact Hnfw|].
  split; [apply Burkert_mass_at_rvir; exact Hbur|].
  split; [apply DekelZhao_mass_at_rvir; exact Hdz|].
  split; [apply TwoPowerHalo_mass_at_rvir; tauto|].
  apply Einasto_mass_at_rvir; exact Hein.
Qed.

Lemma enclosed_mass_at_virial_radius_witness :
  NFW.enclosed_mass example_nfw (NFW.calc_rvir example_nfw) = 10 ^ 12.
Proof.
  rewrite <- Rpower_10_12.
  apply (enclosed_mass_at_virial_radius special_at_one example_nfw example_burkert
           example_dekel_zhao example_two_power example_einasto).
  - cbn. lra.
  - cbn. lra.
  - rewrite example_dekel_zhao_a_c. cbn [snd]. lra.
  - split; cbn; lra.
  - apply example_einasto_valid.
Defined.

(** X3: for a profile normalised to the virial mass (every halo class, by
    the previous theorem) and [H(z) > 0], the circular velocity at the
    virial radius is [10 H(z) 1e-3 R_vir], that is [H(z) R_vir / 100] km/s
    with [H] in km/s/Mpc and [R_vir] in kpc. *)
Theorem circular_velocity_at_virial_radius (enclosed_mass : R -> R)
    (mvirial z : R) (cosmo : cosmology)
    (HH : 0 < H cosmo z)
    (HM : enclosed_mass (calc_rvir mvirial z cosmo) = Rpower 10 mvirial) :
  circular_velocity enclosed_mass (calc_rvir mvirial z cosmo)
  = 10 * H cosmo z * 1e-3 * calc_rvir mvirial z cosmo.
Proof.
  pose proof (calc_rvir_pos mvirial z cosmo) as Hrv.
  pose proof (Rpower_10_pos mvirial) as Hm.
  pose proof (circular_velocity_sq enclosed_mass (calc_rvir mvirial z cosmo)
                ltac:(rewrite HM; lra) Hrv) as Hsq.
  pose proof (circular_velocity_nonneg enclosed_mass (calc_rvir mvirial z cosmo)) as Hv.
  destruct (calc_rvir_defining_equation mvirial z cosmo ltac:(lra)) as (_ & Heq & _).
  rewrite HM in Hsq.
  set (v := circular_velocity enclosed_mass (calc_rvir mvirial z cosmo)) in *.
  set (rv := calc_rvir mvirial z cosmo) in *.
  set (w := 10 * H cosmo z * 1e-3 * rv).
  assert (Hw : 0 <= w) by (unfold w; nra).
  assert (Hvw : v * v = w * w).
  { rewrite Hsq. unfold w.
    apply (Rmult_eq_reg_r rv); [|lra].
    replace (g_new_unit * 1e-3 * Rpower 10 mvirial / rv * rv)
      with (Rpower 10 mvirial * (g_new_unit * 1e-3)) by (field; lra).
    rewrite <- Heq. ring. }
  nra.
Qed.

Lemma circular_velocity_at_virial_radius_witness :
  circular_velocity (NFW.enclosed_mass example_nfw) (calc_rvir 12 0 _default_cosmo)
  = 10 * H _default_cosmo 0 * 1e-3 * calc_rvir 12 0 _default_cosmo.
Proof.
  apply (circular_velocity_at_virial_radius (NFW.enclosed_mass example_nfw) 12 0
           _default_cosmo).
  - rewrite H_default_0. lra.
  - apply (NFW_mass_at_rvir example_nfw). cbn. lra.
Defined.

(** *** Dekel-Zhao: which declared parameters give a physical slope *)

Lemma sqrt_001 : sqrt 0.01 = 0.1.
Proof. apply sqrt_of_square; lra. Qed.

(** [a] and [c] in terms of [w = (3.5 - s1) * 0.1 * sqrt c2]. *)
Lemma DZ_a_c_form (self : DekelZhao.t) :
  0 < DekelZhao.c2 self ->
  let w := (3.5 - DekelZhao.s1 self) * 0.1 * sqrt (DekelZhao.c2 self) in
  DekelZhao.calc_a_c self
  = ((1.5 * DekelZhao.s1 self - 2 * w) / (1.5 - w),
     ((DekelZhao.s1 self - 2) / ((w - 1.5) / sqrt (DekelZhao.c2 self))) ^ 2).
Proof.
  intros Hc2 w. unfold DekelZhao.calc_a_c. cbv zeta. rewrite sqrt_001.
  assert (Hs : 0 < sqrt (DekelZhao.c2 self)) by (apply sqrt_lt_R0; exact Hc2).
  f_equal.
  - unfold w. f_equal; ring.
  - f_equal. f_equal. unfold w.
    set (q := sqrt (DekelZhao.c2 self)) in *.
    replace 0.1 with (/ 10) by lra. replace 1.5 with (3 / 2) by lra.
    replace 3.5 with (7 / 2) by lra. field. lra.
Qed.

(** X4: for a Dekel-Zhao halo with [0 <= s1 < 2] and [c2 > 0]: if
    [(3.5 - s1) sqrt(c2) < 15] then [calc_a_c] gives [a <= s1 < 3] and
    [c > 0], the enclosed mass does not decrease on [r > 0] and is 0 at
    [r = 0]; if [15 < (3.5 - s1) sqrt(c2) < 45 - 15 s1] (which the declared
    bounds of [s1] and [c2] allow) then [a > 3] and the enclosed mass
    strictly decreases on [r > 0]. *)
Theorem DekelZhao_physical_slope (self : DekelZhao.t)
    (Hs1 : 0 <= DekelZhao.s1 self < 2) (Hc2 : 0 < DekelZhao.c2 self) :
  ((3.5 - DekelZhao.s1 self) * sqrt (DekelZhao.c2 self) < 15 ->
   fst (DekelZhao.calc_a_c self) <= DekelZhao.s1 self /\
   0 < snd (DekelZhao.calc_a_c self) /\
   (forall r1 r2, 0 < r1 -> r1 <= r2 ->
      DekelZhao.enclosed_mass self r1 <= DekelZhao.enclosed_mass self r2) /\
   DekelZhao.enclosed_mass_fl self 0 = Fin 0) /\
  (15 < (3.5 - DekelZhao.s1 self) * sqrt (DekelZhao.c2 self) < 45 - 15 * DekelZhao.s1 self ->
   3 < fst (DekelZhao.calc_a_c self) /\
   0 < snd (DekelZhao.calc_a_c self) /\
   (forall r1 r2, 0 < r1 -> r1 < r2 ->
      DekelZhao.enclosed_mass self r2 < DekelZhao.enclosed_mass self r1)).
Proof.
  pose proof (DZ_a_c_form self Hc2) as Hform. cbv zeta in Hform.
  assert (Hq : 0 < sqrt (DekelZhao.c2 self)) by (apply sqrt_lt_R0; exact Hc2).
  set (s := DekelZhao.s1 self) in *. set (q := sqrt (DekelZhao.c2 self)) in *.
  set (w := (3.5 - s) * 0.1 * q) in *.
  assert (Hpos : w <> 1.5 -> 0 < ((s - 2) / ((w - 1.5) / q)) ^ 2).
  { intros Hw. assert (Hb : (s - 2) / ((w - 1.5) / q) <> 0).
    { unfold Rdiv. apply Rmult_integral_contrapositive_currified; [lra|].
      apply Rinv_neq_0_compat. apply Rmult_integral_contrapositive_currified; [lra|].
      apply Rinv_neq_0_compat. lra. }
    nra. }
  split.
  - intros Hu. assert (Hw : w < 1.5) by (unfold w; lra).
    assert (Ha : (1.5 * s - 2 * w) / (1.5 - w) <= s).
    { apply (Rmult_le_reg_r (1.5 - w)); [lra|].
      replace ((1.5 * s - 2 * w) / (1.5 - w) * (1.5 - w)) with (1.5 * s - 2 * w)
        by (field; lra).
      assert (0 <= w) by (unfold w; nra). nra. }
    assert (Hc : 0 < snd (DekelZhao.calc_a_c self)).
    { rewrite Hform. cbn [snd]. apply Hpos. lra. }
    assert (Ha3 : fst (DekelZhao.calc_a_c self) < 3).
    { rewrite Hform. cbn [fst]. lra. }
    split; [rewrite Hform; exact Ha|]. split; [exact Hc|]. split.
    + intros r1 r2 H1 H12. apply DZ_enclosed_mass_mono; assumption.
    + apply DZ_enclosed_mass_fl_0; assumption.
  - intros [Hu1 Hu2]. assert (Hw : 1.5 < w < 4.5 - 1.5 * s) by (unfold w; lra).
    assert (Ha : 3 < (1.5 * s - 2 * w) / (1.5 - w)).
    { replace ((1.5 * s - 2 * w) / (1.5 - w)) with ((2 * w - 1.5 * s) / (w - 1.5))
        by (field; lra).
      apply (Rmult_lt_reg_r (w - 1.5)); [lra|].
      replace ((2 * w - 1.5 * s) / (w - 1.5) * (w - 1.5)) with (2 * w - 1.5 * s)
        by (field; lra).
      lra. }
    assert (Hc : 0 < snd (DekelZhao.calc_a_c self)).
    { rewrite Hform. cbn [snd]. apply Hpos. lra. }
    split; [rewrite Hform; exact Ha|]. split; [exact Hc|].
    intros r1 r2 H1 H12. apply DZ_enclosed_mass_decreasing; try assumption.
    rewrite Hform. exact Ha.
Qed.

Lemma DekelZhao_physical_slope_witness :
  DekelZhao.enclosed_mass_fl example_dekel_zhao 0 = Fin 0 /\
  3 < fst (DekelZhao.calc_a_c steep_halo).
Proof.
  split.
  - apply (proj1 (DekelZhao_physical_slope example_dekel_zhao
                    ltac:(cbn; lra) ltac:(cbn; lra))).
    cbn [DekelZhao.s1 DekelZhao.c2 example_dekel_zhao].
    rewrite (sqrt_of_square 25 5) by lra. lra.
  - apply (proj2 (DekelZhao_physical_slope steep_halo ltac:(cbn; lra) ltac:(cbn; lra))).
    cbn [DekelZhao.s1 DekelZhao.c2 steep_halo].
    rewrite (sqrt_of_square 36 6) by lra. lra.
Defined.


(** *** The enclosed mass is the integral of the density *)

Lemma derivable_pt_lim_shift (a r : R) : derivable_pt_lim (fun s : R => a + s) r 1.
Proof.
  apply (derivable_pt_lim_eq _ _ (0 + 1)); [ring|].
  apply (derivable_pt_lim_plus (fun _ : R => a) (fun s : R => s)).
  - apply (derivable_pt_lim_const a).
  - apply derivable_pt_lim_id.
Qed.

Lemma nfw_term_derivable (rs r : R) :
  0 < rs -> 0 <= r ->
  derivable_pt_lim (nfw_term rs) r (r / (rs + r) ^ 2).
Proof.
  intros Hrs Hr.
  apply (derivable_pt_lim_ext
           (minus_fct (comp ln (fun s : R => (rs + s) / rs))
                      (div_fct (fun s : R => s) (fun s : R => rs + s)))).
  { intros s. reflexivity. }
  apply (derivable_pt_lim_eq _ _
           (/ ((rs + r) / rs) * (1 / rs) - (1 * (rs + r) - 1 * r) / Rsqr (rs + r))).
  { unfold Rsqr. field. lra. }
  apply derivable_pt_lim_minus.
  - apply (derivable_pt_lim_comp (fun s : R => (rs + s) / rs) ln).
    + apply (derivable_pt_lim_div_scal (fun s : R => rs + s) r 1 rs).
      apply derivable_pt_lim_shift.
    + apply derivable_pt_lim_ln. apply Rdiv_lt_0_compat; lra.
  - apply (derivable_pt_lim_div (fun s : R => s) (fun s : R => rs + s) r 1 1).
    + apply derivable_pt_lim_id.
    + apply derivable_pt_lim_shift.
    + lra.
Qed.

Lemma nfw_term_pos (rs r : R) : 0 < rs -> 0 < r -> 0 < nfw_term rs r.
Proof.
  intros Hrs Hr. rewrite nfw_term_scale by lra. unfold nfw_term.
  assert (Hx : 0 < r / rs) by (apply Rdiv_lt_0_compat; assumption).
  replace ((1 + r / rs) / 1) with (1 + r / rs) by (field; lra).
  apply nfw_norm_pos. exact Hx.
Qed.

Lemma NFW_mass_derivable (self : NFW.t) (r : R) :
  0 < NFW.conc self -> 0 < r ->
  derivable_pt_lim (NFW.enclosed_mass self) r
    (4 * PI * r ^ 2 * NFW.evaluate self r (NFW.mvirial self) (NFW.conc self) (NFW.fdm self)).
Proof.
  intros Hc Hr.
  assert (Hrv : 0 < NFW.calc_rvir self) by apply calc_rvir_pos.
  set (rs := NFW.calc_rvir self / NFW.conc self).
  assert (Hrs : 0 < rs) by (apply Rdiv_lt_0_compat; assumption).
  set (aa := 4 * PI * NFW.calc_rho0 self * NFW.calc_rvir self ^ 3 / NFW.conc self ^ 3).
  apply (derivable_pt_lim_ext (mult_real_fct aa (comp Rabs (nfw_term rs)))).
  { intros s. reflexivity. }
  eapply derivable_pt_lim_eq;
    [|apply derivable_pt_lim_scal; apply derivable_pt_lim_comp;
      [apply nfw_term_derivable; lra
      |apply Rabs_derive_1; apply nfw_term_pos; assumption]].
  unfold aa, NFW.evaluate. cbv zeta. fold rs.
  set (rho0 := NFW.calc_rho0 self).
  replace (NFW.calc_rvir self) with (rs * NFW.conc self) by (unfold rs; field; lra).
  field. repeat split; lra.
Qed.

Lemma Burkert_mass_derivable (self : Burkert.t) (r : R) :
  0 < Burkert.rB self -> 0 <= r ->
  derivable_pt_lim (Burkert.enclosed_mass self) r
    (4 * PI * r ^ 2
     * Burkert.evaluate self r (Burkert.mvirial self) (Burkert.rB self) (Burkert.fdm self)).
Proof.
  intros Hb Hr.
  pose proof (Burkert_I_pos self (Burkert.calc_rvir self) Hb (calc_rvir_pos _ _ _)) as HI.
  set (aa := Rpower 10 (Burkert.mvirial self) / Burkert.I self (Burkert.calc_rvir self)).
  apply (derivable_pt_lim_ext (mult_real_fct aa (Burkert.I self))).
  { intros s. reflexivity. }
  eapply derivable_pt_lim_eq;
    [|apply derivable_pt_lim_scal; apply Burkert_I_derivable; assumption].
  unfold aa, Burkert.evaluate, Burkert.calc_rho0, Burkert_dI. cbv zeta.
  pose proof PI_RGT_0 as Hpi.
  set (b := Burkert.rB self) in *. set (Iv := Burkert.I self (Burkert.calc_rvir self)) in *.
  field. repeat split; nra.
Qed.

Lemma derivable_pt_lim_local (f g : R -> R) (x l d : R) :
  0 < d -> (forall y, Rabs (y - x) < d -> f y = g y) ->
  derivable_pt_lim f x l -> derivable_pt_lim g x l.
Proof.
  intros Hd Heq Hf eps Heps. destruct (Hf eps Heps) as [delta Hdelta].
  assert (Hm : 0 < Rmin delta d) by (apply Rmin_pos; [apply cond_pos|exact Hd]).
  exists (mkposreal _ Hm). intros h Hh Hlt. cbn [pos] in Hlt.
  rewrite <- !Heq.
  - apply Hdelta; [exact Hh|]. eapply Rlt_le_trans; [exact Hlt|apply Rmin_l].
  - replace (x - x) with 0 by ring. rewrite Rabs_R0. exact Hd.
  - replace (x + h - x) with h by ring. eapply Rlt_le_trans; [exact Hlt|apply Rmin_r].
Qed.

Lemma DZ_log_derivable (x : R) :
  0 < x -> derivable_pt_lim DZ_log x (/ (x * (1 + sqrt x))).
Proof.
  intros Hx. assert (Hs : 0 < sqrt x) by (apply sqrt_lt_R0; exact Hx).
  apply (derivable_pt_lim_ext
           (minus_fct ln (mult_real_fct 2 (comp ln (fun s : R => 1 + sqrt s))))).
  { intros s. reflexivity. }
  apply (derivable_pt_lim_eq _ _ (/ x - 2 * (/ (1 + sqrt x) * (0 + / (2 * sqrt x))))).
  { set (s := sqrt x) in *.
    assert (Hxs : x = s * s) by (unfold s; rewrite sqrt_sqrt; lra).
    rewrite Hxs. field. lra. }
  apply derivable_pt_lim_minus; [apply derivable_pt_lim_ln; exact Hx|].
  apply derivable_pt_lim_scal.
  apply (derivable_pt_lim_comp (fun s : R => 1 + sqrt s) ln).
  - apply (derivable_pt_lim_plus (fun _ : R => 1) sqrt).
    + apply (derivable_pt_lim_const 1).
    + apply derivable_pt_lim_sqrt. exact Hx.
  - apply derivable_pt_lim_ln. lra.
Qed.

Lemma DZ_power_identity (a x : R) :
  0 < x ->
  exp ((3 - a) * DZ_log x)
  = x * x * x * (1 + sqrt x)
    * / (power x a * power (1 + sqrt x) (2 * (3.5 - a))).
Proof.
  intros Hx. pose proof (sqrt_pos x) as Hs.
  rewrite !power_Rpower by lra. unfold Rpower, DZ_log.
  rewrite <- exp_plus, <- exp_Ropp.
  set (L := ln x). set (Ls := ln (1 + sqrt x)).
  assert (HL : x = exp L) by (unfold L; rewrite exp_ln; [reflexivity|exact Hx]).
  assert (HLs : 1 + sqrt x = exp Ls) by (unfold Ls; rewrite exp_ln; [reflexivity|lra]).
  rewrite HLs. rewrite HL. rewrite <- !exp_plus. apply f_equal.
  replace 3.5 with (7 / 2) by lra. field.
Qed.

Lemma DZ_mass_derivable (self : DekelZhao.t) (r : R) :
  0 < snd (DekelZhao.calc_a_c self) -> 0 < r ->
  derivable_pt_lim (DekelZhao.enclosed_mass self) r
    (4 * PI * r ^ 2
     * DekelZhao.evaluate self r (DekelZhao.mvirial self) (DekelZhao.s1 self)
         (DekelZhao.c2 self) (DekelZhao.fdm self)).
Proof.
  destruct (DekelZhao.calc_a_c self) as [a c] eqn:Hac. cbn [snd]. intros Hc Hr.
  assert (Hrv : 0 < DekelZhao.calc_rvir self) by apply calc_rvir_pos.
  set (rc := DekelZhao.calc_rvir self / c).
  assert (Hrc : 0 < rc) by (apply Rdiv_lt_0_compat; assumption).
  set (K := exp ((a - 3) * DZ_log c) * Rpower 10 (DekelZhao.mvirial self)).
  apply (derivable_pt_lim_local
           (mult_real_fct K (comp exp (mult_real_fct (3 - a)
                                         (comp DZ_log (fun s : R => s / rc)))))
           _ r _ r Hr).
  { intros y Hy. assert (0 < y).
    { destruct (Rabs_def2 _ _ Hy) as [_ H2]. lra. }
    symmetry. apply (DZ_enclosed_mass_form self a c y Hac Hc). assumption. }
  assert (Hx : 0 < r / rc) by (apply Rdiv_lt_0_compat; assumption).
  eapply derivable_pt_lim_eq;
    [|apply derivable_pt_lim_scal; apply derivable_pt_lim_comp;
      [apply derivable_pt_lim_scal; apply (derivable_pt_lim_comp (fun s : R => s / rc) DZ_log);
       [apply (derivable_pt_lim_div_scal (fun s : R => s) r 1 rc); apply derivable_pt_lim_id
       |apply DZ_log_derivable; exact Hx]
      |apply derivable_pt_lim_exp]].
  unfold mult_real_fct, comp.
  rewrite (DZ_power_identity a (r / rc) Hx).
  unfold DekelZhao.evaluate, DekelZhao.calc_rho0, DekelZhao.calc_rhovirbar,
    DekelZhao.calc_mu. rewrite Hac. cbv zeta. fold rc.
  rewrite (DZ_denominator a c Hc).
  unfold K.
  set (E := exp ((a - 3) * DZ_log c)). set (mv := Rpower 10 (DekelZhao.mvirial self)).
  pose proof (sqrt_pos (r / rc)) as Hs.
  set (x := r / rc) in *. set (s := sqrt x) in *.
  assert (Hden : 0 < power x a * power (1 + s) (2 * (3.5 - a))).
  { rewrite !power_Rpower by lra. apply Rmult_lt_0_compat; unfold Rpower; apply exp_pos. }
  set (Dn := power x a * power (1 + s) (2 * (3.5 - a))) in *.
  replace r with (x * rc) by (unfold x; field; lra).
  replace (DekelZhao.calc_rvir self) with (rc * c) by (unfold rc; field; lra).
  pose proof PI_RGT_0 as Hpi.
  unfold x at 1. fold x.
  field. repeat split; lra.
Qed.

(** X5: the enclosed mass of the NFW halo ([conc > 0], at [r > 0]), of the
    Burkert halo ([rB > 0], at [r >= 0]) and of the Dekel-Zhao halo
    (concentration [c > 0], at [r > 0]) is differentiable in [r], with
    derivative [4 pi r^2 rho(r)], where [rho] is the density [evaluate]
    returns for the halo's own parameter values: the mass profile is the
    integral of the density profile. *)
Theorem mass_derivative_is_shell_density (nfw : NFW.t) (bur : Burkert.t)
    (dz : DekelZhao.t)
    (Hnfw : 0 < NFW.conc nfw) (Hbur : 0 < Burkert.rB bur)
    (Hdz : 0 < snd (DekelZhao.calc_a_c dz)) :
  (forall r, 0 < r ->
     derivable_pt_lim (NFW.enclosed_mass nfw) r
       (4 * PI * r ^ 2
        * NFW.evaluate nfw r (NFW.mvirial nfw) (NFW.conc nfw) (NFW.fdm nfw))) /\
  (forall r, 0 <= r ->
     derivable_pt_lim (Burkert.enclosed_mass bur) r
       (4 * PI * r ^ 2
        * Burkert.evaluate bur r (Burkert.mvirial bur) (Burkert.rB bur) (Burkert.fdm bur))) /\
  (forall r, 0 < r ->
     derivable_pt_lim (DekelZhao.enclosed_mass dz) r
       (4 * PI * r ^ 2
        * DekelZhao.evaluate dz r (DekelZhao.mvirial dz) (DekelZhao.s1 dz)
            (DekelZhao.c2 dz) (DekelZhao.fdm dz))).
Proof.
  split; [|split].
  - intros r Hr. apply NFW_mass_derivable; assumption.
  - intros r Hr. apply Burkert_mass_derivable; assumption.
  - intros r Hr. apply DZ_mass_derivable; assumption.
Qed.

Lemma mass_derivative_is_shell_density_witness :
  derivable_pt_lim (NFW.enclosed_mass example_nfw) 1
    (4 * PI * 1 ^ 2 * NFW.evaluate example_nfw 1 12 5 (Fin (-99.9))).
Proof.
  apply (proj1 (mass_derivative_is_shell_density example_nfw example_burkert
                  example_dekel_zhao ltac:(cbn; lra) ltac:(cbn; lra)
                  ltac:(rewrite example_dekel_zhao_a_c; cbn [snd]; lra)) 1).
  lra.
Defined.


(** *** The effective radius of the Sersic profile *)

Lemma power_1_l (y : R) : power 1 y = 1.
Proof. rewrite power_Rpower by lra. apply Rpower_1_l. Qed.

(** X6: with scipy's [gammaincinv] the inverse of [gammainc] at one half,
    the Sersic profile encloses exactly half of its total mass within
    [r_eff]; for a valid profile it encloses at most half within any smaller
    radius and at least half within any larger one. *)
Theorem Sersic_half_mass_radius (sp : special) (self : Sersic.t)
    (Hvalid : Sersic_valid sp self)
    (Hinv : gammainc sp (2 * Sersic.n self) (gammaincinv sp (2 * Sersic.n self) 0.5) = 0.5) :
  Sersic.enclosed_mass sp self (Sersic.r_eff self) = 0.5 * Rpower 10 (Sersic.total_mass self) /\
  (forall r, 0 <= r -> r <= Sersic.r_eff self ->
     Sersic.enclosed_mass sp self r <= 0.5 * Rpower 10 (Sersic.total_mass self)) /\
  (forall r, Sersic.r_eff self <= r ->
     0.5 * Rpower 10 (Sersic.total_mass self) <= Sersic.enclosed_mass sp self r).
Proof.
  assert (Hhalf : Sersic.enclosed_mass sp self (Sersic.r_eff self)
                  = 0.5 * Rpower 10 (Sersic.total_mass self)).
  { destruct Hvalid as (Hn & Hre & _). unfold Sersic.enclosed_mass. cbv zeta.
    replace (Sersic.r_eff self / Sersic.r_eff self) with 1 by (field; lra).
    rewrite power_1_l, Rmult_1_r, Hinv. ring. }
  split; [exact Hhalf|]. split.
  - intros r H0 Hr. rewrite <- Hhalf. apply Sersic_enclosed_mass_mono; assumption.
  - intros r Hr. rewrite <- Hhalf. destruct Hvalid as (Hn & Hre & Hrest).
    apply Sersic_enclosed_mass_mono; [repeat split; tauto|lra|exact Hr].
Qed.

Lemma Sersic_half_mass_radius_witness :
  Sersic.enclosed_mass special_at_one example_sersic 3 = 0.5 * Rpower 10 10.
Proof.
  apply (proj1 (Sersic_half_mass_radius special_at_one example_sersic example_sersic_valid
                  ltac:(cbn; rewrite exp_Ropp, exp_ln; lra))).
Defined.

(** *** The Einasto inversions never give a number *)

Lemma nEinasto_only_NaN (core : solver) (halo : trial_halo) (bounds : R * R) (fdm : fl)
    (baryons : R -> result fl) (r_fdm : R) (v : fl) :
  calc_nEinasto_from_fdm core halo bounds fdm baryons r_fdm = Ok v ->
  v = NaN /\ out_of_bounds bounds fdm = true.
Proof.
  unfold calc_nEinasto_from_fdm. destruct (out_of_bounds bounds fdm).
  - intros H. injection H as <-. split; reflexivity.
  - destruct (baryons r_fdm) as [vbar|e]; cbn [bind]; [|discriminate].
    destruct (list_comp _ _) as [vtest|e]; cbn [bind]; [|discriminate].
    destruct (bracket_alpha _ vtest) as [ab|e]; cbn [bind]; [|discriminate].
    destruct (brentq _ _ _ _) as [alpha|e]; cbn [bind]; discriminate.
Qed.

Lemma Einasto_trial_raises (sp : special) (mass conc alphaEinasto z nEinasto r : R) :
  Einasto.trial sp mass conc alphaEinasto z nEinasto r = Raise Einasto.both_set.
Proof. reflexivity. Qed.

Lemma nEinasto_in_bounds_raises (core : solver) (sp : special) (mass conc alphaEinasto z : R)
    (bounds : R * R) (fdm : fl) (baryons : R -> result fl) (r_fdm : R) (vbar : fl) :
  out_of_bounds bounds fdm = false -> baryons r_fdm = Ok vbar ->
  calc_nEinasto_from_fdm core (Einasto.trial sp mass conc alphaEinasto z) bounds fdm
    baryons r_fdm = Raise Einasto.both_set.
Proof.
  intros Hb Hbar. unfold calc_nEinasto_from_fdm. rewrite Hb, Hbar. cbn [bind].
  unfold arange. reflexivity.
Qed.

(** X7: the Einasto inversions never give a number.  Whatever the baryons,
    the halo helper and the root finder are, [calc_nEinasto_from_fdm]
    returns only when [fdm] is out of bounds, and then NaN (past the root
    finder the name it returns is unbound), so [calc_alphaEinasto_from_fdm]
    returns nothing but NaN.  With the class's own helper, which builds an
    [Einasto] from both [nEinasto] and [alphaEinasto] without naming the fit
    variable, both raise the constructor's ValueError as soon as [fdm] is in
    bounds and the baryons give a velocity. *)
Theorem Einasto_inversion_never_succeeds (core : solver) (bounds : R * R) (fdm : fl)
    (baryons : R -> result fl) (r_fdm : R) :
  (forall halo v,
     calc_nEinasto_from_fdm core halo bounds fdm baryons r_fdm = Ok v ->
     v = NaN /\ out_of_bounds bounds fdm = true) /\
  (forall halo v,
     calc_alphaEinasto_from_fdm core halo bounds fdm baryons r_fdm = Ok v -> v = NaN) /\
  (forall sp mass conc alphaEinasto z vbar,
     out_of_bounds bounds fdm = false -> baryons r_fdm = Ok vbar ->
     calc_nEinasto_from_fdm core (Einasto.trial sp mass conc alphaEinasto z) bounds fdm
       baryons r_fdm = Raise Einasto.both_set /\
     calc_alphaEinasto_from_fdm core (Einasto.trial sp mass conc alphaEinasto z) bounds fdm
       baryons r_fdm = Raise Einasto.both_set).
Proof.
  split; [|split].
  - intros halo v. apply nEinasto_only_NaN.
  - intros halo v. unfold calc_alphaEinasto_from_fdm.
    destruct (calc_nEinasto_from_fdm core halo bounds fdm baryons r_fdm) as [n|e] eqn:Hn;
      cbn [bind]; [|discriminate].
    destruct (nEinasto_only_NaN _ _ _ _ _ _ _ Hn) as [-> _]. cbn [isfinite].
    intros H. injection H as <-. reflexivity.
  - intros sp mass conc alphaEinasto z vbar Hb Hbar.
    pose proof (nEinasto_in_bounds_raises core sp mass conc alphaEinasto z bounds fdm
                  baryons r_fdm vbar Hb Hbar) as Hn.
    split; [exact Hn|]. unfold calc_alphaEinasto_from_fdm. rewrite Hn. reflexivity.
Qed.


(** *** LinearNFW: the virial radius of another mass *)

Lemma ln_10_gt_1 : 1 < ln 10.
Proof.
  pose proof exp_le_3 as H3.
  assert (H : ln (exp 1) < ln 10) by (apply ln_increasing; [apply exp_pos|lra]).
  rewrite ln_exp in H. exact H.
Qed.

Lemma lt_Rpower_10 (x : R) : x < Rpower 10 x.
Proof.
  unfold Rpower. destruct (Rle_lt_dec x 0) as [Hx|Hx].
  - pose proof (exp_pos (x * ln 10)). lra.
  - pose proof ln_10_gt_1 as Hl.
    assert (Hy : x * ln 10 <> 0) by nra.
    pose proof (exp_ineq1 (x * ln 10) Hy). nra.
Qed.

Lemma LinearNFW_mass_at_rvir (self : LinearNFW.t) :
  0 < LinearNFW.conc self ->
  LinearNFW.enclosed_mass self (LinearNFW.calc_rvir self) = LinearNFW.mvirial self.
Proof.
  intros Hc. unfold LinearNFW.enclosed_mass, LinearNFW.calc_rho0. cbv zeta.
  assert (Hrv : 0 < LinearNFW.calc_rvir self) by apply calc_rvir_pos.
  set (rv := LinearNFW.calc_rvir self) in *. set (c := LinearNFW.conc self) in *.
  replace ((rv / c + rv) / (rv / c)) with (1 + c) by (field; split; lra).
  replace (rv / (rv / c + rv)) with (c / (1 + c)) by (field; split; [|split]; nra).
  pose proof (nfw_norm_pos c Hc) as HD.
  set (D := ln (1 + c) - c / (1 + c)) in *.
  rewrite Rabs_pos_eq by lra.
  pose proof PI_RGT_0 as Hpi.
  field. repeat split; lra.
Qed.

(** X17: [LinearNFW] takes [mvirial] in linear units but inherits
    [calc_rvir], which reads it as a logarithm.  For a positive
    concentration (and [mvirial] below the exponent at which [10 ** mvirial]
    overflows) the mass enclosed within [calc_rvir()] is [mvirial], while
    [calc_rvir()] is the virial radius of the larger mass [10 ** mvirial]:
    the mass enclosed within it is less than the virial relation
    [rvir^3 (10 H(z))^2 / G] gives. *)
Theorem LinearNFW_virial_radius_of_another_mass (self : LinearNFW.t)
    (Hc : 0 < LinearNFW.conc self) (Hm : LinearNFW.mvirial self < 308)
    (HH : H (LinearNFW.cosmo self) (LinearNFW.z self) <> 0) :
  LinearNFW.enclosed_mass self (LinearNFW.calc_rvir self) = LinearNFW.mvirial self /\
  LinearNFW.calc_rvir self ^ 3
    * (10 * H (LinearNFW.cosmo self) (LinearNFW.z self) * 1e-3) ^ 2
  = Rpower 10 (LinearNFW.mvirial self) * (g_new_unit * 1e-3) /\
  LinearNFW.enclosed_mass self (LinearNFW.calc_rvir self) * (g_new_unit * 1e-3)
  < LinearNFW.calc_rvir self ^ 3
    * (10 * H (LinearNFW.cosmo self) (LinearNFW.z self) * 1e-3) ^ 2.
Proof.
  assert (Hcube : LinearNFW.calc_rvir self ^ 3
                  * (10 * H (LinearNFW.cosmo self) (LinearNFW.z self) * 1e-3) ^ 2
                  = Rpower 10 (LinearNFW.mvirial self) * (g_new_unit * 1e-3)).
  { unfold LinearNFW.calc_rvir, calc_rvir. cbv zeta.
    fold (rvir_cube (LinearNFW.mvirial self) (LinearNFW.z self) (LinearNFW.cosmo self)).
    rewrite cube_root_pow3 by (apply rvir_cube_pos; exact HH).
    unfold rvir_cube. field. exact HH. }
  split; [apply LinearNFW_mass_at_rvir; exact Hc|].
  split; [exact Hcube|].
  rewrite Hcube, (LinearNFW_mass_at_rvir self Hc).
  pose proof g_new_unit_bounds as [Hg _].
  pose proof (lt_Rpower_10 (LinearNFW.mvirial self)). nra.
Qed.

Definition example_linear_nfw : LinearNFW.t :=
  LinearNFW.mk 10 5 (Fin (-99.9)) 0 _default_cosmo.

Lemma LinearNFW_virial_radius_of_another_mass_witness :
  LinearNFW.enclosed_mass example_linear_nfw (LinearNFW.calc_rvir example_linear_nfw) = 10.
Proof.
  apply (proj1 (LinearNFW_virial_radius_of_another_mass example_linear_nfw
                  ltac:(cbn; lra) ltac:(cbn; lra)
                  ltac:(cbn [LinearNFW.cosmo LinearNFW.z example_linear_nfw];
                        rewrite H_default_0; lra))).
Defined.


(** *** The circular velocity, with its edge cases *)

Lemma GM_cgs_pos : 0 < G_cgs * Msun_cgs.
Proof. unfold G_cgs, Msun_cgs, M_sun_si, G_si, GM_sun. nra. Qed.

(** X18: [circular_velocity] on a finite enclosed mass [M] at radius [r],
    as numpy evaluates it.  For [r > 0] and [M >= 0] the result is the
    non-negative number [v] with [v^2 = G M / r] ([G] in pc/Msun (km/s)^2,
    [r] in kpc), and for [M < 0] it is NaN.  At [r = 0] it is never a
    number: NaN for [M <= 0], plus infinity for [M > 0]. *)
Theorem circular_velocity_law (enclosed_mass : R -> fl) (r M : R)
    (HM : enclosed_mass r = Fin M) :
  (0 < r -> 0 <= M ->
   exists v, circular_velocity_fl enclosed_mass r = Fin v /\
             0 <= v /\ v * v = g_new_unit * 1e-3 * M / r) /\
  (0 < r -> M < 0 -> circular_velocity_fl enclosed_mass r = NaN) /\
  (r = 0 -> M <= 0 -> circular_velocity_fl enclosed_mass r = NaN) /\
  (r = 0 -> 0 < M -> circular_velocity_fl enclosed_mass r = PInf).
Proof.
  pose proof GM_cgs_pos as HG.
  split; [|split; [|split]].
  - intros Hr HM0. exists (circular_velocity (fun _ => M) r).
    split; [apply circular_velocity_fl_fin; assumption|].
    split; [apply circular_velocity_nonneg|].
    apply (circular_velocity_sq (fun _ => M) r); assumption.
  - intros Hr HM0. unfold circular_velocity_fl. cbv zeta. rewrite HM.
    cbn [Float.mul].
    assert (Hpc : 0 < r * 1000 * pc_cgs) by (unfold pc_cgs, pc_si; nra).
    rewrite div_fin by lra. unfold np_sqrt. rewrite Rltb_true; [reflexivity|].
    assert (Hn : G_cgs * M * Msun_cgs < 0) by nra.
    set (P := r * 1000 * pc_cgs) in *. set (X := G_cgs * M * Msun_cgs) in *.
    apply (Rmult_lt_reg_r P); [exact Hpc|].
    replace (X / P * P) with X by (field; lra).
    lra.
  - intros -> HM0. unfold circular_velocity_fl. cbv zeta. rewrite HM.
    cbn [Float.mul Float.div].
    rewrite Reqb_true by ring. unfold inf_of_sign.
    rewrite Rltb_false by nra.
    destruct (Rltb (G_cgs * M * Msun_cgs) 0); reflexivity.
  - intros -> HM0. unfold circular_velocity_fl. cbv zeta. rewrite HM.
    cbn [Float.mul Float.div].
    rewrite Reqb_true by ring. unfold inf_of_sign.
    rewrite Rltb_true by nra. cbn [np_sqrt Float.div].
    rewrite Rltb_false by lra. reflexivity.
Qed.

Lemma circular_velocity_law_witness :
  circular_velocity_fl (fun r => Fin (NFW.enclosed_mass example_nfw r)) 0 = NaN.
Proof.
  apply (proj1 (proj2 (proj2
           (circular_velocity_law (fun r => Fin (NFW.enclosed_mass example_nfw r)) 0
              (NFW.enclosed_mass example_nfw 0) eq_refl)))).
  - reflexivity.
  - rewrite NFW_enclosed_mass_0 by (cbn; lra). lra.
Defined.

End Halos.

(** ** The NFW class of src/dysmalpy/models.py *)

Module Models.

Import Float.
Import Halos.
Open Scope R_scope.

Module NFW.

Record t : Type := mk {
  mvirial : R;
  rvirial : R;
  conc : R;
  z : R
}.

(** [NFW.evaluate] (a static method) *)
Definition evaluate (r mvirial rvirial conc : R) : R :=
  let rho0 := Rpower 10 mvirial / (4 * PI * rvirial ^ 3) * conc ^ 3
              / (ln (1 + conc) - conc / (1 + conc)) in
  2 * PI * rho0 * rvirial / conc / (1 + conc * r / rvirial) ^ 2.

Definition calc_rho0 (self : t) : R :=
  let aa := Rpower 10 (mvirial self) / (4 * PI * rvirial self ^ 3) in
  let bb := conc self ^ 3 / (ln (1 + conc self) - conc self / (1 + conc self)) in
  aa * bb.

Definition enclosed_mass (self : t) (r : R) : R :=
  let rho0 := calc_rho0 self in
  let rs := rvirial self / conc self in
  let aa := 4 * PI * rho0 * rvirial self ^ 3 / conc self ^ 3 in
  let bb := ln ((rs + r) / rs) - r / (rs + r) in
  aa * bb.

End NFW.

Lemma models_NFW_form (self : NFW.t) (r : R) :
  0 < NFW.conc self -> 0 < NFW.rvirial self ->
  NFW.enclosed_mass self r
  = Rpower 10 (NFW.mvirial self)
    * (1 / (ln (1 + NFW.conc self) - NFW.conc self / (1 + NFW.conc self)))
    * nfw_term (NFW.rvirial self / NFW.conc self) r.
Proof.
  intros Hc Hrv. unfold NFW.enclosed_mass, NFW.calc_rho0. cbv zeta.
  fold (nfw_term (NFW.rvirial self / NFW.conc self) r).
  pose proof (nfw_norm_pos _ Hc) as HD.
  set (D := ln (1 + NFW.conc self) - NFW.conc self / (1 + NFW.conc self)) in *.
  pose proof PI_RGT_0 as Hpi.
  field. repeat split; lra.
Qed.

(** X19: the [NFW] class of models.py, with [conc > 0] and
    [rvirial > 0].  It encloses [10 ** mvirial] within [rvirial]; at every
    [r >= 0] it gives the enclosed mass of the [NFW] halo of halos.py that
    has the same mass and concentration and whose [calc_rvir()] is
    [rvirial]; and its enclosed mass is differentiable in [r] with
    derivative [2 r evaluate(r)]. *)
Theorem models_NFW_agrees_with_halos (self : NFW.t)
    (Hc : 0 < NFW.conc self) (Hrv : 0 < NFW.rvirial self) :
  NFW.enclosed_mass self (NFW.rvirial self) = Rpower 10 (NFW.mvirial self) /\
  (forall (halo : Halos.NFW.t) (r : R),
     Halos.NFW.mvirial halo = NFW.mvirial self ->
     Halos.NFW.conc halo = NFW.conc self ->
     Halos.NFW.calc_rvir halo = NFW.rvirial self ->
     0 <= r ->
     Halos.NFW.enclosed_mass halo r = NFW.enclosed_mass self r) /\
  (forall r, 0 <= r ->
     derivable_pt_lim (NFW.enclosed_mass self) r
       (2 * r * NFW.evaluate r (NFW.mvirial self) (NFW.rvirial self) (NFW.conc self))).
Proof.
  assert (Hrs : 0 < NFW.rvirial self / NFW.conc self)
    by (apply Rdiv_lt_0_compat; assumption).
  pose proof (nfw_norm_pos _ Hc) as HD.
  split; [|split].
  - rewrite models_NFW_form by assumption.
    rewrite nfw_term_scale by lra.
    replace (NFW.rvirial self / (NFW.rvirial self / NFW.conc self))
      with (NFW.conc self) by (field; split; lra).
    unfold nfw_term.
    replace ((1 + NFW.conc self) / 1) with (1 + NFW.conc self) by field.
    set (D := ln (1 + NFW.conc self) - NFW.conc self / (1 + NFW.conc self)) in *.
    field. lra.
  - intros halo r Hm Hcc Hr Hr0.
    rewrite NFW_enclosed_mass_form by (rewrite Hcc; exact Hc).
    rewrite models_NFW_form by assumption.
    rewrite Hm, Hcc, Hr.
    rewrite Rabs_pos_eq by (apply nfw_term_nonneg; assumption). reflexivity.
  - intros r Hr0.
    set (K := Rpower 10 (NFW.mvirial self)
              * (1 / (ln (1 + NFW.conc self) - NFW.conc self / (1 + NFW.conc self)))).
    apply (derivable_pt_lim_ext
             (mult_real_fct K (nfw_term (NFW.rvirial self / NFW.conc self)))).
    { intros s. symmetry. apply models_NFW_form; assumption. }
    apply (derivable_pt_lim_eq _ _
             (K * (r / (NFW.rvirial self / NFW.conc self + r) ^ 2))).
    { unfold K, NFW.evaluate. cbv zeta.
      set (D := ln (1 + NFW.conc self) - NFW.conc self / (1 + NFW.conc self)) in *.
      pose proof PI_RGT_0 as Hpi.
      assert (H1 : 0 < NFW.rvirial self + NFW.conc self * r) by nra.
      field. repeat split; try lra; nra. }
    apply derivable_pt_lim_scal. apply nfw_term_derivable; assumption.
Qed.

Definition example_models_nfw : NFW.t := NFW.mk 12 200 5 0.

Lemma models_NFW_agrees_with_halos_witness :
  NFW.enclosed_mass example_models_nfw 200 = Rpower 10 12.
Proof.
  apply (proj1 (models_NFW_agrees_with_halos example_models_nfw ltac:(cbn; lra) ltac:(cbn; lra))).
Defined.

End Models.
